(** * sgsh: the negotiation protocol (negotiate.c) and the value store
      (sgsh-writeval.c), embedded shallowly and checked against the
      specification.

    Conventions of the embedding.
    - C [int], [pid_t], [size_t] and [long long] values are [Z]; the
      arithmetic of the two programs stays far from the type bounds on the
      inputs considered, and signed overflow (undefined in C) is not modelled.
    - A C function whose execution can stop the process ([exit], [err]),
      run into undefined behaviour (a NULL or wild dereference, a failed
      [assert]) or loop is a function into [outcome].
    - The results of system calls ([read], [writev], [malloc], [realloc])
      are inputs of the functions that make them. *)

From Stdlib Require Import ZArith List Lia Bool Ascii String.
From stdpp Require Import base option list gmap.

Local Open Scope Z_scope.

(** ** Outcome of running a piece of C *)

Inductive outcome (A : Type) : Type :=
| Done (a : A)            (* normal completion *)
| Exited (status : Z)     (* exit(status), err(status, ...) *)
| Aborted                 (* a failed assert() *)
| Undefined               (* NULL, wild or uninitialised access; overflow *)
| OutOfFuel.              (* the modelled loop did not finish in the given fuel *)

Arguments Done {A} a.
Arguments Exited {A} status.
Arguments Aborted {A}.
Arguments Undefined {A}.
Arguments OutOfFuel {A}.

#[global] Instance outcome_ret : MRet outcome := @Done.
#[global] Instance outcome_bind : MBind outcome := fun A B f m =>
  match m with
  | Done a => f a
  | Exited s => Exited s
  | Aborted => Aborted
  | Undefined => Undefined
  | OutOfFuel => OutOfFuel
  end.

Definition from_opt {A} (o : option A) : outcome A :=
  match o with Some a => Done a | None => Undefined end.

(* assert(c) *)
Definition assert (c : bool) : outcome unit :=
  if c then Done tt else Aborted.

Lemma bind_Done {A B} (m : outcome A) (f : A -> outcome B) (b : B) :
  m ≫= f = Done b -> exists a, m = Done a /\ f a = Done b.
Proof. destruct m; simpl; intros H; try discriminate. eauto. Qed.

(** * Part I: the negotiator (negotiate.c) *)

Module Negotiate.

Definition OP_SUCCESS : Z := 0.
Definition OP_ERROR : Z := 1.
Definition OP_QUIT : Z := 2.
Definition OP_EXISTS : Z := 3.
Definition OP_CREATE : Z := 4.
Definition OP_NOOP : Z := 5.

Definition STDIN_FILENO : Z := 0.
Definition STDOUT_FILENO : Z := 1.

(** Modelled from the spec: the protocol states of sgsh-negotiate.h, which is
    not among the sources; the spec lists NEGOTIATION, NEGOTIATION_END and
    ERROR as the values of [state_flag]. *)
Inductive prot_state : Type :=
| PROT_STATE_NEGOTIATION
| PROT_STATE_NEGOTIATION_END
| PROT_STATE_ERROR.

#[global] Instance prot_state_eq_dec : EqDecision prot_state.
Proof. solve_decision. Defined.

(* Identifies the node and node's fd that sent the message block. *)
Record dispatcher_node : Type := {
  index : Z;
  fd_direction : Z
}.

(* Models an I/O connection between tools on an sgsh graph. *)
Record sgsh_edge : Type := {
  from : Z;
  to : Z
}.

(* Each tool that participates in an sgsh graph. *)
Record sgsh_node : Type := {
  pid : Z;
  name : string;
  requires_channels : Z;
  provides_channels : Z;
  sgsh_in : Z;
  sgsh_out : Z
}.

(* struct sgsh_negotiation: the fixed-size head of a message block.
   [node_array] and [edge_array] are addresses. *)
Record sgsh_negotiation : Type := {
  version : Z;
  node_array : Z;
  n_nodes : Z;
  edge_array : Z;
  n_edges : Z;
  initiator_pid : Z;
  state_flag : prot_state;
  serial_no : Z;
  origin : dispatcher_node;
  total_size : Z
}.

#[global] Instance dispatcher_node_eq_dec : EqDecision dispatcher_node.
Proof. solve_decision. Defined.
#[global] Instance sgsh_edge_eq_dec : EqDecision sgsh_edge.
Proof. solve_decision. Defined.

(** A compact allocation: the struct followed by the bytes that were
    allocated after it.  A byte that was never written is [None]. *)
Record block : Type := {
  header : sgsh_negotiation;
  payload : list (option Byte.byte)
}.

Definition set_header (h : sgsh_negotiation) (b : block) : block :=
  {| header := h; payload := payload b |}.
Definition set_payload (p : list (option Byte.byte)) (b : block) : block :=
  {| header := header b; payload := p |}.

Definition set_node_array (v : Z) (m : sgsh_negotiation) :=
  {| version := version m; node_array := v; n_nodes := n_nodes m;
     edge_array := edge_array m; n_edges := n_edges m;
     initiator_pid := initiator_pid m; state_flag := state_flag m;
     serial_no := serial_no m; origin := origin m; total_size := total_size m |}.
Definition set_n_nodes (v : Z) (m : sgsh_negotiation) :=
  {| version := version m; node_array := node_array m; n_nodes := v;
     edge_array := edge_array m; n_edges := n_edges m;
     initiator_pid := initiator_pid m; state_flag := state_flag m;
     serial_no := serial_no m; origin := origin m; total_size := total_size m |}.
Definition set_edge_array (v : Z) (m : sgsh_negotiation) :=
  {| version := version m; node_array := node_array m; n_nodes := n_nodes m;
     edge_array := v; n_edges := n_edges m;
     initiator_pid := initiator_pid m; state_flag := state_flag m;
     serial_no := serial_no m; origin := origin m; total_size := total_size m |}.
Definition set_n_edges (v : Z) (m : sgsh_negotiation) :=
  {| version := version m; node_array := node_array m; n_nodes := n_nodes m;
     edge_array := edge_array m; n_edges := v;
     initiator_pid := initiator_pid m; state_flag := state_flag m;
     serial_no := serial_no m; origin := origin m; total_size := total_size m |}.
Definition set_state_flag (v : prot_state) (m : sgsh_negotiation) :=
  {| version := version m; node_array := node_array m; n_nodes := n_nodes m;
     edge_array := edge_array m; n_edges := n_edges m;
     initiator_pid := initiator_pid m; state_flag := v;
     serial_no := serial_no m; origin := origin m; total_size := total_size m |}.
Definition set_serial_no (v : Z) (m : sgsh_negotiation) :=
  {| version := version m; node_array := node_array m; n_nodes := n_nodes m;
     edge_array := edge_array m; n_edges := n_edges m;
     initiator_pid := initiator_pid m; state_flag := state_flag m;
     serial_no := v; origin := origin m; total_size := total_size m |}.
Definition set_origin (v : dispatcher_node) (m : sgsh_negotiation) :=
  {| version := version m; node_array := node_array m; n_nodes := n_nodes m;
     edge_array := edge_array m; n_edges := n_edges m;
     initiator_pid := initiator_pid m; state_flag := state_flag m;
     serial_no := serial_no m; origin := v; total_size := total_size m |}.
Definition set_total_size (v : Z) (m : sgsh_negotiation) :=
  {| version := version m; node_array := node_array m; n_nodes := n_nodes m;
     edge_array := edge_array m; n_edges := n_edges m;
     initiator_pid := initiator_pid m; state_flag := state_flag m;
     serial_no := serial_no m; origin := origin m; total_size := v |}.

(** The process: its heap of message blocks (keyed by base address; 0 is
    NULL), the three file-scope variables of negotiate.c, and what it has
    written to its two descriptors so far. *)
Record negotiator : Type := {
  heap : gmap Z block;
  chosen_mb : Z;                       (* Our king message block. *)
  self_node : sgsh_node;               (* The sgsh node that models this tool. *)
  self_dispatcher : dispatcher_node;   (* Dispatch info for this tool. *)
  written : list (Z * block)           (* write(fd, buf, n), oldest first *)
}.

Definition set_heap (h : gmap Z block) (s : negotiator) :=
  {| heap := h; chosen_mb := chosen_mb s; self_node := self_node s;
     self_dispatcher := self_dispatcher s; written := written s |}.
Definition set_chosen_mb (p : Z) (s : negotiator) :=
  {| heap := heap s; chosen_mb := p; self_node := self_node s;
     self_dispatcher := self_dispatcher s; written := written s |}.
Definition set_self_dispatcher (d : dispatcher_node) (s : negotiator) :=
  {| heap := heap s; chosen_mb := chosen_mb s; self_node := self_node s;
     self_dispatcher := d; written := written s |}.
Definition set_written (w : list (Z * block)) (s : negotiator) :=
  {| heap := heap s; chosen_mb := chosen_mb s; self_node := self_node s;
     self_dispatcher := self_dispatcher s; written := w |}.

(* *chosen_mb *)
Definition chosen (s : negotiator) : outcome block :=
  from_opt (heap s !! chosen_mb s).

(* *chosen_mb = b *)
Definition put_chosen (b : block) (s : negotiator) : negotiator :=
  set_heap (<[chosen_mb s := b]> (heap s)) s.

(** ** The memory of a message block

    The sizes of the three structs and the byte representation of a node
    and of an edge belong to the C ABI; the allocator decides which address
    [malloc] and [realloc] return (0 when they fail). *)

Section ABI.

Variables sizeof_negotiation sizeof_node sizeof_edge : Z.
Variable enc_node : sgsh_node -> list Byte.byte.
Variable dec_node : list Byte.byte -> sgsh_node.
Variable enc_edge : sgsh_edge -> list Byte.byte.
Variable dec_edge : list Byte.byte -> sgsh_edge.
Variable allocator : gmap Z block -> Z -> Z.

Fixpoint initialised (l : list (option Byte.byte)) : option (list Byte.byte) :=
  match l with
  | [] => Some []
  | Some x :: l' => match initialised l' with
                    | Some r => Some (x :: r)
                    | None => None
                    end
  | None :: _ => None
  end.

(* Number of bytes allocated for the block. *)
Definition allocated (b : block) : Z :=
  sizeof_negotiation + Z.of_nat (length (payload b)).

(* Read [n] bytes at address [a] from the block [b] that lives at [base].
   The struct itself is not read this way; a copy of no bytes reads
   nothing. *)
Definition load (base : Z) (b : block) (a n : Z) : outcome (list Byte.byte) :=
  if n =? 0 then Done []
  else
    let o := a - (base + sizeof_negotiation) in
    if (0 <? n) && (0 <=? o) && (o + n <=? Z.of_nat (length (payload b))) then
      from_opt (initialised (take (Z.to_nat n) (drop (Z.to_nat o) (payload b))))
    else Undefined.

(* memcpy(a, bs, |bs|) into the block [b] that lives at [base]. *)
Definition store (base : Z) (b : block) (a : Z) (bs : list Byte.byte)
  : outcome block :=
  let n := Z.of_nat (length bs) in
  if n =? 0 then Done b
  else
    let o := a - (base + sizeof_negotiation) in
    if (0 <=? o) && (o + n <=? Z.of_nat (length (payload b))) then
      Done (set_payload (take (Z.to_nat o) (payload b) ++ map Some bs
                         ++ drop (Z.to_nat (o + n)) (payload b)) b)
    else Undefined.

(* p = realloc(chosen_mb, new_size): the block keeps its leading bytes; the
   bytes gained are uninitialised.  Returns the new address and heap. *)
Definition realloc (s : negotiator) (new_size : Z)
  : outcome (Z * gmap Z block) :=
  b ← chosen s;
  let rest := delete (chosen_mb s) (heap s) in
  let p := allocator rest new_size in
  if p =? 0 then Done (0, heap s)
  else Done (p, <[p := set_payload
                        (resize (Z.to_nat (new_size - sizeof_negotiation))
                                None (payload b)) b]> rest).

(* free(p) *)
Definition free (p : Z) (s : negotiator) : negotiator :=
  set_heap (delete p (heap s)) s.

(** ** Growing the message block *)

(* Reallocate message block to fit new node coming in. *)
Definition realloc_mb_new_node (s : negotiator) : outcome (Z * negotiator) :=
  mb ← chosen s;
  let new_size := total_size (header mb) + sizeof_node in
  (* Make room for new node. Copy-move edge array. *)
  let n_edges := n_edges (header mb) in
  let edges_size := sizeof_edge * n_edges in
  edge_array_store ← load (chosen_mb s) mb (edge_array (header mb)) edges_size;
  '(p, h) ← realloc s new_size;
  if p =? 0 then Exited 1
  else
    let s := set_chosen_mb p (set_heap h s) in
    mb ← chosen s;
    let hd := set_total_size new_size (header mb) in
    (* Node instances go after the message block instance. *)
    let hd := set_node_array (p + sizeof_negotiation) hd in
    (* Edge instances go after the node instances. *)
    let hd := set_edge_array
                (node_array hd + (n_nodes hd + 1) * sizeof_node) hd in
    mb ← store p (set_header hd mb) (edge_array hd) edge_array_store;
    Done (OP_SUCCESS, put_chosen mb s).

(* Reallocate message block to fit new edge coming in. *)
Definition realloc_mb_new_edge (s : negotiator) : outcome (Z * negotiator) :=
  mb ← chosen s;
  let new_size := total_size (header mb) + sizeof_edge in
  '(p, h) ← realloc s new_size;
  if p =? 0 then Exited 1
  else
    let s := set_chosen_mb p (set_heap h s) in
    mb ← chosen s;
    let hd := set_total_size new_size (header mb) in
    let hd := set_node_array (p + sizeof_negotiation) hd in
    let hd := set_edge_array (node_array hd + n_nodes hd * sizeof_node) hd in
    Done (OP_SUCCESS, put_chosen (set_header hd mb) s).

(* chosen_mb->node_array[i] and chosen_mb->edge_array[i] *)
Definition node_at (base : Z) (mb : block) (i : Z) : outcome sgsh_node :=
  bs ← load base mb (node_array (header mb) + i * sizeof_node) sizeof_node;
  Done (dec_node bs).
Definition edge_at (base : Z) (mb : block) (i : Z) : outcome sgsh_edge :=
  bs ← load base mb (edge_array (header mb) + i * sizeof_edge) sizeof_edge;
  Done (dec_edge bs).

(* for (i = ...; i < n_edges; i++) if (edge_array[i] is e) return OP_EXISTS;
   [todo] is the number of iterations left. *)
Fixpoint lookup_sgsh_edge_from (base : Z) (mb : block) (e : sgsh_edge)
    (i : Z) (todo : nat) : outcome Z :=
  match todo with
  | O => Done OP_CREATE
  | S k =>
      x ← edge_at base mb i;
      if (from x =? from e) && (to x =? to e) then Done OP_EXISTS
      else lookup_sgsh_edge_from base mb e (i + 1) k
  end.

(* Lookup an edge in the sgsh graph. *)
Definition lookup_sgsh_edge (s : negotiator) (e : sgsh_edge) : outcome Z :=
  mb ← chosen s;
  lookup_sgsh_edge_from (chosen_mb s) mb e 0 (Z.to_nat (n_edges (header mb))).

(** ** Adding the incident edge *)

(* for (i = 0; n_nodes; i++) if (i == chosen_mb->origin.index) break;
   The condition [n_nodes] is not changed by the loop.  [fuel] bounds the
   number of [i++]. *)
Fixpoint dispatcher_loop (fuel : nat) (n_nodes origin_index i : Z)
  : outcome Z :=
  if n_nodes =? 0 then Done i
  else if i =? origin_index then Done i
  else match fuel with
       | O => OutOfFuel
       | S k => dispatcher_loop k n_nodes origin_index (i + 1)
       end.

(* Fill edge depending on input/output fd information passed by sender
   and found in receiver (this tool or self).  [e] is the caller's
   uninitialised [new_edge]. *)
Definition fill_sgsh_edge (fuel : nat) (s : negotiator) (e : sgsh_edge)
  : outcome (Z * sgsh_edge) :=
  mb ← chosen s;
  let n_nodes := n_nodes (header mb) in
  let o := origin (header mb) in
  i ← dispatcher_loop fuel n_nodes (index o) 0;
  if i =? n_nodes then Exited 1
  else if fd_direction o =? STDIN_FILENO then
    (* MB sent from stdin, so dispatcher is the destination of the edge.
       Self (the recipient) is the source of the edge. *)
    let e := {| from := from e; to := index o |} in
    assert (negb (sgsh_out (self_node s) =? 0));;
    assert ((negb (sgsh_in (self_node s) =? 0)
             && (fd_direction (self_dispatcher s) =? STDIN_FILENO))
            || (fd_direction (self_dispatcher s) =? STDOUT_FILENO));;
    Done (OP_SUCCESS, {| from := index (self_dispatcher s); to := to e |})
  else if fd_direction o =? STDOUT_FILENO then
    let e := {| from := index o; to := to e |} in
    assert (negb (sgsh_in (self_node s) =? 0));;
    assert ((negb (sgsh_out (self_node s) =? 0)
             && (fd_direction (self_dispatcher s) =? STDOUT_FILENO))
            || (fd_direction (self_dispatcher s) =? STDIN_FILENO));;
    Done (OP_SUCCESS, {| from := from e; to := index (self_dispatcher s) |})
  else Done (OP_SUCCESS, e).

Definition bump_serial_no (hd : sgsh_negotiation) : sgsh_negotiation :=
  set_serial_no (serial_no hd + 1) hd.

(* Try to add a newly occured edge in the sgsh graph. *)
Definition try_add_sgsh_edge (fuel : nat) (raw_edge : sgsh_edge)
    (s : negotiator) : outcome (Z * negotiator) :=
  mb ← chosen s;
  if 0 <=? index (origin (header mb)) then (* If MB not created just now: *)
    '(_, new_edge) ← fill_sgsh_edge fuel s raw_edge;
    r ← lookup_sgsh_edge s new_edge;
    if r =? OP_CREATE then
      let n_edges := n_edges (header mb) in
      '(rc, s) ← realloc_mb_new_edge s;
      if rc =? OP_ERROR then Done (OP_ERROR, s)
      else
        mb ← chosen s;
        mb ← store (chosen_mb s) mb
               (edge_array (header mb) + n_edges * sizeof_edge)
               (enc_edge new_edge);
        let hd := set_n_edges (Negotiate.n_edges (header mb) + 1) (header mb) in
        Done (OP_SUCCESS, put_chosen (set_header (bump_serial_no hd) mb) s)
    else Done (OP_EXISTS, s)
  else Done (OP_NOOP, s).

(** ** Adding self *)

(* for (i = ...; i < n_nodes; i++) if (node_array[i].pid == self_node.pid) break;
   returns the value of [i] on leaving the loop. *)
Fixpoint find_self (base : Z) (mb : block) (self_pid : Z) (i : Z) (todo : nat)
  : outcome Z :=
  match todo with
  | O => Done i
  | S k =>
      nd ← node_at base mb i;
      if pid nd =? self_pid then Done i
      else find_self base mb self_pid (i + 1) k
  end.

Definition set_index (i : Z) (d : dispatcher_node) : dispatcher_node :=
  {| index := i; fd_direction := fd_direction d |}.
Definition set_fd_direction (fd : Z) (d : dispatcher_node) : dispatcher_node :=
  {| index := index d; fd_direction := fd |}.

(* Add node to message block. *)
Definition try_add_sgsh_node (s : negotiator) : outcome (Z * negotiator) :=
  mb ← chosen s;
  let n_nodes := n_nodes (header mb) in
  i ← find_self (chosen_mb s) mb (pid (self_node s)) 0 (Z.to_nat n_nodes);
  if i =? n_nodes then
    '(rc, s) ← realloc_mb_new_node s;
    if rc =? OP_ERROR then Done (OP_ERROR, s)
    else
      mb ← chosen s;
      mb ← store (chosen_mb s) mb
             (node_array (header mb) + n_nodes * sizeof_node)
             (enc_node (self_node s));
      let s := set_self_dispatcher (set_index n_nodes (self_dispatcher s)) s in
      let hd := set_n_nodes (Negotiate.n_nodes (header mb) + 1) (header mb) in
      Done (OP_SUCCESS, put_chosen (set_header (bump_serial_no hd) mb) s)
  else
    Done (OP_EXISTS, set_self_dispatcher (set_index i (self_dispatcher s)) s).

(** ** Message competition *)

Record competition : Type := {
  rc : Z;                        (* the value returned *)
  after : negotiator;            (* the process afterwards *)
  should_transmit_mb : Z;        (* *should_transmit_mb *)
  updated_mb_serial_no : Z       (* *updated_mb_serial_no *)
}.

(* Check if the arrived message block preexists our chosen one and
   substitute the chosen if so.  If the arrived message block is younger
   discard it and don't forward it.  If the arrived is the chosen, try to
   add the edge. *)
Definition compete_message_block (fuel : nat) (raw_edge : sgsh_edge)
    (fresh_mb : Z) (s : negotiator) : outcome competition :=
  let should_transmit := 1 in (* Default value. *)
  let updated := 0 in         (* Default value. *)
  fresh ← from_opt (heap s !! fresh_mb);
  mb ← chosen s;
  if initiator_pid (header fresh) <? initiator_pid (header mb) then
    (* New chosen! *)
    let s := set_chosen_mb fresh_mb (free (chosen_mb s) s) in
    '(r, s) ← try_add_sgsh_node s;
    if r =? OP_ERROR then Done (Build_competition OP_ERROR s should_transmit updated)
    else
      '(r, s) ← try_add_sgsh_edge fuel raw_edge s;
      if r =? OP_ERROR then Done (Build_competition OP_ERROR s should_transmit updated)
      else Done (Build_competition OP_SUCCESS s should_transmit 1)
  else if initiator_pid (header fresh) >? initiator_pid (header mb) then
    (* Discard MB just read. *)
    Done (Build_competition OP_SUCCESS (free fresh_mb s) 0 updated)
  else
    let '(s, updated) :=
      if serial_no (header fresh) >? serial_no (header mb)
      then (set_chosen_mb fresh_mb (free (chosen_mb s) s), 1)
      else (free fresh_mb s, updated) in
    '(r, s) ← try_add_sgsh_edge fuel raw_edge s;
    if r =? OP_ERROR then Done (Build_competition OP_ERROR s should_transmit updated)
    else Done (Build_competition OP_SUCCESS s should_transmit updated).

(** ** Transmission *)

(* Copy the dispatcher static object that identifies the node in the
   message block node array and shows the write point of the send
   operation. *)
Definition set_dispatcher (s : negotiator) : outcome negotiator :=
  mb ← chosen s;
  let o := set_index (index (self_dispatcher s)) (origin (header mb)) in
  assert (0 <=? index (self_dispatcher s));; (* Node is added to the graph. *)
  let o := set_fd_direction (fd_direction (self_dispatcher s)) o in
  Done (put_chosen (set_header (set_origin o (header mb)) mb) s).

(* The first [n] bytes of the block, as memcpy(buf, chosen_mb, n) reads
   them.  (An image shorter than the struct itself is not represented.) *)
Definition image (mb : block) (n : Z) : outcome block :=
  if (sizeof_negotiation <=? n) && (n <=? allocated mb) then
    Done (set_payload
            (take (Z.to_nat (n - sizeof_negotiation)) (payload mb)) mb)
  else Undefined.

(* The conversion of an int to size_t in [total_size > buf_size]. *)
Definition to_size_t (z : Z) : Z := z mod 2 ^ 64.

(* Write message block to buffer.  [buf] is the caller's page. *)
Definition write_mb (buf : option block) (buf_size : Z) (s : negotiator)
  : outcome (Z * option block * negotiator) :=
  mb ← chosen s;
  if total_size (header mb) >? to_size_t buf_size then Done (OP_ERROR, buf, s)
  else
    s ← set_dispatcher s;
    mb ← chosen s;
    img ← image mb (total_size (header mb));
    let fd := fd_direction (self_dispatcher s) in
    Done (OP_SUCCESS, Some img, set_written (written s ++ [(fd, img)]) s).

(* Check whether negotiation phase should end. *)
Definition check_negotiation_round (negotiation_round updated_mb_serial_no : Z)
    (s : negotiator) : outcome (Z * negotiator) :=
  mb ← chosen s;
  if pid (self_node s) =? initiator_pid (header mb) then (* Round end? *)
    let negotiation_round := negotiation_round + 1 in
    if (negotiation_round =? 3) && (updated_mb_serial_no =? 0) then
      let hd := set_state_flag PROT_STATE_NEGOTIATION_END (header mb) in
      Done (negotiation_round, put_chosen (set_header (bump_serial_no hd) mb) s)
    else Done (negotiation_round, s)
  else Done (negotiation_round, s).

(** ** Creating and receiving a message block *)

(* Construct a message block to use as a vehicle for the negotiation
   phase.  [raw] is what the memory returned by malloc happens to hold:
   the fields that the function does not assign keep that content. *)
Definition construct_message_block (raw : sgsh_negotiation) (self_pid : Z)
    (s : negotiator) : outcome (Z * negotiator) :=
  let memory_allocation_size := sizeof_negotiation in
  let p := allocator (heap s) memory_allocation_size in
  if p =? 0 then Exited 1
  else
    let hd := {| version := 1;
                 node_array := 0;
                 n_nodes := 0;
                 edge_array := edge_array raw;
                 n_edges := n_edges raw;
                 initiator_pid := self_pid;
                 state_flag := PROT_STATE_NEGOTIATION;
                 serial_no := 0;
                 origin := {| index := -1; fd_direction := -1 |};
                 total_size := memory_allocation_size |} in
    Done (OP_SUCCESS,
          set_chosen_mb p
            (set_heap (<[p := {| header := hd; payload := [] |}]> (heap s)) s)).

(* Point next write operation to the correct file descriptor. *)
Definition point_io_direction (current_direction : Z) (s : negotiator)
  : negotiator :=
  if (current_direction =? STDIN_FILENO) && negb (sgsh_out (self_node s) =? 0)
  then set_self_dispatcher
         (set_fd_direction STDOUT_FILENO (self_dispatcher s)) s
  else if (current_direction =? STDOUT_FILENO)
          && negb (sgsh_in (self_node s) =? 0)
  then set_self_dispatcher
         (set_fd_direction STDIN_FILENO (self_dispatcher s)) s
  else s.

(* Allocate memory for message_block and copy from buffer.  [mb] is the
   function's own parameter: assigning it changes nothing in the caller.
   The result is the returned value and the process afterwards. *)
Definition alloc_copy_mb (mb : Z) (buf : option block) (bytes_read : Z)
    (buf_size : Z) (s : negotiator) : outcome (Z * negotiator) :=
  old ← from_opt (heap s !! mb);
  if negb (bytes_read =? total_size (header old)) then Exited 1
  else if bytes_read >? buf_size then Exited 1
  else
    let mb := allocator (heap s) bytes_read in
    received ← from_opt buf;
    copy ← image received bytes_read;
    if mb =? 0 then Undefined
    else Done (OP_SUCCESS, set_heap (<[mb := copy]> (heap s)) s).

Definition EAGAIN : Z := 11.

(* What one read(fd, buf, buf_size) finds: an error, or the flat image of a
   message block sent by a peer. *)
Inductive read_result : Type :=
| ReadError (errno : Z)
| ReadBlock (b : block).

Record read_vars : Type := {
  fd_side : Z;
  bytes_read : Z;
  error_code : Z
}.

(* The actual call to read in the message block. *)
Definition call_read (r : read_result) (buf : option block)
  : Z * option block * read_vars :=
  let error_code := 0 in
  let fd_side := 0 in
  let '(bytes_read, buf, error_code) :=
    match r with
    | ReadError errno => (-1, buf, - errno)
    | ReadBlock b => (allocated b, Some b, error_code)
    end in
  if (error_code =? 0) || negb (error_code =? - EAGAIN) then
    (* Mark the side where input is coming from. *)
    (OP_QUIT, buf, Build_read_vars 1 bytes_read error_code)
  else (OP_SUCCESS, buf, Build_read_vars fd_side bytes_read error_code).

(* while (error_code == -EAGAIN): try read from stdin, then stdout.  [rs]
   lists what the successive read() calls find; the loop is still polling
   when the list runs out.  Returns stdin_side, bytes_read, error_code. *)
Fixpoint poll_both_sides (rs : list read_result) (buf : option block)
  : outcome (Z * Z * Z * option block) :=
  match rs with
  | [] => OutOfFuel
  | r1 :: rest =>
      let '(q1, buf, v1) := call_read r1 buf in
      if q1 =? OP_QUIT
      then Done (fd_side v1, bytes_read v1, error_code v1, buf)
      else match rest with
           | [] => OutOfFuel
           | r2 :: rest' =>
               let '(q2, buf, v2) := call_read r2 buf in
               if (q2 =? OP_QUIT) || negb (error_code v2 =? - EAGAIN)
               then Done (fd_side v1, bytes_read v2, error_code v2, buf)
               else poll_both_sides rest' buf
           end
  end.

(* Read in circulated message block from either direction.  [fresh_mb] is
   the value of the caller's pointer, passed by value: the result holds the
   returned value, the buffer and the process, and no pointer. *)
Definition try_read_message_block (rs : list read_result) (buf : option block)
    (buf_size : Z) (fresh_mb : Z) (s : negotiator)
  : outcome (Z * option block * negotiator) :=
  '(stdin_side, bytes_read, error_code, buf) ← poll_both_sides rs buf;
  if bytes_read =? -1 then Exited 1 (* Read failed. *)
  else (* Read succeeded. *)
    '(r, s) ← alloc_copy_mb fresh_mb buf bytes_read buf_size s;
    if r =? OP_ERROR then Done (OP_ERROR, buf, s)
    else Done (OP_SUCCESS, buf, point_io_direction stdin_side s).

(** ** The rounds of sgsh_negotiate *)

(* The local variables of sgsh_negotiate that live across rounds. *)
Record frame : Type := {
  negotiation_round : Z;
  transmit : Z;              (* should_transmit_mb *)
  updated : Z;               (* updated_mb_serial_no *)
  buf : option block;
  fresh_mb : Z               (* MB just read. *)
}.

Definition initial_frame : frame :=
  {| negotiation_round := 0; transmit := 1; updated := 1;
     buf := None; fresh_mb := 0 |}.

Inductive retval : Type :=
| RetOp (v : Z)
| RetState (p : prot_state).

Inductive control : Type :=
| Next                 (* the body ran to its end *)
| Break
| Return (v : retval).

(* The first three statements of the loop body: count the round, transmit,
   leave when the end of the negotiation has just been declared. *)
Definition round_begin (buf_size : Z) (f : frame) (s : negotiator)
  : outcome (control * frame * negotiator) :=
  '(n, s) ← check_negotiation_round (negotiation_round f) (updated f) s;
  let f := {| negotiation_round := n; transmit := transmit f;
              updated := updated f; buf := buf f; fresh_mb := fresh_mb f |} in
  '(r, b, s) ← (if transmit f =? 0 then Done (OP_SUCCESS, buf f, s)
                else write_mb (buf f) buf_size s);
  let f := {| negotiation_round := n; transmit := transmit f;
              updated := updated f; buf := b; fresh_mb := fresh_mb f |} in
  if r =? OP_ERROR then Done (Return (RetOp OP_ERROR), f, s)
  else
    mb ← chosen s;
    if decide (state_flag (header mb) = PROT_STATE_NEGOTIATION_END)
    then Done (Break, f, s) (* Did spread the word, now leave. *)
    else Done (Next, f, s).

(* The rest of the body: read a message block and let it compete. *)
Definition round_end (fuel : nat) (raw_edge : sgsh_edge)
    (rs : list read_result) (buf_size : Z) (f : frame) (s : negotiator)
  : outcome (control * frame * negotiator) :=
  '(r, b, s) ← try_read_message_block rs (buf f) buf_size (fresh_mb f) s;
  let f := {| negotiation_round := negotiation_round f; transmit := transmit f;
              updated := updated f; buf := b; fresh_mb := fresh_mb f |} in
  if r =? OP_ERROR then Done (Return (RetState PROT_STATE_ERROR), f, s)
  else
    c ← compete_message_block fuel raw_edge (fresh_mb f) s;
    let f := {| negotiation_round := negotiation_round f;
                transmit := should_transmit_mb c;
                updated := updated_mb_serial_no c;
                buf := b; fresh_mb := fresh_mb f |} in
    if rc c =? OP_ERROR
    then Done (Return (RetState PROT_STATE_ERROR), f, after c)
    else Done (Next, f, after c).

(* One pass through the body of
   while (chosen_mb->state_flag == PROT_STATE_NEGOTIATION) { ... } *)
Definition negotiation_iteration (fuel : nat) (raw_edge : sgsh_edge)
    (rs : list read_result) (buf_size : Z) (f : frame) (s : negotiator)
  : outcome (control * frame * negotiator) :=
  '(c, f, s) ← round_begin buf_size f s;
  match c with
  | Next => round_end fuel raw_edge rs buf_size f s
  | _ => Done (c, f, s)
  end.

(* The tool that does not initiate waits to receive the MB:
     chosen_mb = NULL; try_read_message_block(buf, buf_size, fresh_mb);
     chosen_mb = fresh_mb; *)
Definition wait_for_mb (rs : list read_result) (buf_size : Z) (f : frame)
    (s : negotiator) : outcome (control * frame * negotiator) :=
  let s := set_chosen_mb 0 s in
  '(r, b, s) ← try_read_message_block rs (buf f) buf_size (fresh_mb f) s;
  let f := {| negotiation_round := negotiation_round f; transmit := transmit f;
              updated := updated f; buf := b; fresh_mb := fresh_mb f |} in
  if r =? OP_ERROR then Done (Return (RetState PROT_STATE_ERROR), f, s)
  else Done (Next, f, set_chosen_mb (fresh_mb f) s).

(* The successive calls of check_negotiation_round that the loop makes, one
   per round, when updated_mb_serial_no has the listed values on entry to
   the rounds. *)
Fixpoint count_rounds (flags : list Z) (negotiation_round : Z)
    (s : negotiator) : outcome (Z * negotiator) :=
  match flags with
  | [] => Done (negotiation_round, s)
  | u :: rest =>
      '(n, s) ← check_negotiation_round negotiation_round u s;
      count_rounds rest n s
  end.

(** ** The connections of this tool *)

(* A pointer takes [sizeof_pointer] bytes, and [grow old n] is the address
   that realloc(old, n) returns for an array of edge pointers (0 when it
   fails).  These arrays are never read or written. *)
Variable sizeof_pointer : Z.
Variable grow : Z -> Z -> Z.

(* Reallocate array to edge pointers.  Returns the value returned and the
   new value of *edge_array. *)
Definition reallocate_edge_pointer_array (edge_array : Z) (n_elements : Z)
  : outcome (Z * Z) :=
  let p := grow edge_array (sizeof_pointer * n_elements) in
  if p =? 0 then Exited 1
  else Done (OP_SUCCESS, p).

(* What lookup_sgsh_edges works on: its own copies of the two pointers it
   is given, and the two counters of its caller. *)
Record edge_pointers : Type := {
  edges_incoming : Z;
  n_edges_incoming : Z;
  edges_outgoing : Z;
  n_edges_outgoing : Z
}.

(* for (i = ...; i < n_edges; i++) { ... }; [todo] iterations are left. *)
Fixpoint lookup_sgsh_edges_from (base : Z) (mb : block) (self_index : Z)
    (i : Z) (todo : nat) (v : edge_pointers) : outcome (Z * edge_pointers) :=
  match todo with
  | O => Done (OP_SUCCESS, v)
  | S k =>
      edge ← edge_at base mb i;
      '(r, v) ←
        (if from edge =? self_index then
           let n := n_edges_outgoing v + 1 in
           '(r, p) ← reallocate_edge_pointer_array (edges_outgoing v) n;
           Done (r, {| edges_incoming := edges_incoming v;
                       n_edges_incoming := n_edges_incoming v;
                       edges_outgoing := p;
                       n_edges_outgoing := n |})
         else Done (OP_SUCCESS, v));
      if r =? OP_ERROR then Done (OP_ERROR, v)
      else
        '(r, v) ←
          (if to edge =? self_index then
             let n := n_edges_incoming v + 1 in
             '(r, p) ← reallocate_edge_pointer_array (edges_incoming v) n;
             Done (r, {| edges_incoming := p;
                         n_edges_incoming := n;
                         edges_outgoing := edges_outgoing v;
                         n_edges_outgoing := n_edges_outgoing v |})
           else Done (OP_SUCCESS, v));
        if r =? OP_ERROR then Done (OP_ERROR, v)
        else lookup_sgsh_edges_from base mb self_index (i + 1) k v
  end.

(* Lookup this tool's edges. *)
Definition lookup_sgsh_edges (s : negotiator) (v : edge_pointers)
  : outcome (Z * edge_pointers) :=
  mb ← chosen s;
  (* This tool's node index. *)
  let self_index := index (self_dispatcher s) in
  let n_edges := n_edges (header mb) in
  lookup_sgsh_edges_from (chosen_mb s) mb self_index 0 (Z.to_nat n_edges) v.

(* Look for a solution to the graph's path requirements for this tool.
   The value that lookup_sgsh_edges returns is not looked at. *)
Definition allocate_io_connections (s : negotiator) : outcome Z :=
  let v := {| edges_incoming := 0; n_edges_incoming := 0;
              edges_outgoing := 0; n_edges_outgoing := 0 |} in
  '(_, v) ← lookup_sgsh_edges s v;
  if negb (n_edges_incoming v =? requires_channels (self_node s))
     || negb (n_edges_outgoing v =? provides_channels (self_node s))
  then Exited 1
  else Done OP_SUCCESS.

(** ** sgsh_negotiate *)

Definition set_self_node (n : sgsh_node) (s : negotiator) :=
  {| heap := heap s; chosen_mb := chosen_mb s; self_node := n;
     self_dispatcher := self_dispatcher s; written := written s |}.

(* The characters of a C string: those in front of the first NUL. *)
Fixpoint c_str (s : string) : string :=
  match s with
  | EmptyString => EmptyString
  | String c rest =>
      if Ascii.eqb c Ascii.zero then EmptyString else String c (c_str rest)
  end.

(* A constructor-like function for struct sgsh_node: memcpy of the name
   with its NUL into char name[100]. *)
Definition fill_sgsh_node (tool_name : string) (pid requires_channels
    provides_channels : Z) (s : negotiator) : outcome negotiator :=
  if 100 <? Z.of_nat (String.length (c_str tool_name)) + 1 then Undefined
  else
    Done (set_self_node
            {| Negotiate.pid := pid;
               name := c_str tool_name;
               Negotiate.requires_channels := requires_channels;
               Negotiate.provides_channels := provides_channels;
               sgsh_in := sgsh_in (self_node s);
               sgsh_out := sgsh_out (self_node s) |} s).

(* Get environment variable env_var.  [environ v] is atoi(getenv(v)) when
   the variable [v] is set.  Returns the value returned and *value. *)
Definition get_env_var (environ : string -> option Z) (env_var : string)
    (value : Z) : outcome (Z * Z) :=
  match environ env_var with
  | None => Exited 1
  | Some v => Done (OP_SUCCESS, v)
  end.

(* Get environment variables SGSH_IN, SGSH_OUT set up by the shell. *)
Definition get_environment_vars (environ : string -> option Z)
    (s : negotiator) : outcome (Z * negotiator) :=
  let n := self_node s in
  '(r, v) ← get_env_var environ "SGSH_IN" (sgsh_in n);
  let n := {| pid := pid n; name := name n;
              requires_channels := requires_channels n;
              provides_channels := provides_channels n;
              sgsh_in := v; sgsh_out := sgsh_out n |} in
  if r =? OP_ERROR then Done (OP_ERROR, set_self_node n s)
  else
    '(r, v) ← get_env_var environ "SGSH_OUT" (sgsh_out n);
    let n := {| pid := pid n; name := name n;
                requires_channels := requires_channels n;
                provides_channels := provides_channels n;
                sgsh_in := sgsh_in n; sgsh_out := v |} in
    if r =? OP_ERROR then Done (OP_ERROR, set_self_node n s)
    else Done (OP_SUCCESS, set_self_node n s).

(* sgsh_negotiate up to its loop: the environment, the block that is
   created or awaited, and the node and edge of self.  [first] is what the
   reads of the waiting tool find. *)
Definition join_negotiation (fuel : nat) (raw_edge : sgsh_edge)
    (raw : sgsh_negotiation) (environ : string -> option Z)
    (tool_name : string) (channels_required channels_provided : Z)
    (self_pid : Z) (buf_size : Z) (first : list read_result)
    (s : negotiator) : outcome (control * frame * negotiator) :=
  let f := initial_frame in
  '(r, s) ← get_environment_vars environ s;
  if r =? OP_ERROR then Exited 1
  else
    (* Start negotiation. *)
    '(c, f, s) ←
      (if negb (sgsh_out (self_node s) =? 0) && (sgsh_in (self_node s) =? 0)
       then
         '(r, s) ← construct_message_block raw self_pid s;
         if r =? OP_ERROR then Done (Return (RetState PROT_STATE_ERROR), f, s)
         else Done (Next, f,
                    set_self_dispatcher
                      (set_fd_direction STDOUT_FILENO (self_dispatcher s)) s)
       else (* or wait to receive MB. *)
         wait_for_mb first buf_size f s);
    match c with
    | Next =>
        (* Create sgsh node representation and add node, edge to the graph. *)
        s ← fill_sgsh_node tool_name self_pid channels_required
              channels_provided s;
        '(r, s) ← try_add_sgsh_node s;
        if r =? OP_ERROR then Done (Return (RetState PROT_STATE_ERROR), f, s)
        else
          '(r, s) ← try_add_sgsh_edge fuel raw_edge s;
          if r =? OP_ERROR then Done (Return (RetState PROT_STATE_ERROR), f, s)
          else Done (Next, f, s)
    | _ => Done (c, f, s)
    end.

(* while (chosen_mb->state_flag == PROT_STATE_NEGOTIATION) { ... }: one
   element of [reads] for the reads of each round; the loop is still
   running when the list runs out. *)
Fixpoint negotiation_rounds (fuel : nat) (raw_edge : sgsh_edge)
    (reads : list (list read_result)) (buf_size : Z) (f : frame)
    (s : negotiator) : outcome (control * frame * negotiator) :=
  mb ← chosen s;
  if decide (state_flag (header mb) = PROT_STATE_NEGOTIATION) then
    match reads with
    | [] => OutOfFuel
    | rs :: rest =>
        '(c, f, s) ← negotiation_iteration fuel raw_edge rs buf_size f s;
        match c with
        | Next => negotiation_rounds fuel raw_edge rest buf_size f s
        | Break => Done (Next, f, s)
        | Return v => Done (c, f, s)
        end
    end
  else Done (Next, f, s).

(* Each tool in the sgsh graph calls sgsh_negotiate() to take part in
   peer-to-peer negotiation.  The function's return value signifies
   success or failure of the negotiation phase. *)
Definition sgsh_negotiate (fuel : nat) (raw_edge : sgsh_edge)
    (raw : sgsh_negotiation) (environ : string -> option Z)
    (tool_name : string) (channels_required channels_provided : Z)
    (self_pid : Z) (buf_size : Z) (first : list read_result)
    (reads : list (list read_result)) (s : negotiator) : outcome retval :=
  '(c, f, s) ← join_negotiation fuel raw_edge raw environ tool_name
                 channels_required channels_provided self_pid buf_size first s;
  match c with
  | Return v => Done v
  | _ =>
      (* Perform negotiation rounds. *)
      '(c, f, s) ← negotiation_rounds fuel raw_edge reads buf_size f s;
      match c with
      | Return v => Done v
      | _ =>
          (* Solve problem and allocate pipes. *)
          r ← allocate_io_connections s;
          if r =? OP_ERROR then Done (RetState PROT_STATE_ERROR)
          else
            mb ← chosen s;
            Done (RetState (state_flag (header mb)))
      end
  end.

(** ** Properties of the negotiator *)

Ltac inv_bind H :=
  let a := fresh "a" in
  let Ha := fresh "Ha" in
  apply bind_Done in H; destruct H as (a & Ha & H); simpl in H.

(** *** What the functions return

    An allocation failure ends the process in [err]: OP_ERROR is never
    seen by a caller. *)

Lemma realloc_mb_new_node_rc s r s' :
  realloc_mb_new_node s = Done (r, s') -> r = OP_SUCCESS.
Proof.
  unfold realloc_mb_new_node. intros H.
  inv_bind H. inv_bind H. inv_bind H. destruct a1 as [p h].
  destruct (p =? 0); [discriminate|].
  inv_bind H. inv_bind H. congruence.
Qed.

Lemma realloc_mb_new_edge_rc s r s' :
  realloc_mb_new_edge s = Done (r, s') -> r = OP_SUCCESS.
Proof.
  unfold realloc_mb_new_edge. intros H.
  inv_bind H. inv_bind H. destruct a0 as [p h].
  destruct (p =? 0); [discriminate|].
  inv_bind H. congruence.
Qed.

Lemma try_add_sgsh_node_rc s r s' :
  try_add_sgsh_node s = Done (r, s') -> r = OP_SUCCESS \/ r = OP_EXISTS.
Proof.
  unfold try_add_sgsh_node. intros H.
  inv_bind H. inv_bind H.
  destruct (a0 =? n_nodes (header a)).
  - inv_bind H. destruct a1 as [r1 s1].
    apply realloc_mb_new_node_rc in Ha1. subst r1. simpl in H.
    inv_bind H. inv_bind H. left. congruence.
  - right. congruence.
Qed.

Lemma try_add_sgsh_edge_rc fuel raw s r s' :
  try_add_sgsh_edge fuel raw s = Done (r, s') ->
  r = OP_SUCCESS \/ r = OP_EXISTS \/ r = OP_NOOP.
Proof.
  unfold try_add_sgsh_edge. intros H.
  inv_bind H.
  destruct (0 <=? index (origin (header a))); [|right; right; congruence].
  inv_bind H. destruct a0 as [r0 e]. inv_bind H.
  destruct (a0 =? OP_CREATE); [|right; left; congruence].
  inv_bind H. destruct a1 as [r1 s1].
  apply realloc_mb_new_edge_rc in Ha2. subst r1. simpl in H.
  inv_bind H. inv_bind H. left. congruence.
Qed.

(* The written trace is touched by write_mb only. *)
Lemma check_negotiation_round_written n u s n' s' :
  check_negotiation_round n u s = Done (n', s') -> written s' = written s.
Proof.
  unfold check_negotiation_round. intros H. inv_bind H.
  destruct (pid (self_node s) =? initiator_pid (header a)); [|congruence].
  destruct ((n + 1 =? 3) && (u =? 0)); inversion H; reflexivity.
Qed.

(** The three branches of compete_message_block, for a fresh message block
    [fresh] arriving while [mb] is the chosen one: which block is freed,
    which one try_add_sgsh_node and try_add_sgsh_edge then work on, and the
    two flags once these have returned.
    - fresh.initiator_pid < chosen.initiator_pid: the chosen block is freed,
      chosen_mb becomes the fresh block, try_add_sgsh_node and then
      try_add_sgsh_edge run on it, updated_mb_serial_no is 1 and
      should_transmit_mb is 1.
    - fresh.initiator_pid > chosen.initiator_pid: the fresh block is freed,
      chosen_mb is unchanged and should_transmit_mb is 0, so that the next
      round writes nothing.
    - equal initiators: the block with the higher serial_no is kept (the
      other is freed), try_add_sgsh_edge runs in both cases, and
      should_transmit_mb is 1.
    What the two calls find in the block they work on is the subject of
    the lemmas on a block as it is received, further down. *)
Theorem compete_message_block_cases
    (fuel : nat) (raw : sgsh_edge) (fresh_mb : Z) (s : negotiator)
    (fresh mb : block) :
  heap s !! fresh_mb = Some fresh ->
  heap s !! chosen_mb s = Some mb ->
  fresh_mb ≠ chosen_mb s ->
  let adopt := set_chosen_mb fresh_mb (free (chosen_mb s) s) in
  let discard := free fresh_mb s in
  (chosen adopt = Done fresh /\ heap adopt !! chosen_mb s = None) /\
  (chosen discard = Done mb /\ heap discard !! fresh_mb = None) /\
  (initiator_pid (header fresh) < initiator_pid (header mb) ->
     compete_message_block fuel raw fresh_mb s =
       '(_, s1) ← try_add_sgsh_node adopt;
       '(_, s2) ← try_add_sgsh_edge fuel raw s1;
       Done {| rc := OP_SUCCESS; after := s2;
               should_transmit_mb := 1; updated_mb_serial_no := 1 |}) /\
  (initiator_pid (header fresh) > initiator_pid (header mb) ->
     compete_message_block fuel raw fresh_mb s =
       Done {| rc := OP_SUCCESS; after := discard;
               should_transmit_mb := 0; updated_mb_serial_no := 0 |}
     /\ forall buf_size f c f' s',
          transmit f = 0 ->
          round_begin buf_size f discard = Done (c, f', s') ->
          written s' = written s) /\
  (initiator_pid (header fresh) = initiator_pid (header mb) ->
     let newer := serial_no (header fresh) >? serial_no (header mb) in
     compete_message_block fuel raw fresh_mb s =
       '(_, s1) ← try_add_sgsh_edge fuel raw (if newer then adopt else discard);
       Done {| rc := OP_SUCCESS; after := s1;
               should_transmit_mb := 1;
               updated_mb_serial_no := if newer then 1 else 0 |}).
Proof.
  intros Hf Hc Hne adopt discard.
  assert (Ha : chosen adopt = Done fresh).
  { unfold chosen, adopt. simpl. rewrite lookup_delete_ne by congruence.
    rewrite Hf. reflexivity. }
  assert (Hd : chosen discard = Done mb).
  { unfold chosen, discard. simpl. rewrite lookup_delete_ne by congruence.
    rewrite Hc. reflexivity. }
  split; [split; [exact Ha|]|split; [split; [exact Hd|]|]].
  - unfold adopt. simpl. apply lookup_delete_eq.
  - unfold discard. simpl. apply lookup_delete_eq.
  - unfold compete_message_block, chosen. rewrite Hf, Hc. simpl.
    fold adopt discard.
    split; [|split].
    + intros Hlt. apply Z.ltb_lt in Hlt. rewrite Hlt.
      destruct (try_add_sgsh_node adopt) as [[r1 s1]| | | |] eqn:E1;
        try reflexivity.
      simpl. apply try_add_sgsh_node_rc in E1.
      assert ((r1 =? OP_ERROR) = false) as -> by (destruct E1; subst; reflexivity).
      destruct (try_add_sgsh_edge fuel raw s1) as [[r2 s2]| | | |] eqn:E2;
        try reflexivity.
      simpl. apply try_add_sgsh_edge_rc in E2.
      assert ((r2 =? OP_ERROR) = false) as ->
        by (destruct E2 as [|[|]]; subst; reflexivity).
      reflexivity.
    + intros Hgt.
      assert ((initiator_pid (header fresh) <? initiator_pid (header mb)) = false)
        as -> by (apply Z.ltb_ge; lia).
      assert ((initiator_pid (header fresh) >? initiator_pid (header mb)) = true)
        as -> by (apply Z.gtb_lt; lia).
      split; [reflexivity|].
      intros buf_size f c f' s' Ht H. unfold round_begin in H.
      inv_bind H. destruct a as [n s1]. simpl in H. rewrite Ht in H.
      simpl in H. apply check_negotiation_round_written in Ha0.
      inv_bind H.
      destruct (decide (state_flag (header a) = PROT_STATE_NEGOTIATION_END));
        inversion H; subst; exact Ha0.
    + intros Heq.
      assert ((initiator_pid (header fresh) <? initiator_pid (header mb)) = false)
        as -> by (apply Z.ltb_ge; lia).
      assert ((initiator_pid (header fresh) >? initiator_pid (header mb)) = false)
        as -> by (rewrite Z.gtb_ltb; apply Z.ltb_ge; lia).
      destruct (serial_no (header fresh) >? serial_no (header mb)).
      * destruct (try_add_sgsh_edge fuel raw adopt) as [[r2 s2]| | | |] eqn:E2;
          try reflexivity.
        simpl. apply try_add_sgsh_edge_rc in E2.
        assert ((r2 =? OP_ERROR) = false) as ->
          by (destruct E2 as [|[|]]; subst; reflexivity).
        reflexivity.
      * destruct (try_add_sgsh_edge fuel raw discard) as [[r2 s2]| | | |] eqn:E2;
          try reflexivity.
        simpl. apply try_add_sgsh_edge_rc in E2.
        assert ((r2 =? OP_ERROR) = false) as ->
          by (destruct E2 as [|[|]]; subst; reflexivity).
        reflexivity.
Qed.

(** *** Counting rounds *)

Definition declare_end (mb : block) : block :=
  set_header
    (bump_serial_no (set_state_flag PROT_STATE_NEGOTIATION_END (header mb))) mb.

Lemma check_negotiation_round_eq n u s mb :
  heap s !! chosen_mb s = Some mb ->
  check_negotiation_round n u s =
    Done (if pid (self_node s) =? initiator_pid (header mb) then n + 1 else n,
          if (pid (self_node s) =? initiator_pid (header mb))
             && (n + 1 =? 3) && (u =? 0)
          then put_chosen (declare_end mb) s else s).
Proof.
  intros H. unfold check_negotiation_round, chosen. rewrite H. simpl.
  destruct (pid (self_node s) =? initiator_pid (header mb)); [|reflexivity].
  simpl. destruct ((n + 1 =? 3) && (u =? 0)); reflexivity.
Qed.

Lemma put_chosen_lookup mb s :
  heap (put_chosen mb s) !! chosen_mb (put_chosen mb s) = Some mb.
Proof. simpl. apply lookup_insert_eq. Qed.

(* Once the counter has passed 3 the function changes nothing more. *)
Lemma count_rounds_late flags : forall n s mb,
  heap s !! chosen_mb s = Some mb ->
  pid (self_node s) = initiator_pid (header mb) ->
  3 <= n ->
  count_rounds flags n s = Done (n + Z.of_nat (length flags), s).
Proof.
  induction flags as [|u rest IH]; intros n s mb Hc Hp Hn.
  - simpl. do 2 f_equal. lia.
  - simpl count_rounds. rewrite (check_negotiation_round_eq _ _ _ _ Hc).
    rewrite Hp, Z.eqb_refl.
    assert ((n + 1 =? 3) = false) as -> by (apply Z.eqb_neq; lia).
    simpl. rewrite (IH (n + 1) s mb Hc Hp) by lia.
    do 2 f_equal. simpl length. lia.
Qed.

(* The rounds counted by an initiator from the start of sgsh_negotiate:
   only the flag seen by the third call matters. *)
Lemma count_rounds_initiator flags s mb :
  heap s !! chosen_mb s = Some mb ->
  pid (self_node s) = initiator_pid (header mb) ->
  count_rounds flags 0 s =
    Done (Z.of_nat (length flags),
          match flags !! 2%nat with
          | Some u => if u =? 0 then put_chosen (declare_end mb) s else s
          | None => s
          end).
Proof.
  intros Hc Hp.
  assert (Hstep : forall n u rest, count_rounds (u :: rest) n s =
            count_rounds rest (n + 1)
              (if (n + 1 =? 3) && (u =? 0)
               then put_chosen (declare_end mb) s else s)).
  { intros n u rest. simpl count_rounds.
    rewrite (check_negotiation_round_eq _ _ _ _ Hc).
    rewrite Hp, Z.eqb_refl. reflexivity. }
  destruct flags as [|u1 rest]; [reflexivity|].
  rewrite Hstep. change ((0 + 1 =? 3) && (u1 =? 0)) with false. cbv iota.
  destruct rest as [|u2 rest]; [reflexivity|].
  rewrite Hstep. change ((0 + 1 + 1 =? 3) && (u2 =? 0)) with false. cbv iota.
  destruct rest as [|u3 rest]; [reflexivity|].
  rewrite Hstep. change (0 + 1 + 1 + 1) with 3.
  change (3 =? 3) with true. cbn [andb lookup list_lookup].
  destruct (u3 =? 0).
  - rewrite (count_rounds_late rest 3 _ (declare_end mb));
      [ | apply put_chosen_lookup | exact Hp | lia ].
    simpl. do 2 f_equal. lia.
  - rewrite (count_rounds_late rest 3 _ mb Hc Hp) by lia.
    simpl. do 2 f_equal. lia.
Qed.

Lemma chosen_eq s mb : heap s !! chosen_mb s = Some mb -> chosen s = Done mb.
Proof. intros H. unfold chosen. rewrite H. reflexivity. Qed.

Lemma chosen_put_chosen mb s : chosen (put_chosen mb s) = Done mb.
Proof. unfold chosen. rewrite put_chosen_lookup. reflexivity. Qed.

Lemma to_size_t_small z : 0 <= z < 2 ^ 64 -> to_size_t z = z.
Proof. intros H. unfold to_size_t. apply Z.mod_small. exact H. Qed.

(* A block that fits the buffer is copied whole and written on the
   dispatch side, with the origin filled in. *)
Lemma write_mb_fits buf buf_size s mb :
  heap s !! chosen_mb s = Some mb ->
  0 <= buf_size < 2 ^ 64 ->
  total_size (header mb) <= buf_size ->
  sizeof_negotiation <= total_size (header mb) <= allocated mb ->
  0 <= index (self_dispatcher s) ->
  exists img s',
    write_mb buf buf_size s = Done (OP_SUCCESS, Some img, s') /\
    written s' = written s ++ [(fd_direction (self_dispatcher s), img)] /\
    state_flag (header img) = state_flag (header mb) /\
    serial_no (header img) = serial_no (header mb) /\
    origin (header img) = self_dispatcher s /\
    chosen s' = Done (set_header (set_origin (self_dispatcher s) (header mb)) mb).
Proof.
  intros Hc Hb Hfit Hsz Hi.
  unfold write_mb, chosen. rewrite Hc. simpl.
  rewrite (to_size_t_small _ Hb).
  assert ((total_size (header mb) >? buf_size) = false) as ->
    by (rewrite Z.gtb_ltb; apply Z.ltb_ge; lia).
  unfold set_dispatcher, chosen. rewrite Hc. simpl.
  assert ((0 <=? index (self_dispatcher s)) = true) as ->
    by (apply Z.leb_le; lia).
  simpl. rewrite lookup_insert_eq. simpl.
  unfold image, allocated in *. simpl.
  assert ((sizeof_negotiation <=? total_size (header mb)) = true) as ->
    by (apply Z.leb_le; lia).
  assert ((total_size (header mb)
           <=? sizeof_negotiation + Z.of_nat (length (payload mb))) = true)
    as -> by (apply Z.leb_le; lia).
  simpl. eexists _, _. split; [reflexivity|]. simpl.
  unfold set_index, set_fd_direction. simpl.
  repeat split. destruct (self_dispatcher s); reflexivity.
  unfold chosen; simpl. rewrite lookup_insert_eq. simpl.
  destruct (self_dispatcher s); reflexivity.
Qed.

(** C2 (as the code has it).  For the initiator, every call of
    check_negotiation_round adds one to negotiation_round, which is never
    reset; NEGOTIATION_END is set and serial_no bumped on the third call
    exactly when updated_mb_serial_no is 0 on that call, whatever the flag
    was in the first two rounds, and on no later call.  The round that
    declares the end leaves the loop, with the chosen block in state
    NEGOTIATION_END and its serial_no one higher than before. *)
Theorem negotiation_end_on_third_round
    (flags : list Z) (s : negotiator) (mb : block) :
  heap s !! chosen_mb s = Some mb ->
  pid (self_node s) = initiator_pid (header mb) ->
  count_rounds flags 0 s =
    Done (Z.of_nat (length flags),
          match flags !! 2%nat with
          | Some u => if u =? 0 then put_chosen (declare_end mb) s else s
          | None => s
          end)
  /\ state_flag (header (declare_end mb)) = PROT_STATE_NEGOTIATION_END
  /\ serial_no (header (declare_end mb)) = serial_no (header mb) + 1
  /\ forall buf_size f,
       negotiation_round f = 2 -> updated f = 0 ->
       0 <= buf_size < 2 ^ 64 ->
       total_size (header mb) <= buf_size ->
       sizeof_negotiation <= total_size (header mb) <= allocated mb ->
       0 <= index (self_dispatcher s) ->
       exists f' s' mb',
         round_begin buf_size f s = Done (Break, f', s') /\
         negotiation_round f' = 3 /\
         chosen s' = Done mb' /\
         state_flag (header mb') = PROT_STATE_NEGOTIATION_END /\
         serial_no (header mb') = serial_no (header mb) + 1.
Proof.
  intros Hc Hp. split; [apply count_rounds_initiator; assumption|].
  split; [reflexivity|]. split; [reflexivity|].
  intros buf_size f Hn Hu Hb Hfit Hsz Hi.
  unfold round_begin. rewrite (check_negotiation_round_eq _ _ _ _ Hc).
  rewrite Hp, Z.eqb_refl, Hn, Hu. simpl.
  destruct (transmit f =? 0) eqn:Ht.
  - simpl. rewrite chosen_put_chosen. simpl.
    eexists _, _, _. split; [reflexivity|]. split; [reflexivity|].
    split; [apply chosen_put_chosen|]. split; reflexivity.
  - destruct (write_mb_fits (buf f) buf_size (put_chosen (declare_end mb) s)
                (declare_end mb)) as (img & s' & E & _ & _ & _ & _ & Hch);
      try assumption.
    { apply put_chosen_lookup. }
    rewrite E. simpl. rewrite Hch. simpl.
    eexists _, _, _. split; [reflexivity|]. split; [reflexivity|].
    split; [exact Hch|]. split; reflexivity.
Qed.

(** C10.  When chosen_mb->total_size exceeds the size of the transmit
    buffer, write_mb returns OP_ERROR before set_dispatcher, memcpy and
    write: the buffer, the message block and the descriptors are left as
    they were, and a round of sgsh_negotiate that has to transmit returns
    OP_ERROR at once. *)
Theorem write_mb_rejects_oversized
    (b : option block) (buf_size : Z) (s : negotiator) (mb : block) :
  heap s !! chosen_mb s = Some mb ->
  0 < buf_size < 2 ^ 31 ->
  total_size (header mb) > buf_size ->
  write_mb b buf_size s = Done (OP_ERROR, b, s)
  /\ forall f, transmit f ≠ 0 ->
       exists f' s',
         round_begin buf_size f s = Done (Return (RetOp OP_ERROR), f', s')
         /\ written s' = written s /\ buf f' = buf f.
Proof.
  intros Hc Hb Hbig.
  assert (Hw : forall b0 s1 mb1, heap s1 !! chosen_mb s1 = Some mb1 ->
             total_size (header mb1) = total_size (header mb) ->
             write_mb b0 buf_size s1 = Done (OP_ERROR, b0, s1)).
  { intros b0 s1 mb1 H1 Ht. unfold write_mb, chosen. rewrite H1. simpl.
    rewrite to_size_t_small by lia. rewrite Ht.
    assert ((total_size (header mb) >? buf_size) = true) as ->
      by (apply Z.gtb_lt; lia).
    reflexivity. }
  split; [apply (Hw b s mb Hc eq_refl)|].
  intros f Ht. apply Z.eqb_neq in Ht.
  unfold round_begin. rewrite (check_negotiation_round_eq _ _ _ _ Hc).
  simpl. rewrite Ht.
  destruct ((pid (self_node s) =? initiator_pid (header mb))
            && (negotiation_round f + 1 =? 3) && (updated f =? 0)).
  - rewrite (Hw _ _ (declare_end mb)) by (apply put_chosen_lookup || reflexivity).
    simpl. eexists _, _. split; [reflexivity|]. split; reflexivity.
  - rewrite (Hw _ _ mb Hc eq_refl).
    simpl. eexists _, _. split; [reflexivity|]. split; reflexivity.
Qed.

(** *** The edge implied by the last hop *)

(* With a graph that has nodes, the loop of fill_sgsh_edge leaves [i] at
   origin.index, however large that index is. *)
Lemma dispatcher_loop_stops fuel : forall n_nodes origin_index i,
  n_nodes ≠ 0 -> i <= origin_index ->
  (Z.to_nat (origin_index - i) <= fuel)%nat ->
  dispatcher_loop fuel n_nodes origin_index i = Done origin_index.
Proof.
  induction fuel as [|k IH]; intros n oi i Hn Hi Hf.
  - assert (i = oi) as -> by lia. simpl.
    apply Z.eqb_neq in Hn. rewrite Hn, Z.eqb_refl. reflexivity.
  - simpl. apply Z.eqb_neq in Hn. rewrite Hn.
    destruct (i =? oi) eqn:E.
    + apply Z.eqb_eq in E. subst. reflexivity.
    + apply Z.eqb_neq in E. apply IH; [apply Z.eqb_neq; exact Hn|lia|lia].
Qed.

Lemma dispatcher_loop_empty fuel origin_index :
  dispatcher_loop fuel 0 origin_index 0 = Done 0.
Proof. destruct fuel; reflexivity. Qed.

(* The two assertions of each branch of fill_sgsh_edge. *)
Definition sender_below (s : negotiator) : bool :=
  negb (sgsh_out (self_node s) =? 0)
  && ((negb (sgsh_in (self_node s) =? 0)
       && (fd_direction (self_dispatcher s) =? STDIN_FILENO))
      || (fd_direction (self_dispatcher s) =? STDOUT_FILENO)).
Definition sender_above (s : negotiator) : bool :=
  negb (sgsh_in (self_node s) =? 0)
  && ((negb (sgsh_out (self_node s) =? 0)
       && (fd_direction (self_dispatcher s) =? STDOUT_FILENO))
      || (fd_direction (self_dispatcher s) =? STDIN_FILENO)).

(* The direction of the edge follows origin.fd_direction: a block that its
   sender wrote on stdin makes the sender the destination and self the
   source; a block written on stdout makes the sender the source and self
   the destination.  The only index refused is n_nodes itself. *)
Lemma fill_sgsh_edge_direction fuel s e mb :
  heap s !! chosen_mb s = Some mb ->
  n_nodes (header mb) ≠ 0 ->
  0 <= index (origin (header mb)) ->
  index (origin (header mb)) ≠ n_nodes (header mb) ->
  (Z.to_nat (index (origin (header mb))) <= fuel)%nat ->
  (fd_direction (origin (header mb)) = STDIN_FILENO ->
   sender_below s = true ->
   fill_sgsh_edge fuel s e =
     Done (OP_SUCCESS, {| from := index (self_dispatcher s);
                          to := index (origin (header mb)) |}))
  /\ (fd_direction (origin (header mb)) = STDOUT_FILENO ->
      sender_above s = true ->
      fill_sgsh_edge fuel s e =
        Done (OP_SUCCESS, {| from := index (origin (header mb));
                             to := index (self_dispatcher s) |})).
Proof.
  intros Hc Hn Hi Hne Hf.
  assert (Hl : dispatcher_loop fuel (n_nodes (header mb))
                 (index (origin (header mb))) 0
               = Done (index (origin (header mb))))
    by (apply dispatcher_loop_stops; [assumption|lia|lia]).
  apply Z.eqb_neq in Hne.
  split; intros Hd Ha; unfold fill_sgsh_edge, chosen; rewrite Hc; simpl;
    rewrite Hl; simpl; rewrite Hne, Hd; simpl.
  - unfold sender_below in Ha. apply andb_prop in Ha as [-> ->]. reflexivity.
  - unfold sender_above in Ha. apply andb_prop in Ha as [-> ->]. reflexivity.
Qed.

(* The cases in which fill_sgsh_edge does report a missing dispatcher. *)
Lemma fill_sgsh_edge_refuses fuel s e mb :
  heap s !! chosen_mb s = Some mb ->
  0 <= index (origin (header mb)) ->
  (Z.to_nat (index (origin (header mb))) <= fuel)%nat ->
  n_nodes (header mb) = 0 \/ index (origin (header mb)) = n_nodes (header mb) ->
  fill_sgsh_edge fuel s e = Exited 1.
Proof.
  intros Hc Hi Hf Hcase.
  unfold fill_sgsh_edge, chosen. rewrite Hc. simpl.
  destruct (Z.eq_dec (n_nodes (header mb)) 0) as [E|E].
  - rewrite E, dispatcher_loop_empty. reflexivity.
  - rewrite dispatcher_loop_stops by (try assumption; lia).
    destruct Hcase as [?|H]; [contradiction|].
    simpl. rewrite H, Z.eqb_refl. reflexivity.
Qed.

(** *** A block as it is received

    write_mb copies the struct as it is, node_array and edge_array
    included, and alloc_copy_mb copies the bytes read as they are: a block
    that has been received holds the addresses that realloc_mb_new_node or
    realloc_mb_new_edge assigned in the process that sent it. *)

(* try_add_sgsh_node starts its search at node_array[0]: when that node
   does not lie in the block that chosen_mb points to, the read is outside
   of it. *)
Lemma try_add_sgsh_node_sender_array s mb :
  heap s !! chosen_mb s = Some mb ->
  0 < sizeof_node ->
  0 < n_nodes (header mb) ->
  ~ (chosen_mb s + sizeof_negotiation <= node_array (header mb)
     /\ node_array (header mb) + sizeof_node <= chosen_mb s + allocated mb) ->
  try_add_sgsh_node s = Undefined.
Proof.
  intros Hc Hsz Hn Hout.
  unfold try_add_sgsh_node, chosen. rewrite Hc. simpl.
  destruct (Z.to_nat (n_nodes (header mb))) as [|k] eqn:E; [lia|].
  simpl. unfold node_at, load.
  assert ((sizeof_node =? 0) = false) as -> by (apply Z.eqb_neq; lia).
  assert ((0 <? sizeof_node) = true) as -> by (apply Z.ltb_lt; lia).
  unfold allocated in Hout.
  destruct (0 <=? node_array (header mb) + 0 * sizeof_node
                  - (chosen_mb s + sizeof_negotiation)) eqn:E1;
    [|reflexivity].
  destruct (node_array (header mb) + 0 * sizeof_node
            - (chosen_mb s + sizeof_negotiation) + sizeof_node
            <=? Z.of_nat (length (payload mb))) eqn:E2; [|reflexivity].
  apply Z.leb_le in E1, E2. exfalso. apply Hout. lia.
Qed.

(* A block of an older initiator is made the chosen one where it was read,
   with the addresses it came with, and try_add_sgsh_node runs on it. *)
Lemma compete_message_block_sender_array fuel raw fresh_mb s fresh mb :
  heap s !! fresh_mb = Some fresh ->
  heap s !! chosen_mb s = Some mb ->
  fresh_mb ≠ chosen_mb s ->
  initiator_pid (header fresh) < initiator_pid (header mb) ->
  0 < sizeof_node ->
  0 < n_nodes (header fresh) ->
  ~ (fresh_mb + sizeof_negotiation <= node_array (header fresh)
     /\ node_array (header fresh) + sizeof_node <= fresh_mb + allocated fresh) ->
  compete_message_block fuel raw fresh_mb s = Undefined.
Proof.
  intros Hf Hc Hne Hlt Hsz Hn Hout.
  unfold compete_message_block, chosen. rewrite Hf, Hc. simpl.
  apply Z.ltb_lt in Hlt. rewrite Hlt.
  rewrite (try_add_sgsh_node_sender_array
             (set_chosen_mb fresh_mb (free (chosen_mb s) s)) fresh);
    try assumption; [reflexivity|].
  simpl. rewrite lookup_delete_ne by congruence. exact Hf.
Qed.

(* When the block that arrives has the initiator of the chosen block and
   is not newer, it is freed before try_add_sgsh_edge runs: the edge is
   made from the origin of the block that is kept.  With an origin that
   names a sender on its stdout, a tool that takes no input from the graph
   fails the assertion on self_node.sgsh_in. *)
Lemma compete_message_block_kept_origin fuel raw fresh_mb s fresh mb :
  heap s !! fresh_mb = Some fresh ->
  heap s !! chosen_mb s = Some mb ->
  fresh_mb ≠ chosen_mb s ->
  initiator_pid (header fresh) = initiator_pid (header mb) ->
  serial_no (header fresh) <= serial_no (header mb) ->
  n_nodes (header mb) ≠ 0 ->
  0 <= index (origin (header mb)) ->
  index (origin (header mb)) ≠ n_nodes (header mb) ->
  (Z.to_nat (index (origin (header mb))) <= fuel)%nat ->
  fd_direction (origin (header mb)) = STDOUT_FILENO ->
  sgsh_in (self_node s) = 0 ->
  compete_message_block fuel raw fresh_mb s = Aborted.
Proof.
  intros Hf Hc Hne Heq Hser Hn Hi Hin Hfuel Hfd Hsi.
  unfold compete_message_block, chosen. rewrite Hf, Hc. simpl.
  assert ((initiator_pid (header fresh) <? initiator_pid (header mb)) = false)
    as -> by (apply Z.ltb_ge; lia).
  assert ((initiator_pid (header fresh) >? initiator_pid (header mb)) = false)
    as -> by (rewrite Z.gtb_ltb; apply Z.ltb_ge; lia).
  assert ((serial_no (header fresh) >? serial_no (header mb)) = false)
    as -> by (rewrite Z.gtb_ltb; apply Z.ltb_ge; lia).
  unfold try_add_sgsh_edge, fill_sgsh_edge, chosen. simpl.
  rewrite lookup_delete_ne by congruence. rewrite Hc. simpl.
  assert ((0 <=? index (origin (header mb))) = true) as ->
    by (apply Z.leb_le; lia).
  simpl.
  rewrite dispatcher_loop_stops by (try assumption; lia).
  simpl. apply Z.eqb_neq in Hin. rewrite Hin, Hfd, Hsi. reflexivity.
Qed.

(** *** Receiving a block *)

(* alloc_copy_mb reads mb->total_size before it allocates: with the NULL
   pointer that sgsh_negotiate passes, nothing is returned. *)
Lemma alloc_copy_mb_null mb b n buf_size s :
  heap s !! mb = None -> alloc_copy_mb mb b n buf_size s = Undefined.
Proof. intros H. unfold alloc_copy_mb. rewrite H. reflexivity. Qed.

(* try_read_message_block returns no pointer, and sgsh_negotiate goes on
   with the pointer it had: a successful wait leaves chosen_mb equal to the
   old value of fresh_mb. *)
Lemma wait_for_mb_keeps_pointer rs buf_size f s c f' s' :
  wait_for_mb rs buf_size f s = Done (c, f', s') ->
  fresh_mb f' = fresh_mb f /\ (c = Next -> chosen_mb s' = fresh_mb f).
Proof.
  unfold wait_for_mb. intros H. inv_bind H. destruct a as [[r b] s1].
  destruct (r =? OP_ERROR); inversion H; subst; simpl.
  - split; [reflexivity|discriminate].
  - split; reflexivity.
Qed.

(* The waiting tool starts with fresh_mb == NULL: the first block that
   arrives, on whichever side, is lost in a NULL dereference. *)
Lemma wait_for_mb_null b buf_size f s :
  0 < sizeof_negotiation ->
  heap s !! fresh_mb f = None ->
  wait_for_mb [ReadBlock b] buf_size f s = Undefined
  /\ wait_for_mb [ReadError EAGAIN; ReadBlock b] buf_size f s = Undefined.
Proof.
  intros Hpos H. unfold wait_for_mb, try_read_message_block. simpl.
  assert ((allocated b =? -1) = false) as ->
    by (apply Z.eqb_neq; unfold allocated; lia).
  rewrite alloc_copy_mb_null by exact H. split; reflexivity.
Qed.

(** *** The compact layout of a message block *)

Section Layout.

Hypothesis sizeof_node_pos : 0 < sizeof_node.
Hypothesis sizeof_edge_pos : 0 < sizeof_edge.
Hypothesis enc_node_size : forall n, Z.of_nat (length (enc_node n)) = sizeof_node.
Hypothesis enc_edge_size : forall e, Z.of_nat (length (enc_edge e)) = sizeof_edge.

Definition encode_nodes (ns : list sgsh_node) : list Byte.byte :=
  concat (map enc_node ns).
Definition encode_edges (es : list sgsh_edge) : list Byte.byte :=
  concat (map enc_edge es).

(* The memory organisation of the message block: the struct, then n_nodes
   nodes, then n_edges edges, and nothing else. *)
Record compact (base : Z) (mb : block)
    (ns : list sgsh_node) (es : list sgsh_edge) : Prop := {
  compact_n_nodes : n_nodes (header mb) = Z.of_nat (length ns);
  compact_n_edges : n_edges (header mb) = Z.of_nat (length es);
  compact_total_size :
    total_size (header mb) =
      sizeof_negotiation + n_nodes (header mb) * sizeof_node
      + n_edges (header mb) * sizeof_edge;
  compact_payload :
    payload mb = map Some (encode_nodes ns ++ encode_edges es);
  compact_node_array :
    ns ≠ [] -> node_array (header mb) = base + sizeof_negotiation;
  compact_edge_array :
    es ≠ [] ->
    edge_array (header mb) =
      base + sizeof_negotiation + n_nodes (header mb) * sizeof_node
}.

Lemma length_encode_nodes ns :
  Z.of_nat (length (encode_nodes ns)) = Z.of_nat (length ns) * sizeof_node.
Proof.
  unfold encode_nodes. induction ns as [|n ns IH]; [reflexivity|].
  simpl concat. rewrite length_app. simpl length.
  pose proof (enc_node_size n). lia.
Qed.

Lemma length_encode_edges es :
  Z.of_nat (length (encode_edges es)) = Z.of_nat (length es) * sizeof_edge.
Proof.
  unfold encode_edges. induction es as [|e es IH]; [reflexivity|].
  simpl concat. rewrite length_app. simpl length.
  pose proof (enc_edge_size e). lia.
Qed.

Lemma compact_allocated base mb ns es :
  compact base mb ns es -> allocated mb = total_size (header mb).
Proof.
  intros [Hn He Ht Hp _ _]. unfold allocated.
  rewrite Hp, length_map, length_app, Ht, Hn, He.
  pose proof (length_encode_nodes ns). pose proof (length_encode_edges es).
  lia.
Qed.

Lemma initialised_map_Some l : initialised (map Some l) = Some l.
Proof. induction l as [|x l IH]; simpl; [|rewrite IH]; reflexivity. Qed.

(* Reading a run of initialised bytes. *)
Lemma load_slice base mb (A B C : list Byte.byte) a :
  payload mb = map Some (A ++ B ++ C) ->
  a = base + sizeof_negotiation + Z.of_nat (length A) ->
  load base mb a (Z.of_nat (length B)) = Done B.
Proof.
  intros Hp ->. unfold load.
  destruct (Z.of_nat (length B) =? 0) eqn:E.
  - apply Z.eqb_eq in E. destruct B; [reflexivity|simpl in E; lia].
  - apply Z.eqb_neq in E.
    replace (base + sizeof_negotiation + Z.of_nat (length A)
             - (base + sizeof_negotiation)) with (Z.of_nat (length A)) by lia.
    rewrite Hp, length_map, !length_app.
    assert ((0 <? Z.of_nat (length B)) = true) as -> by (apply Z.ltb_lt; lia).
    assert ((0 <=? Z.of_nat (length A)) = true) as -> by (apply Z.leb_le; lia).
    assert ((Z.of_nat (length A) + Z.of_nat (length B)
             <=? Z.of_nat (length A + (length B + length C))%nat) = true)
      as -> by (apply Z.leb_le; lia).
    simpl. rewrite !Nat2Z.id, !map_app.
    rewrite drop_app_length' by (rewrite length_map; reflexivity).
    rewrite take_app_length' by (rewrite length_map; reflexivity).
    rewrite initialised_map_Some. reflexivity.
Qed.

(* Overwriting a run of bytes. *)
Lemma store_slice base mb (X Y W : list (option Byte.byte)) a bs :
  payload mb = X ++ Y ++ W ->
  length Y = length bs ->
  a = base + sizeof_negotiation + Z.of_nat (length X) ->
  store base mb a bs = Done (set_payload (X ++ map Some bs ++ W) mb).
Proof.
  intros Hp Hl ->. unfold store.
  destruct (Z.of_nat (length bs) =? 0) eqn:E.
  - apply Z.eqb_eq in E. destruct bs; [|simpl in E; lia].
    destruct Y; [|discriminate]. destruct mb as [h p]. simpl in *.
    subst p. reflexivity.
  - replace (base + sizeof_negotiation + Z.of_nat (length X)
             - (base + sizeof_negotiation)) with (Z.of_nat (length X)) by lia.
    rewrite Hp, !length_app, Hl.
    assert ((0 <=? Z.of_nat (length X)) = true) as -> by (apply Z.leb_le; lia).
    assert ((Z.of_nat (length X) + Z.of_nat (length bs)
             <=? Z.of_nat (length X + (length bs + length W))%nat) = true)
      as -> by (apply Z.leb_le; lia).
    simpl. rewrite Nat2Z.id.
    rewrite take_app_length.
    replace (Z.to_nat (Z.of_nat (length X) + Z.of_nat (length bs)))
      with (length X + length Y)%nat by lia.
    rewrite <- drop_drop, drop_app_length, drop_app_length. reflexivity.
Qed.

Lemma load_edges s mb ns es :
  compact (chosen_mb s) mb ns es ->
  load (chosen_mb s) mb (edge_array (header mb))
       (sizeof_edge * n_edges (header mb)) = Done (encode_edges es).
Proof.
  intros [Hn He Ht Hp Hna Hea].
  destruct es as [|e es'].
  - rewrite He. simpl. unfold load. rewrite Z.mul_0_r. reflexivity.
  - replace (sizeof_edge * n_edges (header mb))
      with (Z.of_nat (length (encode_edges (e :: es'))))
      by (rewrite length_encode_edges, He; lia).
    apply load_slice with (A := encode_nodes ns) (C := []).
    + rewrite app_nil_r. exact Hp.
    + rewrite Hea by discriminate. rewrite length_encode_nodes, Hn. lia.
Qed.

(* The header after realloc_mb_new_node has run at address [p]. *)
Definition grown_for_node (p : Z) (hd : sgsh_negotiation) : sgsh_negotiation :=
  set_edge_array (p + sizeof_negotiation + (n_nodes hd + 1) * sizeof_node)
    (set_node_array (p + sizeof_negotiation)
       (set_total_size (total_size hd + sizeof_node) hd)).

(* realloc_mb_new_node keeps the nodes in place, leaves room for one more
   node after them and moves the edges behind that room. *)
Lemma realloc_mb_new_node_compact s mb ns es p :
  heap s !! chosen_mb s = Some mb ->
  compact (chosen_mb s) mb ns es ->
  p = allocator (delete (chosen_mb s) (heap s))
                (total_size (header mb) + sizeof_node) ->
  p ≠ 0 ->
  exists G s',
    length G = Z.to_nat sizeof_node /\
    realloc_mb_new_node s = Done (OP_SUCCESS, s') /\
    chosen_mb s' = p /\ self_node s' = self_node s /\
    self_dispatcher s' = self_dispatcher s /\ written s' = written s /\
    heap s' =
      <[p := {| header := grown_for_node p (header mb);
                payload := map Some (encode_nodes ns) ++ G
                           ++ map Some (encode_edges es) |}]>
        (delete (chosen_mb s) (heap s)).
Proof.
  intros Hc Hcomp Hp Hp0.
  pose proof (load_edges _ _ _ _ Hcomp) as Hload.
  pose proof (length_encode_nodes ns) as HlN.
  pose proof (length_encode_edges es) as HlE.
  destruct Hcomp as [Hn He Ht Hpay Hna Hea].
  set (N := encode_nodes ns) in *. set (E := encode_edges es) in *.
  set (P := map Some (N ++ E) ++ replicate (Z.to_nat sizeof_node) None).
  set (o := (length N + Z.to_nat sizeof_node)%nat).
  assert (HlP : length P = (length N + length E + Z.to_nat sizeof_node)%nat).
  { unfold P. rewrite length_app, length_map, length_app, length_replicate.
    reflexivity. }
  exists (take (Z.to_nat sizeof_node) (drop (length N) P)).
  eexists. split.
  { rewrite length_take_le; [reflexivity|]. rewrite length_drop. lia. }
  unfold realloc_mb_new_node, chosen. rewrite Hc. simpl. rewrite Hload. simpl.
  unfold realloc, chosen. rewrite Hc. simpl. rewrite <- Hp.
  apply Z.eqb_neq in Hp0. rewrite Hp0. simpl. rewrite Hp0.
  unfold chosen. simpl. rewrite lookup_insert_eq. simpl.
  rewrite resize_ge by (rewrite Hpay, length_map, length_app; lia).
  replace (Z.to_nat (total_size (header mb) + sizeof_node - sizeof_negotiation)
           - length (payload mb))%nat with (Z.to_nat sizeof_node)
    by (rewrite Hpay, length_map, length_app; lia).
  rewrite Hpay. fold P.
  erewrite (store_slice p _ (take o P) (drop o P) []).
  - simpl. split; [reflexivity|]. simpl. repeat split.
    rewrite insert_insert_eq. f_equal. unfold grown_for_node. f_equal.
    rewrite app_nil_r. unfold o.
    rewrite <- take_take_drop. rewrite <- app_assoc. f_equal.
    unfold P. rewrite map_app, <- app_assoc.
    rewrite take_app_length' by (rewrite length_map; reflexivity).
    reflexivity.
  - simpl. rewrite app_nil_r, take_drop. reflexivity.
  - rewrite length_drop. lia.
  - simpl. rewrite length_take_le by lia. unfold o. lia.
Qed.

Lemma realloc_mb_new_node_fails s mb ns es :
  heap s !! chosen_mb s = Some mb ->
  compact (chosen_mb s) mb ns es ->
  allocator (delete (chosen_mb s) (heap s))
            (total_size (header mb) + sizeof_node) = 0 ->
  realloc_mb_new_node s = Exited 1.
Proof.
  intros Hc Hcomp Hp.
  unfold realloc_mb_new_node, chosen. rewrite Hc. simpl.
  rewrite (load_edges _ _ _ _ Hcomp). simpl.
  unfold realloc, chosen. rewrite Hc. simpl. rewrite Hp. reflexivity.
Qed.

(* The header after realloc_mb_new_edge has run at address [p]. *)
Definition grown_for_edge (p : Z) (hd : sgsh_negotiation) : sgsh_negotiation :=
  set_edge_array (p + sizeof_negotiation + n_nodes hd * sizeof_node)
    (set_node_array (p + sizeof_negotiation)
       (set_total_size (total_size hd + sizeof_edge) hd)).

Lemma realloc_mb_new_edge_eq s mb ns es :
  heap s !! chosen_mb s = Some mb ->
  compact (chosen_mb s) mb ns es ->
  let p := allocator (delete (chosen_mb s) (heap s))
                     (total_size (header mb) + sizeof_edge) in
  realloc_mb_new_edge s =
    if p =? 0 then Exited 1
    else Done (OP_SUCCESS,
               set_heap
                 (<[p := {| header := grown_for_edge p (header mb);
                            payload := map Some (encode_nodes ns ++ encode_edges es)
                                       ++ replicate (Z.to_nat sizeof_edge) None |}]>
                    (delete (chosen_mb s) (heap s)))
                 (set_chosen_mb p s)).
Proof.
  intros Hc Hcomp p.
  pose proof (length_encode_nodes ns) as HlN.
  pose proof (length_encode_edges es) as HlE.
  destruct Hcomp as [Hn He Ht Hpay Hna Hea].
  unfold realloc_mb_new_edge, chosen. rewrite Hc. simpl.
  unfold realloc, chosen. rewrite Hc. simpl. fold p.
  destruct (p =? 0) eqn:Hp0; simpl; rewrite ?Hp0; [reflexivity|].
  unfold chosen. simpl. rewrite lookup_insert_eq. simpl.
  unfold put_chosen, set_heap, set_chosen_mb. simpl.
  rewrite insert_insert_eq.
  rewrite resize_ge by (rewrite Hpay, length_map, length_app; lia).
  replace (Z.to_nat (total_size (header mb) + sizeof_edge - sizeof_negotiation)
           - length (payload mb))%nat with (Z.to_nat sizeof_edge)
    by (rewrite Hpay, length_map, length_app; lia).
  rewrite Hpay. reflexivity.
Qed.

Lemma encode_nodes_snoc ns n :
  encode_nodes (ns ++ [n]) = encode_nodes ns ++ enc_node n.
Proof.
  unfold encode_nodes. rewrite map_app, concat_app. simpl.
  rewrite app_nil_r. reflexivity.
Qed.

Lemma encode_edges_snoc es e :
  encode_edges (es ++ [e]) = encode_edges es ++ enc_edge e.
Proof.
  unfold encode_edges. rewrite map_app, concat_app. simpl.
  rewrite app_nil_r. reflexivity.
Qed.

(** try_add_sgsh_node keeps the block compact: it either finds a node with
    the pid of self and changes nothing in the block, or appends self to the
    nodes, in front of the edges, and bumps serial_no. *)
Lemma try_add_sgsh_node_compact s mb ns es r s' :
  heap s !! chosen_mb s = Some mb ->
  compact (chosen_mb s) mb ns es ->
  try_add_sgsh_node s = Done (r, s') ->
  exists mb' ns',
    heap s' !! chosen_mb s' = Some mb' /\
    compact (chosen_mb s') mb' ns' es /\
    ((r = OP_SUCCESS /\ ns' = ns ++ [self_node s] /\
      serial_no (header mb') = serial_no (header mb) + 1 /\
      index (self_dispatcher s') = n_nodes (header mb))
     \/ (r = OP_EXISTS /\ ns' = ns /\ mb' = mb)).
Proof.
  intros Hc Hcomp H.
  pose proof (length_encode_nodes ns) as HlN.
  pose proof (length_encode_edges es) as HlE.
  unfold try_add_sgsh_node in H. rewrite (chosen_eq _ _ Hc) in H.
  simpl in H. inv_bind H.
  destruct (a =? n_nodes (header mb)) eqn:Ei.
  - set (p := allocator (delete (chosen_mb s) (heap s))
                (total_size (header mb) + sizeof_node)).
    destruct (Z.eq_dec p 0) as [Hp0|Hp0].
    { rewrite (realloc_mb_new_node_fails _ _ _ _ Hc Hcomp Hp0) in H.
      discriminate. }
    destruct (realloc_mb_new_node_compact _ _ _ _ p Hc Hcomp eq_refl Hp0)
      as (G & s1 & HG & E & Hcm & Hsn & Hsd & Hw & Hh).
    rewrite E in H. simpl in H.
    unfold chosen in H. rewrite Hh, Hcm, lookup_insert_eq in H. simpl in H.
    destruct Hcomp as [Hn He Ht Hpay Hna Hea].
    erewrite (store_slice p _ (map Some (encode_nodes ns)) G
                (map Some (encode_edges es))) in H.
    + simpl in H. inversion H; subst r s'; clear H.
      eexists _, (ns ++ [self_node s]). simpl. rewrite Hcm.
      split; [apply lookup_insert_eq|].
      split; [|left; repeat split; rewrite Hsn; reflexivity].
      constructor; simpl.
      * rewrite length_app. simpl. lia.
      * exact He.
      * lia.
      * rewrite Hsn, encode_nodes_snoc, !map_app, <- !app_assoc. reflexivity.
      * reflexivity.
      * intros _. lia.
    + reflexivity.
    + rewrite HG. pose proof (enc_node_size (self_node s1)). lia.
    + simpl. rewrite length_map. lia.
  - inversion H; subst r s'; clear H. exists mb, ns. simpl.
    split; [exact Hc|]. split; [exact Hcomp|]. right. repeat split.
Qed.

(** try_add_sgsh_edge keeps the block compact: a new edge is appended after
    the edges already there and serial_no is bumped; otherwise the process
    is left as it was. *)
Lemma try_add_sgsh_edge_compact fuel raw s mb ns es r s' :
  heap s !! chosen_mb s = Some mb ->
  compact (chosen_mb s) mb ns es ->
  try_add_sgsh_edge fuel raw s = Done (r, s') ->
  exists mb' es',
    heap s' !! chosen_mb s' = Some mb' /\
    compact (chosen_mb s') mb' ns es' /\
    ((r = OP_SUCCESS /\ (exists e, es' = es ++ [e]) /\
      serial_no (header mb') = serial_no (header mb) + 1)
     \/ (r ≠ OP_SUCCESS /\ es' = es /\ s' = s /\ mb' = mb)).
Proof.
  intros Hc Hcomp H.
  pose proof (length_encode_nodes ns) as HlN.
  pose proof (length_encode_edges es) as HlE.
  unfold try_add_sgsh_edge in H. rewrite (chosen_eq _ _ Hc) in H.
  simpl in H.
  destruct (0 <=? index (origin (header mb))).
  2:{ inversion H; subst. exists mb, es.
      split; [assumption|]. split; [assumption|].
      right. repeat split. discriminate. }
  inv_bind H. destruct a as [r0 new_edge]. inv_bind H.
  destruct (a =? OP_CREATE).
  2:{ inversion H; subst. exists mb, es.
      split; [assumption|]. split; [assumption|].
      right. repeat split. discriminate. }
  rewrite (realloc_mb_new_edge_eq _ _ _ _ Hc Hcomp) in H.
  set (p := allocator (delete (chosen_mb s) (heap s))
              (total_size (header mb) + sizeof_edge)) in *.
  destruct (p =? 0) eqn:Hp0; [discriminate|]. simpl in H.
  unfold chosen in H. simpl in H. rewrite lookup_insert_eq in H. simpl in H.
  destruct Hcomp as [Hn He Ht Hpay Hna Hea].
  erewrite (store_slice p _ (map Some (encode_nodes ns ++ encode_edges es))
              (replicate (Z.to_nat sizeof_edge) None) []) in H.
  - simpl in H. inversion H; subst r s'; clear H.
    eexists _, (es ++ [new_edge]). simpl.
    split; [apply lookup_insert_eq|].
    split; [|left; repeat split; eauto].
    constructor; simpl.
    + exact Hn.
    + rewrite length_app. simpl. lia.
    + lia.
    + rewrite encode_edges_snoc, app_nil_r, !map_app, <- !app_assoc.
      reflexivity.
    + reflexivity.
    + reflexivity.
  - simpl. rewrite app_nil_r. reflexivity.
  - rewrite length_replicate. pose proof (enc_edge_size new_edge). lia.
  - simpl. rewrite length_map, length_app. lia.
Qed.

(* The other functions that write to the chosen block change fields of the
   struct that the layout does not depend on. *)
Lemma compact_same_layout base mb mb' ns es :
  compact base mb ns es ->
  payload mb' = payload mb ->
  n_nodes (header mb') = n_nodes (header mb) ->
  n_edges (header mb') = n_edges (header mb) ->
  total_size (header mb') = total_size (header mb) ->
  node_array (header mb') = node_array (header mb) ->
  edge_array (header mb') = edge_array (header mb) ->
  compact base mb' ns es.
Proof.
  intros [Hn He Ht Hpay Hna Hea] E1 E2 E3 E4 E5 E6.
  constructor; rewrite ?E1, ?E2, ?E3, ?E4, ?E5, ?E6; assumption.
Qed.

(* construct_message_block assigns n_nodes and total_size but not n_edges:
   the new block is compact exactly when the memory it got from malloc holds
   0 where n_edges lies. *)
Lemma construct_message_block_compact raw self_pid s :
  allocator (heap s) sizeof_negotiation ≠ 0 ->
  exists mb s',
    construct_message_block raw self_pid s = Done (OP_SUCCESS, s') /\
    heap s' !! chosen_mb s' = Some mb /\
    total_size (header mb) = sizeof_negotiation /\
    n_nodes (header mb) = 0 /\
    n_edges (header mb) = n_edges raw /\
    (compact (chosen_mb s') mb [] [] <-> n_edges raw = 0).
Proof.
  intros Hp. unfold construct_message_block.
  apply Z.eqb_neq in Hp. rewrite Hp.
  eexists _, _. split; [reflexivity|]. simpl.
  split; [apply lookup_insert_eq|]. simpl. repeat split.
  - intros [_ He _ _ _ _]. exact He.
  - simpl. exact H.
  - simpl. rewrite H. lia.
  - intros []. reflexivity.
  - intros []. reflexivity.
Qed.

(** *** Reading the arrays of a compact block *)

(* The index at which the loop of try_add_sgsh_node stops: that of the
   first node with pid [p], or the number of nodes. *)
Fixpoint first_with_pid (p : Z) (ns : list sgsh_node) : nat :=
  match ns with
  | [] => O
  | n :: rest => if pid n =? p then O else S (first_with_pid p rest)
  end.

(* Does the loop of lookup_sgsh_edge meet an edge with the ends of [e]? *)
Definition has_edge (e : sgsh_edge) (es : list sgsh_edge) : bool :=
  existsb (fun x => (from x =? from e) && (to x =? to e)) es.

Lemma first_with_pid_le p ns : (first_with_pid p ns <= length ns)%nat.
Proof.
  induction ns as [|n ns IH]; simpl; [lia|].
  destruct (pid n =? p); lia.
Qed.

Lemma first_with_pid_absent p ns :
  first_with_pid p ns = length ns <-> Forall (fun n => pid n ≠ p) ns.
Proof.
  induction ns as [|n ns IH]; simpl.
  - split; [constructor|reflexivity].
  - destruct (pid n =? p) eqn:E.
    + apply Z.eqb_eq in E. split; [discriminate|].
      intros H. apply Forall_cons in H as [H _]. contradiction.
    + apply Z.eqb_neq in E. split.
      * intros H. constructor; [exact E|]. apply IH. lia.
      * intros H. apply Forall_cons in H as [_ H]. f_equal. apply IH. exact H.
Qed.

Lemma first_with_pid_snoc p ns n :
  first_with_pid p ns = length ns -> pid n = p ->
  first_with_pid p (ns ++ [n]) = length ns.
Proof.
  intros H Hp. induction ns as [|m ns IH]; simpl in *.
  - rewrite Hp, Z.eqb_refl. reflexivity.
  - destruct (pid m =? p); [discriminate|]. f_equal. apply IH. lia.
Qed.

Lemma has_edge_elem e es : has_edge e es = true <-> e ∈ es.
Proof.
  unfold has_edge. rewrite existsb_exists. split.
  - intros (x & Hin & Hx). apply andb_prop in Hx as [H1 H2].
    apply Z.eqb_eq in H1, H2. apply list_elem_of_In in Hin.
    destruct x, e; simpl in *; subst. exact Hin.
  - intros Hin. exists e. split; [apply list_elem_of_In; exact Hin|].
    rewrite !Z.eqb_refl. reflexivity.
Qed.

Lemma encode_nodes_app ns1 ns2 :
  encode_nodes (ns1 ++ ns2) = encode_nodes ns1 ++ encode_nodes ns2.
Proof. unfold encode_nodes. rewrite map_app, concat_app. reflexivity. Qed.

Lemma encode_edges_app es1 es2 :
  encode_edges (es1 ++ es2) = encode_edges es1 ++ encode_edges es2.
Proof. unfold encode_edges. rewrite map_app, concat_app. reflexivity. Qed.

(* chosen_mb->node_array[i] of a compact block is the memory image of the
   i-th node. *)
Lemma node_at_compact base mb ns es (i : nat) n :
  compact base mb ns es ->
  ns !! i = Some n ->
  node_at base mb (Z.of_nat i) = Done (dec_node (enc_node n)).
Proof.
  intros [Hn He Ht Hp Hna Hea] Hi. unfold node_at.
  rewrite <- (enc_node_size n).
  rewrite (load_slice base mb (encode_nodes (take i ns)) (enc_node n)
             (encode_nodes (drop (S i) ns) ++ encode_edges es)).
  - reflexivity.
  - rewrite Hp. f_equal.
    rewrite <- (take_drop_middle ns i n Hi) at 1.
    rewrite encode_nodes_app. unfold encode_nodes at 2. simpl.
    fold (encode_nodes (drop (S i) ns)). rewrite <- !app_assoc. reflexivity.
  - rewrite Hna by (intros ->; discriminate).
    rewrite length_encode_nodes, length_take.
    apply lookup_lt_Some in Hi. rewrite enc_node_size. lia.
Qed.

Lemma edge_at_compact base mb ns es (i : nat) e :
  compact base mb ns es ->
  es !! i = Some e ->
  edge_at base mb (Z.of_nat i) = Done (dec_edge (enc_edge e)).
Proof.
  intros [Hn He Ht Hp Hna Hea] Hi. unfold edge_at.
  rewrite <- (enc_edge_size e).
  rewrite (load_slice base mb (encode_nodes ns ++ encode_edges (take i es))
             (enc_edge e) (encode_edges (drop (S i) es))).
  - reflexivity.
  - rewrite Hp. f_equal.
    rewrite <- (take_drop_middle es i e Hi) at 1.
    rewrite encode_edges_app. unfold encode_edges at 2. simpl.
    fold (encode_edges (drop (S i) es)). rewrite <- !app_assoc. reflexivity.
  - rewrite Hea by (intros ->; discriminate).
    rewrite length_app, Nat2Z.inj_add, length_encode_nodes,
      length_encode_edges, length_take, Hn.
    apply lookup_lt_Some in Hi. rewrite enc_edge_size. lia.
Qed.

(* The loop of try_add_sgsh_node over a compact block whose nodes can be
   read back. *)
Lemma find_self_compact base mb ns es p :
  compact base mb ns es ->
  Forall (fun n => pid (dec_node (enc_node n)) = pid n) ns ->
  forall todo i,
    (i + todo = length ns)%nat ->
    find_self base mb p (Z.of_nat i) todo
    = Done (Z.of_nat (i + first_with_pid p (drop i ns))).
Proof.
  intros Hcomp Hrt. induction todo as [|k IH]; intros i Hi.
  - simpl. rewrite drop_ge by lia. simpl. do 2 f_equal. lia.
  - destruct (lookup_lt_is_Some_2 ns i ltac:(lia)) as [n Hn].
    simpl find_self. rewrite (node_at_compact _ _ _ _ _ _ Hcomp Hn). simpl.
    rewrite (drop_S _ _ _ Hn). simpl.
    rewrite (proj1 (Forall_lookup _ _) Hrt i n Hn).
    destruct (pid n =? p).
    + do 2 f_equal. lia.
    + replace (Z.of_nat i + 1) with (Z.of_nat (S i)) by lia.
      rewrite IH by lia. do 2 f_equal. lia.
Qed.

(* The loop of lookup_sgsh_edge over a compact block whose edges can be
   read back. *)
Lemma lookup_sgsh_edge_from_compact base mb ns es e :
  compact base mb ns es ->
  Forall (fun x => dec_edge (enc_edge x) = x) es ->
  forall todo i,
    (i + todo = length es)%nat ->
    lookup_sgsh_edge_from base mb e (Z.of_nat i) todo
    = Done (if has_edge e (drop i es) then OP_EXISTS else OP_CREATE).
Proof.
  intros Hcomp Hrt. induction todo as [|k IH]; intros i Hi.
  - simpl. rewrite drop_ge by lia. reflexivity.
  - destruct (lookup_lt_is_Some_2 es i ltac:(lia)) as [x Hx].
    simpl lookup_sgsh_edge_from.
    rewrite (edge_at_compact _ _ _ _ _ _ Hcomp Hx). simpl.
    rewrite (drop_S _ _ _ Hx). unfold has_edge. simpl.
    rewrite (proj1 (Forall_lookup _ _) Hrt i x Hx).
    destruct ((from x =? from e) && (to x =? to e)); [reflexivity|].
    replace (Z.of_nat i + 1) with (Z.of_nat (S i)) by lia.
    rewrite IH by lia. reflexivity.
Qed.

Lemma lookup_sgsh_edge_compact s mb ns es e :
  heap s !! chosen_mb s = Some mb ->
  compact (chosen_mb s) mb ns es ->
  Forall (fun x => dec_edge (enc_edge x) = x) es ->
  lookup_sgsh_edge s e = Done (if has_edge e es then OP_EXISTS else OP_CREATE).
Proof.
  intros Hc Hcomp Hrt. unfold lookup_sgsh_edge. rewrite (chosen_eq _ _ Hc).
  simpl. rewrite (compact_n_edges _ _ _ _ Hcomp), Nat2Z.id.
  apply (lookup_sgsh_edge_from_compact _ _ _ _ _ Hcomp Hrt (length es) O).
  reflexivity.
Qed.

(* try_add_sgsh_node, in all its cases, on a compact block. *)
Lemma try_add_sgsh_node_total s mb ns es :
  heap s !! chosen_mb s = Some mb ->
  compact (chosen_mb s) mb ns es ->
  Forall (fun n => pid (dec_node (enc_node n)) = pid n) ns ->
  let i := first_with_pid (pid (self_node s)) ns in
  let p := allocator (delete (chosen_mb s) (heap s))
             (total_size (header mb) + sizeof_node) in
  if (i <? length ns)%nat then
    try_add_sgsh_node s
    = Done (OP_EXISTS,
            set_self_dispatcher (set_index (Z.of_nat i) (self_dispatcher s)) s)
  else if p =? 0 then try_add_sgsh_node s = Exited 1
  else exists s' mb',
    try_add_sgsh_node s = Done (OP_SUCCESS, s')
    /\ chosen_mb s' = p
    /\ heap s' !! p = Some mb'
    /\ (forall k, k ≠ p -> heap s' !! k = delete (chosen_mb s) (heap s) !! k)
    /\ compact p mb' (ns ++ [self_node s]) es
    /\ header mb'
       = bump_serial_no
           (set_n_nodes (n_nodes (header mb) + 1)
              (grown_for_node p (header mb)))
    /\ self_node s' = self_node s
    /\ self_dispatcher s'
       = set_index (Z.of_nat (length ns)) (self_dispatcher s)
    /\ written s' = written s.
Proof.
  intros Hc Hcomp Hrt i p.
  pose proof (first_with_pid_le (pid (self_node s)) ns) as Hle. fold i in Hle.
  pose proof (find_self_compact (chosen_mb s) mb ns es (pid (self_node s))
                Hcomp Hrt (length ns) O eq_refl) as Hfind.
  rewrite drop_0 in Hfind. fold i in Hfind.
  change (Z.of_nat 0) with 0 in Hfind. change (0 + i)%nat with i in Hfind.
  pose proof (compact_n_nodes _ _ _ _ Hcomp) as Hn.
  unfold try_add_sgsh_node. rewrite (chosen_eq _ _ Hc). simpl.
  rewrite Hn, Nat2Z.id, Hfind. simpl.
  destruct (i <? length ns)%nat eqn:Ei.
  - apply Nat.ltb_lt in Ei.
    assert ((Z.of_nat i =? Z.of_nat (length ns)) = false) as ->
      by (apply Z.eqb_neq; lia).
    reflexivity.
  - apply Nat.ltb_ge in Ei. assert (i = length ns) as -> by lia.
    rewrite Z.eqb_refl.
    destruct (p =? 0) eqn:Hp0.
    + apply Z.eqb_eq in Hp0.
      rewrite (realloc_mb_new_node_fails _ _ _ _ Hc Hcomp Hp0). reflexivity.
    + apply Z.eqb_neq in Hp0.
      destruct (realloc_mb_new_node_compact _ _ _ _ p Hc Hcomp eq_refl Hp0)
        as (G & s1 & HG & E & Hcm & Hsn & Hsd & Hw & Hh).
      rewrite E. simpl.
      unfold chosen. rewrite Hh, Hcm, lookup_insert_eq. simpl.
      pose proof (length_encode_nodes ns) as HlN.
      pose proof (length_encode_edges es) as HlE.
      destruct Hcomp as [_ He Ht Hpay Hna Hea].
      erewrite (store_slice p _ (map Some (encode_nodes ns)) G
                  (map Some (encode_edges es))).
      * simpl. eexists _, _. split; [reflexivity|]. simpl. rewrite Hcm.
        split; [reflexivity|]. split; [apply lookup_insert_eq|].
        split.
        { intros k Hk. rewrite lookup_insert_ne by congruence.
          rewrite Hh. apply lookup_insert_ne. congruence. }
        split.
        { constructor; simpl.
          - rewrite length_app. simpl. lia.
          - exact He.
          - lia.
          - rewrite Hsn, encode_nodes_snoc, !map_app, <- !app_assoc.
            reflexivity.
          - reflexivity.
          - intros _. lia. }
        split; [simpl; rewrite ?Hn; reflexivity|]. split; [exact Hsn|].
        split; [rewrite Hsd; reflexivity|exact Hw].
      * reflexivity.
      * rewrite HG. pose proof (enc_node_size (self_node s1)). lia.
      * simpl. rewrite length_map. lia.
Qed.

(* try_add_sgsh_edge, in all its cases, on a compact block that has an
   origin, once fill_sgsh_edge has produced the edge [e]. *)
Lemma try_add_sgsh_edge_total fuel raw s mb ns es r0 e :
  heap s !! chosen_mb s = Some mb ->
  compact (chosen_mb s) mb ns es ->
  Forall (fun x => dec_edge (enc_edge x) = x) es ->
  0 <= index (origin (header mb)) ->
  fill_sgsh_edge fuel s raw = Done (r0, e) ->
  let p := allocator (delete (chosen_mb s) (heap s))
             (total_size (header mb) + sizeof_edge) in
  if has_edge e es then try_add_sgsh_edge fuel raw s = Done (OP_EXISTS, s)
  else if p =? 0 then try_add_sgsh_edge fuel raw s = Exited 1
  else exists s' mb',
    try_add_sgsh_edge fuel raw s = Done (OP_SUCCESS, s')
    /\ chosen_mb s' = p
    /\ heap s' !! p = Some mb'
    /\ (forall k, k ≠ p -> heap s' !! k = delete (chosen_mb s) (heap s) !! k)
    /\ compact p mb' ns (es ++ [e])
    /\ header mb'
       = bump_serial_no
           (set_n_edges (n_edges (header mb) + 1)
              (grown_for_edge p (header mb)))
    /\ self_node s' = self_node s
    /\ self_dispatcher s' = self_dispatcher s
    /\ written s' = written s.
Proof.
  intros Hc Hcomp Hrt Hi Hfill p.
  pose proof (length_encode_nodes ns) as HlN.
  pose proof (length_encode_edges es) as HlE.
  unfold try_add_sgsh_edge. rewrite (chosen_eq _ _ Hc). simpl.
  assert ((0 <=? index (origin (header mb))) = true) as ->
    by (apply Z.leb_le; exact Hi).
  rewrite Hfill. simpl.
  rewrite (lookup_sgsh_edge_compact _ _ _ _ e Hc Hcomp Hrt). simpl.
  destruct (has_edge e es); [reflexivity|].
  change (OP_CREATE =? OP_CREATE) with true. cbv iota.
  rewrite (realloc_mb_new_edge_eq _ _ _ _ Hc Hcomp). fold p.
  destruct (p =? 0) eqn:Hp0; [reflexivity|]. simpl.
  unfold chosen. simpl. rewrite lookup_insert_eq. simpl.
  destruct Hcomp as [Hn He Ht Hpay Hna Hea].
  erewrite (store_slice p _ (map Some (encode_nodes ns ++ encode_edges es))
              (replicate (Z.to_nat sizeof_edge) None) []).
  - simpl. eexists _, _. split; [reflexivity|]. simpl.
    split; [reflexivity|]. split; [apply lookup_insert_eq|].
    split.
    { intros k Hk. rewrite lookup_insert_ne by congruence.
      apply lookup_insert_ne. congruence. }
    split.
    { constructor; simpl.
      - exact Hn.
      - rewrite length_app. simpl. lia.
      - lia.
      - rewrite encode_edges_snoc, app_nil_r, !map_app, <- !app_assoc.
        reflexivity.
      - reflexivity.
      - reflexivity. }
    repeat split.
  - simpl. rewrite app_nil_r. reflexivity.
  - rewrite length_replicate. pose proof (enc_edge_size e). lia.
  - simpl. rewrite length_map, length_app. lia.
Qed.

(* A block that was not sent by anybody gets no edge. *)
Lemma try_add_sgsh_edge_noop fuel raw s mb :
  heap s !! chosen_mb s = Some mb ->
  index (origin (header mb)) < 0 ->
  try_add_sgsh_edge fuel raw s = Done (OP_NOOP, s).
Proof.
  intros Hc Hi. unfold try_add_sgsh_edge. rewrite (chosen_eq _ _ Hc). simpl.
  assert ((0 <=? index (origin (header mb))) = false) as ->
    by (apply Z.leb_gt; exact Hi).
  reflexivity.
Qed.

(* fill_sgsh_edge looks at n_nodes and origin of the block and at the two
   descriptions of self, and at nothing else. *)
Lemma fill_sgsh_edge_ext fuel s s' mb mb' e :
  heap s !! chosen_mb s = Some mb ->
  heap s' !! chosen_mb s' = Some mb' ->
  n_nodes (header mb') = n_nodes (header mb) ->
  origin (header mb') = origin (header mb) ->
  self_node s' = self_node s ->
  self_dispatcher s' = self_dispatcher s ->
  fill_sgsh_edge fuel s' e = fill_sgsh_edge fuel s e.
Proof.
  intros Hc Hc' Hn Ho Hsn Hsd. unfold fill_sgsh_edge.
  rewrite (chosen_eq _ _ Hc), (chosen_eq _ _ Hc'). simpl.
  rewrite Hn, Ho, Hsn, Hsd. reflexivity.
Qed.

(** X1.  try_add_sgsh_node on a compact block with the nodes [ns] and the
    edges [es].  When a node of the block has the pid of self, the call
    returns OP_EXISTS, the block is not touched and self_dispatcher.index
    is the index of the first such node.  Otherwise the block is
    reallocated: when realloc fails the process exits with status 1;
    when it succeeds the call returns OP_SUCCESS, the block is compact
    again at its new address with self appended after the nodes and the
    edges moved behind it, n_nodes and serial_no are one higher, and
    self_dispatcher.index is the index of the new node. *)
Theorem try_add_sgsh_node_appends_self s mb ns es :
  heap s !! chosen_mb s = Some mb ->
  compact (chosen_mb s) mb ns es ->
  Forall (fun n => pid (dec_node (enc_node n)) = pid n) ns ->
  let i := first_with_pid (pid (self_node s)) ns in
  let p := allocator (delete (chosen_mb s) (heap s))
             (total_size (header mb) + sizeof_node) in
  ((i < length ns)%nat ->
   try_add_sgsh_node s
   = Done (OP_EXISTS,
           set_self_dispatcher (set_index (Z.of_nat i) (self_dispatcher s)) s))
  /\ (i = length ns -> p = 0 -> try_add_sgsh_node s = Exited 1)
  /\ (i = length ns -> p ≠ 0 ->
      exists s' mb',
        try_add_sgsh_node s = Done (OP_SUCCESS, s')
        /\ chosen_mb s' = p
        /\ heap s' !! p = Some mb'
        /\ compact p mb' (ns ++ [self_node s]) es
        /\ n_nodes (header mb') = n_nodes (header mb) + 1
        /\ serial_no (header mb') = serial_no (header mb) + 1
        /\ initiator_pid (header mb') = initiator_pid (header mb)
        /\ state_flag (header mb') = state_flag (header mb)
        /\ origin (header mb') = origin (header mb)
        /\ index (self_dispatcher s') = Z.of_nat (length ns)
        /\ fd_direction (self_dispatcher s') = fd_direction (self_dispatcher s)
        /\ written s' = written s).
Proof.
  intros Hc Hcomp Hrt i p.
  pose proof (try_add_sgsh_node_total s mb ns es Hc Hcomp Hrt) as H.
  cbv zeta in H. fold i p in H.
  split; [|split].
  - intros Hi. apply Nat.ltb_lt in Hi. rewrite Hi in H. exact H.
  - intros Hi Hp.
    assert ((i <? length ns)%nat = false) as E by (apply Nat.ltb_ge; lia).
    rewrite E, Hp in H. exact H.
  - intros Hi Hp.
    assert ((i <? length ns)%nat = false) as E by (apply Nat.ltb_ge; lia).
    apply Z.eqb_neq in Hp. rewrite E, Hp in H.
    destruct H as (s' & mb' & Hrun & Hcm & Hmb & _ & Hc' & Hhd & _ & Hsd & Hw).
    exists s', mb'.
    split; [exact Hrun|]. split; [exact Hcm|]. split; [exact Hmb|].
    split; [exact Hc'|]. rewrite Hhd, Hsd. simpl.
    repeat split. exact Hw.
Qed.

(** X2.  Adding self twice adds it once: after a call of try_add_sgsh_node
    that appended self to the block, a second call finds the node,
    returns OP_EXISTS and changes nothing. *)
Theorem try_add_sgsh_node_twice s mb ns es :
  heap s !! chosen_mb s = Some mb ->
  compact (chosen_mb s) mb ns es ->
  Forall (fun n => pid (dec_node (enc_node n)) = pid n) (self_node s :: ns) ->
  Forall (fun n => pid n ≠ pid (self_node s)) ns ->
  allocator (delete (chosen_mb s) (heap s))
    (total_size (header mb) + sizeof_node) ≠ 0 ->
  exists s',
    try_add_sgsh_node s = Done (OP_SUCCESS, s')
    /\ try_add_sgsh_node s' = Done (OP_EXISTS, s').
Proof.
  intros Hc Hcomp Hrt Habs Hp.
  apply Forall_cons in Hrt as [Hself Hrt].
  apply first_with_pid_absent in Habs.
  pose proof (try_add_sgsh_node_total s mb ns es Hc Hcomp Hrt) as H.
  cbv zeta in H. rewrite Habs, Nat.ltb_irrefl in H.
  apply Z.eqb_neq in Hp. rewrite Hp in H.
  destruct H as (s' & mb' & Hrun & Hcm & Hmb & _ & Hc' & _ & Hsn & Hsd & _).
  exists s'. split; [exact Hrun|].
  rewrite <- Hcm in Hmb, Hc'.
  pose proof (try_add_sgsh_node_total s' mb' (ns ++ [self_node s]) es
                Hmb Hc') as H2.
  cbv zeta in H2. rewrite Hsn in H2.
  rewrite (first_with_pid_snoc _ _ _ Habs eq_refl) in H2.
  rewrite length_app in H2. simpl length in H2.
  assert ((length ns <? length ns + 1)%nat = true) as E
    by (apply Nat.ltb_lt; lia).
  rewrite E in H2. rewrite H2.
  - f_equal. f_equal. destruct s' as [h' c' sn' sd' w']. simpl in Hsd.
    subst sd'. reflexivity.
  - apply Forall_app. split; [exact Hrt|]. constructor; [exact Hself|constructor].
Qed.

(** X3.  try_add_sgsh_edge on a compact block.  A block whose origin.index
    is negative (it was created by this tool just now) gets no edge:
    OP_NOOP.  Otherwise, with [e] the edge that fill_sgsh_edge produces:
    when the block already holds an edge with the ends of [e] the call
    returns OP_EXISTS and changes nothing; else the block is reallocated
    (exit with status 1 when realloc fails) and the call returns
    OP_SUCCESS with the block compact again, [e] appended after the edges,
    the nodes in place, and n_edges and serial_no one higher. *)
Theorem try_add_sgsh_edge_appends_edge fuel raw s mb ns es :
  heap s !! chosen_mb s = Some mb ->
  compact (chosen_mb s) mb ns es ->
  Forall (fun x => dec_edge (enc_edge x) = x) es ->
  let p := allocator (delete (chosen_mb s) (heap s))
             (total_size (header mb) + sizeof_edge) in
  (index (origin (header mb)) < 0 ->
   try_add_sgsh_edge fuel raw s = Done (OP_NOOP, s))
  /\ (forall r0 e,
        0 <= index (origin (header mb)) ->
        fill_sgsh_edge fuel s raw = Done (r0, e) ->
        (e ∈ es -> try_add_sgsh_edge fuel raw s = Done (OP_EXISTS, s))
        /\ (e ∉ es -> p = 0 -> try_add_sgsh_edge fuel raw s = Exited 1)
        /\ (e ∉ es -> p ≠ 0 ->
            exists s' mb',
              try_add_sgsh_edge fuel raw s = Done (OP_SUCCESS, s')
              /\ chosen_mb s' = p
              /\ heap s' !! p = Some mb'
              /\ compact p mb' ns (es ++ [e])
              /\ n_edges (header mb') = n_edges (header mb) + 1
              /\ serial_no (header mb') = serial_no (header mb) + 1
              /\ n_nodes (header mb') = n_nodes (header mb)
              /\ origin (header mb') = origin (header mb)
              /\ self_dispatcher s' = self_dispatcher s
              /\ written s' = written s)).
Proof.
  intros Hc Hcomp Hrt p. split.
  - apply try_add_sgsh_edge_noop. exact Hc.
  - intros r0 e Hi Hfill.
    pose proof (try_add_sgsh_edge_total fuel raw s mb ns es r0 e
                  Hc Hcomp Hrt Hi Hfill) as H.
    cbv zeta in H. fold p in H.
    pose proof (has_edge_elem e es) as Hel.
    destruct (has_edge e es).
    + split; [intros _; exact H|].
      split; intros Hn; exfalso; apply Hn; apply Hel; reflexivity.
    + split.
      { intros Hin. apply Hel in Hin. discriminate. }
      split.
      * intros _ Hp. rewrite Hp in H. exact H.
      * intros _ Hp. apply Z.eqb_neq in Hp. rewrite Hp in H.
        destruct H as (s' & mb' & Hrun & Hcm & Hmb & _ & Hc' & Hhd & _ & Hsd & Hw).
        exists s', mb'.
        split; [exact Hrun|]. split; [exact Hcm|]. split; [exact Hmb|].
        split; [exact Hc'|]. rewrite Hhd. simpl.
        repeat split; assumption.
Qed.

(** X4.  Adding the edge of the last hop twice adds it once: after a call
    of try_add_sgsh_edge that appended an edge, a second call on the same
    block returns OP_EXISTS and changes nothing. *)
Theorem try_add_sgsh_edge_twice fuel raw s mb ns es r0 e :
  heap s !! chosen_mb s = Some mb ->
  compact (chosen_mb s) mb ns es ->
  Forall (fun x => dec_edge (enc_edge x) = x) (e :: es) ->
  0 <= index (origin (header mb)) ->
  fill_sgsh_edge fuel s raw = Done (r0, e) ->
  e ∉ es ->
  allocator (delete (chosen_mb s) (heap s))
    (total_size (header mb) + sizeof_edge) ≠ 0 ->
  exists s',
    try_add_sgsh_edge fuel raw s = Done (OP_SUCCESS, s')
    /\ try_add_sgsh_edge fuel raw s' = Done (OP_EXISTS, s').
Proof.
  intros Hc Hcomp Hrt Hi Hfill Hnew Hp.
  apply Forall_cons in Hrt as [He Hrt].
  pose proof (try_add_sgsh_edge_total fuel raw s mb ns es r0 e
                Hc Hcomp Hrt Hi Hfill) as H.
  cbv zeta in H.
  assert (has_edge e es = false) as E.
  { destruct (has_edge e es) eqn:E; [|reflexivity].
    apply has_edge_elem in E. contradiction. }
  apply Z.eqb_neq in Hp. rewrite E, Hp in H.
  destruct H as (s' & mb' & Hrun & Hcm & Hmb & _ & Hc' & Hhd & Hsn & Hsd & _).
  exists s'. split; [exact Hrun|].
  rewrite <- Hcm in Hmb, Hc'.
  assert (Hfill' : fill_sgsh_edge fuel s' raw = Done (r0, e)).
  { rewrite <- Hfill.
    apply (fill_sgsh_edge_ext fuel s s' mb mb' raw Hc Hmb);
      try assumption; rewrite Hhd; reflexivity. }
  pose proof (try_add_sgsh_edge_total fuel raw s' mb' ns (es ++ [e]) r0 e
                Hmb Hc') as H2.
  cbv zeta in H2.
  assert (has_edge e (es ++ [e]) = true) as E2.
  { apply has_edge_elem. apply elem_of_app. right.
    apply list_elem_of_singleton. reflexivity. }
  rewrite E2 in H2. apply H2.
  - apply Forall_app. split; [exact Hrt|]. constructor; [exact He|constructor].
  - rewrite Hhd. simpl. exact Hi.
  - exact Hfill'.
Qed.

(* write_mb on a compact block that fits the buffer. *)
Lemma write_mb_compact buf buf_size s mb ns es :
  heap s !! chosen_mb s = Some mb ->
  compact (chosen_mb s) mb ns es ->
  0 <= buf_size < 2 ^ 64 ->
  total_size (header mb) <= buf_size ->
  let sent := set_header (set_origin (self_dispatcher s) (header mb)) mb in
  (0 <= index (self_dispatcher s) ->
   write_mb buf buf_size s
   = Done (OP_SUCCESS, Some sent,
           set_written
             (written s ++ [(fd_direction (self_dispatcher s), sent)])
             (put_chosen sent s)))
  /\ (index (self_dispatcher s) < 0 -> write_mb buf buf_size s = Aborted).
Proof.
  intros Hc Hcomp Hb Hfit sent.
  pose proof (compact_allocated _ _ _ _ Hcomp) as Hall.
  assert (Hsz : sizeof_negotiation <= total_size (header mb)).
  { destruct Hcomp as [Hn He Ht _ _ _]. rewrite Ht, Hn, He. nia. }
  assert (Hgt : (total_size (header mb) >? buf_size) = false)
    by (rewrite Z.gtb_ltb; apply Z.ltb_ge; lia).
  split; intros Hi; unfold write_mb; rewrite (chosen_eq _ _ Hc); simpl;
    rewrite (to_size_t_small _ Hb), Hgt;
    unfold set_dispatcher; rewrite (chosen_eq _ _ Hc); simpl.
  - assert ((0 <=? index (self_dispatcher s)) = true) as ->
      by (apply Z.leb_le; lia).
    simpl. rewrite chosen_put_chosen. simpl.
    unfold image, allocated in *. simpl.
    assert ((sizeof_negotiation <=? total_size (header mb)) = true) as ->
      by (apply Z.leb_le; lia).
    assert ((total_size (header mb)
             <=? sizeof_negotiation + Z.of_nat (length (payload mb))) = true)
      as -> by (apply Z.leb_le; lia).
    simpl. rewrite take_ge by lia.
    assert (Ho : set_fd_direction (fd_direction (self_dispatcher s))
                   (set_index (index (self_dispatcher s)) (origin (header mb)))
                 = self_dispatcher s)
      by (destruct (self_dispatcher s); reflexivity).
    rewrite Ho. unfold sent, set_payload, set_header. simpl. reflexivity.
  - assert ((0 <=? index (self_dispatcher s)) = false) as ->
      by (apply Z.leb_gt; lia).
    reflexivity.
Qed.

(** X5.  write_mb on a compact block that fits the buffer: when self has
    an index in the graph, origin is set to the dispatcher of self, and the
    whole block, with that origin, is copied to the buffer and written once
    on the descriptor self_dispatcher.fd_direction; nothing else of the
    block changes.  When self_dispatcher.index is negative the assertion of
    set_dispatcher fails. *)
Theorem write_mb_sends_whole_block buf buf_size s mb ns es :
  heap s !! chosen_mb s = Some mb ->
  compact (chosen_mb s) mb ns es ->
  0 <= buf_size < 2 ^ 64 ->
  total_size (header mb) <= buf_size ->
  let sent := set_header (set_origin (self_dispatcher s) (header mb)) mb in
  (0 <= index (self_dispatcher s) ->
   write_mb buf buf_size s
   = Done (OP_SUCCESS, Some sent,
           set_written
             (written s ++ [(fd_direction (self_dispatcher s), sent)])
             (put_chosen sent s)))
  /\ (index (self_dispatcher s) < 0 -> write_mb buf buf_size s = Aborted).
Proof. exact (write_mb_compact buf buf_size s mb ns es). Qed.

(** *** Counting the edges of self *)

(* The edges of [es] that leave node [self], and those that reach it. *)
Definition outgoing (self : Z) (es : list sgsh_edge) : Z :=
  Z.of_nat (length (filter (fun e => from e = self) es)).
Definition incoming (self : Z) (es : list sgsh_edge) : Z :=
  Z.of_nat (length (filter (fun e => to e = self) es)).

Lemma lookup_sgsh_edges_from_compact base mb ns es self :
  compact base mb ns es ->
  Forall (fun x => dec_edge (enc_edge x) = x) es ->
  (forall old n, grow old n ≠ 0) ->
  forall todo i v,
    (i + todo = length es)%nat ->
    exists v',
      lookup_sgsh_edges_from base mb self (Z.of_nat i) todo v
      = Done (OP_SUCCESS, v')
      /\ n_edges_incoming v'
         = n_edges_incoming v + incoming self (drop i es)
      /\ n_edges_outgoing v'
         = n_edges_outgoing v + outgoing self (drop i es).
Proof.
  intros Hcomp Hrt Hgrow. induction todo as [|k IH]; intros i v Hi.
  - exists v. simpl. rewrite drop_ge by lia.
    unfold incoming, outgoing. simpl. repeat split; lia.
  - destruct (lookup_lt_is_Some_2 es i ltac:(lia)) as [x Hx].
    simpl lookup_sgsh_edges_from.
    rewrite (edge_at_compact _ _ _ _ _ _ Hcomp Hx). simpl.
    rewrite (proj1 (Forall_lookup _ _) Hrt i x Hx).
    rewrite (drop_S _ _ _ Hx). unfold incoming, outgoing.
    rewrite !filter_cons.
    unfold reallocate_edge_pointer_array.
    set (v1 := if from x =? self
               then {| edges_incoming := edges_incoming v;
                       n_edges_incoming := n_edges_incoming v;
                       edges_outgoing :=
                         grow (edges_outgoing v)
                           (sizeof_pointer * (n_edges_outgoing v + 1));
                       n_edges_outgoing := n_edges_outgoing v + 1 |}
               else v).
    set (v2 := if to x =? self
               then {| edges_incoming :=
                         grow (edges_incoming v1)
                           (sizeof_pointer * (n_edges_incoming v1 + 1));
                       n_edges_incoming := n_edges_incoming v1 + 1;
                       edges_outgoing := edges_outgoing v1;
                       n_edges_outgoing := n_edges_outgoing v1 |}
               else v1).
    destruct (IH (S i) v2 ltac:(lia)) as (v' & Hrun & Hin & Hout).
    exists v'.
    replace (Z.of_nat i + 1) with (Z.of_nat (S i)) by lia.
    split.
    + rewrite <- Hrun. unfold v2, v1.
      destruct (from x =? self) eqn:Ef; simpl.
      * pose proof (Hgrow (edges_outgoing v)
                      (sizeof_pointer * (n_edges_outgoing v + 1))) as G1.
        apply Z.eqb_neq in G1. rewrite G1. simpl.
        destruct (to x =? self) eqn:Et; simpl; [|reflexivity].
        pose proof (Hgrow (edges_incoming v)
                      (sizeof_pointer * (n_edges_incoming v + 1))) as G2.
        apply Z.eqb_neq in G2. rewrite G2. reflexivity.
      * destruct (to x =? self) eqn:Et; simpl; [|reflexivity].
        pose proof (Hgrow (edges_incoming v)
                      (sizeof_pointer * (n_edges_incoming v + 1))) as G2.
        apply Z.eqb_neq in G2. rewrite G2. reflexivity.
    + rewrite Hin, Hout. unfold incoming, outgoing, v2, v1.
      destruct (decide (from x = self)) as [Df|Df];
        destruct (decide (to x = self)) as [Dt|Dt];
        try (apply Z.eqb_eq in Df as ->); try (apply Z.eqb_neq in Df as ->);
        try (apply Z.eqb_eq in Dt as ->); try (apply Z.eqb_neq in Dt as ->);
        simpl; split; lia.
Qed.

(** X6.  allocate_io_connections on a compact block, when realloc does
    not fail: it counts the edges of the block that reach node
    self_dispatcher.index and those that leave it (an edge from the node
    to itself counts on both sides), returns OP_SUCCESS when the first
    number is self_node.requires_channels and the second
    self_node.provides_channels, and exits with status 1 otherwise. *)
Theorem allocate_io_connections_counts s mb ns es :
  heap s !! chosen_mb s = Some mb ->
  compact (chosen_mb s) mb ns es ->
  Forall (fun x => dec_edge (enc_edge x) = x) es ->
  (forall old n, grow old n ≠ 0) ->
  allocate_io_connections s
  = if (incoming (index (self_dispatcher s)) es
        =? requires_channels (self_node s))
       && (outgoing (index (self_dispatcher s)) es
           =? provides_channels (self_node s))
    then Done OP_SUCCESS
    else Exited 1.
Proof.
  intros Hc Hcomp Hrt Hgrow.
  unfold allocate_io_connections, lookup_sgsh_edges.
  rewrite (chosen_eq _ _ Hc). simpl.
  rewrite (compact_n_edges _ _ _ _ Hcomp), Nat2Z.id.
  destruct (lookup_sgsh_edges_from_compact (chosen_mb s) mb ns es
              (index (self_dispatcher s)) Hcomp Hrt Hgrow (length es) O
              {| edges_incoming := 0; n_edges_incoming := 0;
                 edges_outgoing := 0; n_edges_outgoing := 0 |} eq_refl)
    as (v' & Hrun & Hin & Hout).
  change (Z.of_nat 0) with 0 in Hrun. rewrite Hrun. simpl.
  rewrite Hin, Hout, drop_0. simpl. rewrite !Z.add_0_l.
  destruct (incoming (index (self_dispatcher s)) es
            =? requires_channels (self_node s));
    destruct (outgoing (index (self_dispatcher s)) es
              =? provides_channels (self_node s)); reflexivity.
Qed.

(** *** The tool that starts the negotiation *)

(** X7.  A tool with SGSH_OUT set and SGSH_IN zero starts the
    negotiation.  When malloc and realloc succeed, the memory of the new
    block holds 0 at n_edges, and the name fits char name[100],
    sgsh_negotiate enters its loop with a compact block that holds exactly
    the node of self (pid, name up to its NUL, channels and environment
    values as given) and no edge, with initiator_pid the pid of self,
    serial_no 1 and state NEGOTIATION; self is node 0 and writes on stdout.
    When the page holds the struct and one node, the first round writes
    this block once on stdout, with origin (0, STDOUT_FILENO), and goes on
    to read. *)
Theorem initiator_first_message fuel raw_edge raw environ tool_name
    channels_required channels_provided self_pid buf_size first s o :
  environ "SGSH_IN"%string = Some 0 ->
  environ "SGSH_OUT"%string = Some o ->
  o ≠ 0 ->
  (forall h n, allocator h n ≠ 0) ->
  n_edges raw = 0 ->
  Z.of_nat (String.length (c_str tool_name)) < 100 ->
  0 <= buf_size < 2 ^ 64 ->
  sizeof_negotiation + sizeof_node <= buf_size ->
  let self := {| pid := self_pid; name := c_str tool_name;
                 requires_channels := channels_required;
                 provides_channels := channels_provided;
                 sgsh_in := 0; sgsh_out := o |} in
  let stdout := {| index := 0; fd_direction := STDOUT_FILENO |} in
  exists s1 mb f2 s2,
    join_negotiation fuel raw_edge raw environ tool_name channels_required
      channels_provided self_pid buf_size first s
    = Done (Next, initial_frame, s1)
    /\ heap s1 !! chosen_mb s1 = Some mb
    /\ compact (chosen_mb s1) mb [self] []
    /\ initiator_pid (header mb) = self_pid
    /\ serial_no (header mb) = 1
    /\ state_flag (header mb) = PROT_STATE_NEGOTIATION
    /\ self_node s1 = self
    /\ self_dispatcher s1 = stdout
    /\ written s1 = written s
    /\ round_begin buf_size initial_frame s1 = Done (Next, f2, s2)
    /\ written s2
       = written s
         ++ [(STDOUT_FILENO, set_header (set_origin stdout (header mb)) mb)].
Proof.
  intros Hin Hout Ho Halloc Hraw Hname Hb Hfit self stdout.
  unfold join_negotiation, get_environment_vars, get_env_var.
  rewrite Hin, Hout. simpl.
  assert ((o =? 0) = false) as -> by (apply Z.eqb_neq; exact Ho). simpl.
  unfold construct_message_block. simpl.
  pose proof (Halloc (heap s) sizeof_negotiation) as Hp1.
  apply Z.eqb_neq in Hp1. rewrite Hp1. simpl.
  unfold fill_sgsh_node.
  assert ((100 <? Z.of_nat (String.length (c_str tool_name)) + 1) = false)
    as -> by (apply Z.ltb_ge; lia).
  simpl. fold self.
  set (p1 := allocator (heap s) sizeof_negotiation) in *.
  set (mb0 := {| header := _; payload := [] |}).
  set (sf := set_self_node self _).
  assert (Hmbf : heap sf !! chosen_mb sf = Some mb0) by apply lookup_insert_eq.
  assert (Hcf : compact (chosen_mb sf) mb0 [] []).
  { constructor; simpl; try reflexivity; try (intros []; reflexivity).
    - exact Hraw.
    - rewrite Hraw. lia. }
  pose proof (try_add_sgsh_node_total sf mb0 [] [] Hmbf Hcf
                ltac:(constructor)) as Hadd.
  cbv zeta in Hadd. simpl first_with_pid in Hadd. simpl length in Hadd.
  rewrite Nat.ltb_irrefl in Hadd.
  pose proof (Halloc (delete (chosen_mb sf) (heap sf))
                (total_size (header mb0) + sizeof_node)) as Hp.
  apply Z.eqb_neq in Hp. rewrite Hp in Hadd.
  destruct Hadd as (s1 & mb & Hrun1 & Hcm & Hmb & _ & Hc1 & Hhd & Hsn & Hsd & Hw).
  rewrite Hrun1. simpl.
  rewrite <- Hcm in Hmb, Hc1.
  rewrite (try_add_sgsh_edge_noop fuel raw_edge s1 mb Hmb)
    by (rewrite Hhd; simpl; lia).
  simpl.
  assert (Hts1 : total_size (header mb) = sizeof_negotiation + sizeof_node)
    by (rewrite Hhd; reflexivity).
  destruct (write_mb_compact None buf_size s1 mb [self] [] Hmb Hc1 Hb
              ltac:(lia)) as [Hwrite _].
  exists s1, mb. eexists _, _.
  split; [reflexivity|]. split; [exact Hmb|]. split; [exact Hc1|].
  split; [rewrite Hhd; reflexivity|].
  split; [rewrite Hhd; reflexivity|].
  split; [rewrite Hhd; reflexivity|].
  split; [exact Hsn|]. split; [exact Hsd|]. split; [exact Hw|].
  unfold round_begin.
  rewrite (check_negotiation_round_eq _ _ _ _ Hmb). simpl.
  rewrite !andb_false_r.
  rewrite Hwrite by (rewrite Hsd; simpl; lia). simpl.
  unfold chosen. simpl. rewrite lookup_insert_eq. simpl.
  rewrite Hhd. simpl.
  split; [reflexivity|]. simpl. rewrite Hw, Hsd. reflexivity.
Qed.

End Layout.

(** *** The edge of the last hop, in all cases *)

(** X8.  fill_sgsh_edge on a block whose origin.index is a node other than
    the one at n_nodes.  A block that its sender wrote on stdin makes the
    sender the destination of the edge and self the source; a block written
    on stdout makes the sender the source and self the destination.  In
    both cases the two assertions on the active sides of self must hold:
    the process aborts otherwise.  With any other origin.fd_direction the
    edge is returned as it was found, not filled in, with OP_SUCCESS. *)
Theorem fill_sgsh_edge_follows_origin fuel s e mb :
  heap s !! chosen_mb s = Some mb ->
  n_nodes (header mb) ≠ 0 ->
  0 <= index (origin (header mb)) ->
  index (origin (header mb)) ≠ n_nodes (header mb) ->
  (Z.to_nat (index (origin (header mb))) <= fuel)%nat ->
  (fd_direction (origin (header mb)) = STDIN_FILENO ->
   fill_sgsh_edge fuel s e
   = if sender_below s
     then Done (OP_SUCCESS, {| from := index (self_dispatcher s);
                               to := index (origin (header mb)) |})
     else Aborted)
  /\ (fd_direction (origin (header mb)) = STDOUT_FILENO ->
      fill_sgsh_edge fuel s e
      = if sender_above s
        then Done (OP_SUCCESS, {| from := index (origin (header mb));
                                  to := index (self_dispatcher s) |})
        else Aborted)
  /\ (fd_direction (origin (header mb)) ≠ STDIN_FILENO ->
      fd_direction (origin (header mb)) ≠ STDOUT_FILENO ->
      fill_sgsh_edge fuel s e = Done (OP_SUCCESS, e)).
Proof.
  intros Hc Hn Hi Hne Hf.
  assert (Hl : dispatcher_loop fuel (n_nodes (header mb))
                 (index (origin (header mb))) 0
               = Done (index (origin (header mb))))
    by (apply dispatcher_loop_stops; [assumption|lia|lia]).
  apply Z.eqb_neq in Hne.
  split; [|split]; unfold fill_sgsh_edge, chosen; rewrite Hc; simpl;
    rewrite Hl; simpl; rewrite Hne.
  - intros Hd. rewrite Hd. simpl. unfold sender_below.
    destruct (negb (sgsh_out (self_node s) =? 0)); [|reflexivity]. simpl.
    destruct (negb (sgsh_in (self_node s) =? 0)
              && (fd_direction (self_dispatcher s) =? STDIN_FILENO)
              || (fd_direction (self_dispatcher s) =? STDOUT_FILENO));
      reflexivity.
  - intros Hd. rewrite Hd. simpl. unfold sender_above.
    destruct (negb (sgsh_in (self_node s) =? 0)); [|reflexivity]. simpl.
    destruct (negb (sgsh_out (self_node s) =? 0)
              && (fd_direction (self_dispatcher s) =? STDOUT_FILENO)
              || (fd_direction (self_dispatcher s) =? STDIN_FILENO));
      reflexivity.
  - intros H0 H1. apply Z.eqb_neq in H0, H1. rewrite H0, H1.
    destruct e. reflexivity.
Qed.

(** *** What the functions leave alone *)

Lemma realloc_mb_new_node_frame s r s' :
  realloc_mb_new_node s = Done (r, s') ->
  written s' = written s /\ self_node s' = self_node s
  /\ self_dispatcher s' = self_dispatcher s.
Proof.
  unfold realloc_mb_new_node. intros H.
  inv_bind H. inv_bind H. inv_bind H. destruct a1 as [p h].
  destruct (p =? 0); [discriminate|].
  inv_bind H. inv_bind H. injection H as _ <-. repeat split.
Qed.

Lemma realloc_mb_new_edge_frame s r s' :
  realloc_mb_new_edge s = Done (r, s') ->
  written s' = written s /\ self_node s' = self_node s
  /\ self_dispatcher s' = self_dispatcher s.
Proof.
  unfold realloc_mb_new_edge. intros H.
  inv_bind H. inv_bind H. destruct a0 as [p h].
  destruct (p =? 0); [discriminate|].
  inv_bind H. injection H as _ <-. repeat split.
Qed.

Lemma try_add_sgsh_node_frame s r s' :
  try_add_sgsh_node s = Done (r, s') ->
  written s' = written s /\ self_node s' = self_node s
  /\ fd_direction (self_dispatcher s') = fd_direction (self_dispatcher s).
Proof.
  unfold try_add_sgsh_node. intros H.
  inv_bind H. inv_bind H.
  destruct (a0 =? n_nodes (header a)).
  - inv_bind H. destruct a1 as [r1 s1].
    pose proof (realloc_mb_new_node_rc _ _ _ Ha1). subst r1.
    apply realloc_mb_new_node_frame in Ha1 as (Hw & Hsn & Hsd).
    simpl in H. inv_bind H. inv_bind H. injection H as _ <-. simpl.
    rewrite Hw, Hsn, Hsd. repeat split.
  - injection H as _ <-. repeat split.
Qed.

Lemma try_add_sgsh_edge_frame fuel raw s r s' :
  try_add_sgsh_edge fuel raw s = Done (r, s') ->
  written s' = written s /\ self_node s' = self_node s
  /\ self_dispatcher s' = self_dispatcher s.
Proof.
  unfold try_add_sgsh_edge. intros H.
  inv_bind H.
  destruct (0 <=? index (origin (header a)));
    [|injection H as _ <-; repeat split].
  inv_bind H. destruct a0 as [r0 e]. inv_bind H.
  destruct (a0 =? OP_CREATE); [|injection H as _ <-; repeat split].
  inv_bind H. destruct a1 as [r1 s1].
  pose proof (realloc_mb_new_edge_rc _ _ _ Ha2). subst r1.
  apply realloc_mb_new_edge_frame in Ha2 as (Hw & Hsn & Hsd).
  simpl in H. inv_bind H. inv_bind H. injection H as _ <-. simpl.
  rewrite Hw, Hsn, Hsd. repeat split.
Qed.

(** X9.  compete_message_block never returns OP_ERROR: whenever it
    returns, it returns OP_SUCCESS (a failed reallocation ends the process
    in err).  It writes on no descriptor, leaves the description of self as
    it was and does not turn the side on which self writes;
    should_transmit_mb and updated_mb_serial_no are 0 or 1. *)
Theorem compete_message_block_returns_success fuel raw fresh_mb s c :
  compete_message_block fuel raw fresh_mb s = Done c ->
  rc c = OP_SUCCESS
  /\ written (after c) = written s
  /\ self_node (after c) = self_node s
  /\ fd_direction (self_dispatcher (after c))
     = fd_direction (self_dispatcher s)
  /\ (should_transmit_mb c = 0 \/ should_transmit_mb c = 1)
  /\ (updated_mb_serial_no c = 0 \/ updated_mb_serial_no c = 1).
Proof.
  unfold compete_message_block. intros H.
  inv_bind H. inv_bind H.
  destruct (initiator_pid (header a) <? initiator_pid (header a0)).
  - apply bind_Done in H. destruct H as ([r1 s1] & Hnode & H).
    pose proof (try_add_sgsh_node_rc _ _ _ Hnode) as Hr1.
    apply try_add_sgsh_node_frame in Hnode as (Hw1 & Hsn1 & Hsd1).
    assert ((r1 =? OP_ERROR) = false) as E1
      by (destruct Hr1; subst; reflexivity).
    simpl in H. rewrite E1 in H.
    apply bind_Done in H. destruct H as ([r2 s2] & Hedge & H).
    pose proof (try_add_sgsh_edge_rc _ _ _ _ _ Hedge) as Hr2.
    apply try_add_sgsh_edge_frame in Hedge as (Hw2 & Hsn2 & Hsd2).
    assert ((r2 =? OP_ERROR) = false) as E2
      by (destruct Hr2 as [|[|]]; subst; reflexivity).
    simpl in H. rewrite E2 in H. injection H as <-. simpl.
    rewrite Hw2, Hsn2, Hsd2, Hw1, Hsn1, Hsd1. simpl. repeat split; auto.
  - destruct (initiator_pid (header a) >? initiator_pid (header a0)).
    + injection H as <-. simpl. repeat split; auto.
    + destruct (serial_no (header a) >? serial_no (header a0));
        apply bind_Done in H; destruct H as ([r2 s2] & Hedge & H);
        pose proof (try_add_sgsh_edge_rc _ _ _ _ _ Hedge) as Hr2;
        apply try_add_sgsh_edge_frame in Hedge as (Hw2 & Hsn2 & Hsd2);
        assert ((r2 =? OP_ERROR) = false) as E2
          by (destruct Hr2 as [|[|]]; subst; reflexivity);
        simpl in H; rewrite E2 in H; injection H as <-; simpl;
        rewrite Hw2, Hsn2, Hsd2; simpl; repeat split; auto.
Qed.

(** *** Polling the two sides *)

(* [k] turns of the loop of try_read_message_block in which neither side
   has anything to read. *)
Definition in_vain (k : nat) : list read_result :=
  concat (replicate k [ReadError EAGAIN; ReadError EAGAIN]).

Lemma poll_both_sides_in_vain k : forall rest buf,
  poll_both_sides (in_vain k ++ rest) buf = poll_both_sides rest buf.
Proof.
  induction k as [|k IH]; intros rest buf; [reflexivity|].
  unfold in_vain. simpl. apply IH.
Qed.

(** X10.  try_read_message_block reads from stdin, then from stdout, and
    again for as long as both reads fail with EAGAIN.  A read that fails
    with another error ends the process with status 1.  When a block of the
    size announced in the caller's block arrives and fits the buffer, a
    copy of it is allocated and the call returns OP_SUCCESS; a block that
    came from stdin leaves self_dispatcher.fd_direction at STDIN_FILENO
    when self is active on its input side, and one that came from stdout
    leaves it at STDOUT_FILENO when self is active on its output side; the
    direction is unchanged otherwise. *)
Theorem try_read_message_block_side k b rest buf buf_size fresh_mb s old :
  0 <= sizeof_negotiation ->
  heap s !! fresh_mb = Some old ->
  total_size (header old) = allocated b ->
  allocated b <= buf_size ->
  allocator (heap s) (allocated b) ≠ 0 ->
  let arrived :=
    set_heap (<[allocator (heap s) (allocated b) := b]> (heap s)) s in
  let turned fd :=
    set_self_dispatcher (set_fd_direction fd (self_dispatcher s)) arrived in
  try_read_message_block (in_vain k ++ ReadBlock b :: rest) buf buf_size
    fresh_mb s
  = Done (OP_SUCCESS, Some b,
          if sgsh_in (self_node s) =? 0 then arrived else turned STDIN_FILENO)
  /\ try_read_message_block
       (in_vain k ++ ReadError EAGAIN :: ReadBlock b :: rest) buf buf_size
       fresh_mb s
     = Done (OP_SUCCESS, Some b,
             if sgsh_out (self_node s) =? 0 then arrived
             else turned STDOUT_FILENO)
  /\ (forall e, e ≠ EAGAIN ->
        try_read_message_block (in_vain k ++ ReadError e :: rest) buf
          buf_size fresh_mb s = Exited 1
        /\ try_read_message_block
             (in_vain k ++ ReadError EAGAIN :: ReadError e :: rest) buf
             buf_size fresh_mb s = Exited 1)
  /\ try_read_message_block (in_vain k) buf buf_size fresh_mb s = OutOfFuel.
Proof.
  intros Hpos Hold Hsize Hfit Hp arrived turned.
  assert (Hb : (allocated b =? -1) = false)
    by (apply Z.eqb_neq; unfold allocated; lia).
  assert (Hcopy : alloc_copy_mb fresh_mb (Some b) (allocated b) buf_size s
                  = Done (OP_SUCCESS, arrived)).
  { unfold alloc_copy_mb. rewrite Hold. simpl.
    rewrite Hsize, Z.eqb_refl. simpl.
    assert ((allocated b >? buf_size) = false) as ->
      by (rewrite Z.gtb_ltb; apply Z.ltb_ge; lia).
    unfold image.
    assert ((sizeof_negotiation <=? allocated b) = true) as ->
      by (apply Z.leb_le; unfold allocated; lia).
    rewrite Z.leb_refl. simpl.
    apply Z.eqb_neq in Hp. rewrite Hp.
    unfold allocated. rewrite take_ge by lia.
    destruct b. reflexivity. }
  split; [|split; [|split]].
  - unfold try_read_message_block. rewrite poll_both_sides_in_vain. simpl.
    rewrite Hb, Hcopy. simpl. unfold point_io_direction. simpl.
    destruct (sgsh_in (self_node s) =? 0); reflexivity.
  - unfold try_read_message_block. rewrite poll_both_sides_in_vain. simpl.
    rewrite Hb, Hcopy. simpl. unfold point_io_direction. simpl.
    destruct (sgsh_out (self_node s) =? 0); reflexivity.
  - intros e He.
    assert (Hq : ((- e =? 0) || negb (- e =? - EAGAIN)) = true).
    { apply orb_true_iff. right. apply negb_true_iff. apply Z.eqb_neq. lia. }
    split; unfold try_read_message_block;
      rewrite poll_both_sides_in_vain; simpl; unfold call_read;
      rewrite Hq; reflexivity.
  - unfold try_read_message_block.
    rewrite <- (app_nil_r (in_vain k)), poll_both_sides_in_vain. reflexivity.
Qed.

(** *** sgsh_negotiate as a whole *)

(* NULL is not a block, and the chosen block is in state NEGOTIATION. *)
Definition negotiating (s : negotiator) : Prop :=
  heap s !! 0 = None
  /\ exists mb, heap s !! chosen_mb s = Some mb
                /\ state_flag (header mb) = PROT_STATE_NEGOTIATION.

Lemma store_header base b a bs b' :
  store base b a bs = Done b' -> header b' = header b.
Proof.
  unfold store. intros H.
  destruct (Z.of_nat (length bs) =? 0); [congruence|].
  destruct ((0 <=? a - (base + sizeof_negotiation)) && _); [|discriminate].
  injection H as <-. reflexivity.
Qed.

Lemma realloc_negotiating s n p h :
  negotiating s ->
  realloc s n = Done (p, h) ->
  p ≠ 0 ->
  h !! 0 = None
  /\ exists mb, h !! p = Some mb
                /\ state_flag (header mb) = PROT_STATE_NEGOTIATION.
Proof.
  intros (H0 & mb & Hc & Hst) H Hp. unfold realloc in H.
  rewrite (chosen_eq _ _ Hc) in H. simpl in H.
  destruct (allocator (delete (chosen_mb s) (heap s)) n =? 0) eqn:E.
  - injection H as <- _. contradiction.
  - injection H as <- <-. split.
    + rewrite lookup_insert_ne by congruence.
      destruct (decide (chosen_mb s = 0)) as [->|N].
      * apply lookup_delete_eq.
      * rewrite lookup_delete_ne by exact N. exact H0.
    + eexists. split; [apply lookup_insert_eq|exact Hst].
Qed.

Lemma try_add_sgsh_node_negotiating s r s' :
  negotiating s -> try_add_sgsh_node s = Done (r, s') -> negotiating s'.
Proof.
  intros Hneg H. unfold try_add_sgsh_node in H.
  apply bind_Done in H. destruct H as (mb & Hmb & H).
  apply bind_Done in H. destruct H as (i & Hi & H).
  destruct (i =? n_nodes (header mb)).
  - apply bind_Done in H. destruct H as ([r1 s1] & Hre & H).
    pose proof (realloc_mb_new_node_rc _ _ _ Hre). subst r1. simpl in H.
    assert (Hn1 : negotiating s1).
    { unfold realloc_mb_new_node in Hre.
      apply bind_Done in Hre. destruct Hre as (mb0 & _ & Hre).
      apply bind_Done in Hre. destruct Hre as (es & _ & Hre).
      apply bind_Done in Hre. destruct Hre as ([p h] & Hrl & Hre).
      simpl in Hre. destruct (p =? 0) eqn:Ep; [discriminate|].
      apply Z.eqb_neq in Ep.
      destruct (realloc_negotiating _ _ _ _ Hneg Hrl Ep) as (Hh0 & m & Hm & Hst).
      unfold chosen in Hre. simpl in Hre. rewrite Hm in Hre. simpl in Hre.
      apply bind_Done in Hre. destruct Hre as (m' & Hstore & Hre).
      apply store_header in Hstore. injection Hre as <-. split.
      - simpl. rewrite lookup_insert_ne by congruence. exact Hh0.
      - exists m'. split; [apply lookup_insert_eq|].
        rewrite Hstore. exact Hst. }
    destruct Hn1 as (Hh0 & m & Hm & Hst).
    rewrite (chosen_eq _ _ Hm) in H. simpl in H.
    apply bind_Done in H. destruct H as (m' & Hstore & H).
    apply store_header in Hstore. injection H as _ <-.
    assert (Hc0 : chosen_mb s1 ≠ 0) by (intros E; rewrite E in Hm; congruence).
    split.
    + simpl. rewrite lookup_insert_ne by exact Hc0. exact Hh0.
    + eexists. split; [apply lookup_insert_eq|]. simpl.
      rewrite Hstore. exact Hst.
  - injection H as _ <-. exact Hneg.
Qed.

Lemma try_add_sgsh_edge_negotiating fuel raw s r s' :
  negotiating s -> try_add_sgsh_edge fuel raw s = Done (r, s') ->
  negotiating s'.
Proof.
  intros Hneg H. unfold try_add_sgsh_edge in H.
  apply bind_Done in H. destruct H as (mb & Hmb & H).
  destruct (0 <=? index (origin (header mb)));
    [|injection H as _ <-; exact Hneg].
  apply bind_Done in H. destruct H as ([r0 e] & _ & H).
  apply bind_Done in H. destruct H as (lk & _ & H).
  destruct (lk =? OP_CREATE); [|injection H as _ <-; exact Hneg].
  apply bind_Done in H. destruct H as ([r1 s1] & Hre & H).
  pose proof (realloc_mb_new_edge_rc _ _ _ Hre). subst r1. simpl in H.
  assert (Hn1 : negotiating s1).
  { unfold realloc_mb_new_edge in Hre.
    apply bind_Done in Hre. destruct Hre as (mb0 & _ & Hre).
    apply bind_Done in Hre. destruct Hre as ([p h] & Hrl & Hre).
    simpl in Hre. destruct (p =? 0) eqn:Ep; [discriminate|].
    apply Z.eqb_neq in Ep.
    destruct (realloc_negotiating _ _ _ _ Hneg Hrl Ep) as (Hh0 & m & Hm & Hst).
    unfold chosen in Hre. simpl in Hre. rewrite Hm in Hre. simpl in Hre.
    injection Hre as <-. split.
    - simpl. rewrite lookup_insert_ne by congruence. exact Hh0.
    - eexists. split; [apply lookup_insert_eq|exact Hst]. }
  destruct Hn1 as (Hh0 & m & Hm & Hst).
  rewrite (chosen_eq _ _ Hm) in H. simpl in H.
  apply bind_Done in H. destruct H as (m' & Hstore & H).
  apply store_header in Hstore. injection H as _ <-.
  assert (Hc0 : chosen_mb s1 ≠ 0) by (intros E; rewrite E in Hm; congruence).
  split.
  - simpl. rewrite lookup_insert_ne by exact Hc0. exact Hh0.
  - eexists. split; [apply lookup_insert_eq|]. simpl.
    rewrite Hstore. exact Hst.
Qed.

Lemma write_mb_negotiating buf buf_size s r b s' :
  negotiating s -> write_mb buf buf_size s = Done (r, b, s') ->
  negotiating s'.
Proof.
  intros Hneg H. pose proof Hneg as (Hh0 & mb & Hmb & Hst).
  assert (Hc0 : chosen_mb s ≠ 0) by (intros E; rewrite E in Hmb; congruence).
  unfold write_mb in H. rewrite (chosen_eq _ _ Hmb) in H. simpl in H.
  destruct (total_size (header mb) >? to_size_t buf_size).
  - injection H as _ _ <-. exact Hneg.
  - unfold set_dispatcher in H. rewrite (chosen_eq _ _ Hmb) in H. simpl in H.
    destruct (0 <=? index (self_dispatcher s)); [|discriminate].
    simpl in H. rewrite chosen_put_chosen in H. simpl in H.
    apply bind_Done in H. destruct H as (img & _ & H).
    injection H as _ _ <-. split.
    + simpl. rewrite lookup_insert_ne by exact Hc0. exact Hh0.
    + eexists. split; [apply lookup_insert_eq|exact Hst].
Qed.

Lemma try_read_message_block_null rs buf buf_size fresh_mb s v :
  heap s !! fresh_mb = None ->
  try_read_message_block rs buf buf_size fresh_mb s ≠ Done v.
Proof.
  intros Hn H. unfold try_read_message_block in H.
  destruct (poll_both_sides rs buf) as [[[[side n] e] b']| | | |];
    try discriminate.
  simpl in H. destruct (n =? -1); [discriminate|].
  rewrite alloc_copy_mb_null in H by exact Hn. discriminate.
Qed.

(* Only the tool that starts the negotiation gets to the loop. *)
Lemma join_negotiation_negotiating fuel raw_edge raw environ tool_name
    channels_required channels_provided self_pid buf_size first s c f s1 :
  heap s !! 0 = None ->
  join_negotiation fuel raw_edge raw environ tool_name channels_required
    channels_provided self_pid buf_size first s = Done (c, f, s1) ->
  c = Next /\ f = initial_frame /\ negotiating s1.
Proof.
  intros H0 H.
  unfold join_negotiation, get_environment_vars, get_env_var in H.
  destruct (environ "SGSH_IN"%string) as [i|]; [|discriminate].
  simpl in H.
  destruct (environ "SGSH_OUT"%string) as [o|]; [|discriminate].
  simpl in H.
  destruct (negb (o =? 0) && (i =? 0)).
  - unfold construct_message_block in H. simpl in H.
    destruct (allocator (heap s) sizeof_negotiation =? 0) eqn:Ep;
      [discriminate|].
    apply Z.eqb_neq in Ep. simpl in H.
    unfold fill_sgsh_node in H.
    destruct (100 <? Z.of_nat (String.length (c_str tool_name)) + 1);
      [discriminate|].
    simpl in H.
    apply bind_Done in H. destruct H as ([r1 s2] & Hnode & H).
    pose proof (try_add_sgsh_node_rc _ _ _ Hnode) as Hr1.
    apply try_add_sgsh_node_negotiating in Hnode.
    2:{ split.
        - simpl. rewrite lookup_insert_ne by congruence. exact H0.
        - eexists. split; [apply lookup_insert_eq|reflexivity]. }
    assert ((r1 =? OP_ERROR) = false) as E1
      by (destruct Hr1; subst; reflexivity).
    simpl in H. rewrite E1 in H.
    apply bind_Done in H. destruct H as ([r2 s3] & Hedge & H).
    pose proof (try_add_sgsh_edge_rc _ _ _ _ _ Hedge) as Hr2.
    apply try_add_sgsh_edge_negotiating in Hedge; [|exact Hnode].
    assert ((r2 =? OP_ERROR) = false) as E2
      by (destruct Hr2 as [|[|]]; subst; reflexivity).
    simpl in H. rewrite E2 in H. injection H as <- <- <-.
    repeat split; apply Hedge.
  - apply bind_Done in H. destruct H as ([[c0 f0] s0] & Hwait & _).
    unfold wait_for_mb in Hwait.
    apply bind_Done in Hwait. destruct Hwait as (v & Hread & _).
    exfalso. refine (try_read_message_block_null _ _ _ _ _ _ _ Hread).
    exact H0.
Qed.

(* The first round ends in the read that cannot succeed. *)
Lemma negotiation_rounds_first fuel raw_edge reads buf_size f s c f' s' :
  negotiating s ->
  negotiation_round f = 0 -> fresh_mb f = 0 ->
  negotiation_rounds fuel raw_edge reads buf_size f s = Done (c, f', s') ->
  c = Return (RetOp OP_ERROR).
Proof.
  intros Hneg Hn Hf H. pose proof Hneg as (H0 & mb & Hmb & Hst).
  destruct reads as [|rs rest]; simpl in H;
    rewrite (chosen_eq _ _ Hmb) in H; simpl in H;
    destruct (decide (state_flag (header mb) = PROT_STATE_NEGOTIATION));
    try contradiction; [discriminate|].
  apply bind_Done in H. destruct H as ([[c1 f1] s1] & Hit & H).
  unfold negotiation_iteration in Hit.
  apply bind_Done in Hit. destruct Hit as ([[c0 f0] s0] & Hbegin & Hit).
  unfold round_begin in Hbegin.
  rewrite (check_negotiation_round_eq _ _ _ _ Hmb) in Hbegin.
  rewrite Hn in Hbegin. simpl in Hbegin.
  rewrite ?andb_false_r in Hbegin. cbn [andb] in Hbegin.
  assert (Hread : forall fx sx,
            heap sx !! 0 = None -> fresh_mb fx = 0 ->
            round_end fuel raw_edge rs buf_size fx sx ≠ Done (c1, f1, s1)).
  { intros fx sx Hx Hfx Hend. unfold round_end in Hend.
    apply bind_Done in Hend. destruct Hend as (v & Hrd & _).
    rewrite Hfx in Hrd.
    apply (try_read_message_block_null _ _ _ _ _ _ Hx Hrd). }
  destruct (transmit f =? 0).
  - simpl in Hbegin. rewrite (chosen_eq _ _ Hmb) in Hbegin. simpl in Hbegin.
    destruct (decide (state_flag (header mb) = PROT_STATE_NEGOTIATION_END))
      as [E|_]; [congruence|].
    injection Hbegin as <- <- <-. simpl in Hit.
    exfalso. refine (Hread _ _ H0 _ Hit). exact Hf.
  - destruct (write_mb (buf f) buf_size s) as [[[r b] s2]| | | |] eqn:Hw;
      simpl in Hbegin; try discriminate.
    pose proof (write_mb_negotiating _ _ _ _ _ _ Hneg Hw) as (H2 & m2 & Hm2 & Hst2).
    destruct (r =? OP_ERROR).
    + injection Hbegin as <- <- <-. simpl in Hit. injection Hit as <- <- <-.
      simpl in H. injection H as <- _ _. reflexivity.
    + rewrite (chosen_eq _ _ Hm2) in Hbegin. simpl in Hbegin.
      destruct (decide (state_flag (header m2) = PROT_STATE_NEGOTIATION_END))
        as [E|_]; [congruence|].
      injection Hbegin as <- <- <-. simpl in Hit.
      exfalso. refine (Hread _ _ H2 _ Hit). exact Hf.
Qed.

(** X11.  sgsh_negotiate returns no protocol state.  Started in a process
    in which NULL is not a block, the function returns in one case only:
    OP_ERROR, when the tool starts the negotiation and write_mb refuses
    its block in the first round.  In every other run it exits in err,
    keeps polling, or runs into the NULL pointer that it passes to
    try_read_message_block as fresh_mb. *)
Theorem sgsh_negotiate_returns_no_state fuel raw_edge raw environ tool_name
    channels_required channels_provided self_pid buf_size first reads s v :
  heap s !! 0 = None ->
  sgsh_negotiate fuel raw_edge raw environ tool_name channels_required
    channels_provided self_pid buf_size first reads s = Done v ->
  v = RetOp OP_ERROR.
Proof.
  intros H0 H. unfold sgsh_negotiate in H.
  apply bind_Done in H. destruct H as ([[c f] s1] & Hjoin & H).
  apply join_negotiation_negotiating in Hjoin as (-> & -> & Hneg);
    [|exact H0].
  apply bind_Done in H. destruct H as ([[c2 f2] s2] & Hrounds & H).
  apply negotiation_rounds_first in Hrounds; [|exact Hneg|reflexivity..].
  subst c2. simpl in H. congruence.
Qed.

End ABI.

(** ** A concrete ABI: LP64, little-endian, with a bump allocator

    Used to run the functions on concrete processes. *)

Definition lp64_sizeof_negotiation : Z := 64.
Definition lp64_sizeof_node : Z := 120.
Definition lp64_sizeof_edge : Z := 8.

Definition byte_of_Z (z : Z) : Byte.byte :=
  match Byte.of_N (Z.to_N (z mod 256)) with
  | Some b => b
  | None => Byte.x00
  end.

Definition Z_of_byte (b : Byte.byte) : Z := Z.of_N (Byte.to_N b).

(* A 32-bit int, least significant byte first. *)
Definition le32 (z : Z) : list Byte.byte :=
  [byte_of_Z z; byte_of_Z (z / 2 ^ 8); byte_of_Z (z / 2 ^ 16);
   byte_of_Z (z / 2 ^ 24)].

Definition read_le32 (bs : list Byte.byte) : Z :=
  let u := fold_right (fun b acc => Z_of_byte b + 256 * acc) 0 (take 4 bs) in
  if u <? 2 ^ 31 then u else u - 2 ^ 32.

(* char name[100] *)
Definition name_field (s : string) : list Byte.byte :=
  take 100 (list_byte_of_string s ++ repeat Byte.x00 100).

Fixpoint until_nul (bs : list Byte.byte) : list Byte.byte :=
  match bs with
  | [] => []
  | b :: rest => if Byte.eqb b Byte.x00 then [] else b :: until_nul rest
  end.

Definition lp64_enc_edge (e : sgsh_edge) : list Byte.byte :=
  le32 (from e) ++ le32 (to e).
Definition lp64_dec_edge (bs : list Byte.byte) : sgsh_edge :=
  {| from := read_le32 bs; to := read_le32 (drop 4 bs) |}.

Definition lp64_enc_node (n : sgsh_node) : list Byte.byte :=
  le32 (pid n) ++ name_field (name n) ++ le32 (requires_channels n)
  ++ le32 (provides_channels n) ++ le32 (sgsh_in n) ++ le32 (sgsh_out n).
Definition lp64_dec_node (bs : list Byte.byte) : sgsh_node :=
  {| pid := read_le32 bs;
     name := string_of_list_byte (until_nul (take 100 (drop 4 bs)));
     requires_channels := read_le32 (drop 104 bs);
     provides_channels := read_le32 (drop 108 bs);
     sgsh_in := read_le32 (drop 112 bs);
     sgsh_out := read_le32 (drop 116 bs) |}.

(* malloc and realloc hand out the first page-aligned address above every
   live block. *)
Definition bump (h : gmap Z block) (n : Z) : Z :=
  map_fold (fun k _ acc => Z.max acc (k + 4096)) 4096 h.

Lemma lp64_enc_node_size n :
  Z.of_nat (length (lp64_enc_node n)) = lp64_sizeof_node.
Proof.
  unfold lp64_enc_node, name_field. rewrite !length_app.
  rewrite length_take_le by (rewrite length_app, repeat_length; lia).
  reflexivity.
Qed.

Lemma lp64_enc_edge_size e :
  Z.of_nat (length (lp64_enc_edge e)) = lp64_sizeof_edge.
Proof. reflexivity. Qed.

(** ** Concrete processes *)

Definition tool (p : Z) (nm : string) (i o : Z) : sgsh_node :=
  {| pid := p; name := nm; requires_channels := 1; provides_channels := 1;
     sgsh_in := i; sgsh_out := o |}.

(* A compact block at [base] that holds one node and no edge. *)
Definition one_node_block (base : Z) (n : sgsh_node) (o : dispatcher_node)
    (serial : Z) : block :=
  {| header := {| version := 1;
                  node_array := base + 64;
                  n_nodes := 1;
                  edge_array := base + 184;
                  n_edges := 0;
                  initiator_pid := pid n;
                  state_flag := PROT_STATE_NEGOTIATION;
                  serial_no := serial;
                  origin := o;
                  total_size := 184 |};
     payload := map Some (lp64_enc_node n) |}.

Definition no_origin : dispatcher_node := {| index := -1; fd_direction := -1 |}.
Definition from_stdout (i : Z) : dispatcher_node :=
  {| index := i; fd_direction := STDOUT_FILENO |}.
Definition from_stdin (i : Z) : dispatcher_node :=
  {| index := i; fd_direction := STDIN_FILENO |}.

(* What the stack slot of an uninitialised [struct sgsh_edge] holds. *)
Definition junk_edge : sgsh_edge := {| from := 7; to := 7 |}.

Definition chosen_header (s : negotiator) : option sgsh_negotiation :=
  header <$> heap s !! chosen_mb s.

(* The tool "sort" (pid 200), active on both sides, holds its own block at
   4096 and has just read the block [fresh], now at 8192. *)
Definition sort_holding (fresh : block) : negotiator :=
  {| heap := <[8192 := fresh]>
               {[ 4096 := one_node_block 4096 (tool 200 "sort" 1 1) no_origin 1 ]};
     chosen_mb := 4096;
     self_node := tool 200 "sort" 1 1;
     self_dispatcher := {| index := 0; fd_direction := STDIN_FILENO |};
     written := [] |}.

Definition from_cat : block :=
  one_node_block 8192 (tool 100 "cat" 0 1) (from_stdout 0) 1.
Definition from_wc : block :=
  one_node_block 8192 (tool 300 "wc" 0 1) (from_stdout 0) 1.
Definition own_newer : block :=
  one_node_block 8192 (tool 200 "sort" 1 1) (from_stdout 0) 5.

Definition lp64_compete :=
  compete_message_block lp64_sizeof_negotiation lp64_sizeof_node
    lp64_sizeof_edge lp64_enc_node lp64_dec_node lp64_enc_edge lp64_dec_edge
    bump 8 junk_edge.

(* The three branches on blocks whose arrays lie where the receiver holds
   them: a block started by pid 100 replaces the block of pid 200 (and gets
   self as second node and the edge 0 -> 1); a block started by pid 300 is
   dropped and silences the tool; the tool's own block with a higher
   serial_no is taken over. *)
Lemma compete_message_block_cases_witness :
  (exists c, lp64_compete 8192 (sort_holding from_cat) = Done c /\
     rc c = OP_SUCCESS /\ should_transmit_mb c = 1 /\
     updated_mb_serial_no c = 1 /\
     initiator_pid <$> chosen_header (after c) = Some 100 /\
     n_nodes <$> chosen_header (after c) = Some 2 /\
     n_edges <$> chosen_header (after c) = Some 1)
  /\ (exists c, lp64_compete 8192 (sort_holding from_wc) = Done c /\
        rc c = OP_SUCCESS /\ should_transmit_mb c = 0 /\
        initiator_pid <$> chosen_header (after c) = Some 200 /\
        heap (after c) !! 8192 = None)
  /\ (exists c, lp64_compete 8192 (sort_holding own_newer) = Done c /\
        rc c = OP_SUCCESS /\ should_transmit_mb c = 1 /\
        updated_mb_serial_no c = 1 /\
        serial_no <$> chosen_header (after c) = Some 6 /\
        initiator_pid <$> chosen_header (after c) = Some 200).
Proof.
  unfold lp64_compete. split; [|split].
  - destruct (compete_message_block_cases lp64_sizeof_negotiation
                lp64_sizeof_node lp64_sizeof_edge lp64_enc_node lp64_dec_node
                lp64_enc_edge lp64_dec_edge bump 8 junk_edge 8192
                (sort_holding from_cat) from_cat
                (one_node_block 4096 (tool 200 "sort" 1 1) no_origin 1)
                eq_refl eq_refl ltac:(vm_compute; intros E; discriminate E))
      as (_ & _ & Hlt & _ & _).
    rewrite (Hlt eq_refl). vm_compute.
    eexists. split; [reflexivity|]. repeat split.
  - destruct (compete_message_block_cases lp64_sizeof_negotiation
                lp64_sizeof_node lp64_sizeof_edge lp64_enc_node lp64_dec_node
                lp64_enc_edge lp64_dec_edge bump 8 junk_edge 8192
                (sort_holding from_wc) from_wc
                (one_node_block 4096 (tool 200 "sort" 1 1) no_origin 1)
                eq_refl eq_refl ltac:(vm_compute; intros E; discriminate E))
      as (_ & _ & _ & Hgt & _).
    destruct (Hgt eq_refl) as [E _]. rewrite E. vm_compute.
    eexists. split; [reflexivity|]. repeat split.
  - destruct (compete_message_block_cases lp64_sizeof_negotiation
                lp64_sizeof_node lp64_sizeof_edge lp64_enc_node lp64_dec_node
                lp64_enc_edge lp64_dec_edge bump 8 junk_edge 8192
                (sort_holding own_newer) own_newer
                (one_node_block 4096 (tool 200 "sort" 1 1) no_origin 1)
                eq_refl eq_refl ltac:(vm_compute; intros E; discriminate E))
      as (_ & _ & _ & _ & Heq).
    rewrite (Heq eq_refl). vm_compute.
    eexists. split; [reflexivity|]. repeat split.
Defined.

(** *** Rounds of an initiator *)

(* The initiator "sort" (pid 200) with its own block, node 0 of the graph. *)
Definition initiator : negotiator :=
  {| heap := {[ 4096 := one_node_block 4096 (tool 200 "sort" 0 1) no_origin 1 ]};
     chosen_mb := 4096;
     self_node := tool 200 "sort" 0 1;
     self_dispatcher := {| index := 0; fd_direction := STDOUT_FILENO |};
     written := [] |}.

(* Does the initiator declare the end of the negotiation in the course of
   rounds entered with the listed values of updated_mb_serial_no? *)
Definition declares_end (flags : list Z) : bool :=
  match count_rounds flags 0 initiator with
  | Done (_, s) =>
      bool_decide (state_flag <$> chosen_header s
                   = Some PROT_STATE_NEGOTIATION_END)
  | _ => false
  end.

(* The rule in the words of the specification: the end is declared after
   three consecutive rounds without a serial_no bump; a bump in between
   restarts the count.  [quiet] is the number of rounds counted so far. *)
Fixpoint three_quiet_rounds (quiet : nat) (flags : list Z) : bool :=
  match flags with
  | [] => false
  | u :: rest =>
      if u =? 0
      then if (S quiet =? 3)%nat then true else three_quiet_rounds (S quiet) rest
      else three_quiet_rounds 0 rest
  end.

(* The initiator after the write of its first round: the origin of its
   block names node 0 and its stdout. *)
Definition initiator_sent : negotiator :=
  let sent := one_node_block 4096 (tool 200 "sort" 0 1) (from_stdout 0) 1 in
  set_written [(STDOUT_FILENO, sent)] (put_chosen sent initiator).

(* The block read is at 8192. *)
Definition received (fresh : block) (s : negotiator) : negotiator :=
  set_heap (<[8192 := fresh]> (heap s)) s.

(* The frame on entry to the third round when the block read in the second
   round was started by a younger initiator ("wc", pid 300) and dropped:
   compete_message_block has left both flags at 0. *)
Definition third_round : frame :=
  {| negotiation_round := 2; transmit := 0; updated := 0;
     buf := Some from_wc; fresh_mb := 0 |}.

Lemma third_round_flags :
  (c ← lp64_compete 8192 (received from_wc initiator_sent);
   Done (rc c, should_transmit_mb c, updated_mb_serial_no c,
         chosen_header (after c), heap (after c) !! 8192))
  = Done (OP_SUCCESS, transmit third_round, updated third_round,
          chosen_header initiator_sent, None).
Proof. vm_compute. reflexivity. Qed.

(* C2 does not hold as stated.  After two rounds with a bump and one
   without, the code declares the end although only one quiet round has
   passed; and when the third round has a bump, three quiet rounds after it
   do not make the code declare the end.  When the initiator has dropped
   the block of a younger initiator in its second round, its third round
   declares the end and leaves the loop, and the trace of its writes is the
   one of the first round: nothing is transmitted once more. *)
Lemma three_quiet_rounds_counterexample :
  declares_end [1; 1; 0] = true
  /\ three_quiet_rounds 0 [1; 1; 0] = false
  /\ declares_end [0; 0; 1; 0; 0; 0] = false
  /\ three_quiet_rounds 0 [0; 0; 1; 0; 0; 0] = true
  /\ (c ← lp64_compete 8192 (received from_wc initiator_sent);
      '(ctl, _, s') ← round_begin lp64_sizeof_negotiation 4096
                        {| negotiation_round := 2;
                           transmit := should_transmit_mb c;
                           updated := updated_mb_serial_no c;
                           buf := Some from_wc; fresh_mb := 0 |} (after c);
      Done (ctl, state_flag <$> chosen_header s', written s'))
     = Done (Break, Some PROT_STATE_NEGOTIATION_END, written initiator_sent).
Proof. vm_compute. repeat split. Qed.

(* The theorem on the initiator above: the flags 1, 1, 0 end the
   negotiation on the third call; and the third round of the initiator that
   has dropped a younger block leaves the loop with its block in state
   NEGOTIATION_END and serial_no 2. *)
Lemma negotiation_end_on_third_round_witness :
  count_rounds [1; 1; 0] 0 initiator =
    Done (3, put_chosen
               (declare_end
                  (one_node_block 4096 (tool 200 "sort" 0 1) no_origin 1))
               initiator)
  /\ exists f' s' mb',
       round_begin lp64_sizeof_negotiation 4096 third_round initiator_sent
         = Done (Break, f', s')
       /\ negotiation_round f' = 3
       /\ chosen s' = Done mb'
       /\ state_flag (header mb') = PROT_STATE_NEGOTIATION_END
       /\ serial_no (header mb') = 2.
Proof.
  split.
  - exact (proj1 (negotiation_end_on_third_round lp64_sizeof_negotiation
                    [1; 1; 0] initiator
                    (one_node_block 4096 (tool 200 "sort" 0 1) no_origin 1)
                    eq_refl eq_refl)).
  - destruct (negotiation_end_on_third_round lp64_sizeof_negotiation [1; 0; 0]
                initiator_sent
                (one_node_block 4096 (tool 200 "sort" 0 1) (from_stdout 0) 1)
                eq_refl eq_refl) as (_ & _ & _ & Hround).
    exact (Hround 4096 third_round eq_refl eq_refl
             ltac:(split; [discriminate|reflexivity])
             ltac:(discriminate)
             ltac:(split; discriminate)
             ltac:(discriminate)).
Defined.

(** *** A block larger than the page *)

(* A compact block of 34 nodes: 64 + 34 * 120 = 4144 bytes. *)
Definition thirty_four_nodes : block :=
  {| header := {| version := 1;
                  node_array := 4096 + 64;
                  n_nodes := 34;
                  edge_array := 4096 + 64 + 34 * 120;
                  n_edges := 0;
                  initiator_pid := 200;
                  state_flag := PROT_STATE_NEGOTIATION;
                  serial_no := 34;
                  origin := from_stdout 33;
                  total_size := 4144 |};
     payload :=
       map Some (concat (repeat (lp64_enc_node (tool 200 "sort" 0 1)) 34)) |}.

Definition crowded : negotiator :=
  {| heap := {[ 4096 := thirty_four_nodes ]};
     chosen_mb := 4096;
     self_node := tool 200 "sort" 0 1;
     self_dispatcher := {| index := 0; fd_direction := STDOUT_FILENO |};
     written := [] |}.

(* C10 on a block of 4144 bytes and a page of 4096 bytes. *)
Lemma write_mb_rejects_oversized_witness :
  write_mb lp64_sizeof_negotiation None 4096 crowded
    = Done (OP_ERROR, None, crowded)
  /\ exists f' s',
       round_begin lp64_sizeof_negotiation 4096 initial_frame crowded
         = Done (Return (RetOp OP_ERROR), f', s')
       /\ written s' = [] /\ buf f' = None.
Proof.
  destruct (write_mb_rejects_oversized lp64_sizeof_negotiation None 4096
              crowded thirty_four_nodes eq_refl
              ltac:(split; reflexivity) eq_refl) as [Hw Hr].
  split; [exact Hw|].
  exact (Hr initial_frame ltac:(discriminate)).
Defined.

(** *** A dispatcher that is not in the graph *)

(* "sort" holds a block with a single node whose origin names node [i],
   sent from the sender's stdin. *)
Definition origin_is (i : Z) : negotiator :=
  {| heap := {[ 4096 := one_node_block 4096 (tool 200 "sort" 0 1)
                          (from_stdin i) 1 ]};
     chosen_mb := 4096;
     self_node := tool 200 "sort" 0 1;
     self_dispatcher := {| index := 0; fd_direction := STDOUT_FILENO |};
     written := [] |}.

(** C5, the check of the dispatcher.  The block has one node, so that 0 is
    the only valid index.  fill_sgsh_edge reports index 1 (err, exit status
    1), but it accepts index 2 and returns the edge 0 -> 2, which
    try_add_sgsh_edge then appends to the block. *)
Theorem fill_sgsh_edge_accepts_missing_dispatcher :
  n_nodes <$> chosen_header (origin_is 2) = Some 1
  /\ fill_sgsh_edge 8 (origin_is 1) junk_edge = Exited 1
  /\ fill_sgsh_edge 8 (origin_is 2) junk_edge
     = Done (OP_SUCCESS, {| from := 0; to := 2 |})
  /\ ('(r, s') ← try_add_sgsh_edge lp64_sizeof_negotiation lp64_sizeof_node
                   lp64_sizeof_edge lp64_enc_edge lp64_dec_edge bump 8
                   junk_edge (origin_is 2);
      mb ← chosen s';
      e ← edge_at lp64_sizeof_negotiation lp64_sizeof_edge lp64_dec_edge
            (chosen_mb s') mb 0;
      Done (r, n_nodes (header mb), n_edges (header mb), e))
     = Done (OP_SUCCESS, 1, 1, {| from := 0; to := 2 |}).
Proof.
  vm_compute. repeat split.
Qed.

(** *** A block created in memory that is not zero *)

Definition starting : negotiator :=
  {| heap := ∅;
     chosen_mb := 0;
     self_node := tool 200 "sort" 0 1;
     self_dispatcher := {| index := 0; fd_direction := STDOUT_FILENO |};
     written := [] |}.

(* Memory from malloc in which the int at the place of n_edges is [k]. *)
Definition leftover (k : Z) : sgsh_negotiation :=
  {| version := 0; node_array := 0; n_nodes := 0; edge_array := 0;
     n_edges := k; initiator_pid := 0; state_flag := PROT_STATE_NEGOTIATION;
     serial_no := 0; origin := no_origin; total_size := 0 |}.

Definition sizes_of (s : negotiator) : outcome (Z * Z * Z) :=
  mb ← chosen s;
  Done (total_size (header mb), n_nodes (header mb), n_edges (header mb)).

(** C6 at the creation of the block.  construct_message_block does not
    assign n_edges.  In memory that holds 1 there, the new block has
    total_size 64 with 0 nodes and 1 edge, where the layout asks for
    64 + 0 * 120 + 1 * 8 = 72, and the first try_add_sgsh_node copies an
    edge from an address outside the block.  In zeroed memory the block is
    compact and adding self gives total_size 184 = 64 + 1 * 120. *)
Theorem construct_message_block_leaves_n_edges :
  ('(_, s) ← construct_message_block lp64_sizeof_negotiation bump
               (leftover 1) 200 starting;
   sizes_of s) = Done (64, 0, 1)
  /\ ('(_, s) ← construct_message_block lp64_sizeof_negotiation bump
                  (leftover 1) 200 starting;
      try_add_sgsh_node lp64_sizeof_negotiation lp64_sizeof_node
        lp64_sizeof_edge lp64_enc_node lp64_dec_node bump s) = Undefined
  /\ ('(_, s) ← construct_message_block lp64_sizeof_negotiation bump
                  (leftover 0) 200 starting;
      '(_, s) ← try_add_sgsh_node lp64_sizeof_negotiation lp64_sizeof_node
                  lp64_sizeof_edge lp64_enc_node lp64_dec_node bump s;
      sizes_of s) = Done (184, 1, 0).
Proof.
  vm_compute. repeat split.
Qed.

(** *** A block that is read and lost *)

(* "sort", active on its input side, waits for the block; it holds none. *)
Definition waiting : negotiator :=
  {| heap := ∅;
     chosen_mb := 0;
     self_node := tool 200 "sort" 1 1;
     self_dispatcher := {| index := 0; fd_direction := STDIN_FILENO |};
     written := [] |}.

(* The same tool, had its fresh_mb pointed at an old block of 184 bytes. *)
Definition waiting_with_old : negotiator :=
  {| heap := {[ 4096 := one_node_block 4096 (tool 300 "wc" 1 0) no_origin 9 ]};
     chosen_mb := 0;
     self_node := tool 200 "sort" 1 1;
     self_dispatcher := {| index := 0; fd_direction := STDIN_FILENO |};
     written := [] |}.

Definition frame_pointing_at (p : Z) : frame :=
  {| negotiation_round := 0; transmit := 1; updated := 1;
     buf := None; fresh_mb := p |}.

Definition lp64_wait_for_mb :=
  wait_for_mb lp64_sizeof_negotiation bump.

(** C8.  A block of 184 bytes from "cat" (pid 100) arrives on stdin.
    - sgsh_negotiate passes fresh_mb == NULL: alloc_copy_mb reads
      mb->total_size through it and nothing is returned.
    - Had fresh_mb pointed at an old block of 184 bytes, the call would have
      succeeded, the copy of the bytes read would be in the heap, and the
      caller would still hold the old pointer: chosen_mb becomes the old
      block (initiator 300, serial_no 9), not the block read (initiator
      100, serial_no 1). *)
Theorem try_read_message_block_loses_block :
  lp64_wait_for_mb [ReadBlock from_cat] 4096 initial_frame waiting = Undefined
  /\ ('(c, f, s) ← lp64_wait_for_mb [ReadBlock from_cat] 4096
                     (frame_pointing_at 4096) waiting_with_old;
      mb ← chosen s;
      Done (c, fresh_mb f, chosen_mb s, initiator_pid (header mb),
            serial_no (header mb), header <$> heap s !! 8192))
     = Done (Next, 4096, 4096, 300, 9, Some (header from_cat)).
Proof.
  vm_compute. repeat split.
Qed.

(** *** More processes *)

(* The compact block at [base] with the nodes [ns] and the edges [es]. *)
Definition packed (base : Z) (ns : list sgsh_node) (es : list sgsh_edge)
    (initiator : Z) (o : dispatcher_node) (serial : Z) : block :=
  {| header := {| version := 1;
                  node_array := base + 64;
                  n_nodes := Z.of_nat (length ns);
                  edge_array := base + 64 + Z.of_nat (length ns) * 120;
                  n_edges := Z.of_nat (length es);
                  initiator_pid := initiator;
                  state_flag := PROT_STATE_NEGOTIATION;
                  serial_no := serial;
                  origin := o;
                  total_size := 64 + Z.of_nat (length ns) * 120
                                + Z.of_nat (length es) * 8 |};
     payload := map Some (concat (map lp64_enc_node ns)
                          ++ concat (map lp64_enc_edge es)) |}.

Lemma packed_compact base ns es i o serial :
  compact lp64_sizeof_negotiation lp64_sizeof_node lp64_sizeof_edge
    lp64_enc_node lp64_enc_edge base (packed base ns es i o serial) ns es.
Proof. constructor; reflexivity. Qed.

Lemma one_node_block_compact base n o serial :
  compact lp64_sizeof_negotiation lp64_sizeof_node lp64_sizeof_edge
    lp64_enc_node lp64_enc_edge base (one_node_block base n o serial) [n] [].
Proof.
  constructor; try reflexivity.
  - simpl. unfold encode_nodes, encode_edges. simpl. rewrite !app_nil_r.
    reflexivity.
  - intros H. contradiction.
Qed.

Lemma bump_nonzero h n : bump h n ≠ 0.
Proof.
  unfold bump.
  assert (4096 <= map_fold (fun (k : Z) (_ : block) acc => Z.max acc (k + 4096))
                    4096 h); [|lia].
  apply (map_fold_weak_ind (fun r _ => 4096 <= r)); [lia|].
  intros i x m r _ Hr. lia.
Qed.

(* "wc" (pid 300), which reads but does not write, has received the block
   that "sort" started and wrote on its stdout. *)
Definition wc_node : sgsh_node :=
  {| pid := 300; name := "wc"; requires_channels := 1;
     provides_channels := 0; sgsh_in := 1; sgsh_out := 0 |}.

Definition wc_joining : negotiator :=
  {| heap := {[ 4096 := one_node_block 4096 (tool 200 "sort" 0 1)
                          (from_stdout 0) 1 ]};
     chosen_mb := 4096;
     self_node := wc_node;
     self_dispatcher := {| index := -1; fd_direction := STDIN_FILENO |};
     written := [] |}.

(* The same tool once it is node 1 of the block, without and with the
   edge 0 -> 1. *)
Definition wc_joined (es : list sgsh_edge) : negotiator :=
  {| heap := {[ 4096 := packed 4096 [tool 200 "sort" 0 1; wc_node] es 200
                          (from_stdout 0) 2 ]};
     chosen_mb := 4096;
     self_node := wc_node;
     self_dispatcher := {| index := 1; fd_direction := STDIN_FILENO |};
     written := [] |}.

Definition lp64_try_add_sgsh_node :=
  try_add_sgsh_node lp64_sizeof_negotiation lp64_sizeof_node lp64_sizeof_edge
    lp64_enc_node lp64_dec_node bump.
Definition lp64_try_add_sgsh_edge :=
  try_add_sgsh_edge lp64_sizeof_negotiation lp64_sizeof_node lp64_sizeof_edge
    lp64_enc_edge lp64_dec_edge bump.

(* X1 on the initiator, which is in its block already, and on "wc", which
   becomes node 1 of the block started by "sort". *)
Lemma try_add_sgsh_node_appends_self_witness :
  lp64_try_add_sgsh_node initiator = Done (OP_EXISTS, initiator)
  /\ exists s' mb',
       lp64_try_add_sgsh_node wc_joining = Done (OP_SUCCESS, s')
       /\ chosen_mb s' = 4096
       /\ heap s' !! 4096 = Some mb'
       /\ n_nodes (header mb') = 2
       /\ serial_no (header mb') = 2
       /\ index (self_dispatcher s') = 1.
Proof.
  split.
  - pose proof (try_add_sgsh_node_appends_self lp64_sizeof_negotiation
                  lp64_sizeof_node lp64_sizeof_edge lp64_enc_node lp64_dec_node
                  lp64_enc_edge bump eq_refl eq_refl lp64_enc_node_size
                  lp64_enc_edge_size initiator
                  (one_node_block 4096 (tool 200 "sort" 0 1) no_origin 1)
                  [tool 200 "sort" 0 1] [] eq_refl
                  (one_node_block_compact _ _ _ _)
                  ltac:(constructor; [vm_compute; reflexivity|constructor]))
      as H.
    cbv zeta in H. destruct H as (Hex & _ & _).
    exact (Hex ltac:(simpl; lia)).
  - pose proof (try_add_sgsh_node_appends_self lp64_sizeof_negotiation
                  lp64_sizeof_node lp64_sizeof_edge lp64_enc_node lp64_dec_node
                  lp64_enc_edge bump eq_refl eq_refl lp64_enc_node_size
                  lp64_enc_edge_size wc_joining
                  (one_node_block 4096 (tool 200 "sort" 0 1) (from_stdout 0) 1)
                  [tool 200 "sort" 0 1] [] eq_refl
                  (one_node_block_compact _ _ _ _)
                  ltac:(constructor; [vm_compute; reflexivity|constructor]))
      as H.
    cbv zeta in H. destruct H as (_ & _ & Hadd).
    destruct (Hadd eq_refl (bump_nonzero _ _))
      as (s' & mb' & Hrun & Hcm & Hmb & _ & Hn & Hser & _ & _ & _ & Hi & _).
    exists s', mb'. repeat split; assumption.
Defined.

(* X2 on "wc". *)
Lemma try_add_sgsh_node_twice_witness :
  exists s',
    lp64_try_add_sgsh_node wc_joining = Done (OP_SUCCESS, s')
    /\ lp64_try_add_sgsh_node s' = Done (OP_EXISTS, s').
Proof.
  exact (try_add_sgsh_node_twice lp64_sizeof_negotiation lp64_sizeof_node
           lp64_sizeof_edge lp64_enc_node lp64_dec_node lp64_enc_edge bump
           eq_refl eq_refl lp64_enc_node_size lp64_enc_edge_size wc_joining
           (one_node_block 4096 (tool 200 "sort" 0 1) (from_stdout 0) 1)
           [tool 200 "sort" 0 1] [] eq_refl (one_node_block_compact _ _ _ _)
           ltac:(repeat constructor; vm_compute; reflexivity)
           ltac:(repeat constructor; vm_compute; intros E; discriminate E)
           (bump_nonzero _ _)).
Defined.

(* X3 on "wc": the block has no edge yet and gets the edge 0 -> 1; with
   that edge in the block the call returns OP_EXISTS; a block that has just
   been created gets none. *)
Lemma try_add_sgsh_edge_appends_edge_witness :
  lp64_try_add_sgsh_edge 8 junk_edge initiator = Done (OP_NOOP, initiator)
  /\ lp64_try_add_sgsh_edge 8 junk_edge (wc_joined [{| from := 0; to := 1 |}])
     = Done (OP_EXISTS, wc_joined [{| from := 0; to := 1 |}])
  /\ exists s' mb',
       lp64_try_add_sgsh_edge 8 junk_edge (wc_joined [])
       = Done (OP_SUCCESS, s')
       /\ heap s' !! 4096 = Some mb'
       /\ compact lp64_sizeof_negotiation lp64_sizeof_node lp64_sizeof_edge
            lp64_enc_node lp64_enc_edge 4096 mb'
            [tool 200 "sort" 0 1; wc_node] [{| from := 0; to := 1 |}]
       /\ n_edges (header mb') = 1
       /\ serial_no (header mb') = 3.
Proof.
  split; [|split].
  - pose proof (try_add_sgsh_edge_appends_edge lp64_sizeof_negotiation
                  lp64_sizeof_node lp64_sizeof_edge lp64_enc_node lp64_enc_edge
                  lp64_dec_edge bump eq_refl eq_refl lp64_enc_node_size
                  lp64_enc_edge_size 8 junk_edge initiator
                  (one_node_block 4096 (tool 200 "sort" 0 1) no_origin 1)
                  [tool 200 "sort" 0 1] [] eq_refl
                  (one_node_block_compact _ _ _ _) ltac:(constructor)) as H.
    cbv zeta in H. destruct H as (Hnoop & _).
    exact (Hnoop eq_refl).
  - pose proof (try_add_sgsh_edge_appends_edge lp64_sizeof_negotiation
                  lp64_sizeof_node lp64_sizeof_edge lp64_enc_node lp64_enc_edge
                  lp64_dec_edge bump eq_refl eq_refl lp64_enc_node_size
                  lp64_enc_edge_size 8 junk_edge
                  (wc_joined [{| from := 0; to := 1 |}]) _ _ _ eq_refl
                  (packed_compact _ _ _ _ _ _)
                  ltac:(repeat constructor)) as H.
    cbv zeta in H. destruct H as (_ & Hedge).
    destruct (Hedge OP_SUCCESS {| from := 0; to := 1 |}
                ltac:(discriminate) eq_refl) as (Hex & _ & _).
    apply Hex. apply list_elem_of_singleton. reflexivity.
  - pose proof (try_add_sgsh_edge_appends_edge lp64_sizeof_negotiation
                  lp64_sizeof_node lp64_sizeof_edge lp64_enc_node lp64_enc_edge
                  lp64_dec_edge bump eq_refl eq_refl lp64_enc_node_size
                  lp64_enc_edge_size 8 junk_edge (wc_joined []) _ _ _ eq_refl
                  (packed_compact _ _ _ _ _ _)
                  ltac:(constructor)) as H.
    cbv zeta in H. destruct H as (_ & Hedge).
    destruct (Hedge OP_SUCCESS {| from := 0; to := 1 |}
                ltac:(discriminate) eq_refl) as (_ & _ & Hadd).
    destruct (Hadd ltac:(intros E; inversion E) (bump_nonzero _ _))
      as (s' & mb' & Hrun & Hcm & Hmb & Hcomp & Hn & Hser & _).
    exists s', mb'. split; [exact Hrun|]. split; [exact Hmb|].
    split; [exact Hcomp|]. split; [exact Hn|exact Hser].
Defined.

(* X4 on "wc". *)
Lemma try_add_sgsh_edge_twice_witness :
  exists s',
    lp64_try_add_sgsh_edge 8 junk_edge (wc_joined []) = Done (OP_SUCCESS, s')
    /\ lp64_try_add_sgsh_edge 8 junk_edge s' = Done (OP_EXISTS, s').
Proof.
  exact (try_add_sgsh_edge_twice lp64_sizeof_negotiation lp64_sizeof_node
           lp64_sizeof_edge lp64_enc_node lp64_enc_edge lp64_dec_edge bump
           eq_refl eq_refl lp64_enc_node_size lp64_enc_edge_size 8 junk_edge
           (wc_joined []) _ _ _ OP_SUCCESS {| from := 0; to := 1 |} eq_refl
           (packed_compact _ _ _ _ _ _)
           ltac:(repeat constructor)
           ltac:(discriminate) eq_refl
           ltac:(intros E; inversion E) (bump_nonzero _ _)).
Defined.

(* X5 on the initiator, with a page of 4096 bytes, and on "wc" before it
   has an index. *)
Lemma write_mb_sends_whole_block_witness :
  (let sent := one_node_block 4096 (tool 200 "sort" 0 1)
                 {| index := 0; fd_direction := STDOUT_FILENO |} 1 in
   write_mb lp64_sizeof_negotiation None 4096 initiator
   = Done (OP_SUCCESS, Some sent,
           set_written [(STDOUT_FILENO, sent)] (put_chosen sent initiator)))
  /\ write_mb lp64_sizeof_negotiation None 4096 wc_joining = Aborted.
Proof.
  split.
  - pose proof (write_mb_sends_whole_block lp64_sizeof_negotiation
                  lp64_sizeof_node lp64_sizeof_edge lp64_enc_node lp64_enc_edge
                  eq_refl eq_refl lp64_enc_node_size lp64_enc_edge_size
                  None 4096 initiator _ _ _ eq_refl
                  (one_node_block_compact _ _ _ _)
                  ltac:(split; [discriminate|reflexivity])
                  ltac:(discriminate)) as H.
    cbv zeta in H. destruct H as (Hsend & _).
    exact (Hsend ltac:(discriminate)).
  - pose proof (write_mb_sends_whole_block lp64_sizeof_negotiation
                  lp64_sizeof_node lp64_sizeof_edge lp64_enc_node lp64_enc_edge
                  eq_refl eq_refl lp64_enc_node_size lp64_enc_edge_size
                  None 4096 wc_joining _ _ _ eq_refl
                  (one_node_block_compact _ _ _ _)
                  ltac:(split; [discriminate|reflexivity])
                  ltac:(discriminate)) as H.
    cbv zeta in H. destruct H as (_ & Habort).
    exact (Habort eq_refl).
Defined.

(* X6 on "wc", which takes one input and has no output: with the edge
   0 -> 1 its requirements are met; without it they are not. *)
Lemma allocate_io_connections_counts_witness :
  allocate_io_connections lp64_sizeof_negotiation lp64_sizeof_edge
    lp64_dec_edge 8 (fun _ _ => 8192) (wc_joined [{| from := 0; to := 1 |}])
  = Done OP_SUCCESS
  /\ allocate_io_connections lp64_sizeof_negotiation lp64_sizeof_edge
       lp64_dec_edge 8 (fun _ _ => 8192) (wc_joined [])
     = Exited 1.
Proof.
  split.
  - exact (allocate_io_connections_counts lp64_sizeof_negotiation
             lp64_sizeof_node lp64_sizeof_edge lp64_enc_node lp64_enc_edge
             lp64_dec_edge 8 (fun _ _ => 8192) lp64_enc_node_size
             lp64_enc_edge_size (wc_joined [{| from := 0; to := 1 |}]) _ _ _
             eq_refl (packed_compact _ _ _ _ _ _)
             ltac:(repeat constructor)
             ltac:(intros old n E; discriminate E)).
  - exact (allocate_io_connections_counts lp64_sizeof_negotiation
             lp64_sizeof_node lp64_sizeof_edge lp64_enc_node lp64_enc_edge
             lp64_dec_edge 8 (fun _ _ => 8192) lp64_enc_node_size
             lp64_enc_edge_size (wc_joined []) _ _ _
             eq_refl (packed_compact _ _ _ _ _ _)
             ltac:(constructor)
             ltac:(intros old n E; discriminate E)).
Defined.

(* The environment of a tool that writes to the graph and does not read
   from it. *)
Definition writes_only (v : string) : option Z :=
  if String.eqb v "SGSH_IN" then Some 0
  else if String.eqb v "SGSH_OUT" then Some 1
  else None.

(* X7 for "sort" (pid 200) in a fresh process with a page of 4096 bytes. *)
Lemma initiator_first_message_witness :
  exists s1 mb f2 s2,
    join_negotiation lp64_sizeof_negotiation lp64_sizeof_node lp64_sizeof_edge
      lp64_enc_node lp64_dec_node lp64_enc_edge lp64_dec_edge bump 8
      junk_edge (leftover 0) writes_only "sort" 1 1 200 4096 [] starting
    = Done (Next, initial_frame, s1)
    /\ heap s1 !! chosen_mb s1 = Some mb
    /\ n_nodes (header mb) = 1
    /\ n_edges (header mb) = 0
    /\ serial_no (header mb) = 1
    /\ self_dispatcher s1 = {| index := 0; fd_direction := STDOUT_FILENO |}
    /\ round_begin lp64_sizeof_negotiation 4096 initial_frame s1
       = Done (Next, f2, s2)
    /\ written s2
       = [(STDOUT_FILENO,
           set_header
             (set_origin {| index := 0; fd_direction := STDOUT_FILENO |}
                (header mb)) mb)].
Proof.
  destruct (initiator_first_message lp64_sizeof_negotiation lp64_sizeof_node
              lp64_sizeof_edge lp64_enc_node lp64_dec_node lp64_enc_edge
              lp64_dec_edge bump eq_refl eq_refl lp64_enc_node_size
              lp64_enc_edge_size 8 junk_edge (leftover 0) writes_only "sort"
              1 1 200 4096 [] starting 1 eq_refl eq_refl
              ltac:(discriminate) bump_nonzero eq_refl eq_refl
              ltac:(split; [discriminate|reflexivity]) ltac:(discriminate))
    as (s1 & mb & f2 & s2 & Hjoin & Hmb & Hcomp & _ & Hser & _ & _ & Hsd & _
        & Hround & Hw).
  exists s1, mb, f2, s2.
  split; [exact Hjoin|]. split; [exact Hmb|].
  split; [exact (compact_n_nodes _ _ _ _ _ _ _ _ _ Hcomp)|].
  split; [exact (compact_n_edges _ _ _ _ _ _ _ _ _ Hcomp)|].
  split; [exact Hser|]. split; [exact Hsd|].
  split; [exact Hround|exact Hw].
Defined.

(* "sort" has received a block that node 0 wrote on its stdin. *)
Definition below_sort : negotiator :=
  {| heap := {[ 4096 := packed 4096 [tool 100 "cat" 1 1; tool 200 "sort" 0 1]
                          [] 100 (from_stdin 0) 2 ]};
     chosen_mb := 4096;
     self_node := tool 200 "sort" 0 1;
     self_dispatcher := {| index := 1; fd_direction := STDOUT_FILENO |};
     written := [] |}.

(* X8: "wc" is the destination of the edge from the node that wrote on its
   stdout, and "sort" the source of the edge to the node that wrote on its
   stdin. *)
Lemma fill_sgsh_edge_follows_origin_witness :
  fill_sgsh_edge 8 (wc_joined []) junk_edge
  = Done (OP_SUCCESS, {| from := 0; to := 1 |})
  /\ fill_sgsh_edge 8 below_sort junk_edge
     = Done (OP_SUCCESS, {| from := 1; to := 0 |}).
Proof.
  split.
  - destruct (fill_sgsh_edge_follows_origin 8 (wc_joined []) junk_edge _
                eq_refl ltac:(discriminate) ltac:(discriminate)
                ltac:(discriminate) ltac:(simpl; lia)) as (_ & Hout & _).
    exact (Hout eq_refl).
  - destruct (fill_sgsh_edge_follows_origin 8 below_sort junk_edge _
                eq_refl ltac:(discriminate) ltac:(discriminate)
                ltac:(discriminate) ltac:(simpl; lia)) as (Hin & _ & _).
    exact (Hin eq_refl).
Defined.

(* X9 on "sort" when the block of "cat" arrives. *)
Lemma compete_message_block_returns_success_witness :
  exists c,
    lp64_compete 8192 (sort_holding from_cat) = Done c
    /\ rc c = OP_SUCCESS
    /\ written (after c) = []
    /\ self_node (after c) = tool 200 "sort" 1 1.
Proof.
  destruct (lp64_compete 8192 (sort_holding from_cat)) as [c| | | |] eqn:E;
    try (vm_compute in E; discriminate E).
  exists c. split; [reflexivity|].
  destruct (compete_message_block_returns_success _ _ _ _ _ _ _ _ _ _ _ _ _ E)
    as (Hrc & Hw & Hsn & _).
  split; [exact Hrc|]. split; [exact Hw|exact Hsn].
Defined.

(* X10 on "sort", active on both sides and writing on stdin, whose pointer
   holds an old block of 184 bytes: a block of "cat" that arrives on stdin
   after one turn in vain leaves the direction at stdin; one that arrives
   on stdout turns it to stdout. *)
Lemma try_read_message_block_side_witness :
  (exists s',
     try_read_message_block lp64_sizeof_negotiation bump
       [ReadError EAGAIN; ReadError EAGAIN; ReadBlock from_cat] None 4096
       4096 waiting_with_old
     = Done (OP_SUCCESS, Some from_cat, s')
     /\ fd_direction (self_dispatcher s') = STDIN_FILENO
     /\ heap s' !! 8192 = Some from_cat)
  /\ (exists s',
        try_read_message_block lp64_sizeof_negotiation bump
          [ReadError EAGAIN; ReadError EAGAIN; ReadError EAGAIN;
           ReadBlock from_cat] None 4096 4096 waiting_with_old
        = Done (OP_SUCCESS, Some from_cat, s')
        /\ fd_direction (self_dispatcher s') = STDOUT_FILENO)
  /\ try_read_message_block lp64_sizeof_negotiation bump
       [ReadError EAGAIN; ReadError EAGAIN; ReadError 5] None 4096 4096
       waiting_with_old
     = Exited 1.
Proof.
  pose proof (try_read_message_block_side lp64_sizeof_negotiation bump 1
                from_cat [] None 4096 4096 waiting_with_old _
                ltac:(discriminate) eq_refl eq_refl ltac:(discriminate)
                (bump_nonzero _ _)) as H.
  cbv zeta in H. destruct H as (Hin & Hout & Herr & _).
  split; [|split].
  - eexists. split; [exact Hin|]. split; reflexivity.
  - eexists. split; [exact Hout|]. reflexivity.
  - exact (proj1 (Herr 5 ltac:(discriminate))).
Defined.

(* X11: with a page of 100 bytes the block of the initiator, 184 bytes,
   is refused by write_mb and sgsh_negotiate returns OP_ERROR. *)
Lemma sgsh_negotiate_returns_no_state_witness :
  sgsh_negotiate lp64_sizeof_negotiation lp64_sizeof_node lp64_sizeof_edge
    lp64_enc_node lp64_dec_node lp64_enc_edge lp64_dec_edge bump 8
    (fun _ _ => 8192) 8 junk_edge (leftover 0) writes_only "sort" 1 1 200 100
    [] [[]] starting
  = Done (RetOp OP_ERROR).
Proof.
  destruct (sgsh_negotiate lp64_sizeof_negotiation lp64_sizeof_node
              lp64_sizeof_edge lp64_enc_node lp64_dec_node lp64_enc_edge
              lp64_dec_edge bump 8 (fun _ _ => 8192) 8 junk_edge (leftover 0)
              writes_only "sort" 1 1 200 100 [] [[]] starting)
    as [v| | | |] eqn:E; try (vm_compute in E; discriminate E).
  f_equal.
  refine (sgsh_negotiate_returns_no_state _ _ _ _ _ _ _ _ _ _ _ _ _ _ _ _ _ _
            _ _ _ _ _ _ E).
  reflexivity.
Defined.

(** *** Competition on blocks that have been received *)

Definition ls_node : sgsh_node := tool 50 "ls" 0 1.
Definition cat_node : sgsh_node := tool 100 "cat" 0 1.
Definition sort_node : sgsh_node := tool 200 "sort" 1 1.

(* The block of the pipeline cat | sort | wc, which "cat" (pid 100)
   started: the three tools and the two edges, serial_no 6.  [base] is the
   address at which the process that built it holds it, [o] the tool that
   wrote it last. *)
Definition pipeline (base : Z) (o : dispatcher_node) : block :=
  packed base [cat_node; sort_node; wc_node]
    [{| from := 0; to := 1 |}; {| from := 1; to := 2 |}] 100 o 6.

(* "cat", node 0, holds the block at 4096 as "sort" sent it on its stdin,
   and is about to write it on its stdout. *)
Definition cat_in_pipeline : negotiator :=
  {| heap := {[ 4096 := pipeline 4096 (from_stdin 1) ]};
     chosen_mb := 4096;
     self_node := cat_node;
     self_dispatcher := {| index := 0; fd_direction := STDOUT_FILENO |};
     written := [] |}.

(* "sort", node 1, holds the block at 4096 as "wc" sent it on its stdin,
   and is about to write it on its stdout. *)
Definition sort_in_pipeline : negotiator :=
  {| heap := {[ 4096 := pipeline 4096 (from_stdin 2) ]};
     chosen_mb := 4096;
     self_node := sort_node;
     self_dispatcher := {| index := 1; fd_direction := STDOUT_FILENO |};
     written := [] |}.

(* The block that "ls" (pid 50) starts and writes on its stdout, built at
   [base]. *)
Definition from_ls (base : Z) : block :=
  packed base [ls_node] [] 50 (from_stdout 0) 1.

(* What the caller has after a competition: the value returned, the two
   flags, and the chosen block. *)
Definition verdict (c : competition) : Z * Z * Z * option block :=
  (rc c, should_transmit_mb c, updated_mb_serial_no c,
   heap (after c) !! chosen_mb (after c)).

(** C1 on blocks as they are received.  The receiver keeps the block it
    has read at 8192; the process that sent it had built it at 12288, and
    node_array and edge_array in the bytes received are its addresses.
    - fresh.initiator_pid < chosen.initiator_pid ("sort" holds the block
      of pid 100 and receives the block of "ls", pid 50): the block is made
      the chosen one with the addresses of "ls", and try_add_sgsh_node reads
      node_array[0] outside of it; neither node nor edge is added and
      nothing is returned.  Were the arrays at 8192, where the block is,
      the call would return with "sort" as node 1, the edge 0 -> 1 and both
      flags at 1.
    - equal initiators, serial_no not higher ("cat", the initiator, has
      written the block on its stdout and receives it back from "sort" as
      it was): the block received is freed and try_add_sgsh_edge makes the
      edge from the origin of the block that is kept, which "cat" itself
      set when it wrote; the assertion on self_node.sgsh_in fails.  The
      edge that the block received implies, 0 -> 1, is in the block.
    - the same at "sort", which takes input too (it has written the block
      on its stdout and receives it back from "wc"): the call returns with
      the edge 1 -> 1 added to the block and serial_no 7, and with
      updated_mb_serial_no at 0.  The edge that the block received implies,
      1 -> 2, is in the block. *)
Theorem compete_message_block_on_received_block :
  lp64_compete 8192 (received (from_ls 12288) sort_in_pipeline) = Undefined
  /\ (c ← lp64_compete 8192 (received (from_ls 8192) sort_in_pipeline);
      Done (verdict c))
     = Done (OP_SUCCESS, 1, 1,
             Some (packed 4096 [ls_node; sort_node] [{| from := 0; to := 1 |}]
                     50 (from_stdout 0) 3))
  /\ ('(_, _, s) ← write_mb lp64_sizeof_negotiation None 4096 cat_in_pipeline;
      lp64_compete 8192 (received (pipeline 12288 (from_stdin 1)) s))
     = Aborted
  /\ lp64_try_add_sgsh_edge 8 junk_edge cat_in_pipeline
     = Done (OP_EXISTS, cat_in_pipeline)
  /\ ('(_, _, s) ← write_mb lp64_sizeof_negotiation None 4096 sort_in_pipeline;
      c ← lp64_compete 8192 (received (pipeline 12288 (from_stdin 2)) s);
      Done (verdict c))
     = Done (OP_SUCCESS, 1, 0,
             Some (packed 4096 [cat_node; sort_node; wc_node]
                     [{| from := 0; to := 1 |}; {| from := 1; to := 2 |};
                      {| from := 1; to := 1 |}] 100 (from_stdout 1) 7))
  /\ lp64_try_add_sgsh_edge 8 junk_edge sort_in_pipeline
     = Done (OP_EXISTS, sort_in_pipeline).
Proof.
  vm_compute. repeat split.
Qed.

End Negotiate.

(** * Part II: the value store (sgsh-writeval.c) *)

Module Writeval.

Definition CONTENT_LENGTH_DIGITS : Z := 10.
Definition EAGAIN : Z := 11.

(* struct buffer *: the address of a buffer, or NULL. *)
Abbreviation bptr := (option nat).

(* Queue (doubly linked list) of buffers used for storing the last read
   record. *)
Record buffer : Type := {
  next : bptr;
  prev : bptr;
  size : Z;                 (* Actual number of bytes stored *)
  timestamp : Z;            (* Time the buffer was read *)
  record_count : Z;         (* Total number of complete records read *)
  byte_count : Z;           (* Total number of bytes read *)
  data : list ascii
}.

(* A pointer to a character stored in a buffer *)
Record dpointer : Type := {
  b : bptr;                 (* The buffer *)
  pos : Z                   (* The position within the buffer *)
}.

Inductive client_state : Type :=
| s_inactive            (* Free (unused or closed) *)
| s_read_command        (* Waiting for a command to be read *)
| s_send_current        (* Waiting for the current value to be written *)
| s_send_last           (* Waiting for the last (before EOF) value *)
| s_sending_response    (* A response is being written *)
| s_wait_close.         (* Wait for the client to close the connection *)

#[global] Instance client_state_eq_dec : EqDecision client_state.
Proof. solve_decision. Defined.

(* The clients we're talking to *)
Record client : Type := {
  fd : Z;
  write_begin : dpointer;   (* Start of data for next write *)
  write_end : dpointer;     (* End of data to write *)
  state : client_state
}.

(* User options: record separator, record length (0 if a separator is
   used), time window flag, and the response record as reverse iterators. *)
Record options : Type := {
  rs : ascii;
  rl : Z;
  time_window : bool;
  record_rbegin : Z;
  record_rend : Z
}.

(* The file-scope variables of sgsh-writeval.c and the heap of buffers. *)
Record store : Type := {
  bufs : gmap nat buffer;
  head : bptr;
  tail : bptr;
  oldest_buffer_being_written : bptr;
  current_record_begin : dpointer;
  current_record_end : dpointer;
  reached_eof : bool;
  have_record : bool;
  clients : list client
}.

Definition set_next (v : bptr) (x : buffer) : buffer :=
  {| next := v; prev := prev x; size := size x; timestamp := timestamp x;
     record_count := record_count x; byte_count := byte_count x;
     data := data x |}.
Definition set_prev (v : bptr) (x : buffer) : buffer :=
  {| next := next x; prev := v; size := size x; timestamp := timestamp x;
     record_count := record_count x; byte_count := byte_count x;
     data := data x |}.
Definition set_size (v : Z) (x : buffer) : buffer :=
  {| next := next x; prev := prev x; size := v; timestamp := timestamp x;
     record_count := record_count x; byte_count := byte_count x;
     data := data x |}.
Definition set_timestamp (v : Z) (x : buffer) : buffer :=
  {| next := next x; prev := prev x; size := size x; timestamp := v;
     record_count := record_count x; byte_count := byte_count x;
     data := data x |}.
Definition set_record_count (v : Z) (x : buffer) : buffer :=
  {| next := next x; prev := prev x; size := size x; timestamp := timestamp x;
     record_count := v; byte_count := byte_count x; data := data x |}.
Definition set_byte_count (v : Z) (x : buffer) : buffer :=
  {| next := next x; prev := prev x; size := size x; timestamp := timestamp x;
     record_count := record_count x; byte_count := v; data := data x |}.
Definition set_data (v : list ascii) (x : buffer) : buffer :=
  {| next := next x; prev := prev x; size := size x; timestamp := timestamp x;
     record_count := record_count x; byte_count := byte_count x; data := v |}.

Definition set_bufs (v : gmap nat buffer) (s : store) : store :=
  {| bufs := v; head := head s; tail := tail s;
     oldest_buffer_being_written := oldest_buffer_being_written s;
     current_record_begin := current_record_begin s;
     current_record_end := current_record_end s;
     reached_eof := reached_eof s; have_record := have_record s;
     clients := clients s |}.
Definition set_head (v : bptr) (s : store) : store :=
  {| bufs := bufs s; head := v; tail := tail s;
     oldest_buffer_being_written := oldest_buffer_being_written s;
     current_record_begin := current_record_begin s;
     current_record_end := current_record_end s;
     reached_eof := reached_eof s; have_record := have_record s;
     clients := clients s |}.
Definition set_tail (v : bptr) (s : store) : store :=
  {| bufs := bufs s; head := head s; tail := v;
     oldest_buffer_being_written := oldest_buffer_being_written s;
     current_record_begin := current_record_begin s;
     current_record_end := current_record_end s;
     reached_eof := reached_eof s; have_record := have_record s;
     clients := clients s |}.
Definition set_oldest_buffer_being_written (v : bptr) (s : store) : store :=
  {| bufs := bufs s; head := head s; tail := tail s;
     oldest_buffer_being_written := v;
     current_record_begin := current_record_begin s;
     current_record_end := current_record_end s;
     reached_eof := reached_eof s; have_record := have_record s;
     clients := clients s |}.
Definition set_current_record (db de : dpointer) (s : store) : store :=
  {| bufs := bufs s; head := head s; tail := tail s;
     oldest_buffer_being_written := oldest_buffer_being_written s;
     current_record_begin := db;
     current_record_end := de;
     reached_eof := reached_eof s; have_record := have_record s;
     clients := clients s |}.
Definition set_reached_eof (v : bool) (s : store) : store :=
  {| bufs := bufs s; head := head s; tail := tail s;
     oldest_buffer_being_written := oldest_buffer_being_written s;
     current_record_begin := current_record_begin s;
     current_record_end := current_record_end s;
     reached_eof := v; have_record := have_record s;
     clients := clients s |}.
Definition set_have_record (v : bool) (s : store) : store :=
  {| bufs := bufs s; head := head s; tail := tail s;
     oldest_buffer_being_written := oldest_buffer_being_written s;
     current_record_begin := current_record_begin s;
     current_record_end := current_record_end s;
     reached_eof := reached_eof s; have_record := v;
     clients := clients s |}.
Definition set_clients (v : list client) (s : store) : store :=
  {| bufs := bufs s; head := head s; tail := tail s;
     oldest_buffer_being_written := oldest_buffer_being_written s;
     current_record_begin := current_record_begin s;
     current_record_end := current_record_end s;
     reached_eof := reached_eof s; have_record := have_record s;
     clients := v |}.

Definition set_state (v : client_state) (c : client) : client :=
  {| fd := fd c; write_begin := write_begin c; write_end := write_end c;
     state := v |}.
Definition set_write_begin (v : dpointer) (c : client) : client :=
  {| fd := fd c; write_begin := v; write_end := write_end c;
     state := state c |}.

(* *p for a buffer pointer [p] *)
Definition deref (h : gmap nat buffer) (p : bptr) : outcome buffer :=
  match p with
  | Some a => from_opt (h !! a)
  | None => Undefined
  end.

(* Every loop of the program that follows next or prev pointers visits a
   buffer at most once unless the queue is circular; so many steps are
   allowed to it. *)
Definition chain_fuel (h : gmap nat buffer) : nat := S (base.size h).

(** ** Cursors *)

Definition at_pos (p : Z) (dp : dpointer) : dpointer := {| b := b dp; pos := p |}.

(* Increment dp by one byte.  If no more bytes are available return false
   leaving pos to point one byte past the last available one. *)
Definition dpointer_increment (h : gmap nat buffer) (dp : dpointer)
  : outcome (bool * dpointer) :=
  let dp := at_pos (pos dp + 1) dp in
  x ← deref h (b dp);
  if pos dp =? size x then
    match next x with
    | None => Done (false, dp)
    | Some n => Done (true, {| b := Some n; pos := 0 |})
    end
  else Done (true, dp).

(* Decrement dp by one byte.  Return false if no more bytes are available. *)
Definition dpointer_decrement (h : gmap nat buffer) (dp : dpointer)
  : outcome (bool * dpointer) :=
  let dp := at_pos (pos dp - 1) dp in
  if pos dp =? -1 then
    x ← deref h (b dp);
    match prev x with
    | None => Done (false, at_pos (pos dp + 1) dp)
    | Some p =>
        y ← deref h (Some p);
        Done (true, {| b := Some p; pos := size y - 1 |})
    end
  else Done (true, dp).

(* dp->b->data[dp->pos] *)
Definition byte_at (h : gmap nat buffer) (dp : dpointer) : outcome ascii :=
  x ← deref h (b dp);
  if 0 <=? pos dp then from_opt (data x !! Z.to_nat (pos dp)) else Undefined.

(* Subtract from dp the specified number of bytes.
   while (n > 0) { ... }, at most [fuel] times. *)
Fixpoint dpointer_subtract (fuel : nat) (h : gmap nat buffer)
    (dp : dpointer) (n : Z) : outcome dpointer :=
  if n >? 0 then
    match fuel with
    | O => OutOfFuel
    | S k =>
        let subtract := Z.min (pos dp + 1 - 0) n in
        let n := n - subtract in
        let dp := at_pos (pos dp - subtract) dp in
        if pos dp =? -1 then
          x ← deref h (b dp);
          assert (bool_decide (prev x ≠ None));;
          y ← deref h (prev x);
          dpointer_subtract k h {| b := prev x; pos := size y - 1 |} n
        else dpointer_subtract k h dp n
    end
  else Done dp.

(* Add to dp the specified number of bytes.
   while (n > 0) { ... }, at most [fuel] times. *)
Fixpoint dpointer_add (fuel : nat) (h : gmap nat buffer)
    (dp : dpointer) (n : Z) : outcome dpointer :=
  if n >? 0 then
    match fuel with
    | O => OutOfFuel
    | S k =>
        x ← deref h (b dp);
        let add := Z.min (size x - pos dp) n in
        let n := n - add in
        let dp := at_pos (pos dp + add) dp in
        if pos dp =? size x then
          assert (bool_decide (next x ≠ None));;
          dpointer_add k h {| b := next x; pos := 0 |} n
        else dpointer_add k h dp n
    end
  else Done dp.

(* Move back dp the specified number of records.
   for (;;) { ... }, at most [fuel] times. *)
Fixpoint dpointer_move_back (fuel : nat) (h : gmap nat buffer) (sep : ascii)
    (dp : dpointer) (n : Z) : outcome dpointer :=
  match fuel with
  | O => OutOfFuel
  | S k =>
      '(more, dp) ← dpointer_decrement h dp;
      if (more : bool) then
        c ← byte_at h dp;
        if Ascii.eqb c sep then
          let n := n - 1 in
          if n =? -1 then
            '(_, dp) ← dpointer_increment h dp;
            Done dp
          else dpointer_move_back k h sep dp n
        else dpointer_move_back k h sep dp n
      else
        let n := n - 1 in
        if n =? -1 then Done dp
        else Aborted (* Not enough records available *)
  end.

(* One step per byte held in the queue, and one per buffer. *)
Definition byte_fuel (h : gmap nat buffer) : nat :=
  S (map_fold (fun _ x acc => (acc + Z.to_nat (size x) + 1)%nat) O h).

(** ** Trimming the queue *)

(* for (bp = ...; bp; bp = bp->next) if (bp == a) return a;
                                      else if (bp == b) return b;
   assert(0); *)
Fixpoint oldest_buffer_from (fuel : nat) (h : gmap nat buffer) (bp : bptr)
    (a1 a2 : nat) : outcome bptr :=
  match bp with
  | None => Aborted
  | Some p =>
      if decide (p = a1) then Done (Some a1)
      else if decide (p = a2) then Done (Some a2)
      else match fuel with
           | O => OutOfFuel
           | S k => x ← from_opt (h !! p); oldest_buffer_from k h (next x) a1 a2
           end
  end.

(* Return the oldest of the two buffers (the one that comes first in the
   list) *)
Definition oldest_buffer (s : store) (p1 p2 : bptr) : outcome bptr :=
  match p1, p2 with
  | None, _ => Done p2
  | _, None => Done p1
  | Some a1, Some a2 =>
      oldest_buffer_from (chain_fuel (bufs s)) (bufs s) (head s) a1 a2
  end.

(* for (i = ...; i < MAX_CLIENTS; i++)
     if (clients[i].state == s_sending_response) oldest = oldest_buffer(...) *)
Fixpoint oldest_of_clients (s : store) (cs : list client) (oldest : bptr)
  : outcome bptr :=
  match cs with
  | [] => Done oldest
  | c :: rest =>
      if decide (state c = s_sending_response) then
        o ← oldest_buffer s oldest (b (write_begin c));
        oldest_of_clients s rest o
      else oldest_of_clients s rest oldest
  end.

(* Update oldest_buffer_being_written according to the buffers used by all
   clients sending a response. *)
Definition update_oldest_buffer (s : store) : outcome store :=
  o ← oldest_of_clients s (clients s) None;
  Done (set_oldest_buffer_being_written o s).

(* for (bp = ...; bp; bp = bnext): stop at current_record_begin.b or
   oldest_buffer_being_written, else free bp.  Returns the heap and the
   buffer at which the loop stopped; assert(0) when the queue runs out. *)
Fixpoint free_from (fuel : nat) (h : gmap nat buffer) (bp : bptr)
    (keep1 keep2 : bptr) : outcome (gmap nat buffer * nat) :=
  match bp with
  | None => Aborted
  | Some p =>
      if bool_decide (bp = keep1) || bool_decide (bp = keep2) then
        x ← from_opt (h !! p);
        Done (<[p := set_prev None x]> h, p)
      else match fuel with
           | O => OutOfFuel
           | S k =>
               x ← from_opt (h !! p);
               let bnext := next x in
               free_from k (delete p h) bnext keep1 keep2
           end
  end.

(* Free buffers preceding current_record_begin *)
Definition free_unused_buffers (s : store) : outcome store :=
  '(h, p) ← free_from (chain_fuel (bufs s)) (bufs s) (head s)
              (b (current_record_begin s)) (oldest_buffer_being_written s);
  Done (set_head (Some p) (set_bufs h s)).

(** ** The current record *)

(* Update the pointers to the current response record based on the defined
   record separator. *)
Definition update_current_record_by_rs (o : options) (s : store)
  : outcome store :=
  let h := bufs s in
  t ← deref h (tail s);
  (* Point to the end of read data *)
  let e := {| b := tail s; pos := size t |} in
  (* Remove data that forms an incomplete record *)
  e ← dpointer_move_back (byte_fuel h) h (rs o) e 0;
  (* Go back to the end of the specified record *)
  e ← dpointer_move_back (byte_fuel h) h (rs o) e (record_rbegin o);
  (* Go further back to the begin of the specified record *)
  bg ← dpointer_move_back (byte_fuel h) h (rs o) e
         (record_rend o - record_rbegin o);
  free_unused_buffers (set_have_record true (set_current_record bg e s)).

(* Update the pointers to the current response record based on the defined
   record length. *)
Definition update_current_record_by_rl (o : options) (s : store)
  : outcome store :=
  let h := bufs s in
  t ← deref h (tail s);
  let e := {| b := tail s; pos := size t |} in
  e ← dpointer_subtract (byte_fuel h) h e (Z.rem (byte_count t) (rl o));
  e ← dpointer_subtract (byte_fuel h) h e (record_rbegin o * rl o);
  bg ← dpointer_subtract (byte_fuel h) h e
         ((record_rend o - record_rbegin o) * rl o);
  free_unused_buffers (set_have_record true (set_current_record bg e s)).

(* Update the pointers to the current response record. *)
Definition update_current_record (o : options) (s : store) : outcome store :=
  assert (bool_decide (tail s ≠ None));;
  t ← deref (bufs s) (tail s);
  if record_count t - record_rend o <? 0 then Done s (* Not enough records *)
  else if rl o =? 0 then update_current_record_by_rs o s
  else update_current_record_by_rl o s.

(** ** Reading the input *)

(* for (i = 0; i < b->size; i++) if (b->data[i] == rs) b->record_count++; *)
Definition count_separators (sep : ascii) (bytes : list ascii) : Z :=
  Z.of_nat (length (filter (fun c => Ascii.eqb c sep = true) bytes)).

(* Set the buffer's counters.  [now] is what time() returns. *)
Definition set_buffer_counters (o : options) (now : Z) (h : gmap nat buffer)
    (x : buffer) : outcome buffer :=
  let x := if time_window o then set_timestamp now x else x in
  if rl o =? 0 then
    (* Count records using RS *)
    before ← match prev x with
             | Some p => y ← deref h (Some p); Done (record_count y)
             | None => Done 0
             end;
    Done (set_record_count
            (before + count_separators (rs o)
                        (take (Z.to_nat (size x)) (data x))) x)
  else
    (* Count records using RL *)
    before ← match prev x with
             | Some p => y ← deref h (Some p); Done (byte_count y)
             | None => Done 0
             end;
    let x := set_byte_count (before + size x) x in
    Done (set_record_count (Z.quot (byte_count x) (rl o)) x).

(* What read(STDIN_FILENO, b->data, sizeof(b->data)) finds. *)
Inductive read_result : Type :=
| ReadError (errno : Z)
| ReadEof
| ReadData (bytes : list ascii).   (* at least one byte *)

(* Read data from STDIN into a new buffer.  malloc returns the address [a],
   where the memory holds [raw]. *)
Definition buffer_read (o : options) (a : nat) (raw : buffer) (now : Z)
    (r : read_result) (s : store) : outcome store :=
  match r with
  | ReadError errno =>
      if errno =? EAGAIN then Done s (* free(b) *)
      else Exited 3
  | ReadEof =>
      let s := set_reached_eof true s in
      if have_record s then Done s (* free(b) *)
      else
        match head s with
        | None =>
            (* Setup an empty record *)
            let x := set_next None (set_prev None (set_size 0 raw)) in
            let s := set_tail (Some a)
                       (set_head (Some a) (set_bufs (<[a := x]> (bufs s)) s)) in
            Done (set_have_record true
                    (set_current_record {| b := Some a; pos := 0 |}
                                        {| b := Some a; pos := 0 |} s))
        | Some _ =>
            (* Setup all input as a record *)
            t ← deref (bufs s) (tail s);
            Done (set_have_record true
                    (set_current_record {| b := head s; pos := 0 |}
                                        {| b := tail s; pos := size t |} s))
        end
  | ReadData bytes =>
      (* Have data. Insert buffer at the end of the queue. *)
      let x := set_data bytes (set_size (Z.of_nat (length bytes)) raw) in
      let x := set_next None (set_prev (tail s) x) in
      h ← match tail s with
          | Some t => y ← deref (bufs s) (Some t);
                      Done (<[t := set_next (Some a) y]> (bufs s))
          | None => Done (bufs s)
          end;
      let hd := match head s with None => Some a | Some _ => head s end in
      x ← set_buffer_counters o now h x;
      update_current_record o
        (set_head hd (set_tail (Some a) (set_bufs (<[a := x]> h) s)))
  end.
(** ** Talking to a client *)

(* What the process does to the outside world. *)
Inductive event : Type :=
| Unlink (path : string)                 (* unlink(path) *)
| Close (descriptor : Z)                 (* close(fd) *)
| Sent (descriptor : Z) (bytes : list ascii)  (* bytes accepted by writev *)
| Complaint.                             (* a message on stderr *)

(* A value of C type unsigned int. *)
Definition to_uint (z : Z) : Z := z mod 2 ^ 32.

(* for (bp = ...; bp && bp != end; bp = bp->next) length += bp->size; *)
Fixpoint add_sizes (fuel : nat) (h : gmap nat buffer) (bp : bptr)
    (stop : bptr) (length : Z) : outcome Z :=
  match bp with
  | None => Done length
  | Some p =>
      if bool_decide (bp = stop) then Done length
      else match fuel with
           | O => OutOfFuel
           | S k =>
               x ← from_opt (h !! p);
               add_sizes k h (next x) stop (length + size x)
           end
  end.

(* Return the content length of the client's buffer *)
Definition content_length (h : gmap nat buffer) (c : client) : outcome Z :=
  if bool_decide (b (write_begin c) = b (write_end c)) then
    Done (to_uint (pos (write_end c) - pos (write_begin c)))
  else
    x ← deref h (b (write_begin c));
    let length := size x - pos (write_begin c) in
    length ← add_sizes (chain_fuel h) h (next x) (b (write_end c)) length;
    Done (to_uint (length + pos (write_end c))).

Definition digit (d : Z) : ascii := ascii_of_nat (48 + Z.to_nat d).

(* snprintf(length, sizeof(length), "%010u", n), for an unsigned int n *)
Definition format_010u (n : Z) : list ascii :=
  map (fun k => digit ((n / 10 ^ k) mod 10)) [9; 8; 7; 6; 5; 4; 3; 2; 1; 0].

(* What writev(c->fd, iovptr, ...) returns: -1 with errno, or the number of
   bytes it accepted.  A number that is negative or larger than what was
   offered is not an answer of writev. *)
Inductive writev_result : Type :=
| WriteError (errno : Z)
| Written (n : Z).

(* Write a single record to the specified client.  Update the write_begin
   pointer.  If write_length is true, precede the record with
   CONTENT_LENGTH_DIGITS digits representing the record's length.
   Returns what went out and the client afterwards. *)
Definition write_record (h : gmap nat buffer) (c : client) (write_length : bool)
    (w : writev_result) : list event * outcome client :=
  match deref h (b (write_begin c)) with
  | Done x =>
      let towrite :=
        if bool_decide (b (write_begin c) = b (write_end c))
        then pos (write_end c) - pos (write_begin c)
        else size x - pos (write_begin c) in
      let iov1 := take (Z.to_nat towrite)
                    (drop (Z.to_nat (pos (write_begin c))) (data x)) in
      match (if write_length
             then len ← content_length h c; Done (format_010u len ++ iov1)
             else Done iov1) with
      | Done iov =>
          match w with
          | WriteError errno =>
              if errno =? EAGAIN then ([], Done c) else ([], Exited 3)
          | Written n =>
              let out := [Sent (fd c) (take (Z.to_nat n) iov)] in
              (* writev accepts between 0 and all of the bytes offered *)
              if (n <? 0) || (Z.of_nat (length iov) <? n)
              then ([], Undefined)
              else if write_length && (n <? CONTENT_LENGTH_DIGITS)
              then (out ++ [Complaint], Exited 1)
              else
                let n := if write_length then n - CONTENT_LENGTH_DIGITS else n in
                let wb := at_pos (pos (write_begin c) + n) (write_begin c) in
                (* More data to write from this buffer? *)
                if (pos wb <? size x)
                   && (negb (bool_decide (b wb = b (write_end c)))
                       || (pos wb <? pos (write_end c)))
                then (out, Done (set_write_begin wb c))
                (* More buffers to write from? *)
                else if negb (bool_decide (b wb = b (write_end c)))
                then (out, Done (set_write_begin {| b := next x; pos := 0 |} c))
                (* Done with this client *)
                else (out, Done (set_state s_wait_close (set_write_begin wb c)))
          end
      | Exited z => ([], Exited z)
      | Aborted => ([], Aborted)
      | Undefined => ([], Undefined)
      | OutOfFuel => ([], OutOfFuel)
      end
  | Exited z => ([], Exited z)
  | Aborted => ([], Aborted)
  | Undefined => ([], Undefined)
  | OutOfFuel => ([], OutOfFuel)
  end.

(* What read(c->fd, &cmd, 1) finds. *)
Inductive command_read : Type :=
| CommandError (errno : Z)
| CommandEof
| Command (cmd : ascii).

(* clients[i] = c *)
Definition put_client (i : nat) (c : client) (s : store) : store :=
  set_clients (<[i := c]> (clients s)) s.

(* Read a one character command from the specified client, clients[i],
   and act on it. *)
Definition read_command (socket_path : string) (i : nat) (r : command_read)
    (s : store) : list event * outcome store :=
  match clients s !! i with
  | None => ([], Undefined)
  | Some c =>
      match r with
      | CommandError errno =>
          if errno =? EAGAIN then ([], Done s) else ([], Exited 3)
      | CommandEof =>
          ([Close (fd c)],
           update_oldest_buffer (put_client i (set_state s_inactive c) s))
      | Command cmd =>
          if Ascii.eqb cmd "L" then
            ([], Done (put_client i (set_state s_send_last c) s))
          else if Ascii.eqb cmd "Q" then
            ([Unlink socket_path], Exited 0)
          else if Ascii.eqb cmd "C" then
            ([], Done (put_client i (set_state s_send_current c) s))
          else ([Complaint], Exited 1)
      end
  end.

(** ** The loop of main *)

(* Is the descriptor of the client put in source_fds, in sink_fds, before
   select? *)
Definition in_source_fds (s : store) (c : client) : bool :=
  match state c with
  | s_wait_close | s_read_command => true
  | _ => false
  end.


(* The body of the second loop over the clients, for clients[i]:
   [readable] and [writable] are FD_ISSET(clients[i].fd, ...) after select,
   [r] and [w] what the read and the writev made for this client find. *)
Definition serve_client (socket_path : string) (i : nat)
    (readable writable : bool) (r : command_read) (w : writev_result)
    (s : store) : list event * outcome store :=
  match clients s !! i with
  | None => ([], Undefined)
  | Some c =>
      match state c with
      | s_inactive => ([], Done s)
      | s_read_command | s_wait_close =>
          if readable then read_command socket_path i r s else ([], Done s)
      | s_send_last | s_send_current =>
          if writable then
            if have_record s then
              (* Start writing the most fresh last record *)
              let c := {| fd := fd c;
                          write_begin := current_record_begin s;
                          write_end := current_record_end s;
                          state := s_sending_response |} in
              match oldest_buffer s (oldest_buffer_being_written s)
                      (b (write_begin c)) with
              | Done ob =>
                  let s := set_oldest_buffer_being_written ob s in
                  let '(out, res) := write_record (bufs s) c true w in
                  (out, c ← res; Done (put_client i c s))
              | Exited z => ([], Exited z)
              | Aborted => ([], Aborted)
              | Undefined => ([], Undefined)
              | OutOfFuel => ([], OutOfFuel)
              end
            else ([], Aborted)
          else ([], Done s)
      | s_sending_response =>
          if writable then
            if have_record s then
              let '(out, res) := write_record (bufs s) c false w in
              (out, c ← res; Done (put_client i c s))
            else ([], Aborted)
          else ([], Done s)
      end
  end.

(** ** Reading turn after turn *)

(* One turn of the loop of main in which standard input is ready and read
   returns data: the memory that malloc returns holds [r_raw], time returns
   [r_now], and read stores the bytes [r_bytes]. *)
Record stdin_read : Type := {
  r_raw : buffer;
  r_now : Z;
  r_bytes : list ascii
}.

(* buffer_read in successive turns.  [malloc] gives the address that malloc
   returns in a heap. *)
Fixpoint read_all (o : options) (malloc : gmap nat buffer -> nat)
    (reads : list stdin_read) (s : store) : outcome store :=
  match reads with
  | [] => Done s
  | r :: rest =>
      s' ← buffer_read o (malloc (bufs s)) (r_raw r) (r_now r)
             (ReadData (r_bytes r)) s;
      read_all o malloc rest s'
  end.

(* The input read in these turns. *)
Fixpoint input_of (reads : list stdin_read) : list ascii :=
  match reads with
  | [] => []
  | r :: rest => r_bytes r ++ input_of rest
  end.

(** ** New connections *)

Definition MAX_CLIENTS : nat := 64.

(* for (i = ...; i < MAX_CLIENTS; i++)
     if (clients[i].state == s_inactive) return &clients[i];
   [todo] iterations are left. *)
Fixpoint get_free_client_from (s : store) (i todo : nat)
  : list event * outcome nat :=
  match todo with
  | O => ([Complaint], Exited 1)
  | S k =>
      match clients s !! i with
      | None => ([], Undefined)
      | Some c =>
          if decide (state c = s_inactive) then ([], Done i)
          else get_free_client_from s (S i) k
      end
  end.

(* Return an initialized free client entry, or exit with an error. *)
Definition get_free_client (s : store) : list event * outcome nat :=
  get_free_client_from s 0 MAX_CLIENTS.

(* Set the specified file descriptor to operate in non-blocking mode.
   [flags] and [set] are what the two calls of fcntl return. *)
Definition non_block (flags set : Z) : outcome unit :=
  if flags <? 0 then Exited 2
  else if set <? 0 then Exited 2
  else Done tt.

(* The end of the loop of main, when the listening socket is reported
   readable: [rsock] is what accept returns, [errno] its error when that
   is -1. *)
Definition accept_connection (rsock errno flags set : Z) (s : store)
  : list event * outcome store :=
  if (rsock =? -1) && negb (errno =? EAGAIN) then ([], Exited 5)
  else
    let '(out, r) := get_free_client s in
    (out,
     i ← r;
     non_block flags set;;
     c ← from_opt (clients s !! i);
     Done (put_client i {| fd := rsock;
                           write_begin := write_begin c;
                           write_end := write_end c;
                           state := s_read_command |} s)).

(** ** Properties of the value store *)

(** *** Commands *)


(** *** Counters *)

Lemma count_separators_nonneg sep bytes : 0 <= count_separators sep bytes.
Proof. unfold count_separators. lia. Qed.

(** C9 (as the code has it).  When set_buffer_counters runs on a buffer [x]
    linked after [y]: in record-separator mode record_count does not
    decrease from [y] to [x] (byte_count is not assigned); in fixed-length
    mode neither byte_count nor record_count decreases, provided the
    counters of [y] were themselves set in that mode (record_count is
    byte_count / rl), which then holds of [x] again. *)
Theorem set_buffer_counters_monotone
    (o : options) (now : Z) (h : gmap nat buffer) (x y : buffer) (p : nat) :
  prev x = Some p ->
  h !! p = Some y ->
  0 <= size x ->
  exists x',
    set_buffer_counters o now h x = Done x'
    /\ (rl o = 0 ->
        record_count y <= record_count x'
        /\ byte_count x' = byte_count x)
    /\ (0 < rl o ->
        record_count y = Z.quot (byte_count y) (rl o) ->
        byte_count y <= byte_count x'
        /\ record_count y <= record_count x'
        /\ record_count x' = Z.quot (byte_count x') (rl o)).
Proof.
  intros Hp Hy Hsz. unfold set_buffer_counters.
  assert (Hprev : prev (if time_window o then set_timestamp now x else x)
                  = Some p) by (destruct (time_window o); exact Hp).
  assert (Hsize : size (if time_window o then set_timestamp now x else x)
                  = size x) by (destruct (time_window o); reflexivity).
  assert (Hbc : byte_count (if time_window o then set_timestamp now x else x)
                = byte_count x) by (destruct (time_window o); reflexivity).
  rewrite Hprev. simpl. rewrite Hy. simpl.
  destruct (rl o =? 0) eqn:E.
  - eexists. split; [reflexivity|]. simpl. split.
    + intros _. split; [|exact Hbc].
      pose proof (count_separators_nonneg (rs o)
        (take (Z.to_nat (size (if time_window o then set_timestamp now x else x)))
              (data (if time_window o then set_timestamp now x else x)))).
      lia.
    + intros Hrl. apply Z.eqb_eq in E. lia.
  - eexists. split; [reflexivity|]. simpl. split.
    + intros Hrl. apply Z.eqb_neq in E. contradiction.
    + intros Hrl Hinv. rewrite Hsize. split; [lia|]. split; [|reflexivity].
      rewrite Hinv. apply Z.quot_le_mono; lia.
Qed.

(** *** The queue of buffers *)

(* Following the next pointers from [p] visits exactly the buffers [l], in
   this order, and then reaches NULL. *)
Fixpoint chain (h : gmap nat buffer) (p : bptr) (l : list nat) : Prop :=
  match l with
  | [] => p = None
  | a :: l' => p = Some a /\ exists x, h !! a = Some x /\ chain h (next x) l'
  end.

(* [q] is the buffer [p] or comes after it in the queue [l]. *)
Definition follows (l : list nat) (p q : nat) : Prop :=
  exists l1 l2, l = l1 ++ p :: l2 /\ q ∈ p :: l2.

Lemma chain_functional h l1 : forall p l2,
  chain h p l1 -> chain h p l2 -> l1 = l2.
Proof.
  induction l1 as [|a l1 IH]; intros p [|a2 l2] H1 H2; simpl in *.
  - reflexivity.
  - destruct H2 as [H2 _]. congruence.
  - destruct H1 as [H1 _]. congruence.
  - destruct H1 as (E1 & x1 & Hx1 & C1). destruct H2 as (E2 & x2 & Hx2 & C2).
    assert (a = a2) by congruence. subst a2.
    assert (x1 = x2) by congruence. subst x2.
    f_equal. eapply IH; eassumption.
Qed.

Lemma chain_suffix h l1 a l2 : forall p,
  chain h p (l1 ++ a :: l2) -> chain h (Some a) (a :: l2).
Proof.
  induction l1 as [|a1 l1 IH]; intros p H; simpl in *.
  - destruct H as (_ & x & Hx & C). split; [reflexivity|]. eauto.
  - destruct H as (_ & x & Hx & C). eapply IH. exact C.
Qed.

Lemma chain_NoDup h l : forall p, chain h p l -> NoDup l.
Proof.
  induction l as [|a l IH]; intros p H; [constructor|].
  pose proof H as H0. simpl in H. destruct H as (-> & x & Hx & C).
  constructor; [|eapply IH; exact C].
  intros Hin. apply list_elem_of_split in Hin as (l1 & l2 & ->).
  pose proof (chain_suffix _ _ _ _ _ C) as C2.
  pose proof (chain_functional _ _ _ _ H0 C2) as E.
  apply (f_equal length) in E. simpl in E. rewrite length_app in E.
  simpl in E. lia.
Qed.

Lemma chain_lookup h l : forall p a,
  chain h p l -> a ∈ l -> is_Some (h !! a).
Proof.
  induction l as [|a0 l IH]; intros p a H Hin.
  - inversion Hin.
  - simpl in H. destruct H as (_ & x & Hx & C).
    apply elem_of_cons in Hin as [->|Hin]; [eauto|].
    eapply IH; eassumption.
Qed.

(* The loops over the queue end within chain_fuel steps. *)
Lemma chain_length h l p : chain h p l -> (length l <= base.size h)%nat.
Proof.
  intros H. pose proof (chain_NoDup _ _ _ H) as Hnd.
  rewrite <- (size_list_to_set (C := gset nat) l Hnd).
  rewrite <- size_dom. apply subseteq_size.
  intros a Ha. apply elem_of_list_to_set in Ha.
  apply elem_of_dom. eapply chain_lookup; eassumption.
Qed.

(* A heap that agrees on the buffers of the queue holds the same queue. *)
Lemma chain_agree h h' l : forall p,
  (forall a, a ∈ l -> h' !! a = h !! a) ->
  chain h p l -> chain h' p l.
Proof.
  induction l as [|a l IH]; intros p Hag H; simpl in *; [exact H|].
  destruct H as (-> & x & Hx & C). split; [reflexivity|].
  exists x. split.
  - rewrite Hag by (apply elem_of_cons; left; reflexivity). exact Hx.
  - apply IH; [|exact C]. intros a' Ha'. apply Hag.
    apply elem_of_cons. right. exact Ha'.
Qed.

(* Two ways of splitting a list at [p], the first before any [p]. *)
Lemma split_before (p : nat) (f : list nat) : forall r l1 l2,
  f ++ r = l1 ++ p :: l2 -> p ∉ f ->
  exists m, l1 = f ++ m /\ r = m ++ p :: l2.
Proof.
  induction f as [|x f IH]; intros r l1 l2 E Hn.
  - exists l1. split; [reflexivity|exact E].
  - destruct l1 as [|y l1]; simpl in E.
    + inversion E; subst. exfalso. apply Hn. apply elem_of_cons. left.
      reflexivity.
    + inversion E; subst.
      destruct (IH r l1 l2 H1) as (m & -> & ->).
      { intros Hin. apply Hn. apply elem_of_cons. right. exact Hin. }
      exists m. split; reflexivity.
Qed.

Lemma follows_refl l p : p ∈ l -> follows l p p.
Proof.
  intros H. apply list_elem_of_split in H as (l1 & l2 & ->).
  exists l1, l2. split; [reflexivity|]. apply elem_of_cons. left. reflexivity.
Qed.

Lemma follows_trans l p q r :
  NoDup l -> follows l p q -> follows l q r -> follows l p r.
Proof.
  intros Hnd (l1 & l2 & E1 & Hq) (l1' & l2' & E2 & Hr).
  exists l1, l2. split; [exact E1|].
  assert (Hq1 : q ∉ l1).
  { intros Hin. rewrite E1 in Hnd. apply NoDup_app in Hnd as (_ & Hd & _).
    exact (Hd q Hin Hq). }
  rewrite E1 in E2.
  destruct (split_before q l1 (p :: l2) l1' l2' E2 Hq1) as (m & _ & E).
  rewrite E. apply elem_of_app. right. exact Hr.
Qed.

(** *** Trimming *)

(* The loop of free_unused_buffers frees the buffers in front of the first
   one that is current_record_begin.b or oldest_buffer_being_written,
   clears the prev pointer of that one and touches nothing else. *)
Lemma free_from_spec l : forall h p fuel k1 k2,
  chain h p l ->
  (length l <= fuel)%nat ->
  (exists a, a ∈ l /\ (k1 = Some a \/ k2 = Some a)) ->
  exists freed a kept x h',
    l = freed ++ a :: kept /\
    (forall f, f ∈ freed -> k1 ≠ Some f /\ k2 ≠ Some f) /\
    (k1 = Some a \/ k2 = Some a) /\
    h !! a = Some x /\
    free_from fuel h p k1 k2 = Done (h', a) /\
    (forall f, f ∈ freed -> h' !! f = None) /\
    h' !! a = Some (set_prev None x) /\
    (forall k, k ∉ freed -> k ≠ a -> h' !! k = h !! k).
Proof.
  induction l as [|a0 l IH]; intros h p fuel k1 k2 Hch Hfuel Hex.
  - destruct Hex as (a & Ha & _). inversion Ha.
  - pose proof (chain_NoDup _ _ _ Hch) as Hnd.
    apply NoDup_cons in Hnd as [Hnotin Hnd].
    simpl in Hch. destruct Hch as (-> & x0 & Hx0 & Hch).
    destruct fuel as [|fuel]; [simpl in Hfuel; lia|].
    simpl free_from.
    destruct (bool_decide (Some a0 = k1) || bool_decide (Some a0 = k2)) eqn:E.
    + exists [], a0, l, x0. eexists. rewrite Hx0. simpl.
      split; [reflexivity|]. split; [intros f Hf; inversion Hf|].
      split.
      { apply orb_prop in E as [E|E]; apply bool_decide_eq_true in E; auto. }
      split; [reflexivity|]. split; [reflexivity|].
      split; [intros f Hf; inversion Hf|].
      split; [apply lookup_insert_eq|].
      intros k _ Hk. apply lookup_insert_ne. congruence.
    + apply orb_false_elim in E as [E1 E2].
      apply bool_decide_eq_false in E1, E2.
      rewrite Hx0. simpl.
      destruct (IH (delete a0 h) (next x0) fuel k1 k2)
        as (freed & a & kept & x & h' & El & Hfr & Hk & Hx & Hrun & P1 & P2 & P3).
      { apply chain_agree with (h := h); [|exact Hch].
        intros a Ha. apply lookup_delete_ne. intros ->. contradiction. }
      { simpl in Hfuel. lia. }
      { destruct Hex as (a & Ha & Hk). exists a. split; [|exact Hk].
        apply elem_of_cons in Ha as [->|Ha]; [|exact Ha].
        destruct Hk as [Hk|Hk]; congruence. }
      assert (Ha0 : (a0 ∉ freed) /\ a0 ≠ a).
      { split.
        - intros Hin. apply Hnotin. rewrite El. apply elem_of_app. left.
          exact Hin.
        - intros ->. apply Hnotin. rewrite El. apply elem_of_app. right.
          apply elem_of_cons. left. reflexivity. }
      destruct Ha0 as [Hnf Hne].
      exists (a0 :: freed), a, kept, x, h'.
      split; [rewrite El; reflexivity|].
      split.
      { intros f Hf. apply elem_of_cons in Hf as [->|Hf]; [|auto].
        split; congruence. }
      split; [exact Hk|].
      split; [rewrite lookup_delete_ne in Hx by congruence; exact Hx|].
      split; [exact Hrun|].
      split.
      { intros f Hf. apply elem_of_cons in Hf as [->|Hf]; [|auto].
        rewrite P3 by assumption. apply lookup_delete_eq. }
      split; [exact P2|].
      intros k Hk1 Hk2.
      rewrite P3; [apply lookup_delete_ne| |exact Hk2].
      * intros ->. apply Hk1. apply elem_of_cons. left. reflexivity.
      * intros Hin. apply Hk1. apply elem_of_cons. right. exact Hin.
Qed.

(* A buffer that a cursor in use points to. *)
Definition live (s : store) (q : nat) : Prop :=
  b (current_record_begin s) = Some q
  \/ b (current_record_end s) = Some q
  \/ exists c, c ∈ clients s /\ state c = s_sending_response
               /\ (b (write_begin c) = Some q \/ b (write_end c) = Some q).

(** C4.  free_unused_buffers, on a queue [l] that holds
    current_record_begin.b or oldest_buffer_being_written, frees exactly
    the buffers in front of the first of the two, makes that buffer the
    head and clears its prev pointer.  When every buffer in use by a cursor
    is at or after one of the two in the queue, as the program arranges,
    no such buffer is freed and each is still reached from head. *)
Theorem free_unused_buffers_keeps_live (s : store) (l : list nat) :
  chain (bufs s) (head s) l ->
  (exists a, a ∈ l /\ (b (current_record_begin s) = Some a
                       \/ oldest_buffer_being_written s = Some a)) ->
  exists s' freed a kept,
    free_unused_buffers s = Done s'
    /\ l = freed ++ a :: kept
    /\ (b (current_record_begin s) = Some a
        \/ oldest_buffer_being_written s = Some a)
    /\ (forall f, f ∈ freed ->
          b (current_record_begin s) ≠ Some f
          /\ oldest_buffer_being_written s ≠ Some f
          /\ bufs s' !! f = None)
    /\ head s' = Some a
    /\ chain (bufs s') (head s') (a :: kept)
    /\ (exists x, bufs s' !! a = Some x /\ prev x = None)
    /\ (forall k, k ∈ kept -> bufs s' !! k = bufs s !! k)
    /\ (forall q,
          live s q ->
          (forall q', live s q' ->
             exists p, (b (current_record_begin s) = Some p
                        \/ oldest_buffer_being_written s = Some p)
                       /\ follows l p q') ->
          live s' q /\ q ∈ a :: kept /\ is_Some (bufs s' !! q)).
Proof.
  intros Hch Hex.
  pose proof (chain_NoDup _ _ _ Hch) as Hnd.
  pose proof (chain_length _ _ _ Hch) as Hlen.
  destruct (free_from_spec l (bufs s) (head s) (chain_fuel (bufs s))
              (b (current_record_begin s)) (oldest_buffer_being_written s)
              Hch ltac:(unfold chain_fuel; lia) Hex)
    as (freed & a & kept & x & h' & El & Hfr & Hk & Hx & Hrun & P1 & P2 & P3).
  assert (Hkept : forall k, k ∈ kept -> (k ∉ freed) /\ k ≠ a).
  { intros k Hkin. rewrite El in Hnd.
    apply NoDup_app in Hnd as (_ & Hd & Hnd2).
    apply NoDup_cons in Hnd2 as [Hna _]. split.
    - intros Hin. apply (Hd k Hin). apply elem_of_cons. right. exact Hkin.
    - intros ->. contradiction. }
  assert (Hch' : chain h' (Some a) (a :: kept)).
  { simpl. split; [reflexivity|]. exists (set_prev None x).
    split; [exact P2|]. simpl.
    rewrite El in Hch. apply chain_suffix in Hch. simpl in Hch.
    destruct Hch as (_ & x' & Hx' & Hch). rewrite Hx in Hx'.
    inversion Hx'; subst x'.
    apply chain_agree with (h := bufs s); [|exact Hch].
    intros k Hkin. destruct (Hkept k Hkin). apply P3; assumption. }
  exists (set_head (Some a) (set_bufs h' s)), freed, a, kept.
  split; [unfold free_unused_buffers; rewrite Hrun; reflexivity|].
  split; [exact El|]. split; [exact Hk|].
  split; [intros f Hf; destruct (Hfr f Hf); auto|].
  split; [reflexivity|]. split; [exact Hch'|].
  split; [exists (set_prev None x); split; [exact P2|reflexivity]|].
  split; [intros k Hkin; destruct (Hkept k Hkin); apply P3; assumption|].
  intros q Hq Hinv. split; [exact Hq|].
  destruct (Hinv q Hq) as (p & Hp & l1 & l2 & E & Hin).
  assert (Hpf : p ∉ freed).
  { intros Hin'. destruct (Hfr p Hin') as [N1 N2].
    destruct Hp; contradiction. }
  rewrite El in E.
  destruct (split_before p freed (a :: kept) l1 l2 E Hpf) as (m & _ & Em).
  assert (Hqk : q ∈ a :: kept)
    by (rewrite Em; apply elem_of_app; right; exact Hin).
  split; [exact Hqk|].
  eapply chain_lookup; [exact Hch'|exact Hqk].
Qed.

(** *** How oldest_buffer_being_written is kept in front of the writers *)

Lemma follows_cons a l p q : follows l p q -> follows (a :: l) p q.
Proof.
  intros (l1 & l2 & -> & Hq). exists (a :: l1), l2. split; [reflexivity|exact Hq].
Qed.

Lemma follows_head a l q : q ∈ a :: l -> follows (a :: l) a q.
Proof. intros Hq. exists [], l. split; [reflexivity|exact Hq]. Qed.

Lemma follows_elem l p q : follows l p q -> p ∈ l /\ q ∈ l.
Proof.
  intros (l1 & l2 & -> & Hq). split.
  - apply elem_of_app. right. apply elem_of_cons. left. reflexivity.
  - apply elem_of_app. right. exact Hq.
Qed.

(* The loop of oldest_buffer returns the one of the two buffers that comes
   first in the queue. *)
Lemma oldest_buffer_from_spec l : forall h p fuel a1 a2,
  chain h p l ->
  (length l <= fuel)%nat ->
  a1 ∈ l \/ a2 ∈ l ->
  exists o,
    oldest_buffer_from fuel h p a1 a2 = Done (Some o)
    /\ (o = a1 \/ o = a2)
    /\ (a1 ∈ l -> follows l o a1)
    /\ (a2 ∈ l -> follows l o a2).
Proof.
  induction l as [|a0 l IH]; intros h p fuel a1 a2 Hch Hfuel Hin.
  - destruct Hin as [Hin|Hin]; inversion Hin.
  - simpl in Hch. destruct Hch as (-> & x0 & Hx0 & Hch).
    destruct fuel as [|fuel]; [simpl in Hfuel; lia|].
    simpl oldest_buffer_from.
    destruct (decide (a0 = a1)) as [->|N1].
    { exists a1. split; [reflexivity|]. split; [left; reflexivity|].
      split; intros H; apply follows_head; exact H. }
    destruct (decide (a0 = a2)) as [->|N2].
    { exists a2. split; [reflexivity|]. split; [right; reflexivity|].
      split; intros H; apply follows_head; exact H. }
    rewrite Hx0. simpl.
    assert (Hin' : a1 ∈ l \/ a2 ∈ l).
    { destruct Hin as [Hin|Hin]; apply elem_of_cons in Hin as [E|Hin];
        try congruence; auto. }
    destruct (IH h (next x0) fuel a1 a2 Hch ltac:(simpl in Hfuel; lia) Hin')
      as (o & Hrun & Ho & F1 & F2).
    exists o. split; [exact Hrun|]. split; [exact Ho|].
    split; intros H; apply follows_cons; [apply F1|apply F2];
      apply elem_of_cons in H as [E|H]; congruence || exact H.
Qed.

Lemma oldest_buffer_spec s l p1 p2 :
  chain (bufs s) (head s) l ->
  (forall a, p1 = Some a -> a ∈ l) ->
  (forall a, p2 = Some a -> a ∈ l) ->
  exists r,
    oldest_buffer s p1 p2 = Done r
    /\ (forall a, p1 = Some a -> exists o, r = Some o /\ follows l o a)
    /\ (forall a, p2 = Some a -> exists o, r = Some o /\ follows l o a)
    /\ (forall o, r = Some o -> o ∈ l).
Proof.
  intros Hch H1 H2. unfold oldest_buffer.
  destruct p1 as [a1|], p2 as [a2|].
  - destruct (oldest_buffer_from_spec l (bufs s) (head s)
                (chain_fuel (bufs s)) a1 a2 Hch) as (o & Hrun & Ho & F1 & F2).
    { pose proof (chain_length _ _ _ Hch). unfold chain_fuel. lia. }
    { left. apply H1. reflexivity. }
    exists (Some o). split; [exact Hrun|].
    split; [|split].
    + intros a E. inversion E; subst. exists o. split; [reflexivity|].
      apply F1. apply H1. reflexivity.
    + intros a E. inversion E; subst. exists o. split; [reflexivity|].
      apply F2. apply H2. reflexivity.
    + intros o' E. inversion E; subst.
      destruct Ho as [->| ->]; [apply H1|apply H2]; reflexivity.
  - exists (Some a1). split; [reflexivity|]. split; [|split].
    + intros a E. inversion E; subst. exists a. split; [reflexivity|].
      apply follows_refl. apply H1. reflexivity.
    + intros a E. discriminate.
    + intros o E. apply H1. exact E.
  - exists (Some a2). split; [reflexivity|]. split; [|split].
    + intros a E. discriminate.
    + intros a E. inversion E; subst. exists a. split; [reflexivity|].
      apply follows_refl. apply H2. reflexivity.
    + intros o E. apply H2. exact E.
  - exists None. split; [reflexivity|]. repeat split; intros; discriminate.
Qed.

(* update_oldest_buffer leaves oldest_buffer_being_written at or in front
   of the buffer that every client in s_sending_response writes from. *)
Lemma oldest_of_clients_spec s l :
  chain (bufs s) (head s) l ->
  forall cs acc,
    (forall c w, c ∈ cs -> state c = s_sending_response ->
                 b (write_begin c) = Some w -> w ∈ l) ->
    (forall o, acc = Some o -> o ∈ l) ->
    exists r,
      oldest_of_clients s cs acc = Done r
      /\ (forall o, acc = Some o -> exists o', r = Some o' /\ follows l o' o)
      /\ (forall c w, c ∈ cs -> state c = s_sending_response ->
                      b (write_begin c) = Some w ->
                      exists o', r = Some o' /\ follows l o' w)
      /\ (forall o, r = Some o -> o ∈ l).
Proof.
  intros Hch. pose proof (chain_NoDup _ _ _ Hch) as Hnd.
  induction cs as [|c cs IH]; intros acc Hcs Hacc.
  - exists acc. split; [reflexivity|]. split; [|split].
    + intros o E. exists o. split; [exact E|]. apply follows_refl. auto.
    + intros c w Hc. inversion Hc.
    + exact Hacc.
  - simpl oldest_of_clients.
    assert (Hrest : forall c' w, c' ∈ cs -> state c' = s_sending_response ->
                      b (write_begin c') = Some w -> w ∈ l).
    { intros c' w Hc'. apply Hcs. apply elem_of_cons. right. exact Hc'. }
    destruct (decide (state c = s_sending_response)) as [Hs|Hs].
    + destruct (oldest_buffer_spec s l acc (b (write_begin c)) Hch Hacc)
        as (o & Hrun & F1 & F2 & Hin).
      { intros a E. apply (Hcs c a); [apply elem_of_cons; left; reflexivity
                                     |exact Hs|exact E]. }
      rewrite Hrun. simpl.
      destruct (IH o Hrest Hin) as (r & Hrun' & G1 & G2 & Hin').
      exists r. split; [exact Hrun'|]. split; [|split; [|exact Hin']].
      * intros a E. destruct (F1 a E) as (o1 & -> & Fo).
        destruct (G1 o1 eq_refl) as (o' & -> & Fo').
        exists o'. split; [reflexivity|].
        eapply follows_trans; eassumption.
      * intros c' w Hc' Hs' Hw. apply elem_of_cons in Hc' as [->|Hc'].
        -- destruct (F2 w Hw) as (o1 & -> & Fo).
           destruct (G1 o1 eq_refl) as (o' & -> & Fo').
           exists o'. split; [reflexivity|].
           eapply follows_trans; eassumption.
        -- eapply G2; eassumption.
    + destruct (IH acc Hrest Hacc) as (r & Hrun' & G1 & G2 & Hin').
      exists r. split; [exact Hrun'|]. split; [exact G1|split; [|exact Hin']].
      intros c' w Hc' Hs' Hw. apply elem_of_cons in Hc' as [->|Hc'].
      * contradiction.
      * eapply G2; eassumption.
Qed.

Lemma update_oldest_buffer_spec s l :
  chain (bufs s) (head s) l ->
  (forall c w, c ∈ clients s -> state c = s_sending_response ->
               b (write_begin c) = Some w -> w ∈ l) ->
  exists o,
    update_oldest_buffer s = Done (set_oldest_buffer_being_written o s)
    /\ (forall c w, c ∈ clients s -> state c = s_sending_response ->
                    b (write_begin c) = Some w ->
                    exists o', o = Some o' /\ follows l o' w).
Proof.
  intros Hch Hcs.
  destruct (oldest_of_clients_spec s l Hch (clients s) None Hcs)
    as (r & Hrun & _ & G2 & _); [intros o E; discriminate|].
  exists r. unfold update_oldest_buffer. rewrite Hrun. simpl.
  split; [reflexivity|exact G2].
Qed.

(** *** A response, write by write *)

(* The bytes that have been read into the buffer at [a]. *)
Definition contents (h : gmap nat buffer) (a : nat) : list ascii :=
  match h !! a with
  | Some x => take (Z.to_nat (size x)) (data x)
  | None => []
  end.

(* The bytes from position [from] of the first buffer of [l] up to
   position [upto] of its last buffer. *)
Fixpoint span_bytes (h : gmap nat buffer) (l : list nat) (from upto : Z)
  : list ascii :=
  match l with
  | [] => []
  | a :: l' =>
      match l' with
      | [] => take (Z.to_nat (upto - from)) (drop (Z.to_nat from) (contents h a))
      | _ => drop (Z.to_nat from) (contents h a) ++ span_bytes h l' 0 upto
      end
  end.

(* The client [c] has the buffers [l] to go through, from write_begin.b to
   write_end.b, and the queue goes on with [post]. *)
Record sending (h : gmap nat buffer) (c : client) (l post : list nat)
  : Prop := {
  sending_chain : chain h (b (write_begin c)) (l ++ post);
  sending_end : b (write_end c) = last l;
  sending_sizes : forall a x, a ∈ l -> h !! a = Some x ->
                              0 <= size x <= Z.of_nat (length (data x));
  sending_from : forall a x, l !! 0%nat = Some a -> h !! a = Some x ->
                             0 <= pos (write_begin c) <= size x;
  sending_upto : forall a x, last l = Some a -> h !! a = Some x ->
                             0 <= pos (write_end c) <= size x;
  sending_single : forall a, l = [a] ->
                             pos (write_begin c) <= pos (write_end c);
  sending_nonempty : l ≠ []
}.

Lemma length_contents h a x :
  h !! a = Some x -> 0 <= size x <= Z.of_nat (length (data x)) ->
  Z.of_nat (length (contents h a)) = size x.
Proof.
  intros Hx Hs. unfold contents. rewrite Hx, length_take. lia.
Qed.

Lemma take_drop_take {A} (d : list A) (p t s : nat) :
  (p + t <= s)%nat -> take t (drop p d) = take t (drop p (take s d)).
Proof.
  intros H. rewrite !take_drop_commute, take_take. do 2 f_equal. lia.
Qed.

Lemma drop_take_shift {A} (d : list A) (n t p : nat) :
  (n <= t)%nat -> drop n (take t (drop p d)) = take (t - n) (drop (p + n) d).
Proof.
  intros H. rewrite !take_drop_commute, drop_drop. do 2 f_equal. lia.
Qed.

(* One call write_record(c, 0) in which writev accepts [n] bytes: these are
   the next [n] bytes of the response, and the client is left either with
   the rest of the response to send or, when nothing is left in the last
   buffer, in s_wait_close. *)
Lemma write_record_step h c l post n evs c' :
  sending h c l post ->
  write_record h c false (Written n) = (evs, Done c') ->
  let P := span_bytes h l (pos (write_begin c)) (pos (write_end c)) in
  0 <= n <= Z.of_nat (length P)
  /\ evs = [Sent (fd c) (take (Z.to_nat n) P)]
  /\ fd c' = fd c
  /\ ((state c' = state c
       /\ exists l', sending h c' l' post
                     /\ span_bytes h l' (pos (write_begin c'))
                          (pos (write_end c')) = drop (Z.to_nat n) P)
      \/ (state c' = s_wait_close /\ Z.to_nat n = length P)).
Proof.
  intros [Hch Hend Hsz Hfrom Hupto Hsingle Hne] H P.
  destruct l as [|a l']; [contradiction|]. clear Hne.
  pose proof (chain_NoDup _ _ _ Hch) as Hnd.
  simpl in Hch. destruct Hch as (Hb & x & Hx & Hch).
  assert (Hsx : 0 <= size x <= Z.of_nat (length (data x)))
    by (apply (Hsz a x); [apply elem_of_cons; left; reflexivity|exact Hx]).
  assert (Hpos : 0 <= pos (write_begin c) <= size x)
    by (apply (Hfrom a x); [reflexivity|exact Hx]).
  assert (Hca : contents h a = take (Z.to_nat (size x)) (data x))
    by (unfold contents; rewrite Hx; reflexivity).
  unfold write_record in H. rewrite Hb in H. simpl in H. rewrite Hx in H.
  simpl in H.
  destruct l' as [|a2 l''].
  - (* the last buffer *)
    assert (He : b (write_end c) = Some a) by (rewrite Hend; reflexivity).
    assert (Hup : 0 <= pos (write_end c) <= size x)
      by (apply (Hupto a x); [reflexivity|exact Hx]).
    pose proof (Hsingle a eq_refl) as Hle.
    rewrite He in H. rewrite bool_decide_true in H by reflexivity.
    subst P. simpl span_bytes. rewrite Hca.
    rewrite <- (take_drop_take (data x)) by lia.
    set (iov := take (Z.to_nat (pos (write_end c) - pos (write_begin c)))
                  (drop (Z.to_nat (pos (write_begin c))) (data x))) in *.
    assert (Hlen : Z.of_nat (length iov)
                   = pos (write_end c) - pos (write_begin c)).
    { unfold iov. rewrite length_take, length_drop. lia. }
    destruct ((n <? 0) || (Z.of_nat (length iov) <? n)) eqn:Hv;
      [discriminate|].
    apply orb_false_elim in Hv as [Hv1 Hv2].
    apply Z.ltb_ge in Hv1, Hv2. simpl in H. rewrite Hb in H.
    rewrite bool_decide_true in H by reflexivity. simpl in H.
    split; [lia|].
    destruct ((pos (write_begin c) + n <? size x)
              && (pos (write_begin c) + n <? pos (write_end c))) eqn:Hmore.
    + injection H as Hev Hc'. subst evs c'.
      split; [reflexivity|]. split; [reflexivity|]. left.
      split; [reflexivity|]. exists [a].
      apply andb_prop in Hmore as [_ Hlt]. apply Z.ltb_lt in Hlt.
      split.
      * constructor; simpl; try assumption.
        -- split; [exact Hb|]. exists x. split; [exact Hx|exact Hch].
        -- intros a' x' Ea Hx'. inversion Ea; subst a'.
           rewrite Hx in Hx'. inversion Hx'; subst x'. lia.
        -- intros a' _. lia.
        -- discriminate.
      * simpl. rewrite Hca. rewrite <- (take_drop_take (data x)) by lia.
        unfold iov. rewrite drop_take_shift by lia. f_equal; [lia|f_equal; lia].
    + injection H as Hev Hc'. subst evs c'.
      split; [reflexivity|]. split; [reflexivity|]. right.
      split; [reflexivity|].
      apply andb_false_iff in Hmore as [Hge|Hge]; apply Z.ltb_ge in Hge; lia.
  - (* a buffer before the last *)
    assert (Hlast : last (a :: a2 :: l'') = last (a2 :: l'')) by reflexivity.
    assert (He : Some a ≠ b (write_end c)).
    { rewrite Hend, Hlast. intros E. symmetry in E.
      apply last_Some_elem_of in E.
      apply NoDup_cons in Hnd as [Hna _]. apply Hna.
      change (a ∈ (a2 :: l'') ++ post). apply elem_of_app. left. exact E. }
    rewrite bool_decide_false in H by exact He.
    subst P.
    change (span_bytes h (a :: a2 :: l'') (pos (write_begin c))
              (pos (write_end c)))
      with (drop (Z.to_nat (pos (write_begin c))) (contents h a)
            ++ span_bytes h (a2 :: l'') 0 (pos (write_end c))).
    set (R := span_bytes h (a2 :: l'') 0 (pos (write_end c))).
    rewrite Hca.
    replace (drop (Z.to_nat (pos (write_begin c)))
               (take (Z.to_nat (size x)) (data x)))
      with (take (Z.to_nat (size x - pos (write_begin c)))
              (drop (Z.to_nat (pos (write_begin c))) (data x)))
      by (rewrite take_drop_commute; do 2 f_equal; lia).
    set (iov := take (Z.to_nat (size x - pos (write_begin c)))
                  (drop (Z.to_nat (pos (write_begin c))) (data x))) in *.
    assert (Hlen : Z.of_nat (length iov) = size x - pos (write_begin c)).
    { unfold iov. rewrite length_take, length_drop. lia. }
    destruct ((n <? 0) || (Z.of_nat (length iov) <? n)) eqn:Hv;
      [discriminate|].
    apply orb_false_elim in Hv as [Hv1 Hv2].
    apply Z.ltb_ge in Hv1, Hv2. simpl in H. rewrite Hb in H.
    rewrite bool_decide_false in H by exact He. simpl in H.
    rewrite andb_true_r in H.
    split; [rewrite length_app; lia|].
    rewrite take_app_le by lia.
    destruct (pos (write_begin c) + n <? size x) eqn:Hmore.
    + apply Z.ltb_lt in Hmore.
      injection H as Hev Hc'. subst evs c'.
      split; [reflexivity|]. split; [reflexivity|]. left.
      split; [reflexivity|]. exists (a :: a2 :: l'').
      split.
      * constructor; simpl; try assumption.
        -- split; [exact Hb|]. exists x. split; [exact Hx|exact Hch].
        -- intros a' x' Ea Hx'. inversion Ea; subst a'.
           rewrite Hx in Hx'. inversion Hx'; subst x'. lia.
        -- intros a' Ea. discriminate.
        -- discriminate.
      * change (span_bytes h (a :: a2 :: l'') ?f ?u)
          with (drop (Z.to_nat f) (contents h a) ++ span_bytes h (a2 :: l'') 0 u).
        simpl pos. fold R. rewrite drop_app_le by lia. f_equal.
        rewrite Hca. unfold iov.
        rewrite (take_drop_commute (data x)), !drop_drop.
        f_equal; [lia|f_equal; lia].
    + apply Z.ltb_ge in Hmore.
      injection H as Hev Hc'. subst evs c'.
      split; [reflexivity|]. split; [reflexivity|]. left.
      split; [reflexivity|]. exists (a2 :: l'').
      assert (Hin2 : a2 ∈ a :: a2 :: l'')
        by (apply elem_of_cons; right; apply elem_of_cons; left; reflexivity).
      split.
      * constructor; simpl.
        -- exact Hch.
        -- rewrite Hend. exact Hlast.
        -- intros a' x' Ea. apply Hsz. apply elem_of_cons. right. exact Ea.
        -- intros a' x' Ea Hx'. inversion Ea; subst a'.
           pose proof (Hsz a2 x' Hin2 Hx'). lia.
        -- intros a' x' Ea. apply Hupto. rewrite Hlast. exact Ea.
        -- intros a' El. inversion El; subst.
           simpl in Hch. destruct Hch as (_ & x2 & Hx2 & _).
           pose proof (Hupto a' x2 eq_refl Hx2). lia.
        -- discriminate.
      * simpl pos. fold R. rewrite drop_app_length' by lia. reflexivity.
Qed.

(* The bytes that arrive at the other end of the descriptor [d]. *)
Fixpoint received (d : Z) (evs : list event) : list ascii :=
  match evs with
  | [] => []
  | Sent d' bytes :: rest =>
      if d' =? d then bytes ++ received d rest else received d rest
  | _ :: rest => received d rest
  end.

Lemma received_app d evs1 evs2 :
  received d (evs1 ++ evs2) = received d evs1 ++ received d evs2.
Proof.
  induction evs1 as [|e evs1 IH]; [reflexivity|].
  destruct e; simpl; try exact IH.
  destruct (descriptor =? d); [rewrite IH, app_assoc|]; auto.
Qed.

(* The later turns of the loop of main for a client that is in
   s_sending_response: one call write_record(c, 0) per turn, in which writev
   finds [ws] in turn, for as long as the client stays in that state. *)
Fixpoint drain (h : gmap nat buffer) (c : client) (ws : list writev_result)
  : list event * outcome client :=
  match ws with
  | [] => ([], Done c)
  | w :: rest =>
      if decide (state c = s_sending_response) then
        let '(evs, r) := write_record h c false w in
        match r with
        | Done c' => let '(evs', r') := drain h c' rest in (evs ++ evs', r')
        | _ => (evs, r)
        end
      else ([], Done c)
  end.

Lemma write_record_again h c write_length errno evs c' :
  write_record h c write_length (WriteError errno) = (evs, Done c') ->
  evs = [] /\ c' = c.
Proof.
  unfold write_record. intros H.
  destruct (deref h (b (write_begin c))); try discriminate.
  destruct (if write_length then _ else _); try discriminate.
  destruct (errno =? EAGAIN); [|discriminate].
  injection H as <- <-. split; reflexivity.
Qed.

(* However writev splits the transfer, and however often it answers
   EAGAIN in between, the bytes sent by the later turns are a prefix of the
   rest of the response, and all of it once the client is in s_wait_close. *)
Lemma drain_sends h ws : forall c l post evs c',
  state c = s_sending_response ->
  sending h c l post ->
  drain h c ws = (evs, Done c') ->
  let P := span_bytes h l (pos (write_begin c)) (pos (write_end c)) in
  fd c' = fd c
  /\ (exists k, received (fd c) evs = take k P)
  /\ (state c' = s_wait_close -> received (fd c) evs = P).
Proof.
  induction ws as [|w rest IH]; intros c l post evs c' Hst Hs H P.
  - simpl in H. injection H as <- <-. split; [reflexivity|].
    split; [exists O; rewrite take_0; reflexivity|].
    intros E. rewrite Hst in E. discriminate.
  - simpl in H. destruct (decide (state c = s_sending_response)); [|contradiction].
    destruct (write_record h c false w) as [evs1 r1] eqn:Hw.
    destruct r1 as [c1| | | |]; try (injection H as _ H; discriminate).
    destruct (drain h c1 rest) as [evs2 r2] eqn:Hd.
    injection H as <- ->.
    rewrite received_app.
    destruct w as [errno|n].
    + apply write_record_again in Hw as [-> ->].
      destruct (IH c l post evs2 c' Hst Hs Hd) as (Hfd & Hk & Hdone).
      split; [exact Hfd|]. split; [exact Hk|exact Hdone].
    + destruct (write_record_step h c l post n evs1 c1 Hs Hw)
        as (Hn & -> & Hfd1 & Hcase).
      fold P in Hn, Hcase |- *. simpl received. rewrite Z.eqb_refl, app_nil_r.
      destruct Hcase as [(Hst1 & l1 & Hs1 & HP1)|(Hst1 & Hlen)].
      * rewrite Hst in Hst1.
        destruct (IH c1 l1 post evs2 c' Hst1 Hs1 Hd) as (Hfd & (k & Hk) & Hdone).
        rewrite Hfd1 in Hk, Hdone. rewrite HP1 in Hk, Hdone.
        split; [congruence|]. split.
        -- exists (Z.to_nat n + k)%nat. rewrite Hk. apply take_take_drop.
        -- intros E. rewrite (Hdone E). apply take_drop.
      * assert (Hrest : evs2 = [] /\ c' = c1).
        { destruct rest as [|w' rest']; simpl in Hd.
          - injection Hd as <- <-. split; reflexivity.
          - destruct (decide (state c1 = s_sending_response)) as [E|_];
              [rewrite Hst1 in E; discriminate|].
            injection Hd as <- <-. split; reflexivity. }
        destruct Hrest as [-> ->]. simpl. rewrite app_nil_r.
        split; [exact Hfd1|]. split.
        -- exists (Z.to_nat n). reflexivity.
        -- intros _. apply take_ge. lia.
Qed.

(* The loop of content_length adds the sizes of the buffers between the
   first and the last. *)
Lemma add_sizes_span h upto l : forall p post acc fuel,
  chain h p (l ++ post) ->
  l ≠ [] ->
  (forall a x, a ∈ l -> h !! a = Some x ->
               0 <= size x <= Z.of_nat (length (data x))) ->
  (forall a x, last l = Some a -> h !! a = Some x -> 0 <= upto <= size x) ->
  (length l <= fuel)%nat ->
  add_sizes fuel h p (last l) acc
  = Done (acc + Z.of_nat (length (span_bytes h l 0 upto)) - upto).
Proof.
  induction l as [|q l IH]; intros p post acc fuel Hch Hne Hsz Hup Hfuel;
    [contradiction|].
  pose proof (chain_NoDup _ _ _ Hch) as Hnd.
  simpl in Hch. destruct Hch as (-> & x & Hx & Hch).
  destruct fuel as [|fuel]; [simpl in Hfuel; lia|].
  assert (Hsx : 0 <= size x <= Z.of_nat (length (data x)))
    by (apply (Hsz q x); [apply elem_of_cons; left; reflexivity|exact Hx]).
  assert (Hlc : Z.of_nat (length (contents h q)) = size x)
    by (apply length_contents; assumption).
  destruct l as [|q2 l3].
  - pose proof (Hup q x eq_refl Hx) as Hu.
    simpl add_sizes. rewrite bool_decide_true by reflexivity.
    simpl span_bytes. rewrite length_take, length_drop. f_equal. lia.
  - assert (Hlast : last (q :: q2 :: l3) = last (q2 :: l3)) by reflexivity.
    assert (Hq : Some q ≠ last (q :: q2 :: l3)).
    { rewrite Hlast. intros E. symmetry in E. apply last_Some_elem_of in E.
      apply NoDup_cons in Hnd as [Hna _]. apply Hna.
      change (q ∈ (q2 :: l3) ++ post). apply elem_of_app. left. exact E. }
    assert (Hspan : span_bytes h (q :: q2 :: l3) 0 upto
                    = drop (Z.to_nat 0) (contents h q)
                      ++ span_bytes h (q2 :: l3) 0 upto) by reflexivity.
    rewrite Hspan, length_app, length_drop.
    set (R := span_bytes h (q2 :: l3) 0 upto) in *.
    simpl add_sizes. rewrite bool_decide_false by exact Hq.
    rewrite Hx. simpl. fold (add_sizes fuel h (next x)).
    rewrite <- Hlast at 1.
    change (last (q :: q2 :: l3)) with (last (q2 :: l3)).
    rewrite (IH (next x) post (acc + size x) fuel Hch).
    + f_equal. lia.
    + discriminate.
    + intros a' x' Ha'. apply Hsz. apply elem_of_cons. right. exact Ha'.
    + intros a' x' Ha'. apply Hup. rewrite Hlast. exact Ha'.
    + simpl in Hfuel |- *. lia.
Qed.

(* content_length returns the number of bytes of the response. *)
Lemma content_length_sending h c l post :
  sending h c l post ->
  content_length h c
  = Done (to_uint (Z.of_nat (length (span_bytes h l (pos (write_begin c))
                                       (pos (write_end c)))))).
Proof.
  intros [Hch Hend Hsz Hfrom Hupto Hsingle Hne].
  destruct l as [|a l']; [contradiction|].
  pose proof (chain_NoDup _ _ _ Hch) as Hnd.
  pose proof Hch as Hch0.
  simpl in Hch. destruct Hch as (Hb & x & Hx & Hch).
  assert (Hsx : 0 <= size x <= Z.of_nat (length (data x)))
    by (apply (Hsz a x); [apply elem_of_cons; left; reflexivity|exact Hx]).
  assert (Hpos : 0 <= pos (write_begin c) <= size x)
    by (apply (Hfrom a x); [reflexivity|exact Hx]).
  assert (Hlc : Z.of_nat (length (contents h a)) = size x)
    by (apply length_contents; assumption).
  unfold content_length.
  destruct l' as [|a2 l''].
  - pose proof (Hupto a x eq_refl Hx). pose proof (Hsingle a eq_refl).
    rewrite Hb, Hend. rewrite bool_decide_true by reflexivity.
    simpl span_bytes. rewrite length_take, length_drop. do 2 f_equal. lia.
  - assert (Hlast : last (a :: a2 :: l'') = last (a2 :: l'')) by reflexivity.
    assert (He : Some a ≠ last (a :: a2 :: l'')).
    { rewrite Hlast. intros E. symmetry in E. apply last_Some_elem_of in E.
      apply NoDup_cons in Hnd as [Hna _]. apply Hna.
      change (a ∈ (a2 :: l'') ++ post). apply elem_of_app. left. exact E. }
    assert (Hspan : forall f u, span_bytes h (a :: a2 :: l'') f u
                    = drop (Z.to_nat f) (contents h a)
                      ++ span_bytes h (a2 :: l'') 0 u) by reflexivity.
    rewrite Hspan, length_app, length_drop.
    set (R := span_bytes h (a2 :: l'') 0 (pos (write_end c))).
    rewrite Hb, Hend. rewrite bool_decide_false by exact He.
    rewrite Hlast. remember (chain_fuel h) as fuel eqn:Hfuel.
    simpl. rewrite Hx. simpl.
    rewrite (add_sizes_span h (pos (write_end c)) (a2 :: l'') (next x) post).
    + fold R. simpl. do 2 f_equal. lia.
    + exact Hch.
    + discriminate.
    + intros a' x' Ha'. apply Hsz. apply elem_of_cons. right. exact Ha'.
    + intros a' x' Ha'. apply Hupto. rewrite Hlast. exact Ha'.
    + pose proof (chain_length _ _ _ Hch) as Hl.
      rewrite length_app in Hl. subst fuel. unfold chain_fuel. lia.
Qed.

Lemma length_format_010u n : length (format_010u n) = 10%nat.
Proof. reflexivity. Qed.

(* The first call, write_record(c, 1), in which writev accepts [n] bytes:
   the ten digits of the length and then what write_record(c, 0) would
   have sent with n - 10 bytes accepted. *)
Lemma write_record_header h c n len evs c' :
  content_length h c = Done len ->
  write_record h c true (Written n) = (evs, Done c') ->
  exists evs0,
    write_record h c false (Written (n - CONTENT_LENGTH_DIGITS))
      = (evs0, Done c')
    /\ received (fd c) evs = format_010u len ++ received (fd c) evs0.
Proof.
  intros Hlen. unfold write_record.
  destruct (deref h (b (write_begin c))) as [x| | | |];
    try (intros H; discriminate H).
  rewrite Hlen.
  pose proof (length_format_010u len) as Hhdr.
  change (len ← Done len; Done (format_010u len ++ ?i))
    with (Done (format_010u len ++ i)).
  remember (format_010u len) as hdr eqn:Ehdr. clear Ehdr.
  simpl.
  set (iov1 := take _ (drop _ (data x))).
  rewrite length_app, Hhdr.
  destruct ((n <? 0) || (Z.of_nat (10 + length iov1) <? n)) eqn:Hv;
    [intros H; discriminate H|].
  apply orb_false_elim in Hv as [Hv1 Hv2]. apply Z.ltb_ge in Hv1, Hv2.
  unfold CONTENT_LENGTH_DIGITS.
  destruct (n <? 10) eqn:Hn; [intros H; discriminate H|].
  apply Z.ltb_ge in Hn.
  assert (((n - 10 <? 0) || (Z.of_nat (length iov1) <? n - 10)) = false) as ->.
  { apply orb_false_intro; apply Z.ltb_ge; lia. }
  assert (Htake : take (Z.to_nat n) (hdr ++ iov1)
                  = hdr ++ take (Z.to_nat (n - 10)) iov1).
  { rewrite take_app, Hhdr. rewrite take_ge by lia. do 2 f_equal. lia. }
  rewrite Htake.
  destruct ((pos (write_begin c) + (n - 10) <? size x) && _);
    [|destruct (negb _)]; intros H; injection H as <- <-;
    (eexists; split; [reflexivity|]);
    simpl; rewrite Z.eqb_refl, !app_nil_r; reflexivity.
Qed.

(** The response round trip, apart from the first call.  When main moves a
    client to s_sending_response with a response that lies in the queue,
    and the first writev accepts at least the ten digits of the header,
    then, however writev splits the rest, once the client reaches
    s_wait_close it has received exactly the ten digits of the length
    (modulo 2^32) followed by the bytes of the response. *)
Lemma response_round_trip h c l post n ws evs1 c1 evs c' :
  state c = s_sending_response ->
  sending h c l post ->
  write_record h c true (Written n) = (evs1, Done c1) ->
  drain h c1 ws = (evs, Done c') ->
  state c' = s_wait_close ->
  let P := span_bytes h l (pos (write_begin c)) (pos (write_end c)) in
  received (fd c) (evs1 ++ evs)
  = format_010u (to_uint (Z.of_nat (length P))) ++ P.
Proof.
  intros Hst Hs Hw Hd Hdone P.
  pose proof (content_length_sending h c l post Hs) as Hlen. fold P in Hlen.
  destruct (write_record_header h c n _ evs1 c1 Hlen Hw) as (evs0 & Hw0 & Hrec).
  assert (Hall : drain h c (Written (n - CONTENT_LENGTH_DIGITS) :: ws)
                 = (evs0 ++ evs, Done c')).
  { simpl. destruct (decide (state c = s_sending_response)); [|contradiction].
    rewrite Hw0, Hd. reflexivity. }
  destruct (drain_sends h _ c l post _ c' Hst Hs Hall) as (_ & _ & Hfull).
  rewrite received_app, Hrec, <- app_assoc, <- received_app.
  f_equal. apply Hfull. exact Hdone.
Qed.

(** *** The oldest buffer, in all cases *)

Lemma oldest_buffer_from_absent l : forall h p fuel a1 a2,
  chain h p l -> (length l <= fuel)%nat ->
  a1 ∉ l -> a2 ∉ l ->
  oldest_buffer_from fuel h p a1 a2 = Aborted.
Proof.
  induction l as [|a0 l IH]; intros h p fuel a1 a2 Hch Hfuel N1 N2.
  - simpl in Hch. subst p. destruct fuel; reflexivity.
  - simpl in Hch. destruct Hch as (-> & x0 & Hx0 & Hch).
    destruct fuel as [|fuel]; [simpl in Hfuel; lia|].
    simpl oldest_buffer_from.
    destruct (decide (a0 = a1)) as [->|_].
    { exfalso. apply N1. apply elem_of_cons. left. reflexivity. }
    destruct (decide (a0 = a2)) as [->|_].
    { exfalso. apply N2. apply elem_of_cons. left. reflexivity. }
    rewrite Hx0. simpl. apply IH; [exact Hch|simpl in Hfuel; lia| |].
    + intros Hin. apply N1. apply elem_of_cons. right. exact Hin.
    + intros Hin. apply N2. apply elem_of_cons. right. exact Hin.
Qed.

Lemma oldest_buffer_from_either fuel : forall h p a1 a2 r,
  oldest_buffer_from fuel h p a1 a2 = Done r -> r = Some a1 \/ r = Some a2.
Proof.
  induction fuel as [|k IH]; intros h p a1 a2 r H; destruct p as [q|];
    simpl in H; try discriminate;
    destruct (decide (q = a1)); [injection H as <-; auto| |
                                 injection H as <-; auto|];
    destruct (decide (q = a2)); try (injection H as <-; auto);
    try discriminate.
  destruct (h !! q) as [x|]; [|discriminate]. simpl in H.
  eapply IH. exact H.
Qed.

Lemma oldest_buffer_either s p1 p2 r :
  oldest_buffer s p1 p2 = Done r -> r = p1 \/ r = p2.
Proof.
  unfold oldest_buffer. destruct p1 as [a1|], p2 as [a2|]; intros H.
  - apply oldest_buffer_from_either in H. exact H.
  - injection H as <-. auto.
  - injection H as <-. auto.
  - injection H as <-. auto.
Qed.

(** X12.  oldest_buffer(a, b) on a queue.  When one of the two pointers
    is NULL the other is returned.  When both are buffers and one of them
    is in the queue, the result is the one of the two that is met first
    on the way from head: each of the two that is in the queue is at or
    after it.  When neither is in the queue the loop runs to the end of
    the queue and assert(0) fails. *)
Theorem oldest_buffer_comes_first s l a1 a2 :
  chain (bufs s) (head s) l ->
  (forall p, oldest_buffer s None p = Done p
             /\ oldest_buffer s p None = Done p)
  /\ (a1 ∈ l \/ a2 ∈ l ->
      exists o,
        oldest_buffer s (Some a1) (Some a2) = Done (Some o)
        /\ (o = a1 \/ o = a2)
        /\ o ∈ l
        /\ (a1 ∈ l -> follows l o a1)
        /\ (a2 ∈ l -> follows l o a2))
  /\ (a1 ∉ l -> a2 ∉ l -> oldest_buffer s (Some a1) (Some a2) = Aborted).
Proof.
  intros Hch.
  pose proof (chain_length _ _ _ Hch) as Hlen.
  split; [|split].
  - intros p. split; [reflexivity|]. destruct p; reflexivity.
  - intros Hin.
    destruct (oldest_buffer_from_spec l (bufs s) (head s)
                (chain_fuel (bufs s)) a1 a2 Hch
                ltac:(unfold chain_fuel; lia) Hin)
      as (o & Hrun & Ho & F1 & F2).
    exists o. split; [exact Hrun|]. split; [exact Ho|].
    split; [|split; assumption].
    destruct Hin as [Hin|Hin].
    + apply (follows_elem l o a1). apply F1. exact Hin.
    + apply (follows_elem l o a2). apply F2. exact Hin.
  - intros N1 N2. unfold oldest_buffer.
    apply (oldest_buffer_from_absent l); try assumption.
    unfold chain_fuel. lia.
Qed.

Lemma oldest_of_clients_either s cs : forall acc r,
  oldest_of_clients s cs acc = Done r ->
  r = acc \/ exists c, c ∈ cs /\ state c = s_sending_response
                       /\ b (write_begin c) = r.
Proof.
  induction cs as [|c cs IH]; intros acc r H; simpl in H.
  - injection H as <-. left. reflexivity.
  - destruct (decide (state c = s_sending_response)) as [Hs|Hs].
    + apply bind_Done in H. destruct H as (o & Ho & H).
      apply oldest_buffer_either in Ho.
      destruct (IH _ _ H) as [->|(c' & Hc' & Hs' & Hb')].
      * destruct Ho as [->| ->]; [left; reflexivity|].
        right. exists c. split; [apply elem_of_cons; left; reflexivity|].
        split; [exact Hs|reflexivity].
      * right. exists c'. split; [apply elem_of_cons; right; exact Hc'|].
        split; assumption.
    + destruct (IH _ _ H) as [->|(c' & Hc' & Hs' & Hb')]; [left; reflexivity|].
      right. exists c'. split; [apply elem_of_cons; right; exact Hc'|].
      split; assumption.
Qed.

(** X13.  update_oldest_buffer, when the buffer that each client in
    s_sending_response writes from is in the queue: afterwards
    oldest_buffer_being_written is at or in front of the buffer of every
    such client; it is the buffer of one of them; and it is NULL when no
    client is sending a response.  Nothing else of the store changes. *)
Theorem update_oldest_buffer_covers_writers s l :
  chain (bufs s) (head s) l ->
  (forall c w, c ∈ clients s -> state c = s_sending_response ->
               b (write_begin c) = Some w -> w ∈ l) ->
  exists o,
    update_oldest_buffer s = Done (set_oldest_buffer_being_written o s)
    /\ (forall c w, c ∈ clients s -> state c = s_sending_response ->
                    b (write_begin c) = Some w ->
                    exists o', o = Some o' /\ follows l o' w)
    /\ (forall o', o = Some o' ->
          exists c, c ∈ clients s /\ state c = s_sending_response
                    /\ b (write_begin c) = Some o')
    /\ ((forall c, c ∈ clients s -> state c ≠ s_sending_response) ->
        o = None).
Proof.
  intros Hch Hcs.
  destruct (update_oldest_buffer_spec s l Hch Hcs) as (o & Hrun & Hcover).
  exists o. split; [exact Hrun|]. split; [exact Hcover|].
  unfold update_oldest_buffer in Hrun.
  destruct (oldest_of_clients s (clients s) None) as [r| | | |] eqn:E;
    try discriminate.
  simpl in Hrun. injection Hrun as ->.
  apply oldest_of_clients_either in E.
  split.
  - intros o' ->. destruct E as [E|(c & Hc & Hs & Hb)]; [discriminate|].
    exists c. repeat split; assumption.
  - intros Hnone. destruct E as [E|(c & Hc & Hs & Hb)]; [exact E|].
    exfalso. exact (Hnone c Hc Hs).
Qed.

(** *** The response as the client sees it *)

(** X14.  content_length(c), for a client whose response runs from
    write_begin to write_end through the buffers [l] of the queue, is the
    number of bytes of that response, as an unsigned int. *)
Theorem content_length_counts_response h c l post :
  sending h c l post ->
  content_length h c
  = Done (to_uint (Z.of_nat (length (span_bytes h l (pos (write_begin c))
                                       (pos (write_end c)))))).
Proof. exact (content_length_sending h c l post). Qed.

(** X15.  Partial writes keep the order of the response.  Over any number
    of turns in which write_record(c, 0) is called for a client in
    s_sending_response, whatever number of bytes each writev accepts and
    however often it fails with EAGAIN, the bytes sent to the client are a
    prefix of the bytes from write_begin to write_end, on the descriptor of
    the client; and they are all of them once the client is in
    s_wait_close. *)
Theorem partial_writes_keep_order h ws c l post evs c' :
  state c = s_sending_response ->
  sending h c l post ->
  drain h c ws = (evs, Done c') ->
  let P := span_bytes h l (pos (write_begin c)) (pos (write_end c)) in
  fd c' = fd c
  /\ (exists k, received (fd c) evs = take k P)
  /\ (state c' = s_wait_close -> received (fd c) evs = P).
Proof. exact (drain_sends h ws c l post evs c'). Qed.

(** X16.  The response to a client.  When the first call,
    write_record(c, 1), has its writev accept at least the ten digits of
    the header, and the later calls write_record(c, 0) bring the client to
    s_wait_close, the client has received the length of the response as
    ten decimal digits followed by exactly the bytes from write_begin to
    write_end. *)
Theorem response_is_length_then_record h c l post n ws evs1 c1 evs c' :
  state c = s_sending_response ->
  sending h c l post ->
  write_record h c true (Written n) = (evs1, Done c1) ->
  drain h c1 ws = (evs, Done c') ->
  state c' = s_wait_close ->
  let P := span_bytes h l (pos (write_begin c)) (pos (write_end c)) in
  received (fd c) (evs1 ++ evs)
  = format_010u (to_uint (Z.of_nat (length P))) ++ P.
Proof. exact (response_round_trip h c l post n ws evs1 c1 evs c'). Qed.

(** *** The queue as a doubly linked list *)

Lemma bind_Done_l {A B} (a : A) (f : A -> outcome B) : Done a ≫= f = f a.
Proof. reflexivity. Qed.


(* The buffers [l] are linked from [p] by their next pointers up to NULL,
   and the prev pointer of each is the buffer before it, [pv] for the
   first. *)
Fixpoint dchain (h : gmap nat buffer) (pv p : bptr) (l : list nat) : Prop :=
  match l with
  | [] => p = None
  | a :: l' =>
      p = Some a
      /\ exists x, h !! a = Some x /\ prev x = pv
                   /\ dchain h (Some a) (next x) l'
  end.

(* head and tail delimit the queue [l]. *)
Record queue (s : store) (l : list nat) : Prop := {
  queue_links : dchain (bufs s) None (head s) l;
  queue_tail : tail s = last l
}.

(* Every buffer of [l] holds at least one byte, as read() returned it. *)
Definition holds_data (h : gmap nat buffer) (l : list nat) : Prop :=
  forall a x, a ∈ l -> h !! a = Some x ->
              0 < size x <= Z.of_nat (length (data x)).

(* The bytes held in the buffers [l], in order. *)
Fixpoint held (h : gmap nat buffer) (l : list nat) : list ascii :=
  match l with
  | [] => []
  | a :: l' => contents h a ++ held h l'
  end.

(* tail->record_count and tail->byte_count, 0 before the first read. *)
Definition records_read (s : store) : Z :=
  match deref (bufs s) (tail s) with
  | Done t => record_count t
  | _ => 0
  end.

Definition bytes_read (s : store) : Z :=
  match deref (bufs s) (tail s) with
  | Done t => byte_count t
  | _ => 0
  end.

Lemma dchain_chain h l : forall pv p, dchain h pv p l -> chain h p l.
Proof.
  induction l as [|a l IH]; intros pv p H; simpl in *; [exact H|].
  destruct H as (-> & x & Hx & _ & H). split; [reflexivity|].
  exists x. split; [exact Hx|]. eapply IH. exact H.
Qed.

Lemma dchain_agree h h' l : forall pv p,
  (forall a, a ∈ l -> h' !! a = h !! a) ->
  dchain h pv p l -> dchain h' pv p l.
Proof.
  induction l as [|a l IH]; intros pv p Hag H; simpl in *; [exact H|].
  destruct H as (-> & x & Hx & Hp & H). split; [reflexivity|].
  exists x. split.
  - rewrite Hag by (apply elem_of_cons; left; reflexivity). exact Hx.
  - split; [exact Hp|]. apply IH; [|exact H]. intros a' Ha'. apply Hag.
    apply elem_of_cons. right. exact Ha'.
Qed.

(* The queue from one of its buffers on, after the prev pointer of that
   buffer has been cleared. *)
Lemma dchain_trim h h' l1 a l2 x : forall pv p,
  dchain h pv p (l1 ++ a :: l2) ->
  h !! a = Some x ->
  h' !! a = Some (set_prev None x) ->
  (forall k, k ∈ l2 -> h' !! k = h !! k) ->
  dchain h' None (Some a) (a :: l2).
Proof.
  induction l1 as [|a1 l1 IH]; intros pv p H Hx Hx' Hag; simpl in H.
  - destruct H as (_ & x0 & Hx0 & _ & H).
    rewrite Hx in Hx0. injection Hx0 as <-.
    simpl. split; [reflexivity|]. exists (set_prev None x).
    split; [exact Hx'|]. split; [reflexivity|].
    simpl. eapply dchain_agree; [exact Hag|exact H].
  - destruct H as (_ & x1 & _ & _ & H). eapply IH; eassumption.
Qed.

(* Linking a new buffer behind the last one. *)
Lemma dchain_snoc h l a x t y : forall pv p,
  dchain h pv p l ->
  last l = Some t -> h !! t = Some y -> h !! a = None ->
  prev x = Some t -> next x = None ->
  dchain (<[a := x]> (<[t := set_next (Some a) y]> h)) pv p (l ++ [a]).
Proof.
  induction l as [|a0 l IH]; intros pv p H Hlast Hy Ha Hpx Hnx;
    [discriminate Hlast|].
  pose proof (chain_NoDup _ _ _ (dchain_chain _ _ _ _ H)) as Hnd.
  apply NoDup_cons in Hnd as [Hnotin _].
  simpl in H. destruct H as (-> & x0 & Hx0 & Hp0 & H).
  assert (Hne : a0 ≠ a) by (intros ->; congruence).
  destruct l as [|a1 l].
  - simpl in Hlast. injection Hlast as <-.
    rewrite Hx0 in Hy. injection Hy as <-.
    simpl in H. simpl. split; [reflexivity|].
    exists (set_next (Some a) x0).
    split; [rewrite lookup_insert_ne by congruence; apply lookup_insert_eq|].
    split; [exact Hp0|]. simpl. split; [reflexivity|].
    exists x. split; [apply lookup_insert_eq|].
    split; [exact Hpx|exact Hnx].
  - rewrite last_cons_cons in Hlast.
    assert (Hnt : a0 ≠ t).
    { intros ->. apply Hnotin. apply last_Some_elem_of. exact Hlast. }
    change ((a0 :: a1 :: l) ++ [a]) with (a0 :: ((a1 :: l) ++ [a])).
    cbn [dchain]. split; [reflexivity|]. exists x0.
    split; [rewrite !lookup_insert_ne by congruence; exact Hx0|].
    split; [exact Hp0|].
    apply IH; assumption.
Qed.

Lemma free_from_done l : forall h p fuel k1 k2 r,
  chain h p l ->
  free_from fuel h p k1 k2 = Done r ->
  exists a, a ∈ l /\ (k1 = Some a \/ k2 = Some a).
Proof.
  induction l as [|a0 l IH]; intros h p fuel k1 k2 r Hch Hrun.
  - simpl in Hch. subst p. destruct fuel; discriminate Hrun.
  - pose proof (chain_NoDup _ _ _ Hch) as Hnd.
    apply NoDup_cons in Hnd as [Hnotin _].
    simpl in Hch. destruct Hch as (-> & x0 & Hx0 & Hch).
    destruct (bool_decide (Some a0 = k1) || bool_decide (Some a0 = k2)) eqn:E.
    + exists a0. split; [apply elem_of_cons; left; reflexivity|].
      apply orb_prop in E as [E|E]; apply bool_decide_eq_true in E; auto.
    + destruct fuel as [|fuel]; simpl in Hrun; rewrite E in Hrun;
        [discriminate Hrun|].
      rewrite Hx0 in Hrun. simpl in Hrun.
      assert (Hch' : chain (delete a0 h) (next x0) l).
      { apply chain_agree with (h := h); [|exact Hch].
        intros a Ha. apply lookup_delete_ne. intros ->. contradiction. }
      destruct (IH _ _ _ _ _ _ Hch' Hrun) as (a & Ha & Hk).
      exists a. split; [apply elem_of_cons; right; exact Ha|exact Hk].
Qed.

(* free_unused_buffers, whenever it returns, leaves a queue: a suffix of
   the one it found, holding the same bytes. *)
Lemma free_unused_buffers_keeps_queue s l s' :
  queue s l ->
  free_unused_buffers s = Done s' ->
  exists freed a kept x,
    l = freed ++ a :: kept
    /\ queue s' (a :: kept)
    /\ (forall f, f ∈ freed -> bufs s' !! f = None)
    /\ bufs s !! a = Some x
    /\ bufs s' !! a = Some (set_prev None x)
    /\ (forall k, k ∈ kept -> bufs s' !! k = bufs s !! k)
    /\ s' = set_head (Some a) (set_bufs (bufs s') s)
    /\ (forall f, f ∈ freed ->
          b (current_record_begin s) ≠ Some f
          /\ oldest_buffer_being_written s ≠ Some f)
    /\ (forall k, is_Some (bufs s' !! k) -> is_Some (bufs s !! k)).
Proof.
  intros [Hd Ht] Hrun.
  pose proof (dchain_chain _ _ _ _ Hd) as Hch.
  pose proof (chain_NoDup _ _ _ Hch) as Hnd.
  pose proof (chain_length _ _ _ Hch) as Hlen.
  unfold free_unused_buffers in Hrun.
  apply bind_Done in Hrun. destruct Hrun as ([h' p] & Hfree & Hrun).
  injection Hrun as <-.
  destruct (free_from_done _ _ _ _ _ _ _ Hch Hfree) as (a0 & Ha0 & Hk0).
  destruct (free_from_spec l (bufs s) (head s) (chain_fuel (bufs s))
              (b (current_record_begin s)) (oldest_buffer_being_written s)
              Hch ltac:(unfold chain_fuel; lia)
              ltac:(exists a0; split; assumption))
    as (freed & a & kept & x & h'' & El & Hnk & _ & Hx & Hrun & P1 & P2 & P3).
  rewrite Hrun in Hfree. injection Hfree as <- <-.
  assert (Hkept : forall k, k ∈ kept -> h'' !! k = bufs s !! k).
  { intros k Hkin. rewrite El in Hnd.
    apply NoDup_app in Hnd as (_ & Hdis & Hnd2).
    apply NoDup_cons in Hnd2 as [Hna _]. apply P3.
    - intros Hin. apply (Hdis k Hin). apply elem_of_cons. right. exact Hkin.
    - intros ->. contradiction. }
  exists freed, a, kept, x.
  split; [exact El|]. split.
  { split; simpl.
    - rewrite El in Hd. eapply dchain_trim; eassumption.
    - rewrite Ht, El. apply last_app_cons. }
  split; [exact P1|]. split; [exact Hx|]. split; [exact P2|].
  split; [exact Hkept|]. split; [reflexivity|]. split; [exact Hnk|].
  intros k Hk. simpl in Hk.
  destruct (decide (k ∈ freed)) as [Hin|Hout].
  { rewrite (P1 k Hin) in Hk. destruct Hk as [? Hk]. discriminate Hk. }
  destruct (decide (k = a)) as [->|Hne]; [eauto|].
  rewrite (P3 k Hout Hne) in Hk. exact Hk.
Qed.

(* free_unused_buffers returns when current_record_begin points into the
   queue, and keeps the queue from that buffer on. *)
Lemma free_unused_buffers_trims s l ab :
  queue s l ->
  b (current_record_begin s) = Some ab -> ab ∈ l ->
  exists s' freed a kept x,
    free_unused_buffers s = Done s'
    /\ l = freed ++ a :: kept
    /\ (ab ∉ freed)
    /\ queue s' (a :: kept)
    /\ bufs s !! a = Some x
    /\ bufs s' !! a = Some (set_prev None x)
    /\ (forall k, k ∈ kept -> bufs s' !! k = bufs s !! k)
    /\ s' = set_head (Some a) (set_bufs (bufs s') s)
    /\ (forall k, is_Some (bufs s' !! k) -> is_Some (bufs s !! k)).
Proof.
  intros Hq Hb Hin. pose proof Hq as [Hd Ht].
  pose proof (dchain_chain _ _ _ _ Hd) as Hch.
  pose proof (chain_length _ _ _ Hch) as Hlen.
  destruct (free_from_spec l (bufs s) (head s) (chain_fuel (bufs s))
              (b (current_record_begin s)) (oldest_buffer_being_written s)
              Hch ltac:(unfold chain_fuel; lia)
              ltac:(exists ab; split; [exact Hin|left; exact Hb]))
    as (freed0 & a0 & kept0 & x0 & h'' & _ & _ & _ & _ & Hrun & _).
  assert (Hdone : free_unused_buffers s
                  = Done (set_head (Some a0) (set_bufs h'' s))).
  { unfold free_unused_buffers. rewrite Hrun. reflexivity. }
  destruct (free_unused_buffers_keeps_queue s l _ Hq Hdone)
    as (freed & a & kept & x & El & Hq' & P1 & Hx & P2 & P3 & Es' & Hnk
        & Hkeys).
  eexists. exists freed, a, kept, x. split; [exact Hdone|].
  split; [exact El|]. split.
  { intros Hf. destruct (Hnk ab Hf) as [N _]. contradiction. }
  split; [exact Hq'|]. split; [exact Hx|]. split; [exact P2|].
  split; [exact P3|]. split; [exact Es'|exact Hkeys].
Qed.

Lemma contents_set_prev h h' a x v :
  h !! a = Some x -> h' !! a = Some (set_prev v x) ->
  contents h' a = contents h a.
Proof. intros H H'. unfold contents. rewrite H, H'. reflexivity. Qed.

Lemma contents_agree h h' a : h' !! a = h !! a -> contents h' a = contents h a.
Proof. intros H. unfold contents. rewrite H. reflexivity. Qed.

(* update_current_record, whenever it returns, leaves a queue that is a
   suffix of the one it found; the buffers kept hold what they held. *)
Lemma update_current_record_keeps_queue o s l s' :
  queue s l ->
  update_current_record o s = Done s' ->
  exists freed l',
    l = freed ++ l'
    /\ queue s' l'
    /\ l' ≠ []
    /\ (forall f, f ∈ freed -> bufs s' !! f = None)
    /\ (forall k x, k ∈ l' -> bufs s !! k = Some x ->
          bufs s' !! k = Some x
          \/ bufs s' !! k = Some (set_prev None x))
    /\ tail s' = tail s
    /\ clients s' = clients s
    /\ reached_eof s' = reached_eof s
    /\ oldest_buffer_being_written s' = oldest_buffer_being_written s
    /\ (forall f, f ∈ freed -> oldest_buffer_being_written s ≠ Some f).
Proof.
  intros Hq Hrun.
  unfold update_current_record in Hrun.
  apply bind_Done in Hrun. destruct Hrun as ([] & Hassert & Hrun).
  apply bind_Done in Hrun. destruct Hrun as (t & Ht & Hrun).
  assert (Hne : l ≠ []).
  { intros ->. destruct Hq as [_ Htl]. simpl in Htl. rewrite Htl in Ht.
    discriminate Ht. }
  assert (Hfree : forall s2,
            bufs s2 = bufs s -> head s2 = head s -> tail s2 = tail s ->
            clients s2 = clients s -> reached_eof s2 = reached_eof s ->
            oldest_buffer_being_written s2 = oldest_buffer_being_written s ->
            free_unused_buffers s2 = Done s' ->
            exists freed l',
              l = freed ++ l' /\ queue s' l' /\ l' ≠ []
              /\ (forall f, f ∈ freed -> bufs s' !! f = None)
              /\ (forall k x, k ∈ l' -> bufs s !! k = Some x ->
                    bufs s' !! k = Some x
                    \/ bufs s' !! k = Some (set_prev None x))
              /\ tail s' = tail s
              /\ clients s' = clients s
              /\ reached_eof s' = reached_eof s
              /\ oldest_buffer_being_written s'
                 = oldest_buffer_being_written s
              /\ (forall f, f ∈ freed ->
                    oldest_buffer_being_written s ≠ Some f)).
  { intros s2 Eb Eh Et Ec Ee Eo Hf.
    assert (Hq2 : queue s2 l).
    { destruct Hq as [Hd Htl]. split; [rewrite Eb, Eh; exact Hd|].
      rewrite Et. exact Htl. }
    destruct (free_unused_buffers_keeps_queue s2 l s' Hq2 Hf)
      as (freed & a & kept & x & El & Hq' & P1 & Hx & P2 & P3 & Es' & Hnk
          & _).
    exists freed, (a :: kept).
    split; [exact El|]. split; [exact Hq'|]. split; [discriminate|].
    split; [exact P1|]. split.
    { intros k xk Hk Hxk. apply elem_of_cons in Hk as [->|Hk].
      - right. rewrite <- Eb in Hxk. rewrite Hx in Hxk.
        injection Hxk as <-. exact P2.
      - left. rewrite (P3 k Hk), Eb. exact Hxk. }
    rewrite Es'. simpl. split; [exact Et|]. split; [exact Ec|].
    split; [exact Ee|]. split; [exact Eo|].
    intros f Hfin. rewrite <- Eo. exact (proj2 (Hnk f Hfin)). }
  destruct (record_count t - record_rend o <? 0).
  { injection Hrun as <-. exists [], l. split; [reflexivity|].
    split; [exact Hq|]. split; [exact Hne|].
    split; [intros f Hf; inversion Hf|].
    split; [intros k x _ Hx; left; exact Hx|].
    repeat (split; [reflexivity|]). intros f Hfin. inversion Hfin. }
  destruct (rl o =? 0).
  - unfold update_current_record_by_rs in Hrun.
    apply bind_Done in Hrun. destruct Hrun as (t' & _ & Hrun).
    apply bind_Done in Hrun. destruct Hrun as (e1 & _ & Hrun).
    apply bind_Done in Hrun. destruct Hrun as (e2 & _ & Hrun).
    apply bind_Done in Hrun. destruct Hrun as (bg & _ & Hrun).
    eapply Hfree; [| | | | | |exact Hrun]; reflexivity.
  - unfold update_current_record_by_rl in Hrun.
    apply bind_Done in Hrun. destruct Hrun as (t' & _ & Hrun).
    apply bind_Done in Hrun. destruct Hrun as (e1 & _ & Hrun).
    apply bind_Done in Hrun. destruct Hrun as (e2 & _ & Hrun).
    apply bind_Done in Hrun. destruct Hrun as (bg & _ & Hrun).
    eapply Hfree; [| | | | | |exact Hrun]; reflexivity.
Qed.

(* set_buffer_counters changes the counters and the timestamp only. *)
Lemma set_buffer_counters_frame o now h x x' :
  set_buffer_counters o now h x = Done x' ->
  next x' = next x /\ prev x' = prev x /\ size x' = size x
  /\ data x' = data x.
Proof.
  unfold set_buffer_counters. intros H.
  destruct (rl o =? 0); apply bind_Done in H; destruct H as (n & _ & H);
    injection H as <-; destruct (time_window o); simpl; auto.
Qed.

(* set_buffer_counters returns when the buffer in front of the new one is
   in the heap; it takes the counters of that buffer as its base. *)
Lemma set_buffer_counters_Done o now h x :
  match prev x with Some p => is_Some (h !! p) | None => True end ->
  exists x',
    set_buffer_counters o now h x = Done x'
    /\ next x' = next x /\ prev x' = prev x /\ size x' = size x
    /\ data x' = data x
    /\ (rl o = 0 ->
        record_count x'
        = match deref h (prev x) with Done y => record_count y | _ => 0 end
          + count_separators (rs o) (take (Z.to_nat (size x)) (data x)))
    /\ (rl o ≠ 0 ->
        byte_count x'
        = match deref h (prev x) with Done y => byte_count y | _ => 0 end
          + size x
        /\ record_count x' = Z.quot (byte_count x') (rl o)).
Proof.
  intros Hprev. unfold set_buffer_counters.
  assert (Hpv : prev (if time_window o then set_timestamp now x else x)
                = prev x) by (destruct (time_window o); reflexivity).
  assert (Hsz : size (if time_window o then set_timestamp now x else x)
                = size x) by (destruct (time_window o); reflexivity).
  assert (Hda : data (if time_window o then set_timestamp now x else x)
                = data x) by (destruct (time_window o); reflexivity).
  assert (Hnx : next (if time_window o then set_timestamp now x else x)
                = next x) by (destruct (time_window o); reflexivity).
  rewrite Hpv, Hsz, Hda.
  destruct (prev x) as [q|] eqn:Hq.
  - destruct Hprev as [y Hy]. simpl. rewrite Hy. simpl.
    destruct (rl o =? 0) eqn:Erl.
    + apply Z.eqb_eq in Erl. eexists. split; [reflexivity|]. simpl.
      rewrite Hnx, Hpv, Hsz, Hda.
      do 4 (split; [reflexivity|]).
      split; [intros _; reflexivity|intros N; contradiction].
    + apply Z.eqb_neq in Erl. eexists. split; [reflexivity|]. simpl.
      rewrite Hnx, Hpv, Hsz, Hda.
      do 4 (split; [reflexivity|]).
      split; [intros E; contradiction|intros _; split; reflexivity].
  - simpl. destruct (rl o =? 0) eqn:Erl.
    + apply Z.eqb_eq in Erl. eexists. split; [reflexivity|]. simpl.
      rewrite Hnx, Hpv, Hsz, Hda.
      do 4 (split; [reflexivity|]).
      split; [intros _; reflexivity|intros N; contradiction].
    + apply Z.eqb_neq in Erl. eexists. split; [reflexivity|]. simpl.
      rewrite Hnx, Hpv, Hsz, Hda.
      do 4 (split; [reflexivity|]).
      split; [intros E; contradiction|intros _; split; reflexivity].
Qed.

(* A read of data on a queue always gets as far as update_current_record,
   with the new buffer linked in as the tail and its counters set. *)
Lemma buffer_read_appends o a raw now bytes s l :
  queue s l -> bufs s !! a = None ->
  exists h1 hd x,
    buffer_read o a raw now (ReadData bytes) s
    = update_current_record o
        (set_head hd (set_tail (Some a) (set_bufs h1 s)))
    /\ queue (set_head hd (set_tail (Some a) (set_bufs h1 s))) (l ++ [a])
    /\ h1 !! a = Some x
    /\ size x = Z.of_nat (length bytes) /\ data x = bytes
    /\ (rl o = 0 ->
        record_count x = records_read s + count_separators (rs o) bytes)
    /\ (rl o ≠ 0 ->
        byte_count x = bytes_read s + Z.of_nat (length bytes)
        /\ record_count x = Z.quot (byte_count x) (rl o))
    /\ (forall k y, k ∈ l -> bufs s !! k = Some y ->
          exists y', h1 !! k = Some y'
                     /\ size y' = size y /\ data y' = data y)
    /\ (forall k, is_Some (h1 !! k) -> k = a \/ is_Some (bufs s !! k)).
Proof.
  intros [Hd Htl] Ha. unfold buffer_read.
  set (x0 := set_next None
               (set_prev (tail s)
                  (set_data bytes (set_size (Z.of_nat (length bytes)) raw)))).
  assert (Htake : take (Z.to_nat (size x0)) (data x0) = bytes).
  { simpl. rewrite Nat2Z.id. apply firstn_all. }
  destruct l as [|a0 l0] eqn:El.
  - simpl in Hd, Htl.
    destruct (set_buffer_counters_Done o now (bufs s) x0)
      as (x & Hx & Hn & Hp & Hs & Hdt & Hrs & Hrl).
    { simpl. rewrite Htl. exact I. }
    exists (<[a := x]> (bufs s)), (Some a), x.
    split.
    { rewrite Htl at 1. rewrite bind_Done_l. cbv zeta. fold x0.
      rewrite Hx, bind_Done_l. rewrite Hd. reflexivity. }
    split.
    { split; simpl; [|reflexivity]. split; [reflexivity|].
      exists x. split; [apply lookup_insert_eq|].
      split; [rewrite Hp; simpl; exact Htl|rewrite Hn; reflexivity]. }
    split; [apply lookup_insert_eq|].
    split; [rewrite Hs; reflexivity|]. split; [rewrite Hdt; reflexivity|].
    unfold records_read, bytes_read. rewrite Htl.
    split.
    { intros E. rewrite (Hrs E), Htake. simpl. rewrite Htl. reflexivity. }
    split.
    { intros E. destruct (Hrl E) as [E1 E2]. split; [|exact E2].
      rewrite E1. simpl. rewrite Htl. reflexivity. }
    split; [intros k y Hk; inversion Hk|].
    intros k Hk. destruct (decide (k = a)) as [->|Hne]; [left; reflexivity|].
    right. rewrite lookup_insert_ne in Hk by congruence. exact Hk.
  - rewrite <- El in *.
    assert (Hhd : head s = Some a0).
    { rewrite El in Hd. simpl in Hd. tauto. }
    destruct (last l) as [t|] eqn:Hlast;
      [|rewrite El in Hlast; rewrite last_cons in Hlast;
        destruct (last l0); discriminate Hlast].
    pose proof (dchain_chain _ _ _ _ Hd) as Hch.
    destruct (chain_lookup _ _ _ _ Hch (last_Some_elem_of _ _ Hlast))
      as [y Hy].
    assert (Hta : t ≠ a) by (intros ->; congruence).
    set (h := <[t := set_next (Some a) y]> (bufs s)).
    destruct (set_buffer_counters_Done o now h x0)
      as (x & Hx & Hn & Hp & Hs & Hdt & Hrs & Hrl).
    { simpl. rewrite Htl. unfold h. rewrite lookup_insert_eq. eauto. }
    exists (<[a := x]> h), (head s), x.
    split.
    { rewrite Htl at 1. unfold deref. rewrite Hy.
      change (from_opt (Some y)) with (Done y).
      rewrite !bind_Done_l. cbv zeta. fold h. fold x0.
      rewrite Hx, bind_Done_l. rewrite Hhd. reflexivity. }
    split.
    { split; simpl; [|rewrite last_snoc; reflexivity].
      apply dchain_snoc; try assumption.
      rewrite Hp. simpl. exact Htl. }
    split; [apply lookup_insert_eq|].
    split; [rewrite Hs; reflexivity|]. split; [rewrite Hdt; reflexivity|].
    assert (Hderef : deref h (prev x0) = Done (set_next (Some a) y)).
    { simpl. rewrite Htl. simpl. unfold h. rewrite lookup_insert_eq.
      reflexivity. }
    unfold records_read, bytes_read. rewrite Htl. simpl deref. rewrite Hy.
    split.
    { intros E. rewrite (Hrs E), Htake, Hderef. reflexivity. }
    split.
    { intros E. destruct (Hrl E) as [E1 E2]. split; [|exact E2].
      rewrite E1, Hderef. reflexivity. }
    split.
    { intros k yk Hk Hyk.
      assert (Hka : k ≠ a) by (intros ->; congruence).
      rewrite lookup_insert_ne by congruence. unfold h.
      destruct (decide (k = t)) as [->|Hkt].
      + rewrite lookup_insert_eq. rewrite Hy in Hyk. injection Hyk as <-.
        eexists. split; [reflexivity|]. simpl. auto.
      + rewrite lookup_insert_ne by congruence. exists yk. auto. }
    intros k Hk. destruct (decide (k = a)) as [->|Hne]; [left; reflexivity|].
    right. rewrite lookup_insert_ne in Hk by congruence. unfold h in Hk.
    destruct (decide (k = t)) as [->|Hkt]; [eauto|].
    rewrite lookup_insert_ne in Hk by congruence. exact Hk.
Qed.

(* The store in which update_current_record is called by buffer_read: the
   new buffer is the last of the queue, with its counters set from those of
   the buffer in front of it. *)
Lemma buffer_read_links o a raw now bytes s s' l :
  queue s l -> bufs s !! a = None ->
  buffer_read o a raw now (ReadData bytes) s = Done s' ->
  exists s1 x,
    update_current_record o s1 = Done s'
    /\ queue s1 (l ++ [a])
    /\ bufs s1 !! a = Some x
    /\ size x = Z.of_nat (length bytes) /\ data x = bytes
    /\ (rl o = 0 ->
        record_count x = records_read s + count_separators (rs o) bytes)
    /\ (rl o ≠ 0 ->
        byte_count x = bytes_read s + Z.of_nat (length bytes)
        /\ record_count x = Z.quot (byte_count x) (rl o))
    /\ (forall k y, k ∈ l -> bufs s !! k = Some y ->
          exists y', bufs s1 !! k = Some y'
                     /\ size y' = size y /\ data y' = data y)
    /\ clients s1 = clients s /\ reached_eof s1 = reached_eof s.
Proof.
  intros [Hd Htl] Ha Hrun. unfold buffer_read in Hrun.
  apply bind_Done in Hrun. destruct Hrun as (h & Hh & Hrun).
  apply bind_Done in Hrun. destruct Hrun as (x & Hx & Hrun).
  destruct (set_buffer_counters_frame _ _ _ _ _ Hx) as (Hn & Hp & Hs & Hdt).
  simpl in Hn, Hp, Hs, Hdt.
  assert (Hcount :
            match tail s with
            | Some t => exists y, bufs s !! t = Some y /\ h !! t = Some (set_next (Some a) y)
            | None => True
            end ->
            (rl o = 0 ->
             record_count x = records_read s + count_separators (rs o) bytes)
            /\ (rl o ≠ 0 ->
                byte_count x = bytes_read s + Z.of_nat (length bytes)
                /\ record_count x = Z.quot (byte_count x) (rl o))).
  { intros Hprev. unfold set_buffer_counters in Hx.
    unfold records_read, bytes_read.
    assert (Hpv : forall v : buffer,
              prev (if time_window o then set_timestamp now v else v)
              = prev v) by (intros v; destruct (time_window o); reflexivity).
    assert (Hsz : forall v : buffer,
              size (if time_window o then set_timestamp now v else v)
              = size v) by (intros v; destruct (time_window o); reflexivity).
    assert (Hda : forall v : buffer,
              data (if time_window o then set_timestamp now v else v)
              = data v) by (intros v; destruct (time_window o); reflexivity).
    rewrite Hpv, Hsz, Hda in Hx. simpl in Hx.
    rewrite Nat2Z.id, firstn_all in Hx.
    destruct (tail s) as [t|] eqn:Ht.
    - destruct Hprev as (y & Hy & Hy'). simpl in Hx. simpl.
      rewrite Hy' in Hx. rewrite Hy. simpl in Hx. simpl.
      destruct (rl o =? 0) eqn:Erl.
      + apply Z.eqb_eq in Erl. injection Hx as <-.
        split; [intros _|intros N; contradiction].
        destruct (time_window o); reflexivity.
      + apply Z.eqb_neq in Erl. injection Hx as <-.
        split; [intros E; contradiction|intros _].
        destruct (time_window o); simpl; auto.
    - simpl in Hx. simpl.
      destruct (rl o =? 0) eqn:Erl.
      + apply Z.eqb_eq in Erl. injection Hx as <-.
        split; [intros _|intros N; contradiction].
        destruct (time_window o); reflexivity.
      + apply Z.eqb_neq in Erl. injection Hx as <-.
        split; [intros E; contradiction|intros _].
        destruct (time_window o); simpl; auto. }
  eexists. exists x. split; [exact Hrun|].
  destruct l as [|a0 l0] eqn:El.
  - simpl in Hd, Htl. rewrite Htl in Hh. injection Hh as <-.
    rewrite Hd. simpl.
    split.
    { split; simpl; [|reflexivity]. split; [reflexivity|].
      exists x. split; [apply lookup_insert_eq|].
      split; [rewrite Hp; exact Htl|exact Hn]. }
    split; [apply lookup_insert_eq|]. split; [exact Hs|]. split; [exact Hdt|].
    split; [apply Hcount; rewrite Htl; exact I|].
    split; [apply Hcount; rewrite Htl; exact I|].
    split; [intros k y Hk; inversion Hk|]. auto.
  - rewrite <- El in *.
    assert (Hhd : head s = Some a0).
    { rewrite El in Hd. simpl in Hd. tauto. }
    destruct (last l) as [t|] eqn:Hlast;
      [|rewrite El in Hlast; rewrite last_cons in Hlast;
        destruct (last l0); discriminate Hlast].
    rewrite Htl in Hh. simpl in Hh.
    apply bind_Done in Hh. destruct Hh as (y & Hy & Hh).
    injection Hh as <-.
    unfold from_opt in Hy. destruct (bufs s !! t) as [y0|] eqn:Hyt;
      [|discriminate Hy]. injection Hy as ->.
    assert (Hta : t ≠ a) by (intros ->; congruence).
    assert (Hprev : match tail s with
                    | Some t' => exists y0, bufs s !! t' = Some y0
                        /\ <[t := set_next (Some a) y]> (bufs s) !! t'
                           = Some (set_next (Some a) y0)
                    | None => True
                    end).
    { rewrite Htl. exists y. split; [exact Hyt|apply lookup_insert_eq]. }
    rewrite Hhd. simpl.
    split.
    { split; simpl; [|rewrite last_snoc; reflexivity].
      rewrite <- Hhd. apply dchain_snoc; try assumption.
      rewrite Hp, Htl. reflexivity. }
    split; [apply lookup_insert_eq|]. split; [exact Hs|]. split; [exact Hdt|].
    split; [apply Hcount; exact Hprev|].
    split; [apply Hcount; exact Hprev|].
    split; [|auto].
    intros k yk Hk Hyk.
    assert (Hka : k ≠ a) by (intros ->; congruence).
    rewrite lookup_insert_ne by congruence.
    destruct (decide (k = t)) as [->|Hkt].
    + rewrite lookup_insert_eq. rewrite Hyt in Hyk. injection Hyk as <-.
      eexists. split; [reflexivity|]. simpl. auto.
    + rewrite lookup_insert_ne by congruence. exists yk. auto.
Qed.

(* A read of data: the new buffer is appended, the record pointers are
   updated, and buffers in front may be freed. *)
Lemma buffer_read_data o a raw now bytes s s' l :
  queue s l -> bufs s !! a = None ->
  buffer_read o a raw now (ReadData bytes) s = Done s' ->
  exists freed l' x,
    l ++ [a] = freed ++ l'
    /\ queue s' l'
    /\ tail s' = Some a
    /\ (forall f, f ∈ freed -> bufs s' !! f = None)
    /\ bufs s' !! a = Some x
    /\ size x = Z.of_nat (length bytes) /\ data x = bytes
    /\ (rl o = 0 ->
        record_count x = records_read s + count_separators (rs o) bytes)
    /\ (rl o ≠ 0 ->
        byte_count x = bytes_read s + Z.of_nat (length bytes)
        /\ record_count x = Z.quot (byte_count x) (rl o))
    /\ (forall k y, k ∈ l' -> k ∈ l -> bufs s !! k = Some y ->
          exists y', bufs s' !! k = Some y'
                     /\ size y' = size y /\ data y' = data y)
    /\ clients s' = clients s /\ reached_eof s' = reached_eof s.
Proof.
  intros Hq Ha Hrun.
  destruct (buffer_read_links _ _ _ _ _ _ _ _ Hq Ha Hrun)
    as (s1 & x & Hup & Hq1 & Hx & Hs & Hdt & Hrs & Hrl & Hold & Hc1 & He1).
  destruct (update_current_record_keeps_queue _ _ _ _ Hq1 Hup)
    as (freed & l' & El & Hq' & Hne & Hfr & Hkeep & Htl & Hc & He & _).
  assert (Hta : tail s' = Some a).
  { rewrite Htl. destruct Hq1 as [_ ->]. apply last_snoc. }
  assert (Hain : a ∈ l').
  { apply last_Some_elem_of. destruct Hq' as [_ <-]. exact Hta. }
  destruct (Hkeep a x Hain Hx) as [Hx'|Hx'].
  - exists freed, l', x. split; [exact El|]. split; [exact Hq'|].
    split; [exact Hta|]. split; [exact Hfr|]. split; [exact Hx'|].
    split; [exact Hs|]. split; [exact Hdt|]. split; [exact Hrs|].
    split; [exact Hrl|].
    split; [|split; congruence].
    intros k y Hk Hkl Hy.
    destruct (Hold k y Hkl Hy) as (y1 & Hy1 & Hs1 & Hd1).
    destruct (Hkeep k y1 Hk Hy1) as [Hy'|Hy']; eexists;
      (split; [exact Hy'|]); simpl; auto.
  - exists freed, l', (set_prev None x). split; [exact El|].
    split; [exact Hq'|].
    split; [exact Hta|]. split; [exact Hfr|]. split; [exact Hx'|].
    split; [exact Hs|]. split; [exact Hdt|]. split; [exact Hrs|].
    split; [exact Hrl|].
    split; [|split; congruence].
    intros k y Hk Hkl Hy.
    destruct (Hold k y Hkl Hy) as (y1 & Hy1 & Hs1 & Hd1).
    destruct (Hkeep k y1 Hk Hy1) as [Hy'|Hy']; eexists;
      (split; [exact Hy'|]); simpl; auto.
Qed.

(** X17.  The queue invariant of buffer_read.  When head and tail delimit
    a doubly linked queue of buffers that hold data and malloc returns
    unused memory, a read of at least one byte that buffer_read survives
    leaves such a queue again: the new buffer, holding the bytes read, is
    its tail, and the queue is the old one with the new buffer appended and
    some buffers in front freed; the buffers kept hold the bytes they
    held.  The clients and reached_eof are not touched. *)
Theorem buffer_read_keeps_queue o a raw now bytes s s' l :
  queue s l ->
  holds_data (bufs s) l ->
  bufs s !! a = None ->
  bytes ≠ [] ->
  buffer_read o a raw now (ReadData bytes) s = Done s' ->
  exists freed l',
    l ++ [a] = freed ++ l'
    /\ queue s' l'
    /\ holds_data (bufs s') l'
    /\ tail s' = Some a
    /\ contents (bufs s') a = bytes
    /\ (forall f, f ∈ freed -> bufs s' !! f = None)
    /\ (forall k, k ∈ l' -> k ∈ l -> contents (bufs s') k = contents (bufs s) k)
    /\ clients s' = clients s
    /\ reached_eof s' = reached_eof s.
Proof.
  intros Hq Hdata Ha Hbytes Hrun.
  destruct (buffer_read_data _ _ _ _ _ _ _ _ Hq Ha Hrun)
    as (freed & l' & x & El & Hq' & Hta & Hfr & Hx & Hs & Hdt & _ & _
        & Hold & Hc & He).
  assert (Hlen : 0 < Z.of_nat (length bytes)).
  { destruct bytes; [contradiction|simpl; lia]. }
  assert (Hin : forall k, k ∈ l' -> k = a \/ k ∈ l).
  { intros k Hk.
    assert (Hk' : k ∈ l ++ [a])
      by (rewrite El; apply elem_of_app; right; exact Hk).
    apply elem_of_app in Hk' as [Hk'|Hk']; [right; exact Hk'|left].
    apply list_elem_of_singleton in Hk'. exact Hk'. }
  pose proof (dchain_chain _ _ _ _ (queue_links _ _ Hq)) as Hch.
  exists freed, l'. split; [exact El|]. split; [exact Hq'|].
  split.
  { intros k y Hk Hy. destruct (Hin k Hk) as [->|Hkl].
    - rewrite Hx in Hy. injection Hy as <-. rewrite Hs, Hdt. lia.
    - destruct (chain_lookup _ _ _ _ Hch Hkl) as [y0 Hy0].
      destruct (Hold k y0 Hk Hkl Hy0) as (y' & Hy' & Hs' & Hd').
      rewrite Hy in Hy'. injection Hy' as <-. rewrite Hs', Hd'.
      exact (Hdata k y0 Hkl Hy0). }
  split; [exact Hta|].
  split.
  { unfold contents. rewrite Hx, Hs, Hdt, Nat2Z.id. apply firstn_all. }
  split; [exact Hfr|].
  split; [|split; assumption].
  intros k Hk Hkl.
  destruct (chain_lookup _ _ _ _ Hch Hkl) as [y0 Hy0].
  destruct (Hold k y0 Hk Hkl Hy0) as (y' & Hy' & Hs' & Hd').
  unfold contents. rewrite Hy', Hy0, Hs', Hd'. reflexivity.
Qed.

(** X18.  The running counters.  Under the same conditions, the counters
    of the tail buffer after a read continue those before it, whatever was
    freed in front: with a record separator (rl = 0) the record count grows
    by the number of separators among the bytes read; with a record length
    the byte count grows by the number of bytes read, and the record count
    is the byte count divided by the record length. *)
Theorem buffer_read_counts_records o a raw now bytes s s' l :
  queue s l ->
  bufs s !! a = None ->
  buffer_read o a raw now (ReadData bytes) s = Done s' ->
  (rl o = 0 ->
   records_read s' = records_read s + count_separators (rs o) bytes)
  /\ (rl o ≠ 0 ->
      bytes_read s' = bytes_read s + Z.of_nat (length bytes)
      /\ records_read s' = Z.quot (bytes_read s') (rl o)).
Proof.
  intros Hq Ha Hrun.
  destruct (buffer_read_data _ _ _ _ _ _ _ _ Hq Ha Hrun)
    as (freed & l' & x & _ & _ & Hta & _ & Hx & _ & _ & Hrs & Hrl & _).
  unfold records_read at 1 3, bytes_read at 1 3.
  rewrite Hta. simpl. rewrite Hx. simpl. split; assumption.
Qed.

Lemma span_bytes_whole h l : forall t x,
  holds_data h l -> last l = Some t -> h !! t = Some x ->
  span_bytes h l 0 (size x) = held h l.
Proof.
  induction l as [|a l IH]; intros t x Hdata Hlast Hx; [discriminate Hlast|].
  destruct l as [|a1 l].
  - simpl in Hlast. injection Hlast as <-. simpl.
    rewrite app_nil_r, drop_0, Z.sub_0_r. apply take_ge.
    pose proof (Hdata a x ltac:(apply elem_of_cons; left; reflexivity) Hx).
    pose proof (length_contents h a x Hx). lia.
  - rewrite last_cons_cons in Hlast.
    change (span_bytes h (a :: a1 :: l) 0 (size x))
      with (drop (Z.to_nat 0) (contents h a) ++ span_bytes h (a1 :: l) 0 (size x)).
    change (held h (a :: a1 :: l)) with (contents h a ++ held h (a1 :: l)).
    rewrite drop_0. f_equal. eapply IH; [|exact Hlast|exact Hx].
    intros k y Hk. apply Hdata. apply elem_of_cons. right. exact Hk.
Qed.

(** X19.  End of input.  buffer_read on a read that returns 0 sets
    reached_eof and returns.  If a record is available it changes nothing
    else.  Otherwise it makes one available: with an empty queue, the
    empty record in a new buffer of size 0, which becomes the queue; with
    data in the queue, the whole of it, from position 0 of head to
    position tail->size of tail, without touching the buffers. *)
Theorem buffer_read_at_eof o a raw now s l :
  queue s l ->
  holds_data (bufs s) l ->
  bufs s !! a = None ->
  exists s',
    buffer_read o a raw now ReadEof s = Done s'
    /\ reached_eof s' = true
    /\ clients s' = clients s
    /\ (have_record s = true -> s' = set_reached_eof true s)
    /\ (have_record s = false ->
        have_record s' = true
        /\ exists l',
             queue s' l'
             /\ (l = [] -> l' = [a])
             /\ (l ≠ [] -> l' = l /\ bufs s' = bufs s)
             /\ (forall c,
                   write_begin c = current_record_begin s' ->
                   write_end c = current_record_end s' ->
                   sending (bufs s') c l' []
                   /\ span_bytes (bufs s') l' (pos (write_begin c))
                        (pos (write_end c))
                      = held (bufs s) l)).
Proof.
  intros Hq Hdata Ha. pose proof Hq as [Hd Htl].
  unfold buffer_read.
  change (have_record (set_reached_eof true s)) with (have_record s).
  change (head (set_reached_eof true s)) with (head s).
  destruct (have_record s) eqn:Hhave.
  { eexists. split; [reflexivity|]. split; [reflexivity|].
    split; [reflexivity|]. split; [reflexivity|discriminate]. }
  destruct l as [|a0 l0] eqn:El.
  - simpl in Hd. rewrite Hd.
    eexists. split; [reflexivity|]. split; [reflexivity|].
    split; [reflexivity|]. split; [discriminate|]. intros _.
    split; [reflexivity|]. exists [a].
    assert (Hxa : <[a := set_next None (set_prev None (set_size 0 raw))]>
                    (bufs s) !! a
                  = Some (set_next None (set_prev None (set_size 0 raw))))
      by apply lookup_insert_eq.
    split.
    { split; simpl; [|reflexivity]. split; [reflexivity|].
      eexists. split; [exact Hxa|]. split; reflexivity. }
    split; [reflexivity|]. split; [intros N; contradiction|].
    intros c Hb He. simpl in Hb, He. simpl bufs.
    split.
    + split; rewrite ?Hb, ?He; simpl.
      * split; [reflexivity|]. eexists. split; [exact Hxa|]. reflexivity.
      * reflexivity.
      * intros k y Hk Hy. apply list_elem_of_singleton in Hk. subst k.
        rewrite Hxa in Hy. injection Hy as <-. simpl. lia.
      * intros k y Hk Hy. injection Hk as <-.
        rewrite Hxa in Hy. injection Hy as <-. simpl. lia.
      * intros k y Hk Hy. injection Hk as <-.
        rewrite Hxa in Hy. injection Hy as <-. simpl. lia.
      * intros k _. lia.
      * discriminate.
    + rewrite Hb, He. reflexivity.
  - rewrite <- El in *.
    assert (Hne : l ≠ []) by (rewrite El; discriminate).
    assert (Hhd : head s = Some a0).
    { rewrite El in Hd. simpl in Hd. tauto. }
    destruct (last l) as [t|] eqn:Hlast;
      [|rewrite El in Hlast; rewrite last_cons in Hlast;
        destruct (last l0); discriminate Hlast].
    pose proof (dchain_chain _ _ _ _ Hd) as Hch.
    destruct (chain_lookup _ _ _ _ Hch (last_Some_elem_of _ _ Hlast))
      as [y Hy].
    rewrite Hhd.
    change (tail (set_reached_eof true s)) with (tail s).
    change (bufs (set_reached_eof true s)) with (bufs s).
    rewrite Htl. simpl deref. rewrite Hy. simpl.
    eexists. split; [reflexivity|]. split; [reflexivity|].
    split; [reflexivity|]. split; [discriminate|]. intros _.
    split; [reflexivity|]. exists l.
    split; [split; simpl; [exact Hd|rewrite Hlast; exact Htl]|].
    split; [intros N; contradiction|]. split; [auto|].
    intros c Hb He. simpl in Hb, He. simpl bufs.
    split.
    + split; rewrite ?Hb, ?He; simpl.
      * rewrite app_nil_r, <- Hhd. exact Hch.
      * symmetry. exact Hlast.
      * intros k yk Hk Hyk. pose proof (Hdata k yk Hk Hyk). lia.
      * intros k yk Hk Hyk.
        pose proof (Hdata k yk (list_elem_of_lookup_2 _ _ _ Hk) Hyk). lia.
      * intros k yk Hk Hyk. rewrite Hlast in Hk. injection Hk as <-.
        rewrite Hy in Hyk. injection Hyk as <-.
        pose proof (Hdata t y (last_Some_elem_of _ _ Hlast) Hy). lia.
      * intros k _.
        pose proof (Hdata t y (last_Some_elem_of _ _ Hlast) Hy). lia.
      * exact Hne.
    + rewrite Hb, He. simpl. eapply span_bytes_whole; eassumption.
Qed.

(** *** Cursors and the bytes held *)

(* The cursor [dp] is at byte [k] of the bytes held in the queue [l]: it
   points into a buffer of [l], in front of one of its bytes or, in the
   last buffer, behind the last byte. *)
Definition at_offset (h : gmap nat buffer) (l : list nat) (dp : dpointer)
    (k : Z) : Prop :=
  exists l1 a l2 x,
    l = l1 ++ a :: l2 /\ b dp = Some a /\ h !! a = Some x
    /\ k = Z.of_nat (length (held h l1)) + pos dp
    /\ 0 <= pos dp
    /\ (pos dp < size x \/ (l2 = [] /\ pos dp = size x)).

(* Position [j] of [bytes] is where a record begins: the start of the data,
   or just behind a separator. *)
Definition boundary (sep : ascii) (bytes : list ascii) (j : nat) : Prop :=
  j = O \/ exists i, j = S i /\ bytes !! i = Some sep.

Lemma held_app h l1 l2 : held h (l1 ++ l2) = held h l1 ++ held h l2.
Proof.
  induction l1 as [|a l1 IH]; simpl; [reflexivity|].
  rewrite IH. apply app_assoc.
Qed.

Lemma held_agree h h' l :
  (forall a, a ∈ l -> contents h' a = contents h a) -> held h' l = held h l.
Proof.
  induction l as [|a l IH]; intros H; simpl; [reflexivity|].
  rewrite H by (apply elem_of_cons; left; reflexivity).
  rewrite IH; [reflexivity|].
  intros k Hk. apply H. apply elem_of_cons. right. exact Hk.
Qed.

Lemma holds_data_app h l1 l2 :
  holds_data h (l1 ++ l2) -> holds_data h l1 /\ holds_data h l2.
Proof.
  intros H. split; intros a x Ha; apply H; apply elem_of_app; auto.
Qed.

Lemma count_separators_app sep l1 l2 :
  count_separators sep (l1 ++ l2)
  = count_separators sep l1 + count_separators sep l2.
Proof.
  unfold count_separators. rewrite filter_app, length_app. lia.
Qed.

Lemma count_separators_nil sep : count_separators sep [] = 0.
Proof. reflexivity. Qed.

Lemma count_separators_one sep c :
  count_separators sep [c] = if Ascii.eqb c sep then 1 else 0.
Proof.
  unfold count_separators. rewrite filter_cons.
  destruct (Ascii.eqb c sep) eqn:E.
  - rewrite decide_True by reflexivity. reflexivity.
  - rewrite decide_False by discriminate. reflexivity.
Qed.

(* The prev and next pointers of a buffer inside the queue. *)
Lemma dchain_prev h l1 a l2 x : forall pv p,
  dchain h pv p (l1 ++ a :: l2) -> h !! a = Some x ->
  prev x = match last l1 with Some a' => Some a' | None => pv end.
Proof.
  induction l1 as [|a1 l1 IH]; intros pv p H Hx; simpl in H.
  - destruct H as (_ & x0 & Hx0 & Hp & _). simpl. congruence.
  - destruct H as (_ & x1 & Hx1 & Hp & H).
    rewrite (IH _ _ H Hx), last_cons. destruct (last l1); reflexivity.
Qed.

Lemma dchain_next h l1 a l2 x : forall pv p,
  dchain h pv p (l1 ++ a :: l2) -> h !! a = Some x ->
  next x = l2 !! 0%nat.
Proof.
  induction l1 as [|a1 l1 IH]; intros pv p H Hx; simpl in H.
  - destruct H as (_ & x0 & Hx0 & _ & H).
    assert (x0 = x) by congruence. subst x0.
    destruct l2; simpl in H; [exact H|tauto].
  - destruct H as (_ & x1 & Hx1 & Hp & H). exact (IH _ _ H Hx).
Qed.

Lemma length_held_pos h l :
  holds_data h l -> (forall a, a ∈ l -> is_Some (h !! a)) -> l ≠ [] ->
  (0 < length (held h l))%nat.
Proof.
  intros Hdata Hin Hne. destruct l as [|a l]; [contradiction|].
  destruct (Hin a) as [x Hx]; [apply elem_of_cons; left; reflexivity|].
  pose proof (Hdata a x ltac:(apply elem_of_cons; left; reflexivity) Hx).
  pose proof (length_contents h a x Hx). simpl. rewrite length_app. lia.
Qed.

Lemma lookup_0_cons {A} (l : list A) (a : A) :
  l !! 0%nat = Some a -> exists l0, l = a :: l0.
Proof. destruct l as [|a0 l0]; [discriminate|]. intros [= ->]. eauto. Qed.

Lemma last_snoc_inv {A} (l : list A) (t : A) :
  last l = Some t -> exists l1, l = l1 ++ [t].
Proof.
  destruct l as [|a0 l0] using rev_ind; [discriminate|].
  rewrite last_snoc. intros [= ->]. eauto.
Qed.

Section Cursors.

Variable h : gmap nat buffer.
Variable l : list nat.
Variable p : bptr.
Hypothesis Hlinks : dchain h None p l.
Hypothesis Hdata : holds_data h l.

Lemma queue_lookup a : a ∈ l -> is_Some (h !! a).
Proof. apply (chain_lookup h l p). exact (dchain_chain _ _ _ _ Hlinks). Qed.

Lemma length_held_split l1 a l2 x :
  l = l1 ++ a :: l2 -> h !! a = Some x ->
  Z.of_nat (length (held h l))
  = Z.of_nat (length (held h l1)) + size x + Z.of_nat (length (held h l2))
  /\ 0 < size x.
Proof.
  intros El Hx.
  assert (Ha : a ∈ l)
    by (rewrite El; apply elem_of_app; right; apply elem_of_cons; auto).
  pose proof (Hdata a x Ha Hx) as Hs.
  pose proof (length_contents h a x Hx ltac:(lia)) as Hc.
  rewrite El, held_app. simpl. rewrite !length_app. lia.
Qed.

Lemma at_offset_range dp k :
  at_offset h l dp k -> 0 <= k <= Z.of_nat (length (held h l)).
Proof.
  intros (l1 & a & l2 & x & El & Hb & Hx & Hk & Hp0 & Hp).
  destruct (length_held_split _ _ _ _ El Hx) as [E Hs].
  destruct Hp as [Hp|[-> Hp]]; simpl in *; lia.
Qed.

(* The end of the data read: position tail->size of the last buffer. *)
Lemma at_offset_end t x :
  last l = Some t -> h !! t = Some x ->
  at_offset h l {| b := Some t; pos := size x |}
    (Z.of_nat (length (held h l))).
Proof.
  intros Hlast Hx.
  destruct (last_snoc_inv _ _ Hlast) as [l1 El].
  destruct (length_held_split _ _ _ _ El Hx) as [E Hs].
  exists l1, t, [], x. simpl in *.
  split; [exact El|]. split; [reflexivity|]. split; [exact Hx|].
  split; [lia|]. split; [lia|]. right. auto.
Qed.

(* The start of the data held: position 0 of the first buffer. *)
Lemma at_offset_start a :
  l !! 0%nat = Some a -> at_offset h l {| b := Some a; pos := 0 |} 0.
Proof.
  intros Hhd. destruct (lookup_0_cons _ _ Hhd) as [l0 El].
  destruct (queue_lookup a) as [x Hx];
    [rewrite El; apply elem_of_cons; left; reflexivity|].
  destruct (length_held_split [] a l0 x El Hx) as [_ Hs].
  exists [], a, l0, x. simpl.
  split; [exact El|]. split; [reflexivity|]. split; [exact Hx|].
  split; [reflexivity|]. split; [lia|]. left. exact Hs.
Qed.

Lemma byte_at_offset dp k :
  at_offset h l dp k -> k < Z.of_nat (length (held h l)) ->
  exists c, byte_at h dp = Done c /\ held h l !! Z.to_nat k = Some c.
Proof.
  intros (l1 & a & l2 & x & El & Hb & Hx & Hk & Hp0 & Hp) Hlt.
  destruct (length_held_split _ _ _ _ El Hx) as [E Hs].
  assert (Ha : a ∈ l)
    by (rewrite El; apply elem_of_app; right; apply elem_of_cons; auto).
  pose proof (Hdata a x Ha Hx) as Hsz.
  assert (Hpos : pos dp < size x).
  { destruct Hp as [Hp|[-> Hp]]; [exact Hp|]. simpl in E. lia. }
  destruct (lookup_lt_is_Some_2 (data x) (Z.to_nat (pos dp)) ltac:(lia))
    as [c Hc].
  exists c. split.
  - unfold byte_at. rewrite Hb. simpl. rewrite Hx. simpl.
    destruct (0 <=? pos dp) eqn:E0; [|apply Z.leb_gt in E0; lia].
    rewrite Hc. reflexivity.
  - rewrite El, held_app. simpl.
    rewrite lookup_app_r by lia.
    rewrite lookup_app_l
      by (pose proof (length_contents h a x Hx ltac:(lia)); lia).
    replace (Z.to_nat k - length (held h l1))%nat with (Z.to_nat (pos dp))
      by lia.
    unfold contents. rewrite Hx. rewrite lookup_take_lt by lia. exact Hc.
Qed.

Lemma dpointer_decrement_offset dp k :
  at_offset h l dp k ->
  (0 < k -> exists dp', dpointer_decrement h dp = Done (true, dp')
                        /\ at_offset h l dp' (k - 1))
  /\ (k = 0 -> dpointer_decrement h dp = Done (false, dp)).
Proof.
  intros (l1 & a & l2 & x & El & Hb & Hx & Hk & Hp0 & Hp).
  destruct (length_held_split _ _ _ _ El Hx) as [E Hs].
  unfold dpointer_decrement. simpl.
  destruct (pos dp - 1 =? -1) eqn:E1.
  - apply Z.eqb_eq in E1. assert (Hz : pos dp = 0) by lia.
    rewrite Hb. simpl. rewrite Hx. simpl.
    pose proof Hlinks as Hl. rewrite El in Hl.
    rewrite (dchain_prev _ _ _ _ _ _ _ Hl Hx).
    destruct l1 as [|a0 l0] using rev_ind.
    + simpl. simpl in Hk. split; [intros; lia|]. intros _.
      destruct dp as [bp pp]. unfold at_pos. simpl in *. subst pp.
      reflexivity.
    + clear IHl0. rewrite last_snoc.
      rewrite <- app_assoc in El. simpl in El.
      destruct (queue_lookup a0) as [x0 Hx0].
      { rewrite El. apply elem_of_app. right. apply elem_of_cons. auto. }
      destruct (length_held_split _ _ _ _ El Hx0) as [E0 Hs0].
      pose proof (length_contents h a0 x0 Hx0) as Hc0.
      assert (Ha0 : a0 ∈ l)
        by (rewrite El; apply elem_of_app; right; apply elem_of_cons; auto).
      pose proof (Hdata a0 x0 Ha0 Hx0) as Hsz0.
      rewrite held_app, length_app in Hk. simpl in Hk.
      rewrite app_nil_r in Hk.
      simpl. rewrite Hx0. simpl.
      split; [|intros; lia]. intros _.
      eexists. split; [reflexivity|].
      exists l0, a0, (a :: l2), x0. simpl.
      split; [exact El|]. split; [reflexivity|]. split; [exact Hx0|].
      split; [lia|]. split; [lia|]. left. lia.
  - apply Z.eqb_neq in E1.
    split; [|intros; lia]. intros _.
    eexists. split; [reflexivity|].
    exists l1, a, l2, x. unfold at_pos. simpl.
    split; [exact El|]. split; [exact Hb|]. split; [exact Hx|].
    split; [lia|]. split; [lia|]. left. destruct Hp as [Hp|[_ Hp]]; lia.
Qed.

Lemma dpointer_increment_offset dp k :
  at_offset h l dp k -> k < Z.of_nat (length (held h l)) ->
  exists more dp',
    dpointer_increment h dp = Done (more, dp')
    /\ at_offset h l dp' (k + 1)
    /\ (more = true <-> k + 1 < Z.of_nat (length (held h l))).
Proof.
  intros (l1 & a & l2 & x & El & Hb & Hx & Hk & Hp0 & Hp) Hlt.
  destruct (length_held_split _ _ _ _ El Hx) as [E Hs].
  assert (Hpos : pos dp < size x).
  { destruct Hp as [Hp0'|[-> Hp0']]; [exact Hp0'|]. simpl in E. lia. }
  unfold dpointer_increment. simpl. rewrite Hb. simpl. rewrite Hx. simpl.
  pose proof Hlinks as Hl. rewrite El in Hl.
  rewrite (dchain_next _ _ _ _ _ _ _ Hl Hx).
  destruct (pos dp + 1 =? size x) eqn:E1.
  - apply Z.eqb_eq in E1. destruct l2 as [|n l2]; simpl.
    + exists false. eexists. split; [reflexivity|]. split.
      * exists l1, a, [], x. simpl.
        split; [exact El|]. split; [exact Hb|]. split; [exact Hx|].
        split; [lia|]. split; [lia|]. right. auto.
      * simpl in E. split; [discriminate|lia].
    + exists true. eexists. split; [reflexivity|].
      assert (El' : l = (l1 ++ [a]) ++ n :: l2)
        by (rewrite <- app_assoc; exact El).
      destruct (queue_lookup n) as [y Hy].
      { rewrite El'. apply elem_of_app. right. apply elem_of_cons. auto. }
      destruct (length_held_split _ _ _ _ El' Hy) as [En Hsn].
      pose proof (length_contents h a x Hx) as Hc.
      assert (Ha : a ∈ l)
        by (rewrite El; apply elem_of_app; right; apply elem_of_cons; auto).
      pose proof (Hdata a x Ha Hx) as Hsz.
      split.
      * exists (l1 ++ [a]), n, l2, y. simpl.
        split; [exact El'|]. split; [reflexivity|]. split; [exact Hy|].
        rewrite held_app, length_app. simpl. rewrite app_nil_r.
        split; [lia|]. split; [lia|]. left. exact Hsn.
      * rewrite held_app, length_app in En. simpl in En.
        rewrite app_nil_r in En. split; [lia|reflexivity].
  - apply Z.eqb_neq in E1.
    exists true. eexists. split; [reflexivity|]. split.
    + exists l1, a, l2, x. simpl.
      split; [exact El|]. split; [exact Hb|]. split; [exact Hx|].
      split; [lia|]. split; [lia|]. left. lia.
    + split; [lia|reflexivity].
Qed.

(* A cursor is determined by its offset. *)
Lemma at_offset_inj dp dp' k :
  at_offset h l dp k -> at_offset h l dp' k -> dp = dp'.
Proof.
  assert (Hlt : forall l1 a l2 x m a' l2' (q q' : Z),
            l = l1 ++ a :: l2 -> h !! a = Some x ->
            l = (l1 ++ a :: m) ++ a' :: l2' ->
            q < size x \/ (l2 = [] /\ q = size x) -> 0 <= q' ->
            Z.of_nat (length (held h l1)) + q
            = Z.of_nat (length (held h (l1 ++ a :: m))) + q' -> False).
  { intros l1 a l2 x m a' l2' q q' El Hx El' Hq Hq' E.
    assert (Ha : a ∈ l)
      by (rewrite El; apply elem_of_app; right; apply elem_of_cons; auto).
    pose proof (Hdata a x Ha Hx) as Hs.
    pose proof (length_contents h a x Hx ltac:(lia)) as Hc.
    rewrite held_app in E. simpl in E. rewrite !length_app in E.
    destruct Hq as [Hq|[-> Hq]]; [lia|].
    rewrite El in El'. rewrite <- app_assoc in El'. simpl in El'.
    apply app_inv_head in El'. injection El' as El'.
    destruct m; discriminate El'. }
  intros (l1 & a & l2 & x & El & Hb & Hx & Hk & Hp0 & Hp)
         (l1' & a' & l2' & x' & El' & Hb' & Hx' & Hk' & Hp0' & Hp').
  pose proof El' as E2. rewrite El in E2.
  apply app_eq_inv in E2 as [(m & E2 & E3)|(m & E2 & E3)].
  - destruct m as [|a0 m].
    + rewrite app_nil_r in E2. subst l1'. simpl in E3. injection E3 as <- <-.
      destruct dp as [bp pp], dp' as [bp' pp']. simpl in *.
      f_equal; [congruence|lia].
    + simpl in E3. injection E3 as <- E3. subst l1.
      exfalso. eapply (Hlt l1' a' l2' x' m a l2 (pos dp') (pos dp));
        try eassumption. lia.
  - destruct m as [|a0 m].
    + rewrite app_nil_r in E2. subst l1'. simpl in E3. injection E3 as <- <-.
      destruct dp as [bp pp], dp' as [bp' pp']. simpl in *.
      f_equal; [congruence|lia].
    + simpl in E3. injection E3 as <- E3. subst l1'.
      exfalso. eapply (Hlt l1 a l2 x m a' l2' (pos dp) (pos dp'));
        try eassumption. lia.
Qed.

(* dpointer_move_back(dp, n) from offset [j]: it fails its assertion when
   fewer than [n] separators precede the cursor, and else stops at the
   record boundary with exactly [n] separators between it and [j]. *)
Lemma dpointer_move_back_offset sep : forall (j : nat) dp n fuel,
  at_offset h l dp (Z.of_nat j) -> (j < fuel)%nat -> 0 <= n ->
  (count_separators sep (take j (held h l)) < n ->
   dpointer_move_back fuel h sep dp n = Aborted)
  /\ (n <= count_separators sep (take j (held h l)) ->
      exists dp' j',
        dpointer_move_back fuel h sep dp n = Done dp'
        /\ at_offset h l dp' (Z.of_nat j')
        /\ (j' <= j)%nat
        /\ boundary sep (held h l) j'
        /\ count_separators sep (take (j - j') (drop j' (held h l))) = n).
Proof.
  induction j as [|j IH]; intros dp n fuel Hat Hfuel Hn.
  - destruct fuel as [|fuel]; [lia|].
    destruct (dpointer_decrement_offset dp 0 Hat) as [_ Hdec].
    cbn [dpointer_move_back]. rewrite (Hdec eq_refl). simpl.
    rewrite take_0, count_separators_nil.
    destruct (n - 1 =? -1) eqn:E.
    + apply Z.eqb_eq in E. split; [intros; lia|]. intros _.
      exists dp, O. split; [reflexivity|]. split; [exact Hat|].
      split; [lia|]. split; [left; reflexivity|].
      rewrite take_0, count_separators_nil. lia.
    + apply Z.eqb_neq in E. split; [reflexivity|]. intros; lia.
  - destruct fuel as [|fuel]; [lia|].
    destruct (dpointer_decrement_offset dp (Z.of_nat (S j)) Hat) as [Hdec _].
    destruct (Hdec ltac:(lia)) as (dp1 & Hd1 & Hat1).
    replace (Z.of_nat (S j) - 1) with (Z.of_nat j) in Hat1 by lia.
    pose proof (at_offset_range _ _ Hat) as Hr.
    destruct (byte_at_offset dp1 _ Hat1 ltac:(lia)) as (c & Hc & HSc).
    rewrite Nat2Z.id in HSc.
    cbn [dpointer_move_back]. rewrite Hd1. simpl. rewrite Hc. simpl.
    rewrite (take_S_r _ _ _ HSc), count_separators_app, count_separators_one.
    pose proof (count_separators_nonneg sep (take j (held h l))) as Hnn.
    assert (Hseg : forall j', (j' <= j)%nat ->
              count_separators sep (take (S j - j') (drop j' (held h l)))
              = count_separators sep (take (j - j') (drop j' (held h l)))
                + (if Ascii.eqb c sep then 1 else 0)).
    { intros j' Hle. replace (S j - j')%nat with (S (j - j')) by lia.
      rewrite (take_S_r _ _ c), count_separators_app, count_separators_one;
        [reflexivity|].
      rewrite lookup_drop. replace (j' + (j - j'))%nat with j by lia.
      exact HSc. }
    destruct (Ascii.eqb c sep) eqn:Ec.
    + destruct (n - 1 =? -1) eqn:E.
      * apply Z.eqb_eq in E.
        destruct (dpointer_increment_offset dp1 _ Hat1 ltac:(lia))
          as (more & dp' & Hinc & Hat' & _).
        rewrite Hinc. simpl. split; [intros; lia|]. intros _.
        exists dp', (S j). split; [reflexivity|].
        split; [replace (Z.of_nat (S j)) with (Z.of_nat j + 1) by lia;
                exact Hat'|].
        split; [lia|]. split.
        { right. exists j. split; [reflexivity|].
          apply Ascii.eqb_eq in Ec. subst c. exact HSc. }
        rewrite Nat.sub_diag, take_0, count_separators_nil. lia.
      * apply Z.eqb_neq in E.
        destruct (IH dp1 (n - 1) fuel Hat1 ltac:(lia) ltac:(lia))
          as [IHa IHd].
        split; [intros H; apply IHa; lia|]. intros H.
        destruct (IHd ltac:(lia)) as (dp' & j' & Hrun & Hat' & Hle & Hb & Hct).
        exists dp', j'. split; [exact Hrun|]. split; [exact Hat'|].
        split; [lia|]. split; [exact Hb|].
        rewrite (Hseg j' Hle), Hct. lia.
    + destruct (IH dp1 n fuel Hat1 ltac:(lia) Hn) as [IHa IHd].
      split; [intros H; apply IHa; lia|]. intros H.
      destruct (IHd ltac:(lia)) as (dp' & j' & Hrun & Hat' & Hle & Hb & Hct).
      exists dp', j'. split; [exact Hrun|]. split; [exact Hat'|].
      split; [lia|]. split; [exact Hb|].
      rewrite (Hseg j' Hle), Hct. lia.
Qed.

Lemma dpointer_subtract_zero fuel dp n :
  n <= 0 -> dpointer_subtract fuel h dp n = Done dp.
Proof.
  intros Hn. destruct fuel; simpl;
    (destruct (n >? 0) eqn:E; [apply Z.gtb_lt in E; lia|reflexivity]).
Qed.

(* dpointer_subtract(dp, n) moves the cursor [n] bytes back, when that
   many bytes precede it. *)
Lemma dpointer_subtract_offset : forall (fuel : nat) l1 a l2 x dp n,
  l = l1 ++ a :: l2 -> b dp = Some a -> h !! a = Some x ->
  0 <= pos dp -> (pos dp < size x \/ (l2 = [] /\ pos dp = size x)) ->
  (length l1 < fuel)%nat ->
  0 <= n <= Z.of_nat (length (held h l1)) + pos dp ->
  exists dp',
    dpointer_subtract fuel h dp n = Done dp'
    /\ at_offset h l dp' (Z.of_nat (length (held h l1)) + pos dp - n).
Proof.
  induction fuel as [|fuel IH]; intros l1 a l2 x dp n El Hb Hx Hp0 Hp Hf Hn;
    [lia|].
  destruct (decide (n = 0)) as [->|Hn0].
  { exists dp. split; [apply dpointer_subtract_zero; lia|].
    exists l1, a, l2, x. repeat (split; [first [assumption|lia]|]).
    exact Hp. }
  cbn [dpointer_subtract].
  destruct (n >? 0) eqn:E; [|rewrite Z.gtb_ltb in E; apply Z.ltb_ge in E; lia].
  unfold at_pos. cbn [pos b].
  destruct (pos dp - Z.min (pos dp + 1 - 0) n =? -1) eqn:E1.
  - apply Z.eqb_eq in E1.
    assert (Hmin : Z.min (pos dp + 1 - 0) n = pos dp + 1) by lia.
    rewrite Hmin. rewrite Hb. simpl. rewrite Hx. simpl.
    pose proof Hlinks as Hl. rewrite El in Hl.
    rewrite (dchain_prev _ _ _ _ _ _ _ Hl Hx).
    destruct l1 as [|a0 l0] using rev_ind; [simpl in Hn; lia|].
    clear IHl0. rewrite last_snoc.
    rewrite <- app_assoc in El. simpl in El.
    destruct (queue_lookup a0) as [x0 Hx0].
    { rewrite El. apply elem_of_app. right. apply elem_of_cons. auto. }
    destruct (length_held_split _ _ _ _ El Hx0) as [E0 Hs0].
    pose proof (length_contents h a0 x0 Hx0) as Hc0.
    assert (Ha0 : a0 ∈ l)
      by (rewrite El; apply elem_of_app; right; apply elem_of_cons; auto).
    pose proof (Hdata a0 x0 Ha0 Hx0) as Hsz0.
    rewrite held_app, length_app in Hn |- *. simpl in Hn |- *.
    rewrite app_nil_r in Hn |- *.
    rewrite length_app in Hf. simpl in Hf.
    rewrite Hx0. simpl.
    destruct (IH l0 a0 (a :: l2) x0 {| b := Some a0; pos := size x0 - 1 |}
                (n - (pos dp + 1)) El eq_refl Hx0)
      as (dp' & Hrun & Hat); simpl; try lia.
    exists dp'. split; [exact Hrun|].
    replace (Z.of_nat (length (held h l0) + length (contents h a0))
             + pos dp - n)
      with (Z.of_nat (length (held h l0)) + (size x0 - 1)
            - (n - (pos dp + 1))) by lia.
    exact Hat.
  - apply Z.eqb_neq in E1.
    assert (Hmin : Z.min (pos dp + 1 - 0) n = n) by lia.
    rewrite Hmin, Z.sub_diag.
    eexists. split; [apply dpointer_subtract_zero; lia|].
    exists l1, a, l2, x. simpl.
    split; [exact El|]. split; [exact Hb|]. split; [exact Hx|].
    split; [lia|]. split; [lia|]. left. destruct Hp as [Hp|[_ Hp]]; lia.
Qed.

End Cursors.

(* The loops that go back byte by byte or buffer by buffer end within
   byte_fuel steps. *)
Lemma held_fold l : forall h p,
  chain h p l ->
  (length (held h l) + length l
   <= map_fold (fun _ x acc => (acc + Z.to_nat (size x) + 1)%nat) O h)%nat.
Proof.
  induction l as [|a l IH]; intros h p Hch; [simpl; lia|].
  pose proof (chain_NoDup _ _ _ Hch) as Hnd.
  apply NoDup_cons in Hnd as [Hnotin _].
  simpl in Hch. destruct Hch as (-> & x & Hx & Hch).
  rewrite (map_fold_delete_L _ _ a x h); [|intros; lia|exact Hx].
  assert (Hch' : chain (delete a h) (next x) l).
  { apply chain_agree with (h := h); [|exact Hch].
    intros k Hk. apply lookup_delete_ne. intros ->. contradiction. }
  specialize (IH _ _ Hch').
  assert (Hh : held (delete a h) l = held h l).
  { apply held_agree. intros k Hk. apply contents_agree.
    apply lookup_delete_ne. intros ->. contradiction. }
  rewrite Hh in IH. simpl. rewrite length_app. unfold contents at 1.
  rewrite Hx, length_take. lia.
Qed.

Lemma byte_fuel_enough h l p :
  chain h p l ->
  (length (held h l) < byte_fuel h)%nat /\ (length l < byte_fuel h)%nat.
Proof.
  intros Hch. pose proof (held_fold l h p Hch). unfold byte_fuel. lia.
Qed.

(** *** The bytes between two cursors *)

Lemma span_bytes_cons h a l' f u :
  l' ≠ [] ->
  span_bytes h (a :: l') f u
  = drop (Z.to_nat f) (contents h a) ++ span_bytes h l' 0 u.
Proof. destruct l'; [contradiction|reflexivity]. Qed.

Lemma span_bytes_snoc h m a u :
  span_bytes h (m ++ [a]) 0 u = held h m ++ take (Z.to_nat u) (contents h a).
Proof.
  induction m as [|a0 m IH].
  - simpl. rewrite Z.sub_0_r. reflexivity.
  - change ((a0 :: m) ++ [a]) with (a0 :: (m ++ [a])).
    rewrite span_bytes_cons by (destruct m; discriminate).
    rewrite IH. simpl. rewrite app_assoc. reflexivity.
Qed.

(* A heap that agrees with [h] on the next pointers, the sizes and the
   data of the buffers of a response holds the same response. *)
Lemma sending_agree h h' c l post :
  sending h c l post ->
  (forall k x, k ∈ l ++ post -> h !! k = Some x ->
     exists x', h' !! k = Some x' /\ next x' = next x
                /\ size x' = size x /\ data x' = data x) ->
  sending h' c l post
  /\ span_bytes h' l (pos (write_begin c)) (pos (write_end c))
     = span_bytes h l (pos (write_begin c)) (pos (write_end c)).
Proof.
  intros [Hch Hend Hsz Hfrom Hupto Hsingle Hne] Hag.
  assert (Hback : forall k x', k ∈ l ++ post -> h' !! k = Some x' ->
            exists x, h !! k = Some x /\ next x' = next x
                      /\ size x' = size x /\ data x' = data x).
  { intros k x' Hk Hx'.
    destruct (chain_lookup _ _ _ _ Hch Hk) as [x Hx].
    destruct (Hag k x Hk Hx) as (x'' & Hx'' & E).
    rewrite Hx' in Hx''. injection Hx'' as <-. eauto. }
  assert (Hcont : forall k, k ∈ l ++ post -> contents h' k = contents h k).
  { intros k Hk. destruct (chain_lookup _ _ _ _ Hch Hk) as [x Hx].
    destruct (Hag k x Hk Hx) as (x' & Hx' & _ & Es & Ed).
    unfold contents. rewrite Hx, Hx', Es, Ed. reflexivity. }
  split.
  - split; try assumption.
    + clear Hend Hsz Hfrom Hupto Hsingle Hne Hback Hcont.
      revert Hch Hag. generalize (b (write_begin c)). generalize (l ++ post).
      intros q. induction q as [|a q IH]; intros bp Hch Hag; simpl in *;
        [exact Hch|].
      destruct Hch as (-> & x & Hx & Hch). split; [reflexivity|].
      destruct (Hag a x ltac:(apply elem_of_cons; left; reflexivity) Hx)
        as (x' & Hx' & En & _).
      exists x'. split; [exact Hx'|]. rewrite En. apply IH; [exact Hch|].
      intros k y Hk. apply Hag. apply elem_of_cons. right. exact Hk.
    + intros a x' Ha Hx'.
      destruct (Hback a x' ltac:(apply elem_of_app; left; exact Ha) Hx')
        as (x & Hx & _ & Es & Ed).
      rewrite Es, Ed. exact (Hsz a x Ha Hx).
    + intros a x' Ha Hx'.
      destruct (Hback a x'
                  ltac:(apply elem_of_app; left;
                        exact (list_elem_of_lookup_2 _ _ _ Ha)) Hx')
        as (x & Hx & _ & Es & Ed).
      rewrite Es. exact (Hfrom a x Ha Hx).
    + intros a x' Ha Hx'.
      destruct (Hback a x'
                  ltac:(apply elem_of_app; left;
                        exact (last_Some_elem_of _ _ Ha)) Hx')
        as (x & Hx & _ & Es & Ed).
      rewrite Es. exact (Hupto a x Ha Hx).
  - assert (Hl : forall k, k ∈ l -> contents h' k = contents h k)
      by (intros k Hk; apply Hcont; apply elem_of_app; left; exact Hk).
    clear - Hl. generalize (pos (write_begin c)).
    induction l as [|a l IH]; intros f; [reflexivity|].
    destruct l as [|a1 l].
    + simpl. rewrite Hl by (apply elem_of_cons; left; reflexivity).
      reflexivity.
    + rewrite !(span_bytes_cons _ a (a1 :: l)) by discriminate.
      rewrite Hl by (apply elem_of_cons; left; reflexivity).
      rewrite IH; [reflexivity|].
      intros k Hk. apply Hl. apply elem_of_cons. right. exact Hk.
Qed.

(* Two cursors into the queue delimit a response: the bytes between their
   offsets. *)
Lemma span_between h l p c kb ke :
  dchain h None p l -> holds_data h l ->
  at_offset h l (write_begin c) kb -> at_offset h l (write_end c) ke ->
  kb <= ke ->
  exists l0 lr post,
    l = l0 ++ lr ++ post
    /\ sending h c lr post
    /\ span_bytes h lr (pos (write_begin c)) (pos (write_end c))
       = take (Z.to_nat (ke - kb)) (drop (Z.to_nat kb) (held h l)).
Proof.
  intros Hlinks Hdata
    (l1 & a & l2 & x & El & Hb & Hx & Hk & Hp0 & Hp)
    (l1' & a' & l2' & x' & El' & Hb' & Hx' & Hk' & Hp0' & Hp') Hle.
  pose proof (dchain_chain _ _ _ _ Hlinks) as Hch.
  assert (Hsize : forall k y, k ∈ l -> h !! k = Some y ->
            0 <= size y <= Z.of_nat (length (data y))
            /\ Z.of_nat (length (contents h k)) = size y).
  { intros k y Hkin Hy. pose proof (Hdata k y Hkin Hy).
    pose proof (length_contents h k y Hy). lia. }
  assert (Ha : a ∈ l)
    by (rewrite El; apply elem_of_app; right; apply elem_of_cons; auto).
  assert (Ha' : a' ∈ l)
    by (rewrite El'; apply elem_of_app; right; apply elem_of_cons; auto).
  destruct (Hsize a x Ha Hx) as [Hsx Hcx].
  destruct (Hsize a' x' Ha' Hx') as [Hsx' Hcx'].
  pose proof El' as E2. rewrite El in E2.
  apply app_eq_inv in E2 as [(m & E2 & E3)|(m & E2 & E3)].
  - destruct m as [|a0 m].
    + (* both cursors in the same buffer *)
      rewrite app_nil_r in E2. subst l1'. simpl in E3. injection E3 as -> ->.
      assert (x' = x) by congruence. subst x'.
      exists l1, [a], l2. split; [exact El|]. split.
      * split.
        -- rewrite Hb. simpl. rewrite El in Hch.
           apply chain_suffix in Hch. exact Hch.
        -- rewrite Hb'. reflexivity.
        -- intros k y Hkin Hy. apply list_elem_of_singleton in Hkin.
           subst k. apply (Hsize a y Ha Hy).
        -- intros k y Hkin Hy. injection Hkin as <-.
           assert (y = x) by congruence. subst y.
           destruct Hp as [Hp|[_ Hp]]; lia.
        -- intros k y Hkin Hy. injection Hkin as <-.
           assert (y = x) by congruence. subst y.
           destruct Hp' as [Hp'|[_ Hp']]; lia.
        -- intros k _. lia.
        -- discriminate.
      * simpl. rewrite El, held_app. simpl.
        rewrite drop_app_ge by lia.
        replace (Z.to_nat kb - length (held h l1))%nat
          with (Z.to_nat (pos (write_begin c))) by lia.
        rewrite drop_app_le by lia.
        rewrite take_app_le by (rewrite length_drop; lia).
        f_equal. lia.
    + (* the end comes first: impossible *)
      simpl in E3. injection E3 as <- E3. subst l1 l2'.
      exfalso. rewrite held_app in Hk. simpl in Hk.
      rewrite !length_app in Hk.
      destruct Hp' as [Hp'|[Hp' _]]; [lia|destruct m; discriminate Hp'].
  - destruct m as [|a0 m].
    + rewrite app_nil_r in E2. subst l1'. simpl in E3. injection E3 as <- <-.
      assert (x' = x) by congruence. subst x'.
      exists l1, [a], l2. split; [exact El|]. split.
      * split.
        -- rewrite Hb. simpl. rewrite El in Hch.
           apply chain_suffix in Hch. exact Hch.
        -- rewrite Hb'. reflexivity.
        -- intros k y Hkin Hy. apply list_elem_of_singleton in Hkin.
           subst k. apply (Hsize a y Ha Hy).
        -- intros k y Hkin Hy. injection Hkin as <-.
           assert (y = x) by congruence. subst y.
           destruct Hp as [Hp|[_ Hp]]; lia.
        -- intros k y Hkin Hy. injection Hkin as <-.
           assert (y = x) by congruence. subst y.
           destruct Hp' as [Hp'|[_ Hp']]; lia.
        -- intros k _. lia.
        -- discriminate.
      * simpl. rewrite El, held_app. simpl.
        rewrite drop_app_ge by lia.
        replace (Z.to_nat kb - length (held h l1))%nat
          with (Z.to_nat (pos (write_begin c))) by lia.
        rewrite drop_app_le by lia.
        rewrite take_app_le by (rewrite length_drop; lia).
        f_equal. lia.
    + (* the response runs from buffer a to a later buffer a' *)
      simpl in E3. injection E3 as <- E3. subst l1' l2.
      assert (Hpx : pos (write_begin c) < size x)
        by (destruct Hp as [Hp|[Hp _]]; [exact Hp|destruct m; discriminate]).
      exists l1, (a :: m ++ [a']), l2'.
      assert (El2 : l = l1 ++ (a :: m ++ [a']) ++ l2').
      { rewrite El. simpl. rewrite <- app_assoc. reflexivity. }
      split; [exact El2|]. split.
      * split.
        -- rewrite Hb. rewrite El2 in Hch.
           change ((a :: m ++ [a']) ++ l2') with (a :: ((m ++ [a']) ++ l2'))
             in Hch |- *.
           apply chain_suffix in Hch. exact Hch.
        -- rewrite Hb'. change (a :: m ++ [a']) with ((a :: m) ++ [a']).
           rewrite last_snoc. reflexivity.
        -- intros k y Hkin Hy. apply (Hsize k y); [|exact Hy].
           rewrite El2. apply elem_of_app. right. apply elem_of_app. left.
           exact Hkin.
        -- intros k y Hkin Hy. injection Hkin as <-.
           assert (y = x) by congruence. subst y. lia.
        -- intros k y Hkin Hy.
           change (a :: m ++ [a']) with ((a :: m) ++ [a']) in Hkin.
           rewrite last_snoc in Hkin. injection Hkin as <-.
           assert (y = x') by congruence. subst y.
           destruct Hp' as [Hp'|[_ Hp']]; lia.
        -- intros k Hkk. exfalso. injection Hkk as _ Hkk.
           destruct m; discriminate Hkk.
        -- discriminate.
      * rewrite span_bytes_cons by (destruct m; discriminate).
        rewrite span_bytes_snoc.
        rewrite held_app in Hk'. simpl in Hk'. rewrite !length_app in Hk'.
        rewrite El, !held_app. simpl. rewrite held_app. simpl.
        rewrite drop_app_ge by lia.
        replace (Z.to_nat kb - length (held h l1))%nat
          with (Z.to_nat (pos (write_begin c))) by lia.
        rewrite drop_app_le by lia.
        rewrite take_app_ge by (rewrite length_drop; lia).
        f_equal.
        rewrite length_drop.
        rewrite take_app_ge by lia.
        f_equal.
        rewrite take_app_le by lia.
        f_equal. lia.
Qed.

(** *** Moving a cursor *)

Lemma take_split {A} (d : list A) : forall i j,
  (i <= j)%nat -> take j d = take i d ++ take (j - i) (drop i d).
Proof.
  induction d as [|c d IH]; intros i j Hij.
  - rewrite drop_nil, !take_nil. reflexivity.
  - destruct i as [|i]; [rewrite Nat.sub_0_r; reflexivity|].
    destruct j as [|j]; [lia|]. simpl. f_equal. apply IH. lia.
Qed.

Lemma at_offset_in h l dp k :
  at_offset h l dp k -> exists a, b dp = Some a /\ a ∈ l.
Proof.
  intros (l1 & a & l2 & x & El & Hb & _). exists a. split; [exact Hb|].
  rewrite El. apply elem_of_app. right. apply elem_of_cons. auto.
Qed.

(** X20.  dpointer_increment and dpointer_decrement on a cursor at byte
    [k] of the data held in a doubly linked queue of non-empty buffers.
    If a byte is left, dpointer_increment moves the cursor to byte k + 1,
    crossing to the next buffer where needed, and returns true exactly
    when a byte is left there too; dpointer_decrement then gives the
    cursor back.  If a byte precedes, dpointer_decrement moves the cursor
    to byte k - 1 and returns true, and dpointer_increment then gives the
    cursor back.  At the first byte dpointer_decrement returns false and
    leaves the cursor. *)
Theorem dpointer_increment_decrement h l p dp k :
  dchain h None p l ->
  holds_data h l ->
  at_offset h l dp k ->
  (k < Z.of_nat (length (held h l)) ->
   exists more dp',
     dpointer_increment h dp = Done (more, dp')
     /\ at_offset h l dp' (k + 1)
     /\ (more = true <-> k + 1 < Z.of_nat (length (held h l)))
     /\ dpointer_decrement h dp' = Done (true, dp))
  /\ (0 < k ->
      exists dp',
        dpointer_decrement h dp = Done (true, dp')
        /\ at_offset h l dp' (k - 1)
        /\ exists more, dpointer_increment h dp' = Done (more, dp))
  /\ (k = 0 -> dpointer_decrement h dp = Done (false, dp)).
Proof.
  intros Hlinks Hdata Hat.
  pose proof (at_offset_range h l Hdata dp k Hat) as Hr.
  split; [|split].
  - intros Hlt.
    destruct (dpointer_increment_offset h l p Hlinks Hdata dp k Hat Hlt)
      as (more & dp' & Hinc & Hat' & Hmore).
    exists more, dp'. split; [exact Hinc|]. split; [exact Hat'|].
    split; [exact Hmore|].
    destruct (dpointer_decrement_offset h l p Hlinks Hdata dp' (k + 1) Hat')
      as [Hdec _].
    destruct (Hdec ltac:(lia)) as (dp'' & Hrun & Hat'').
    replace (k + 1 - 1) with k in Hat'' by lia.
    rewrite (at_offset_inj h l Hdata dp dp'' k Hat Hat''). exact Hrun.
  - intros Hpos.
    destruct (dpointer_decrement_offset h l p Hlinks Hdata dp k Hat)
      as [Hdec _].
    destruct (Hdec Hpos) as (dp' & Hrun & Hat').
    exists dp'. split; [exact Hrun|]. split; [exact Hat'|].
    destruct (dpointer_increment_offset h l p Hlinks Hdata dp' (k - 1) Hat'
                ltac:(lia)) as (more & dp'' & Hinc & Hat'' & _).
    replace (k - 1 + 1) with k in Hat'' by lia.
    exists more.
    rewrite (at_offset_inj h l Hdata dp dp'' k Hat Hat''). exact Hinc.
  - intros Hk.
    destruct (dpointer_decrement_offset h l p Hlinks Hdata dp k Hat)
      as [_ Hdec].
    exact (Hdec Hk).
Qed.

(** X21.  dpointer_move_back(dp, n), n >= 0, from byte [j] of the data
    held in the queue.  If fewer than n separators precede byte j the
    function runs into assert(0).  Otherwise it returns with the cursor at
    the start of a record (the first byte held, or the byte behind a
    separator), at or before byte j, with exactly n separators between the
    cursor and byte j. *)
Theorem dpointer_move_back_stops_at_boundary h l p sep dp (j : nat) n :
  dchain h None p l ->
  holds_data h l ->
  at_offset h l dp (Z.of_nat j) ->
  0 <= n ->
  (count_separators sep (take j (held h l)) < n ->
   dpointer_move_back (byte_fuel h) h sep dp n = Aborted)
  /\ (n <= count_separators sep (take j (held h l)) ->
      exists dp' j',
        dpointer_move_back (byte_fuel h) h sep dp n = Done dp'
        /\ at_offset h l dp' (Z.of_nat j')
        /\ (j' <= j)%nat
        /\ boundary sep (held h l) j'
        /\ count_separators sep (take (j - j') (drop j' (held h l))) = n).
Proof.
  intros Hlinks Hdata Hat Hn.
  pose proof (at_offset_range h l Hdata dp _ Hat) as Hr.
  destruct (byte_fuel_enough h l p (dchain_chain _ _ _ _ Hlinks)) as [Hf _].
  apply (dpointer_move_back_offset h l p Hlinks Hdata); try assumption.
  lia.
Qed.

Lemma dpointer_subtract_short h l p :
  dchain h None p l -> holds_data h l ->
  forall (fuel : nat) l1 a l2 x dp n,
  l = l1 ++ a :: l2 -> b dp = Some a -> h !! a = Some x ->
  0 <= pos dp -> (pos dp < size x \/ (l2 = [] /\ pos dp = size x)) ->
  (length l1 < fuel)%nat ->
  Z.of_nat (length (held h l1)) + pos dp < n ->
  dpointer_subtract fuel h dp n = Aborted.
Proof.
  intros Hlinks Hdata.
  induction fuel as [|fuel IH]; intros l1 a l2 x dp n El Hb Hx Hp0 Hp Hf Hn;
    [lia|].
  cbn [dpointer_subtract].
  destruct (n >? 0) eqn:E; [|rewrite Z.gtb_ltb in E; apply Z.ltb_ge in E; lia].
  unfold at_pos. cbn [pos b].
  assert (Hmin : Z.min (pos dp + 1 - 0) n = pos dp + 1) by lia.
  rewrite Hmin.
  destruct (pos dp - (pos dp + 1) =? -1) eqn:E1;
    [|apply Z.eqb_neq in E1; lia].
  rewrite Hb. simpl. rewrite Hx. simpl.
  pose proof Hlinks as Hl. rewrite El in Hl.
  rewrite (dchain_prev _ _ _ _ _ _ _ Hl Hx).
  destruct l1 as [|a0 l0] using rev_ind; [reflexivity|].
  clear IHl0. rewrite last_snoc.
  rewrite <- app_assoc in El. simpl in El.
  destruct (queue_lookup h l p Hlinks a0) as [x0 Hx0].
  { rewrite El. apply elem_of_app. right. apply elem_of_cons. auto. }
  destruct (length_held_split h l Hdata _ _ _ _ El Hx0) as [E0 Hs0].
  pose proof (length_contents h a0 x0 Hx0) as Hc0.
  assert (Ha0 : a0 ∈ l)
    by (rewrite El; apply elem_of_app; right; apply elem_of_cons; auto).
  pose proof (Hdata a0 x0 Ha0 Hx0) as Hsz0.
  rewrite held_app, length_app in Hn. simpl in Hn. rewrite app_nil_r in Hn.
  rewrite length_app in Hf. simpl in Hf.
  simpl. rewrite Hx0. simpl.
  apply (IH l0 a0 (a :: l2) x0); simpl; try assumption; try lia.
  reflexivity.
Qed.

(* dpointer_subtract within byte_fuel steps. *)
Lemma dpointer_subtract_at_offset h l p dp k n :
  dchain h None p l ->
  holds_data h l ->
  at_offset h l dp k ->
  0 <= n ->
  (n <= k ->
   exists dp', dpointer_subtract (byte_fuel h) h dp n = Done dp'
               /\ at_offset h l dp' (k - n))
  /\ (k < n -> dpointer_subtract (byte_fuel h) h dp n = Aborted).
Proof.
  intros Hlinks Hdata (l1 & a & l2 & x & El & Hb & Hx & Hk & Hp0 & Hp) Hn.
  destruct (byte_fuel_enough h l p (dchain_chain _ _ _ _ Hlinks)) as [_ Hf].
  assert (Hf1 : (length l1 < byte_fuel h)%nat).
  { rewrite El, length_app in Hf. lia. }
  subst k. split.
  - intros Hle.
    apply (dpointer_subtract_offset h l p Hlinks Hdata _ l1 a l2 x);
      try assumption. lia.
  - intros Hlt.
    apply (dpointer_subtract_short h l p Hlinks Hdata _ l1 a l2 x);
      assumption.
Qed.

(** X22.  dpointer_subtract(dp, n) from byte [k] of the data held in the
    queue: when at least n bytes precede the cursor it returns with the
    cursor at byte k - n; when fewer do, the assertion on b->prev
    fails. *)
Theorem dpointer_subtract_moves_back h l p dp k n :
  dchain h None p l ->
  holds_data h l ->
  at_offset h l dp k ->
  0 <= n ->
  (n <= k ->
   exists dp', dpointer_subtract (byte_fuel h) h dp n = Done dp'
               /\ at_offset h l dp' (k - n))
  /\ (k < n -> dpointer_subtract (byte_fuel h) h dp n = Aborted).
Proof. exact (dpointer_subtract_at_offset h l p dp k n). Qed.

Lemma dpointer_add_zero h fuel dp n :
  n <= 0 -> dpointer_add fuel h dp n = Done dp.
Proof.
  intros Hn. destruct fuel; simpl;
    (destruct (n >? 0) eqn:E; [apply Z.gtb_lt in E; lia|reflexivity]).
Qed.

Lemma dpointer_add_offset h l p :
  dchain h None p l -> holds_data h l ->
  forall (fuel : nat) l1 a l2 x dp n,
  l = l1 ++ a :: l2 -> b dp = Some a -> h !! a = Some x ->
  0 <= pos dp -> (pos dp < size x \/ (l2 = [] /\ pos dp = size x)) ->
  (length l2 < fuel)%nat ->
  0 < n ->
  let k := Z.of_nat (length (held h l1)) + pos dp in
  (k + n < Z.of_nat (length (held h l)) ->
   exists dp', dpointer_add fuel h dp n = Done dp'
               /\ at_offset h l dp' (k + n))
  /\ (Z.of_nat (length (held h l)) <= k + n ->
      dpointer_add fuel h dp n = Aborted).
Proof.
  intros Hlinks Hdata.
  induction fuel as [|fuel IH];
    intros l1 a l2 x dp n El Hb Hx Hp0 Hp Hf Hn k; [lia|].
  destruct (length_held_split h l Hdata _ _ _ _ El Hx) as [E Hs].
  cbn [dpointer_add].
  destruct (n >? 0) eqn:En; [|rewrite Z.gtb_ltb in En; apply Z.ltb_ge in En; lia].
  rewrite Hb. simpl deref. rewrite Hx.
  change (from_opt (Some x)) with (Done x). rewrite bind_Done_l.
  unfold at_pos. cbn [pos b].
  pose proof Hlinks as Hl. rewrite El in Hl.
  rewrite (dchain_next _ _ _ _ _ _ _ Hl Hx).
  destruct (pos dp + Z.min (size x - pos dp) n =? size x) eqn:E1.
  - apply Z.eqb_eq in E1.
    assert (Hmin : Z.min (size x - pos dp) n = size x - pos dp) by lia.
    rewrite Hmin.
    destruct l2 as [|a2 l2'].
    + simpl. simpl in E. split; [intros; unfold k in *; lia|reflexivity].
    + simpl.
      assert (El' : l = (l1 ++ [a]) ++ a2 :: l2')
        by (rewrite <- app_assoc; exact El).
      destruct (queue_lookup h l p Hlinks a2) as [y Hy].
      { rewrite El'. apply elem_of_app. right. apply elem_of_cons. auto. }
      destruct (length_held_split h l Hdata _ _ _ _ El' Hy) as [E2 Hs2].
      pose proof (length_contents h a x Hx) as Hc.
      assert (Ha : a ∈ l)
        by (rewrite El; apply elem_of_app; right; apply elem_of_cons; auto).
      pose proof (Hdata a x Ha Hx) as Hsz.
      assert (Hk2 : Z.of_nat (length (held h (l1 ++ [a])))
                    = Z.of_nat (length (held h l1)) + size x).
      { rewrite held_app, length_app. simpl. rewrite app_nil_r. lia. }
      destruct (decide (n - (size x - pos dp) = 0)) as [Hz|Hnz].
      * rewrite Hz, dpointer_add_zero by lia.
        split; [|intros; unfold k in *; lia]. intros _.
        eexists. split; [reflexivity|].
        exists (l1 ++ [a]), a2, l2', y. simpl.
        split; [exact El'|]. split; [reflexivity|]. split; [exact Hy|].
        split; [unfold k; lia|]. split; [lia|]. left. exact Hs2.
      * destruct (IH (l1 ++ [a]) a2 l2' y {| b := Some a2; pos := 0 |}
                    (n - (size x - pos dp)) El' eq_refl Hy
                    ltac:(simpl; lia) ltac:(left; simpl; exact Hs2)
                    ltac:(simpl in Hf; lia) ltac:(lia))
          as [IHd IHa].
        simpl in IHd, IHa. rewrite Hk2 in IHd, IHa.
        replace (Z.of_nat (length (held h l1)) + size x + 0
                 + (n - (size x - pos dp))) with (k + n) in IHd, IHa
          by (unfold k; lia).
        split; [exact IHd|exact IHa].
  - apply Z.eqb_neq in E1.
    assert (Hmin : Z.min (size x - pos dp) n = n) by lia.
    rewrite Hmin, Z.sub_diag, dpointer_add_zero by lia.
    assert (Hlt : pos dp + n < size x) by lia.
    split; [|intros; unfold k in *; lia]. intros _.
    eexists. split; [reflexivity|].
    exists l1, a, l2, x. simpl.
    split; [exact El|]. split; [exact Hb|]. split; [exact Hx|].
    split; [unfold k; lia|]. split; [lia|]. left. exact Hlt.
Qed.

(** X28.  dpointer_add(dp, n) from byte [k] of the data held in the
    queue.  With n <= 0 the cursor is left as it is.  With n > 0 the
    function returns the cursor at byte k + n when that byte is held in
    the queue; when k + n is at or behind the end of the data the
    assertion on b->next fails, also for the position just behind the
    last byte, which is where update_current_record places the end of the
    data. *)
Theorem dpointer_add_moves_forward h l p dp k n :
  dchain h None p l ->
  holds_data h l ->
  at_offset h l dp k ->
  (n <= 0 -> dpointer_add (byte_fuel h) h dp n = Done dp)
  /\ (0 < n -> k + n < Z.of_nat (length (held h l)) ->
      exists dp', dpointer_add (byte_fuel h) h dp n = Done dp'
                  /\ at_offset h l dp' (k + n))
  /\ (0 < n -> Z.of_nat (length (held h l)) <= k + n ->
      dpointer_add (byte_fuel h) h dp n = Aborted).
Proof.
  intros Hlinks Hdata (l1 & a & l2 & x & El & Hb & Hx & Hk & Hp0 & Hp).
  destruct (byte_fuel_enough h l p (dchain_chain _ _ _ _ Hlinks)) as [_ Hf].
  assert (Hf2 : (length l2 < byte_fuel h)%nat).
  { rewrite El, length_app in Hf. simpl in Hf. lia. }
  split; [apply dpointer_add_zero|].
  subst k. split; intros Hn;
    apply (dpointer_add_offset h l p Hlinks Hdata _ l1 a l2 x); assumption.
Qed.

(** *** The current record *)

(* The record pointers that update_current_record_by_rs and _by_rl set stay
   valid when free_unused_buffers has trimmed the queue: a client that is
   given them is sent the bytes that lay between them. *)
Lemma trimmed_response s l bg e kb ke :
  queue s l -> holds_data (bufs s) l ->
  at_offset (bufs s) l bg kb -> at_offset (bufs s) l e ke -> kb <= ke ->
  exists s',
    free_unused_buffers (set_have_record true (set_current_record bg e s))
    = Done s'
    /\ have_record s' = true
    /\ current_record_begin s' = bg
    /\ current_record_end s' = e
    /\ forall c, write_begin c = bg -> write_end c = e ->
         exists lr post,
           sending (bufs s') c lr post
           /\ span_bytes (bufs s') lr (pos (write_begin c))
                (pos (write_end c))
              = take (Z.to_nat (ke - kb))
                  (drop (Z.to_nat kb) (held (bufs s) l)).
Proof.
  intros Hq Hdata Hatb Hate Hle. pose proof Hq as [Hd Htl].
  set (s2 := set_have_record true (set_current_record bg e s)).
  assert (Hq2 : queue s2 l) by (split; assumption).
  destruct (at_offset_in _ _ _ _ Hatb) as (ab & Hab & Hin).
  destruct (free_unused_buffers_trims s2 l ab Hq2 Hab Hin)
    as (s' & freed & a & kept & x & Hrun & El & Hnf & Hq' & Hx & P2 & P3 & Es'
        & _).
  exists s'. split; [exact Hrun|].
  split; [rewrite Es'; reflexivity|].
  split; [rewrite Es'; reflexivity|].
  split; [rewrite Es'; reflexivity|].
  intros c Hwb Hwe.
  assert (Hatb' : at_offset (bufs s) l (write_begin c) kb)
    by (rewrite Hwb; exact Hatb).
  assert (Hate' : at_offset (bufs s) l (write_end c) ke)
    by (rewrite Hwe; exact Hate).
  destruct (span_between _ _ _ c kb ke Hd Hdata Hatb' Hate' Hle)
    as (l0 & lr & post & El2 & Hsend & Hspan).
  assert (Hkeep : forall k, k ∈ lr ++ post -> k ∈ a :: kept).
  { pose proof (sending_chain _ _ _ _ Hsend) as Hch.
    pose proof (sending_nonempty _ _ _ _ Hsend) as Hne.
    destruct lr as [|f lr']; [contradiction|].
    simpl in Hch. destruct Hch as (Hf & _).
    rewrite Hwb, Hab in Hf. injection Hf as <-.
    rewrite El in El2.
    destruct (split_before ab freed (a :: kept) l0 (lr' ++ post) El2 Hnf)
      as (m & _ & Em).
    intros k Hk. rewrite Em. apply elem_of_app. right. exact Hk. }
  destruct (sending_agree (bufs s) (bufs s') c lr post Hsend)
    as [Hsend' Hspan'].
  { intros k xk Hk Hxk. apply Hkeep in Hk.
    apply elem_of_cons in Hk as [->|Hk].
    - change (bufs s2) with (bufs s) in Hx. rewrite Hx in Hxk.
      injection Hxk as <-. eexists. split; [exact P2|]. simpl. auto.
    - exists xk. split; [|auto]. rewrite (P3 k Hk). exact Hxk. }
  exists lr, post. split; [exact Hsend'|]. rewrite Hspan'. exact Hspan.
Qed.

(* The three calls of dpointer_move_back in update_current_record_by_rs:
   where, in the bytes held, they leave the two record pointers. *)
Lemma update_current_record_by_rs_offsets o s l :
  queue s l ->
  holds_data (bufs s) l ->
  l ≠ [] ->
  0 <= record_rbegin o <= record_rend o ->
  let bytes := held (bufs s) l in
  (count_separators (rs o) bytes < record_rend o ->
   update_current_record_by_rs o s = Aborted)
  /\ (record_rend o <= count_separators (rs o) bytes ->
      exists bg e jb je,
        update_current_record_by_rs o s
        = free_unused_buffers
            (set_have_record true (set_current_record bg e s))
        /\ at_offset (bufs s) l bg (Z.of_nat jb)
        /\ at_offset (bufs s) l e (Z.of_nat je)
        /\ (jb <= je <= length bytes)%nat
        /\ boundary (rs o) bytes jb
        /\ boundary (rs o) bytes je
        /\ count_separators (rs o) (take (je - jb) (drop jb bytes))
           = record_rend o - record_rbegin o
        /\ count_separators (rs o) (drop je bytes) = record_rbegin o).
Proof.
  intros Hq Hdata Hne Hr bytes. pose proof Hq as [Hd Htl].
  pose proof (dchain_chain _ _ _ _ Hd) as Hch.
  destruct (last l) as [t|] eqn:Hlast;
    [|apply last_None in Hlast; contradiction].
  destruct (chain_lookup _ _ _ _ Hch (last_Some_elem_of _ _ Hlast))
    as [y Hy].
  destruct (byte_fuel_enough _ _ _ Hch) as [Hf _].
  pose proof (at_offset_end _ _ Hdata t y Hlast Hy) as Hat0.
  pose proof (count_separators_nonneg (rs o)) as Hnn.
  fold bytes in Hat0, Hf.
  (* Remove data that forms an incomplete record *)
  destruct (dpointer_move_back_offset _ _ _ Hd Hdata (rs o) (length bytes)
              _ 0 (byte_fuel (bufs s)) Hat0 Hf ltac:(lia)) as [_ H1].
  destruct (H1 (Hnn _)) as (e1 & j1 & Hrun1 & Hat1 & Hle1 & Hb1 & Hc1).
  fold bytes in Hb1, Hc1.
  rewrite take_ge in Hc1 by (rewrite length_drop; lia).
  assert (HS1 : count_separators (rs o) bytes
                = count_separators (rs o) (take j1 bytes)).
  { rewrite <- (take_drop j1 bytes) at 1.
    rewrite count_separators_app, Hc1. lia. }
  unfold update_current_record_by_rs, deref.
  rewrite Htl, Hy. change (from_opt (Some y)) with (Done y).
  rewrite bind_Done_l, Hrun1, bind_Done_l.
  (* Go back to the end of the specified record *)
  destruct (dpointer_move_back_offset _ _ _ Hd Hdata (rs o) j1 e1
              (record_rbegin o) (byte_fuel (bufs s)) Hat1 ltac:(lia)
              ltac:(lia)) as [H2a H2d].
  fold bytes in H2a, H2d.
  destruct (Z_lt_le_dec (count_separators (rs o) bytes) (record_rbegin o))
    as [Hfew|Hsome].
  { split; [|intros; lia]. intros _.
    rewrite (H2a ltac:(lia)). reflexivity. }
  destruct (H2d ltac:(lia)) as (e2 & j2 & Hrun2 & Hat2 & Hle2 & Hb2 & Hc2).
  rewrite Hrun2, bind_Done_l.
  assert (HS2 : count_separators (rs o) (take j1 bytes)
                = count_separators (rs o) (take j2 bytes)
                  + record_rbegin o).
  { rewrite (take_split bytes j2 j1 Hle2), count_separators_app, Hc2.
    reflexivity. }
  (* Go further back to the begin of the specified record *)
  destruct (dpointer_move_back_offset _ _ _ Hd Hdata (rs o) j2 e2
              (record_rend o - record_rbegin o) (byte_fuel (bufs s)) Hat2
              ltac:(lia) ltac:(lia)) as [H3a H3d].
  fold bytes in H3a, H3d.
  split.
  { intros Hlt. rewrite (H3a ltac:(lia)). reflexivity. }
  intros Hge.
  destruct (H3d ltac:(lia)) as (bg & j3 & Hrun3 & Hat3 & Hle3 & Hb3 & Hc3).
  rewrite Hrun3, bind_Done_l.
  exists bg, e2, j3, j2. split; [reflexivity|].
  split; [exact Hat3|]. split; [exact Hat2|].
  split; [lia|]. split; [exact Hb3|]. split; [exact Hb2|].
  split; [exact Hc3|].
  rewrite <- (take_drop (j1 - j2) (drop j2 bytes)).
  rewrite count_separators_app, Hc2, drop_drop.
  replace (j2 + (j1 - j2))%nat with j1 by lia. rewrite Hc1. lia.
Qed.

(** X23.  update_current_record_by_rs on a queue that holds the bytes
    [bytes], with 0 <= record_rbegin <= record_rend.  If [bytes] holds
    fewer than record_rend separators, dpointer_move_back runs into
    assert(0).  Otherwise the function returns with have_record set, and
    the current record is a stretch of [bytes] that begins and ends where
    a record begins (at the first byte held, or behind a separator), holds
    record_rend - record_rbegin separators and is followed by exactly
    record_rbegin more: with the default 0 and 1, the last complete
    record, its separator included.  Trimming the queue leaves these bytes
    in place: a client that is given the two pointers is sent exactly
    them. *)
Theorem update_current_record_by_rs_selects o s l :
  queue s l ->
  holds_data (bufs s) l ->
  l ≠ [] ->
  0 <= record_rbegin o <= record_rend o ->
  let bytes := held (bufs s) l in
  (count_separators (rs o) bytes < record_rend o ->
   update_current_record_by_rs o s = Aborted)
  /\ (record_rend o <= count_separators (rs o) bytes ->
      exists s' jb je,
        update_current_record_by_rs o s = Done s'
        /\ have_record s' = true
        /\ (jb <= je <= length bytes)%nat
        /\ boundary (rs o) bytes jb
        /\ boundary (rs o) bytes je
        /\ count_separators (rs o) (take (je - jb) (drop jb bytes))
           = record_rend o - record_rbegin o
        /\ count_separators (rs o) (drop je bytes) = record_rbegin o
        /\ forall c,
             write_begin c = current_record_begin s' ->
             write_end c = current_record_end s' ->
             exists lr post,
               sending (bufs s') c lr post
               /\ span_bytes (bufs s') lr (pos (write_begin c))
                    (pos (write_end c))
                  = take (je - jb) (drop jb bytes)).
Proof.
  intros Hq Hdata Hne Hr bytes.
  destruct (update_current_record_by_rs_offsets o s l Hq Hdata Hne Hr)
    as [Habort Hsel].
  split; [exact Habort|]. intros Hge.
  destruct (Hsel Hge)
    as (bg & e & jb & je & Hrun & Hatb & Hate & Hle & Hbb & Hbe & Hc & Ha).
  destruct (trimmed_response s l bg e (Z.of_nat jb) (Z.of_nat je)
              Hq Hdata Hatb Hate ltac:(lia))
    as (s' & Hfree & Hhave & Hcb & Hce & Hresp).
  exists s', jb, je. split; [rewrite Hrun; exact Hfree|].
  split; [exact Hhave|]. split; [exact Hle|]. split; [exact Hbb|].
  split; [exact Hbe|]. split; [exact Hc|]. split; [exact Ha|].
  intros c Hwb Hwe. rewrite Hcb in Hwb. rewrite Hce in Hwe.
  destruct (Hresp c Hwb Hwe) as (lr & post & Hs & Hsp).
  exists lr, post. split; [exact Hs|]. rewrite Hsp. fold bytes.
  f_equal; [lia|]. f_equal. lia.
Qed.

(* The three calls of dpointer_subtract in update_current_record_by_rl. *)
Lemma update_current_record_by_rl_offsets o s l t y :
  queue s l ->
  holds_data (bufs s) l ->
  tail s = Some t ->
  bufs s !! t = Some y ->
  0 < rl o ->
  0 <= byte_count y ->
  0 <= record_rbegin o <= record_rend o ->
  let bytes := held (bufs s) l in
  let je := Z.of_nat (length bytes) - Z.rem (byte_count y) (rl o)
            - record_rbegin o * rl o in
  let jb := je - (record_rend o - record_rbegin o) * rl o in
  (jb < 0 -> update_current_record_by_rl o s = Aborted)
  /\ (0 <= jb ->
      exists bg e,
        update_current_record_by_rl o s
        = free_unused_buffers
            (set_have_record true (set_current_record bg e s))
        /\ at_offset (bufs s) l bg jb
        /\ at_offset (bufs s) l e je).
Proof.
  intros Hq Hdata Ht Hy Hrl Hbc Hr bytes je jb. pose proof Hq as [Hd Htl].
  pose proof (dchain_chain _ _ _ _ Hd) as Hch.
  assert (Hlast : last l = Some t) by congruence.
  pose proof (at_offset_end _ _ Hdata t y Hlast Hy) as Hat0.
  fold bytes in Hat0.
  pose proof (Z.rem_bound_pos (byte_count y) (rl o) Hbc Hrl) as Hrem.
  assert (H2 : 0 <= record_rbegin o * rl o) by nia.
  assert (H3 : 0 <= (record_rend o - record_rbegin o) * rl o) by nia.
  unfold update_current_record_by_rl, deref.
  rewrite Ht, Hy. change (from_opt (Some y)) with (Done y).
  rewrite bind_Done_l.
  destruct (dpointer_subtract_at_offset _ _ _ _ _
              (Z.rem (byte_count y) (rl o)) Hd Hdata Hat0 ltac:(lia))
    as [S1d S1a].
  destruct (Z_lt_le_dec (Z.of_nat (length bytes))
              (Z.rem (byte_count y) (rl o))) as [Hs1|Hs1].
  { split; [|intros; lia]. intros _. rewrite (S1a Hs1). reflexivity. }
  destruct (S1d Hs1) as (e1 & Hrun1 & Hat1).
  rewrite Hrun1, bind_Done_l.
  destruct (dpointer_subtract_at_offset _ _ _ _ _
              (record_rbegin o * rl o) Hd Hdata Hat1 H2) as [S2d S2a].
  destruct (Z_lt_le_dec je 0) as [Hs2|Hs2].
  { split; [|intros; lia]. intros _.
    rewrite (S2a ltac:(unfold je in Hs2; lia)). reflexivity. }
  destruct (S2d ltac:(unfold je in Hs2; lia)) as (e2 & Hrun2 & Hat2).
  rewrite Hrun2, bind_Done_l.
  destruct (dpointer_subtract_at_offset _ _ _ _ _
              ((record_rend o - record_rbegin o) * rl o) Hd Hdata Hat2 H3)
    as [S3d S3a].
  split.
  { intros Hlt. rewrite (S3a ltac:(unfold jb, je in Hlt; lia)). reflexivity. }
  intros Hge.
  destruct (S3d ltac:(unfold jb, je in Hge; lia)) as (bg & Hrun3 & Hat3).
  rewrite Hrun3, bind_Done_l.
  exists bg, e2. split; [reflexivity|]. split; [exact Hat3|exact Hat2].
Qed.

(** X24.  update_current_record_by_rl on a queue that holds the bytes
    [bytes], with records of rl > 0 bytes and
    0 <= record_rbegin <= record_rend.  The current record ends
    record_rbegin records before the last record that is complete in the
    input (byte_count mod rl bytes of an incomplete record are left out)
    and is (record_rend - record_rbegin) * rl bytes long.  The function
    returns with have_record set when the queue still holds these bytes,
    and a client that is given the two pointers is sent exactly them; when
    the queue does not reach back that far, the assertion of
    dpointer_subtract fails. *)
Theorem update_current_record_by_rl_selects o s l t y :
  queue s l ->
  holds_data (bufs s) l ->
  tail s = Some t ->
  bufs s !! t = Some y ->
  0 < rl o ->
  0 <= byte_count y ->
  0 <= record_rbegin o <= record_rend o ->
  let bytes := held (bufs s) l in
  let je := Z.of_nat (length bytes) - Z.rem (byte_count y) (rl o)
            - record_rbegin o * rl o in
  let jb := je - (record_rend o - record_rbegin o) * rl o in
  (jb < 0 -> update_current_record_by_rl o s = Aborted)
  /\ (0 <= jb ->
      exists s',
        update_current_record_by_rl o s = Done s'
        /\ have_record s' = true
        /\ forall c,
             write_begin c = current_record_begin s' ->
             write_end c = current_record_end s' ->
             exists lr post,
               sending (bufs s') c lr post
               /\ span_bytes (bufs s') lr (pos (write_begin c))
                    (pos (write_end c))
                  = take (Z.to_nat ((record_rend o - record_rbegin o) * rl o))
                      (drop (Z.to_nat jb) bytes)).
Proof.
  intros Hq Hdata Ht Hy Hrl Hbc Hr bytes je jb.
  destruct (update_current_record_by_rl_offsets o s l t y Hq Hdata Ht Hy
              Hrl Hbc Hr) as [Habort Hsel].
  split; [exact Habort|]. intros Hge.
  destruct (Hsel Hge) as (bg & e & Hrun & Hatb & Hate).
  assert (H3 : 0 <= (record_rend o - record_rbegin o) * rl o) by nia.
  destruct (trimmed_response s l bg e _ _ Hq Hdata Hatb Hate ltac:(lia))
    as (s' & Hfree & Hhave & Hcb & Hce & Hresp).
  exists s'. split; [rewrite Hrun; exact Hfree|]. split; [exact Hhave|].
  intros c Hwb Hwe. rewrite Hcb in Hwb. rewrite Hce in Hwe.
  destruct (Hresp c Hwb Hwe) as (lr & post & Hs & Hsp).
  exists lr, post. split; [exact Hs|]. rewrite Hsp. fold bytes.
  unfold jb, je. f_equal. lia.
Qed.

(** *** New connections *)

Lemma get_free_client_from_busy s : forall todo i,
  (i + todo <= length (clients s))%nat ->
  (forall c, c ∈ clients s -> state c ≠ s_inactive) ->
  get_free_client_from s i todo = ([Complaint], Exited 1).
Proof.
  induction todo as [|todo IH]; intros i Hlen Hbusy; [reflexivity|].
  simpl. destruct (lookup_lt_is_Some_2 (clients s) i ltac:(lia)) as [c Hc].
  rewrite Hc. destruct (decide (state c = s_inactive)) as [E|_].
  - exfalso. exact (Hbusy c (list_elem_of_lookup_2 _ _ _ Hc) E).
  - apply IH; [lia|exact Hbusy].
Qed.

Lemma get_free_client_from_first s i c : forall todo i0,
  clients s !! i = Some c -> state c = s_inactive ->
  (forall j cj, (i0 <= j < i)%nat -> clients s !! j = Some cj ->
                state cj ≠ s_inactive) ->
  (i0 <= i < i0 + todo)%nat ->
  get_free_client_from s i0 todo = ([], Done i).
Proof.
  induction todo as [|todo IH]; intros i0 Hc Hs Hbusy Hi; [lia|].
  simpl. destruct (decide (i0 = i)) as [->|Hne].
  - rewrite Hc. rewrite decide_True by exact Hs. reflexivity.
  - destruct (lookup_lt_is_Some_2 (clients s) i0) as [c0 Hc0].
    { apply lookup_lt_Some in Hc. lia. }
    rewrite Hc0. rewrite decide_False by (apply (Hbusy i0); [lia|exact Hc0]).
    apply IH; try assumption; [|lia].
    intros j cj Hj. apply Hbusy. lia.
Qed.

(** X25.  A new connection.  When accept fails with an error other than
    EAGAIN the process exits with status 5.  Otherwise, with the 64
    entries of clients all in use, get_free_client complains and the
    process exits with status 1; and else the first entry in state
    s_inactive is taken: if one of the two fcntl calls of non_block fails
    the process exits with status 2, and if not that entry gets the new
    descriptor and the state s_read_command, its write pointers and the
    other entries being left as they are.  This is also what happens when
    accept has returned -1 with EAGAIN: the entry is then given the
    descriptor -1. *)
Theorem accept_connection_takes_first_free rsock errno flags set s :
  length (clients s) = MAX_CLIENTS ->
  (rsock = -1 -> errno ≠ EAGAIN ->
   accept_connection rsock errno flags set s = ([], Exited 5))
  /\ (rsock ≠ -1 \/ errno = EAGAIN ->
      ((forall c, c ∈ clients s -> state c ≠ s_inactive) ->
       accept_connection rsock errno flags set s = ([Complaint], Exited 1))
      /\ (forall i c,
            clients s !! i = Some c -> state c = s_inactive ->
            (forall j cj, (j < i)%nat -> clients s !! j = Some cj ->
                          state cj ≠ s_inactive) ->
            accept_connection rsock errno flags set s
            = ([], if (flags <? 0) || (set <? 0) then Exited 2
                   else Done (put_client i
                                {| fd := rsock;
                                   write_begin := write_begin c;
                                   write_end := write_end c;
                                   state := s_read_command |} s)))).
Proof.
  intros Hlen. unfold accept_connection. split.
  - intros -> Herr. apply Z.eqb_neq in Herr. rewrite Herr. reflexivity.
  - intros Hok.
    assert (Htest : (rsock =? -1) && negb (errno =? EAGAIN) = false).
    { destruct Hok as [Hr| ->].
      - apply Z.eqb_neq in Hr. rewrite Hr. reflexivity.
      - rewrite Z.eqb_refl. apply andb_false_r. }
    rewrite Htest. unfold get_free_client. split.
    + intros Hbusy.
      rewrite (get_free_client_from_busy s MAX_CLIENTS 0
                 ltac:(rewrite Hlen; simpl; lia) Hbusy).
      reflexivity.
    + intros i c Hc Hs Hbusy.
      rewrite (get_free_client_from_first s i c MAX_CLIENTS 0 Hc Hs).
      * simpl. unfold non_block.
        destruct (flags <? 0); [reflexivity|].
        destruct (set <? 0); [reflexivity|].
        simpl. rewrite Hc. reflexivity.
      * intros j cj Hj. apply Hbusy. lia.
      * apply lookup_lt_Some in Hc. rewrite Hlen in Hc. lia.
Qed.

(** *** The record served, in terms of the whole input *)

(* The stretch [jb, je) of [input] is made of the records record_rbegin to
   record_rend, counted back from the last complete one: it begins and
   ends where a record begins, holds record_rend - record_rbegin
   separators, and record_rbegin separators follow it. *)
Definition selected (o : options) (input : list ascii) (jb je : nat) : Prop :=
  (jb <= je <= length input)%nat
  /\ boundary (rs o) input jb
  /\ boundary (rs o) input je
  /\ count_separators (rs o) (take (je - jb) (drop jb input))
     = record_rend o - record_rbegin o
  /\ count_separators (rs o) (drop je input) = record_rbegin o.

(* The number of separators in [bytes] from position i up to position j. *)
Definition seg (sep : ascii) (bytes : list ascii) (i j : nat) : Z :=
  count_separators sep (take (j - i) (drop i bytes)).

Lemma seg_nonneg sep bytes i j : 0 <= seg sep bytes i j.
Proof. apply count_separators_nonneg. Qed.

Lemma seg_split sep bytes i j k :
  (i <= j <= k)%nat ->
  seg sep bytes i k = seg sep bytes i j + seg sep bytes j k.
Proof.
  intros H. unfold seg.
  rewrite (take_split (drop i bytes) (j - i) (k - i)) by lia.
  rewrite count_separators_app, drop_drop.
  replace (i + (j - i))%nat with j by lia.
  replace (k - i - (j - i))%nat with (k - j)%nat by lia. reflexivity.
Qed.

Lemma seg_sep sep bytes i j q :
  bytes !! q = Some sep -> (i <= q < j)%nat -> 1 <= seg sep bytes i j.
Proof.
  intros Hq Hr.
  rewrite (seg_split sep bytes i q j) by lia.
  rewrite (seg_split sep bytes q (S q) j) by lia.
  pose proof (seg_nonneg sep bytes i q). pose proof (seg_nonneg sep bytes (S q) j).
  assert (seg sep bytes q (S q) = 1); [|lia].
  unfold seg. replace (S q - q)%nat with 1%nat by lia.
  rewrite (take_S_r _ 0 sep) by (rewrite lookup_drop, Nat.add_0_r; exact Hq).
  rewrite take_0. simpl. rewrite count_separators_one, Ascii.eqb_refl.
  reflexivity.
Qed.

Lemma seg_app_l sep bytes more i j :
  (j <= length bytes)%nat ->
  seg sep (bytes ++ more) i j = seg sep bytes i j.
Proof.
  intros H. unfold seg. destruct (decide (i <= j)%nat) as [Hij|Hij].
  - rewrite drop_app_le by lia. rewrite take_app_le; [reflexivity|].
    rewrite length_drop. lia.
  - replace (j - i)%nat with 0%nat by lia. rewrite !take_0. reflexivity.
Qed.

Lemma seg_shift sep front bytes i j :
  seg sep (front ++ bytes) (length front + i) (length front + j)
  = seg sep bytes i j.
Proof.
  unfold seg. rewrite drop_app_add.
  replace (length front + j - (length front + i))%nat with (j - i)%nat by lia.
  reflexivity.
Qed.

Lemma seg_all sep bytes j :
  count_separators sep (drop j bytes) = seg sep bytes j (length bytes).
Proof.
  unfold seg. rewrite take_ge; [reflexivity|]. rewrite length_drop. lia.
Qed.

Lemma seg_whole sep bytes :
  count_separators sep bytes = seg sep bytes 0 (length bytes).
Proof. rewrite <- seg_all. reflexivity. Qed.

Lemma boundary_app sep bytes more j :
  (j <= length bytes)%nat ->
  boundary sep bytes j -> boundary sep (bytes ++ more) j.
Proof.
  intros Hj [->|(i & -> & Hi)]; [left; reflexivity|].
  right. exists i. split; [reflexivity|].
  rewrite lookup_app_l by lia. exact Hi.
Qed.

Lemma boundary_shift sep front bytes j :
  boundary sep bytes (S j) ->
  boundary sep (front ++ bytes) (length front + S j).
Proof.
  intros [E|(i & E & Hi)]; [discriminate E|]. injection E as <-.
  right. exists (length front + j)%nat. split; [lia|].
  rewrite lookup_app_r by lia.
  replace (length front + j - length front)%nat with j by lia. exact Hi.
Qed.

Lemma selected_count o input jb je :
  selected o input jb je ->
  record_rend o <= count_separators (rs o) (drop jb input).
Proof.
  intros (Hr & _ & _ & Hc & Ha).
  rewrite seg_all in Ha |- *.
  rewrite (seg_split _ _ jb je (length input)) by lia.
  unfold seg at 1. lia.
Qed.

Lemma update_current_record_unfold o s t x :
  tail s = Some t -> bufs s !! t = Some x ->
  update_current_record o s
  = if record_count x - record_rend o <? 0 then Done s
    else if rl o =? 0 then update_current_record_by_rs o s
         else update_current_record_by_rl o s.
Proof.
  intros Ht Hx. unfold update_current_record, deref. rewrite Ht, Hx.
  rewrite bool_decide_eq_true_2 by discriminate. reflexivity.
Qed.

(* A cursor into a buffer that is not among the first buffers [freed] of
   the queue is behind their bytes. *)
Lemma at_offset_after h freed l' dp k ab :
  at_offset h (freed ++ l') dp k -> b dp = Some ab -> ab ∉ freed ->
  Z.of_nat (length (held h freed)) <= k.
Proof.
  intros (l1 & a & l2 & x & El & Hb & Hx & Hk & Hp0 & Hp) Hab Hnf.
  assert (a = ab) by congruence. subst a.
  destruct (split_before ab freed l' l1 l2 El Hnf) as (m & -> & _).
  rewrite held_app, length_app in Hk. lia.
Qed.

(* What holds between two reads of a run in record-separator mode, when
   [input] has been read so far. *)
Definition reading (o : options) (s : store) (input : list ascii)
  : Prop :=
  exists l dropped,
    queue s l
    /\ holds_data (bufs s) l
    /\ input = dropped ++ held (bufs s) l
    /\ records_read s = count_separators (rs o) input
    /\ (have_record s = false ->
        dropped = []
        /\ (input = [] \/ count_separators (rs o) input < record_rend o))
    /\ (have_record s = true ->
        exists jb je,
          selected o input jb je
          /\ (length dropped <= jb)%nat
          /\ forall c,
               write_begin c = current_record_begin s ->
               write_end c = current_record_end s ->
               exists lr post,
                 sending (bufs s) c lr post
                 /\ span_bytes (bufs s) lr (pos (write_begin c))
                      (pos (write_end c))
                    = take (je - jb) (drop jb input)).

Lemma count_drop_le sep bytes n :
  count_separators sep (drop n bytes) <= count_separators sep bytes.
Proof.
  rewrite <- (take_drop n bytes) at 2. rewrite count_separators_app.
  pose proof (count_separators_nonneg sep (take n bytes)). lia.
Qed.

(* One more read keeps what holds between two reads. *)
Lemma buffer_read_reading o a raw now bytes s input :
  rl o = 0 ->
  0 <= record_rbegin o <= record_rend o ->
  reading o s input ->
  bufs s !! a = None ->
  bytes ≠ [] ->
  exists s',
    buffer_read o a raw now (ReadData bytes) s = Done s'
    /\ reading o s' (input ++ bytes).
Proof.
  intros Hrl Hr (l & dropped & Hq & Hdata & Hin & Hcount & Hno & Hyes)
    Ha Hbytes.
  destruct (buffer_read_appends o a raw now bytes s l Hq Ha)
    as (h1 & hd & x & Hrun & Hq1 & Hx & Hs & Hdt & Hrs & _ & Hold & Hkeys1).
  set (s1 := set_head hd (set_tail (Some a) (set_bufs h1 s))) in *.
  rewrite Hrun.
  pose proof (dchain_chain _ _ _ _ (queue_links _ _ Hq)) as Hch.
  assert (Hca : contents h1 a = bytes).
  { unfold contents. rewrite Hx, Hs, Hdt, Nat2Z.id. apply firstn_all. }
  assert (Hcl : forall k, k ∈ l -> contents h1 k = contents (bufs s) k).
  { intros k Hk. destruct (chain_lookup _ _ _ _ Hch Hk) as [y Hy].
    destruct (Hold k y Hk Hy) as (y' & Hy' & Es & Ed).
    unfold contents. rewrite Hy, Hy', Es, Ed. reflexivity. }
  assert (Hheld : held h1 (l ++ [a]) = held (bufs s) l ++ bytes).
  { rewrite held_app. simpl. rewrite app_nil_r, Hca. f_equal.
    apply held_agree. exact Hcl. }
  assert (Hdata1 : holds_data h1 (l ++ [a])).
  { intros k y Hk Hy. apply elem_of_app in Hk as [Hk|Hk].
    - destruct (chain_lookup _ _ _ _ Hch Hk) as [y0 Hy0].
      destruct (Hold k y0 Hk Hy0) as (y' & Hy' & Es & Ed).
      rewrite Hy in Hy'. injection Hy' as <-. rewrite Es, Ed.
      exact (Hdata k y0 Hk Hy0).
    - apply list_elem_of_singleton in Hk. subst k.
      rewrite Hx in Hy. injection Hy as <-. rewrite Hs, Hdt.
      destruct bytes; [contradiction|simpl; lia]. }
  assert (Hin1 : input ++ bytes = dropped ++ held h1 (l ++ [a])).
  { rewrite Hheld, Hin, app_assoc. reflexivity. }
  assert (Hcount1 : record_count x = count_separators (rs o) (input ++ bytes)).
  { rewrite (Hrs Hrl), Hcount, count_separators_app. reflexivity. }
  pose proof (count_separators_nonneg (rs o) bytes) as Hnnb.
  rewrite (update_current_record_unfold o s1 a x eq_refl Hx).
  destruct (record_count x - record_rend o <? 0) eqn:Echeck.
  - (* Not enough records *)
    apply Z.ltb_lt in Echeck.
    assert (Hhave : have_record s = false).
    { destruct (have_record s) eqn:E; [|reflexivity]. exfalso.
      destruct (Hyes eq_refl) as (jb & je & Hsel & _).
      pose proof (selected_count _ _ _ _ Hsel) as Hc.
      pose proof (count_drop_le (rs o) input jb) as Hle.
      rewrite Hcount1, count_separators_app in Echeck. lia. }
    destruct (Hno Hhave) as [-> _].
    exists s1. split; [reflexivity|].
    exists (l ++ [a]), [].
    split; [exact Hq1|]. split; [exact Hdata1|]. split; [exact Hin1|].
    split.
    { unfold records_read. change (tail s1) with (Some a).
      change (bufs s1) with h1. cbn [deref]. rewrite Hx. exact Hcount1. }
    split.
    { intros _. split; [reflexivity|]. right. lia. }
    change (have_record s1) with (have_record s). rewrite Hhave.
    discriminate.
  - (* The record pointers are set anew *)
    apply Z.ltb_ge in Echeck.
    destruct (rl o =? 0) eqn:Erl; [|apply Z.eqb_neq in Erl; contradiction].
    set (d := length dropped).
    set (I1 := input ++ bytes) in *.
    assert (Hold_rec : dropped = []
                       \/ exists jbo jeo, selected o input jbo jeo
                                          /\ (d <= jbo)%nat).
    { destruct (have_record s) eqn:E.
      - right. destruct (Hyes eq_refl) as (jb & je & Hsel & Hdj & _). eauto.
      - left. exact (proj1 (Hno eq_refl)). }
    assert (Henough : record_rend o
                      <= count_separators (rs o) (held h1 (l ++ [a]))).
    { destruct Hold_rec as [->|(jbo & jeo & Hsel & Hdj)].
      - simpl in Hin1. rewrite <- Hin1, <- Hcount1. lia.
      - pose proof (selected_count _ _ _ _ Hsel) as Hc.
        rewrite Hheld, count_separators_app.
        rewrite Hin in Hc. rewrite drop_app_ge in Hc by (unfold d in Hdj; lia).
        pose proof (count_drop_le (rs o) (held (bufs s) l)
                      (jbo - length dropped)). lia. }
    destruct (update_current_record_by_rs_offsets o s1 (l ++ [a]) Hq1 Hdata1
                ltac:(destruct l; discriminate) Hr) as [_ Hsel1].
    destruct (Hsel1 Henough)
      as (bg & e & j3 & j2 & Hrun2 & Hatb & Hate & Hle & Hbb & Hbe & Hc
          & Hafter).
    change (bufs s1) with h1 in Hatb, Hate, Hle, Hbb, Hbe, Hc, Hafter.
    rewrite Hrun2.
    destruct (trimmed_response s1 (l ++ [a]) bg e _ _ Hq1 Hdata1 Hatb Hate
                ltac:(lia)) as (s' & Hfree & Hhave' & Hcb & Hce & Hresp).
    destruct (at_offset_in _ _ _ _ Hatb) as (ab & Hab & Hinb).
    assert (Hq2 : queue (set_have_record true (set_current_record bg e s1))
                    (l ++ [a])) by (destruct Hq1; split; assumption).
    destruct (free_unused_buffers_trims _ (l ++ [a]) ab Hq2 Hab Hinb)
      as (s'' & freed & a' & kept & x' & Hfree2 & El & Hnf & Hq' & Hx' & P2
          & P3 & Es' & Hkeys').
    rewrite Hfree in Hfree2. injection Hfree2 as <-.
    change (bufs (set_have_record true (set_current_record bg e s1)))
      with h1 in Hx', P3, Hkeys'.
    exists s'. split; [exact Hfree|].
    set (S1 := held h1 (l ++ [a])) in *.
    (* the separators of the input, old record and new *)
    assert (HI1 : I1 = dropped ++ S1) by exact Hin1.
    assert (Hlen1 : length I1 = (d + length S1)%nat)
      by (rewrite HI1, length_app; reflexivity).
    assert (Hseg1 : seg (rs o) I1 (d + j3) (d + j2)
                    = record_rend o - record_rbegin o).
    { rewrite HI1. unfold d. rewrite seg_shift. exact Hc. }
    assert (Hseg2 : seg (rs o) I1 (d + j2) (length I1) = record_rbegin o).
    { rewrite <- seg_all, HI1. unfold d. rewrite drop_app_add. exact Hafter. }
    assert (Hbound0 : (j3 = O -> boundary (rs o) I1 d)
                      /\ (j2 = O -> boundary (rs o) I1 d)).
    { destruct Hold_rec as [Hd0|(jbo & jeo & Hsel & Hdj)].
      { unfold d. rewrite Hd0. split; intros _; left; reflexivity. }
      destruct Hsel as (Hro & Hbbo & Hbeo & Hco & Hao).
      assert (Hsego1 : seg (rs o) I1 jbo jeo
                       = record_rend o - record_rbegin o).
      { unfold I1. rewrite seg_app_l by lia. exact Hco. }
      assert (Hsego2 : seg (rs o) I1 jeo (length input) = record_rbegin o).
      { unfold I1. rewrite seg_app_l by lia. rewrite <- seg_all. exact Hao. }
      assert (HlenI : (length input <= length I1)%nat)
        by (unfold I1; rewrite length_app; lia).
      assert (HA : (jeo <= d + j2)%nat).
      { destruct (decide (jeo <= d + j2)%nat) as [?|Hgt]; [assumption|].
        exfalso. destruct Hbeo as [->|(i & -> & Hi)]; [lia|].
        assert (Hi1 : I1 !! i = Some (rs o)).
        { unfold I1. rewrite lookup_app_l by lia. exact Hi. }
        pose proof (seg_sep (rs o) I1 (d + j2) (S i) i Hi1 ltac:(lia)).
        rewrite (seg_split _ _ (d + j2) (S i) (length I1)) in Hseg2 by lia.
        rewrite (seg_split _ _ (S i) (length input) (length I1)) in Hseg2
          by lia.
        pose proof (seg_nonneg (rs o) I1 (length input) (length I1)). lia. }
      split.
      - intros ->. rewrite Nat.add_0_r in Hseg1.
        destruct (decide (jbo = d)) as [->|Hne].
        { apply boundary_app; [lia|exact Hbbo]. }
        exfalso. destruct Hbbo as [->|(i & -> & Hi)]; [lia|].
        assert (Hi1 : I1 !! i = Some (rs o)).
        { unfold I1. rewrite lookup_app_l by lia. exact Hi. }
        pose proof (seg_sep (rs o) I1 d (S i) i Hi1 ltac:(lia)).
        rewrite (seg_split _ _ d (S i) (d + j2)) in Hseg1 by lia.
        rewrite (seg_split _ _ (S i) jeo (d + j2)) in Hseg1 by lia.
        pose proof (seg_nonneg (rs o) I1 jeo (d + j2)). lia.
      - intros ->. rewrite Nat.add_0_r in HA.
        assert (jeo = d) by lia. subst jeo.
        apply boundary_app; [lia|exact Hbeo]. }
    assert (Hheld' : held (bufs s') (a' :: kept) = held h1 (a' :: kept)).
    { apply held_agree. intros k Hk.
      destruct (decide (k = a')) as [->|Hne].
      - exact (contents_set_prev _ _ _ _ _ Hx' P2).
      - apply elem_of_cons in Hk as [Hk|Hk]; [contradiction|].
        apply contents_agree. exact (P3 k Hk). }
    assert (Hta : tail s' = Some a) by (rewrite Es'; reflexivity).
    exists (a' :: kept), (dropped ++ held h1 freed).
    split; [exact Hq'|].
    split.
    { intros k y Hk Hy. destruct (decide (k = a')) as [->|Hne].
      - rewrite P2 in Hy. injection Hy as <-. simpl.
        apply (Hdata1 a' x'); [|exact Hx'].
        rewrite El. apply elem_of_app. right. apply elem_of_cons. auto.
      - apply elem_of_cons in Hk as [Hk|Hk]; [contradiction|].
        rewrite (P3 k Hk) in Hy. apply (Hdata1 k y); [|exact Hy].
        rewrite El. apply elem_of_app. right. apply elem_of_cons. auto. }
    split.
    { rewrite Hheld'. fold I1. rewrite HI1. unfold S1.
      rewrite El, held_app, app_assoc. reflexivity. }
    split.
    { unfold records_read. rewrite Hta. cbn [deref].
      assert (Hain : a ∈ a' :: kept).
      { apply last_Some_elem_of. rewrite <- (queue_tail _ _ Hq'). exact Hta. }
      destruct (decide (a = a')) as [<-|Hne].
      - rewrite P2. rewrite Hx in Hx'. injection Hx' as <-. exact Hcount1.
      - apply elem_of_cons in Hain as [Hain|Hain]; [contradiction|].
        rewrite (P3 a Hain), Hx. exact Hcount1. }
    split; [rewrite Hhave'; discriminate|].
    intros _. exists (d + j3)%nat, (d + j2)%nat.
    split.
    { fold I1. split; [lia|]. split.
      { destruct j3 as [|j3'].
        - rewrite Nat.add_0_r. apply (proj1 Hbound0). reflexivity.
        - rewrite HI1. unfold d. apply boundary_shift. exact Hbb. }
      split.
      { destruct j2 as [|j2'].
        - rewrite Nat.add_0_r. apply (proj2 Hbound0). reflexivity.
        - rewrite HI1. unfold d. apply boundary_shift. exact Hbe. }
      split; [exact Hseg1|]. rewrite seg_all. exact Hseg2. }
    split.
    { rewrite length_app. fold d.
      rewrite El in Hatb.
      pose proof (at_offset_after h1 freed (a' :: kept) bg _ ab Hatb Hab Hnf).
      lia. }
    intros c Hwb Hwe. rewrite Hcb in Hwb. rewrite Hce in Hwe.
    destruct (Hresp c Hwb Hwe) as (lr & post & Hsend & Hspan).
    exists lr, post. split; [exact Hsend|]. rewrite Hspan.
    change (bufs s1) with h1. fold S1. fold I1. rewrite HI1. unfold d.
    rewrite drop_app_add. f_equal; [lia|]. f_equal. lia.
Qed.

Lemma read_all_reading o malloc :
  rl o = 0 ->
  0 <= record_rbegin o <= record_rend o ->
  (forall h, h !! malloc h = None) ->
  forall reads s input,
    reading o s input ->
    Forall (fun r => r_bytes r ≠ []) reads ->
    exists s',
      read_all o malloc reads s = Done s'
      /\ reading o s' (input ++ input_of reads).
Proof.
  intros Hrl Hr Hmalloc.
  induction reads as [|r rest IH]; intros s input Hinv Hall.
  - exists s. split; [reflexivity|]. simpl. rewrite app_nil_r. exact Hinv.
  - apply Forall_cons in Hall as [Hb Hall].
    destruct (buffer_read_reading o (malloc (bufs s)) (r_raw r) (r_now r)
                (r_bytes r) s input Hrl Hr Hinv (Hmalloc _) Hb)
      as (s1 & Hrun & Hinv1).
    destruct (IH s1 _ Hinv1 Hall) as (s' & Hrun' & Hinv').
    exists s'. split.
    + cbn [read_all]. rewrite Hrun. exact Hrun'.
    + cbn [input_of]. rewrite app_assoc. exact Hinv'.
Qed.

(** X26.  The record served, in record-separator mode.  Start with an
    empty queue and no record, and let standard input deliver data in any
    number of reads, each of at least one byte into memory that malloc
    returns unused; let 0 <= record_rbegin <= record_rend.  Then every
    buffer_read returns (no assertion fails, however the data is split
    into reads and whatever is freed), and afterwards have_record is set
    exactly when data has been read and the input holds at least
    record_rend separators.  The current record is then the stretch of
    the whole input that begins and ends where a record begins, holds
    record_rend - record_rbegin separators and is followed by exactly
    record_rbegin separators: with the default 0 and 1, the last complete
    record of the input.  A client that is given the two record pointers
    is sent exactly these bytes. *)
Theorem reads_select_records o malloc reads s0 :
  rl o = 0 ->
  0 <= record_rbegin o <= record_rend o ->
  (forall h, h !! malloc h = None) ->
  head s0 = None -> tail s0 = None -> have_record s0 = false ->
  Forall (fun r => r_bytes r ≠ []) reads ->
  let input := input_of reads in
  exists s',
    read_all o malloc reads s0 = Done s'
    /\ (have_record s' = true
        <-> reads ≠ [] /\ record_rend o <= count_separators (rs o) input)
    /\ (have_record s' = true ->
        exists jb je,
          selected o input jb je
          /\ forall c,
               write_begin c = current_record_begin s' ->
               write_end c = current_record_end s' ->
               exists lr post,
                 sending (bufs s') c lr post
                 /\ span_bytes (bufs s') lr (pos (write_begin c))
                      (pos (write_end c))
                    = take (je - jb) (drop jb input)).
Proof.
  intros Hrl Hr Hmalloc Hhd Htl Hhave Hall input.
  assert (Hinv0 : reading o s0 []).
  { exists [], []. split; [split; simpl; assumption|].
    split; [intros a x Ha; inversion Ha|]. split; [reflexivity|].
    split; [unfold records_read; rewrite Htl; reflexivity|].
    split; [intros _; split; [reflexivity|left; reflexivity]|].
    rewrite Hhave. discriminate. }
  destruct (read_all_reading o malloc Hrl Hr Hmalloc reads s0 [] Hinv0 Hall)
    as (s' & Hrun & Hinv).
  simpl in Hinv. fold input in Hinv.
  exists s'. split; [exact Hrun|].
  destruct Hinv as (l & dropped & Hq & Hdata & Hin & Hcount & Hno & Hyes).
  split; [split|].
  - intros Ht. split.
    + intros ->. simpl in Hrun. injection Hrun as <-. congruence.
    + destruct (Hyes Ht) as (jb & je & Hsel & _).
      pose proof (selected_count _ _ _ _ Hsel).
      pose proof (count_drop_le (rs o) input jb). lia.
  - intros [Hne Hge]. destruct (have_record s') eqn:E; [reflexivity|].
    exfalso. destruct (Hno eq_refl) as [_ [Hempty|Hlt]]; [|lia].
    destruct reads as [|r rest]; [contradiction|].
    apply Forall_cons in Hall as [Hb _]. unfold input in Hempty.
    simpl in Hempty. destruct (r_bytes r); [contradiction|discriminate].
  - intros Ht. destruct (Hyes Ht) as (jb & je & Hsel & _ & Hresp).
    exists jb, je. split; assumption.
Qed.

(* What holds between two reads of a run in record-length mode, when
   [input] has been read so far. *)
Definition reading_rl (o : options) (s : store) (input : list ascii)
  : Prop :=
  exists l dropped,
    queue s l
    /\ holds_data (bufs s) l
    /\ input = dropped ++ held (bufs s) l
    /\ bytes_read s = Z.of_nat (length input)
    /\ (have_record s = false ->
        dropped = []
        /\ (input = []
            \/ Z.quot (Z.of_nat (length input)) (rl o) < record_rend o))
    /\ (have_record s = true ->
        let jb := (Z.quot (Z.of_nat (length input)) (rl o) - record_rend o)
                  * rl o in
        Z.of_nat (length dropped) <= jb
        /\ forall c,
             write_begin c = current_record_begin s ->
             write_end c = current_record_end s ->
             exists lr post,
               sending (bufs s) c lr post
               /\ span_bytes (bufs s) lr (pos (write_begin c))
                    (pos (write_end c))
                  = take (Z.to_nat ((record_rend o - record_rbegin o) * rl o))
                      (drop (Z.to_nat jb) input)).

Lemma buffer_read_reading_rl o a raw now bytes s input :
  0 < rl o ->
  0 <= record_rbegin o <= record_rend o ->
  reading_rl o s input ->
  bufs s !! a = None ->
  bytes ≠ [] ->
  exists s',
    buffer_read o a raw now (ReadData bytes) s = Done s'
    /\ reading_rl o s' (input ++ bytes).
Proof.
  intros Hrl Hr (l & dropped & Hq & Hdata & Hin & Hcount & Hno & Hyes)
    Ha Hbytes.
  destruct (buffer_read_appends o a raw now bytes s l Hq Ha)
    as (h1 & hd & x & Hrun & Hq1 & Hx & Hs & Hdt & _ & Hbc & Hold & _).
  destruct (Hbc ltac:(lia)) as [Hbx Hrx].
  set (s1 := set_head hd (set_tail (Some a) (set_bufs h1 s))) in *.
  rewrite Hrun.
  pose proof (dchain_chain _ _ _ _ (queue_links _ _ Hq)) as Hch.
  assert (Hca : contents h1 a = bytes).
  { unfold contents. rewrite Hx, Hs, Hdt, Nat2Z.id. apply firstn_all. }
  assert (Hcl : forall k, k ∈ l -> contents h1 k = contents (bufs s) k).
  { intros k Hk. destruct (chain_lookup _ _ _ _ Hch Hk) as [y Hy].
    destruct (Hold k y Hk Hy) as (y' & Hy' & Es & Ed).
    unfold contents. rewrite Hy, Hy', Es, Ed. reflexivity. }
  assert (Hheld : held h1 (l ++ [a]) = held (bufs s) l ++ bytes).
  { rewrite held_app. simpl. rewrite app_nil_r, Hca. f_equal.
    apply held_agree. exact Hcl. }
  assert (Hdata1 : holds_data h1 (l ++ [a])).
  { intros k y Hk Hy. apply elem_of_app in Hk as [Hk|Hk].
    - destruct (chain_lookup _ _ _ _ Hch Hk) as [y0 Hy0].
      destruct (Hold k y0 Hk Hy0) as (y' & Hy' & Es & Ed).
      rewrite Hy in Hy'. injection Hy' as <-. rewrite Es, Ed.
      exact (Hdata k y0 Hk Hy0).
    - apply list_elem_of_singleton in Hk. subst k.
      rewrite Hx in Hy. injection Hy as <-. rewrite Hs, Hdt.
      destruct bytes; [contradiction|simpl; lia]. }
  assert (Hin1 : input ++ bytes = dropped ++ held h1 (l ++ [a])).
  { rewrite Hheld, Hin, app_assoc. reflexivity. }
  assert (Hn : (0 < length bytes)%nat)
    by (destruct bytes; [contradiction|simpl; lia]).
  set (B := Z.of_nat (length input)) in *.
  set (B' := Z.of_nat (length (input ++ bytes))).
  assert (HB' : B' = B + Z.of_nat (length bytes))
    by (unfold B', B; rewrite length_app; lia).
  assert (Hbx' : byte_count x = B') by (rewrite Hbx, Hcount, HB'; reflexivity).
  assert (HB0 : 0 <= B) by (unfold B; lia).
  assert (Hmono : Z.quot B (rl o) <= Z.quot B' (rl o))
    by (apply Z.quot_le_mono; lia).
  pose proof (Z.quot_rem' B' (rl o)) as Hqr.
  pose proof (Z.rem_bound_pos B' (rl o) ltac:(lia) Hrl) as Hrem.
  rewrite (update_current_record_unfold o s1 a x eq_refl Hx).
  rewrite Hrx, Hbx'.
  destruct (Z.quot B' (rl o) - record_rend o <? 0) eqn:Echeck.
  - (* Not enough records *)
    apply Z.ltb_lt in Echeck.
    assert (Hhave : have_record s = false).
    { destruct (have_record s) eqn:E; [|reflexivity]. exfalso.
      destruct (Hyes eq_refl) as [Hdj _]. fold B in Hdj. nia. }
    destruct (Hno Hhave) as [-> _].
    exists s1. split; [reflexivity|].
    exists (l ++ [a]), [].
    split; [exact Hq1|]. split; [exact Hdata1|]. split; [exact Hin1|].
    split.
    { unfold bytes_read. change (tail s1) with (Some a).
      change (bufs s1) with h1. cbn [deref]. rewrite Hx. exact Hbx'. }
    split.
    { intros _. split; [reflexivity|]. right. fold B'. lia. }
    change (have_record s1) with (have_record s). rewrite Hhave.
    discriminate.
  - (* The record pointers are set anew *)
    apply Z.ltb_ge in Echeck.
    destruct (rl o =? 0) eqn:Erl; [apply Z.eqb_eq in Erl; lia|].
    set (d := Z.of_nat (length dropped)).
    set (jb' := (Z.quot B' (rl o) - record_rend o) * rl o).
    assert (Hdj : d <= jb').
    { destruct (have_record s) eqn:E.
      - destruct (Hyes eq_refl) as [Hdj _]. fold B in Hdj. unfold d, jb'.
        nia.
      - destruct (Hno eq_refl) as [-> _]. unfold d, jb'. simpl. nia. }
    set (S1 := held h1 (l ++ [a])) in *.
    assert (HlenS : Z.of_nat (length S1) = B' - d).
    { unfold B', d. rewrite Hin1, length_app. lia. }
    destruct (update_current_record_by_rl_offsets o s1 (l ++ [a]) a x Hq1
                Hdata1 eq_refl Hx Hrl ltac:(lia) Hr) as [_ Hsel1].
    change (bufs s1) with h1 in Hsel1. fold S1 in Hsel1.
    rewrite Hbx', HlenS in Hsel1.
    assert (Hjb : B' - d - Z.rem B' (rl o) - record_rbegin o * rl o
                  - (record_rend o - record_rbegin o) * rl o = jb' - d)
      by (unfold jb'; lia).
    rewrite Hjb in Hsel1.
    destruct (Hsel1 ltac:(lia)) as (bg & e & Hrun2 & Hatb & Hate).
    rewrite Hrun2.
    assert (H3 : 0 <= (record_rend o - record_rbegin o) * rl o) by nia.
    destruct (trimmed_response s1 (l ++ [a]) bg e _ _ Hq1 Hdata1 Hatb Hate
                ltac:(lia)) as (s' & Hfree & Hhave' & Hcb & Hce & Hresp).
    destruct (at_offset_in _ _ _ _ Hatb) as (ab & Hab & Hinb).
    assert (Hq2 : queue (set_have_record true (set_current_record bg e s1))
                    (l ++ [a])) by (destruct Hq1; split; assumption).
    destruct (free_unused_buffers_trims _ (l ++ [a]) ab Hq2 Hab Hinb)
      as (s'' & freed & a' & kept & x' & Hfree2 & El & Hnf & Hq' & Hx' & P2
          & P3 & Es' & _).
    rewrite Hfree in Hfree2. injection Hfree2 as <-.
    change (bufs (set_have_record true (set_current_record bg e s1)))
      with h1 in Hx', P3.
    exists s'. split; [exact Hfree|].
    assert (Hheld' : held (bufs s') (a' :: kept) = held h1 (a' :: kept)).
    { apply held_agree. intros k Hk.
      destruct (decide (k = a')) as [->|Hne].
      - exact (contents_set_prev _ _ _ _ _ Hx' P2).
      - apply elem_of_cons in Hk as [Hk|Hk]; [contradiction|].
        apply contents_agree. exact (P3 k Hk). }
    assert (Hta : tail s' = Some a) by (rewrite Es'; reflexivity).
    exists (a' :: kept), (dropped ++ held h1 freed).
    split; [exact Hq'|].
    split.
    { intros k y Hk Hy. destruct (decide (k = a')) as [->|Hne].
      - rewrite P2 in Hy. injection Hy as <-. simpl.
        apply (Hdata1 a' x'); [|exact Hx'].
        rewrite El. apply elem_of_app. right. apply elem_of_cons. auto.
      - apply elem_of_cons in Hk as [Hk|Hk]; [contradiction|].
        rewrite (P3 k Hk) in Hy. apply (Hdata1 k y); [|exact Hy].
        rewrite El. apply elem_of_app. right. apply elem_of_cons. auto. }
    split.
    { rewrite Hheld', Hin1. unfold S1.
      rewrite El, held_app, app_assoc. reflexivity. }
    split.
    { unfold bytes_read. rewrite Hta. cbn [deref].
      assert (Hain : a ∈ a' :: kept).
      { apply last_Some_elem_of. rewrite <- (queue_tail _ _ Hq'). exact Hta. }
      destruct (decide (a = a')) as [<-|Hne].
      - rewrite P2. rewrite Hx in Hx'. injection Hx' as <-. exact Hbx'.
      - apply elem_of_cons in Hain as [Hain|Hain]; [contradiction|].
        rewrite (P3 a Hain), Hx. exact Hbx'. }
    split; [rewrite Hhave'; discriminate|].
    intros _. fold B'. fold jb'. cbv zeta.
    split.
    { rewrite length_app. fold d.
      rewrite El in Hatb.
      pose proof (at_offset_after h1 freed (a' :: kept) bg _ ab Hatb Hab Hnf).
      lia. }
    intros c Hwb Hwe. rewrite Hcb in Hwb. rewrite Hce in Hwe.
    destruct (Hresp c Hwb Hwe) as (lr & post & Hsend & Hspan).
    exists lr, post. split; [exact Hsend|]. rewrite Hspan.
    change (bufs s1) with h1. fold S1. rewrite Hin1. fold S1.
    rewrite drop_app_ge by (unfold d in Hdj; lia).
    f_equal; [unfold jb'; lia|]. f_equal. unfold d. lia.
Qed.

Lemma read_all_reading_rl o malloc :
  0 < rl o ->
  0 <= record_rbegin o <= record_rend o ->
  (forall h, h !! malloc h = None) ->
  forall reads s input,
    reading_rl o s input ->
    Forall (fun r => r_bytes r ≠ []) reads ->
    exists s',
      read_all o malloc reads s = Done s'
      /\ reading_rl o s' (input ++ input_of reads).
Proof.
  intros Hrl Hr Hmalloc.
  induction reads as [|r rest IH]; intros s input Hinv Hall.
  - exists s. split; [reflexivity|]. simpl. rewrite app_nil_r. exact Hinv.
  - apply Forall_cons in Hall as [Hb Hall].
    destruct (buffer_read_reading_rl o (malloc (bufs s)) (r_raw r) (r_now r)
                (r_bytes r) s input Hrl Hr Hinv (Hmalloc _) Hb)
      as (s1 & Hrun & Hinv1).
    destruct (IH s1 _ Hinv1 Hall) as (s' & Hrun' & Hinv').
    exists s'. split.
    + cbn [read_all]. rewrite Hrun. exact Hrun'.
    + cbn [input_of]. rewrite app_assoc. exact Hinv'.
Qed.

(** X27.  The record served, in record-length mode.  Start with an empty
    queue and no record, and let standard input deliver data in any number
    of reads, each of at least one byte into memory that malloc returns
    unused; let rl > 0 and 0 <= record_rbegin <= record_rend.  Then every
    buffer_read returns, and afterwards have_record is set exactly when
    data has been read and the input holds at least record_rend complete
    records of rl bytes.  With [full] complete records in the input, the
    current record is then the bytes from (full - record_rend) * rl up to
    (full - record_rbegin) * rl of the whole input, and a client that is
    given the two record pointers is sent exactly these bytes. *)
Theorem reads_select_fixed_records o malloc reads s0 :
  0 < rl o ->
  0 <= record_rbegin o <= record_rend o ->
  (forall h, h !! malloc h = None) ->
  head s0 = None -> tail s0 = None -> have_record s0 = false ->
  Forall (fun r => r_bytes r ≠ []) reads ->
  let input := input_of reads in
  let full := Z.quot (Z.of_nat (length input)) (rl o) in
  exists s',
    read_all o malloc reads s0 = Done s'
    /\ (have_record s' = true <-> reads ≠ [] /\ record_rend o <= full)
    /\ (have_record s' = true ->
        forall c,
          write_begin c = current_record_begin s' ->
          write_end c = current_record_end s' ->
          exists lr post,
            sending (bufs s') c lr post
            /\ span_bytes (bufs s') lr (pos (write_begin c))
                 (pos (write_end c))
               = take (Z.to_nat ((record_rend o - record_rbegin o) * rl o))
                   (drop (Z.to_nat ((full - record_rend o) * rl o)) input)).
Proof.
  intros Hrl Hr Hmalloc Hhd Htl Hhave Hall input full.
  assert (Hinv0 : reading_rl o s0 []).
  { exists [], []. split; [split; simpl; assumption|].
    split; [intros a x Ha; inversion Ha|]. split; [reflexivity|].
    split; [unfold bytes_read; rewrite Htl; reflexivity|].
    split; [intros _; split; [reflexivity|left; reflexivity]|].
    rewrite Hhave. discriminate. }
  destruct (read_all_reading_rl o malloc Hrl Hr Hmalloc reads s0 [] Hinv0
              Hall) as (s' & Hrun & Hinv).
  simpl in Hinv. fold input in Hinv.
  exists s'. split; [exact Hrun|].
  destruct Hinv as (l & dropped & Hq & Hdata & Hin & Hcount & Hno & Hyes).
  fold full in Hno, Hyes.
  split; [split|].
  - intros Ht. split.
    + intros ->. simpl in Hrun. injection Hrun as <-. congruence.
    + destruct (Hyes Ht) as [Hdj _]. nia.
  - intros [Hne Hge]. destruct (have_record s') eqn:E; [reflexivity|].
    exfalso. destruct (Hno eq_refl) as [_ [Hempty|Hlt]]; [|lia].
    destruct reads as [|r rest]; [contradiction|].
    apply Forall_cons in Hall as [Hb _]. unfold input in Hempty.
    simpl in Hempty. destruct (r_bytes r); [contradiction|discriminate].
  - intros Ht. destruct (Hyes Ht) as [_ Hresp]. exact Hresp.
Qed.

(** *** Responses in progress *)

(* A list without duplicates splits at an element in one way only. *)
Lemma split_unique (w : nat) l1 l2 l1' l2' :
  NoDup (l1 ++ w :: l2) -> l1 ++ w :: l2 = l1' ++ w :: l2' ->
  l1 = l1' /\ l2 = l2'.
Proof.
  intros Hnd E.
  apply NoDup_app in Hnd as (_ & Hdis & Hnd2).
  apply NoDup_cons in Hnd2 as [Hw _].
  assert (Hnot : w ∉ l1).
  { intros Hin. apply (Hdis w Hin). apply elem_of_cons. left. reflexivity. }
  destruct (split_before w l1 (w :: l2) l1' l2' E Hnot) as (m & -> & Em).
  destruct m as [|y m].
  - rewrite app_nil_r. injection Em as ->. auto.
  - exfalso. injection Em as <- Em. apply Hw. rewrite Em.
    apply elem_of_app. right. apply elem_of_cons. left. reflexivity.
Qed.

(* A response is the same in a heap that links its buffers in the same
   order and keeps their sizes and data. *)
Lemma sending_transfer h h' c lr post post' :
  sending h c lr post ->
  chain h' (b (write_begin c)) (lr ++ post') ->
  (forall k x, k ∈ lr -> h !! k = Some x ->
     exists x', h' !! k = Some x' /\ size x' = size x /\ data x' = data x) ->
  sending h' c lr post'
  /\ span_bytes h' lr (pos (write_begin c)) (pos (write_end c))
     = span_bytes h lr (pos (write_begin c)) (pos (write_end c)).
Proof.
  intros [Hch Hend Hsz Hfrom Hupto Hsingle Hne] Hch' Hag.
  assert (Hin : forall k, k ∈ lr -> is_Some (h !! k)).
  { intros k Hk. apply (chain_lookup _ _ _ _ Hch). apply elem_of_app. auto. }
  assert (Hback : forall k x', k ∈ lr -> h' !! k = Some x' ->
            exists x, h !! k = Some x /\ size x' = size x
                      /\ data x' = data x).
  { intros k x' Hk Hx'. destruct (Hin k Hk) as [x Hx].
    destruct (Hag k x Hk Hx) as (x'' & Hx'' & E).
    rewrite Hx' in Hx''. injection Hx'' as <-. eauto. }
  split.
  - split; try assumption.
    + intros a x' Ha Hx'.
      destruct (Hback a x' Ha Hx') as (x & Hx & Es & Ed).
      rewrite Es, Ed. exact (Hsz a x Ha Hx).
    + intros a x' Ha Hx'.
      destruct (Hback a x' (list_elem_of_lookup_2 _ _ _ Ha) Hx')
        as (x & Hx & Es & Ed).
      rewrite Es. exact (Hfrom a x Ha Hx).
    + intros a x' Ha Hx'.
      destruct (Hback a x' (last_Some_elem_of _ _ Ha) Hx')
        as (x & Hx & Es & Ed).
      rewrite Es. exact (Hupto a x Ha Hx).
  - assert (Hl : forall k, k ∈ lr -> contents h' k = contents h k).
    { intros k Hk. destruct (Hin k Hk) as [x Hx].
      destruct (Hag k x Hk Hx) as (x' & Hx' & Es & Ed).
      unfold contents. rewrite Hx, Hx', Es, Ed. reflexivity. }
    clear - Hl. generalize (pos (write_begin c)).
    induction lr as [|a l IH]; intros f; [reflexivity|].
    destruct l as [|a1 l].
    + simpl. rewrite Hl by (apply elem_of_cons; left; reflexivity).
      reflexivity.
    + rewrite !(span_bytes_cons _ a (a1 :: l)) by discriminate.
      rewrite Hl by (apply elem_of_cons; left; reflexivity).
      rewrite IH; [reflexivity|].
      intros k Hk. apply Hl. apply elem_of_cons. right. exact Hk.
Qed.

(* The buffers of a response that begins in the queue are the queue from
   its first buffer on. *)
Lemma sending_in_queue h p l c lr post w :
  chain h p l -> sending h c lr post ->
  b (write_begin c) = Some w -> w ∈ l ->
  exists q1, l = q1 ++ lr ++ post.
Proof.
  intros Hch Hsend Hw Hin.
  apply list_elem_of_split in Hin as (q1 & q2 & El).
  exists q1. rewrite El. f_equal.
  rewrite El in Hch. apply chain_suffix in Hch.
  pose proof (sending_chain _ _ _ _ Hsend) as Hc. rewrite Hw in Hc.
  exact (chain_functional _ _ _ _ Hch Hc).
Qed.

(** X29.  New input leaves a response in progress alone.  Let a client
    have a response to send that runs through the buffers [lr] of the
    queue, and let oldest_buffer_being_written be a buffer at or in front
    of the buffer the client writes from.  After a read of data that
    buffer_read returns from, the client's response runs through the same
    buffers and is byte for byte the same: none of its buffers has been
    freed or changed, whatever records have arrived and wherever the
    current record has moved.  oldest_buffer_being_written is unchanged
    and still at or in front of the client's buffer in the new queue. *)
Theorem buffer_read_keeps_response o a raw now bytes s s' l c lr post ob :
  queue s l ->
  bufs s !! a = None ->
  sending (bufs s) c lr post ->
  oldest_buffer_being_written s = Some ob ->
  (forall w, b (write_begin c) = Some w -> follows l ob w) ->
  buffer_read o a raw now (ReadData bytes) s = Done s' ->
  sending (bufs s') c lr (post ++ [a])
  /\ span_bytes (bufs s') lr (pos (write_begin c)) (pos (write_end c))
     = span_bytes (bufs s) lr (pos (write_begin c)) (pos (write_end c))
  /\ oldest_buffer_being_written s' = Some ob
  /\ exists l',
       queue s' l'
       /\ forall w, b (write_begin c) = Some w -> follows l' ob w.
Proof.
  intros Hq Ha Hsend Hob Hcov Hrun.
  pose proof (dchain_chain _ _ _ _ (queue_links _ _ Hq)) as Hch.
  pose proof (sending_chain _ _ _ _ Hsend) as Hc.
  pose proof (sending_nonempty _ _ _ _ Hsend) as Hne.
  destruct lr as [|w lr']; [contradiction|]. clear Hne.
  assert (Hw : b (write_begin c) = Some w) by (simpl in Hc; tauto).
  destruct (Hcov w Hw) as (m1 & m2 & El & Hwin).
  assert (Hwl : w ∈ l).
  { rewrite El. apply elem_of_app. right. exact Hwin. }
  destruct (sending_in_queue _ _ _ _ _ _ _ Hch Hsend Hw Hwl) as (q1 & Eq).
  destruct (buffer_read_appends o a raw now bytes s l Hq Ha)
    as (h1 & hd & x & Happ & Hq1 & Hx & _ & _ & _ & _ & Hold & _).
  rewrite Happ in Hrun.
  destruct (update_current_record_keeps_queue _ _ _ _ Hq1 Hrun)
    as (freed & l' & El' & Hq' & _ & _ & Hkeep & _ & _ & _ & Ho & Hnf).
  change (oldest_buffer_being_written
            (set_head hd (set_tail (Some a) (set_bufs h1 s))))
    with (oldest_buffer_being_written s) in Ho, Hnf.
  change (bufs (set_head hd (set_tail (Some a) (set_bufs h1 s))))
    with h1 in Hkeep.
  pose proof (dchain_chain _ _ _ _ (queue_links _ _ Hq1)) as Hch1.
  pose proof (chain_NoDup _ _ _ Hch1) as Hnd1.
  pose proof (dchain_chain _ _ _ _ (queue_links _ _ Hq')) as Hch'.
  (* the queue from oldest_buffer_being_written on is kept *)
  assert (Hobf : ob ∉ freed).
  { intros Hin. apply (Hnf ob Hin). exact Hob. }
  assert (E1 : freed ++ l' = m1 ++ ob :: (m2 ++ [a])).
  { rewrite <- El', El, <- app_assoc. reflexivity. }
  destruct (split_before ob freed l' m1 (m2 ++ [a]) E1 Hobf) as (m & Em1 & Em).
  assert (Hwl' : w ∈ l').
  { rewrite Em. apply elem_of_app. right.
    change (ob :: m2 ++ [a]) with ((ob :: m2) ++ [a]).
    apply elem_of_app. left. exact Hwin. }
  (* the buffers behind the client's buffer are those of the old queue *)
  apply list_elem_of_split in Hwl' as (p1 & p2 & Ep).
  assert (Hp2 : p2 = lr' ++ post ++ [a]).
  { assert (E2 : (q1 ++ w :: lr' ++ post ++ [a])
                 = (freed ++ p1) ++ w :: p2).
    { rewrite <- app_assoc, <- Ep, <- El', Eq.
      repeat (simpl; rewrite <- ?app_assoc). reflexivity. }
    assert (Hnd2 : NoDup (q1 ++ w :: lr' ++ post ++ [a])).
    { rewrite Eq in Hnd1.
      repeat (simpl in Hnd1; rewrite <- ?app_assoc in Hnd1). exact Hnd1. }
    destruct (split_unique w _ _ _ _ Hnd2 E2) as [_ E]. symmetry. exact E. }
  assert (Hc' : chain (bufs s') (b (write_begin c))
                  ((w :: lr') ++ post ++ [a])).
  { rewrite Hw. rewrite Ep in Hch'. apply chain_suffix in Hch'.
    rewrite Hp2 in Hch'. exact Hch'. }
  destruct (sending_transfer (bufs s) (bufs s') c (w :: lr') post
              (post ++ [a]) Hsend Hc') as [Hsend' Hspan'].
  { intros k xk Hk Hxk.
    assert (Hkl : k ∈ l).
    { rewrite Eq. apply elem_of_app. right. apply elem_of_app. left.
      exact Hk. }
    assert (Hkl' : k ∈ l').
    { rewrite Ep, Hp2. apply elem_of_app. right.
      change (w :: lr' ++ post ++ [a]) with ((w :: lr') ++ post ++ [a]).
      apply elem_of_app. left. exact Hk. }
    destruct (Hold k xk Hkl Hxk) as (y & Hy & Es & Ed).
    destruct (Hkeep k y Hkl' Hy) as [Hy'|Hy']; eexists;
      (split; [exact Hy'|]); simpl; auto. }
  split; [exact Hsend'|]. split; [exact Hspan'|].
  split; [rewrite Ho; exact Hob|].
  exists l'. split; [exact Hq'|].
  intros w' Hw'. rewrite Hw in Hw'. injection Hw' as <-.
  exists m, (m2 ++ [a]). split; [exact Em|].
  change (ob :: m2 ++ [a]) with ((ob :: m2) ++ [a]).
  apply elem_of_app. left. exact Hwin.
Qed.

(* write_record leaves write_begin in its buffer or moves it to the next
   one. *)
Lemma write_record_begin h c write_length w evs c' x :
  deref h (b (write_begin c)) = Done x ->
  write_record h c write_length w = (evs, Done c') ->
  b (write_begin c') = b (write_begin c) \/ b (write_begin c') = next x.
Proof.
  intros Hx. unfold write_record. rewrite Hx.
  destruct (if write_length
            then len ← content_length h c;
                 Done (format_010u len ++
                         take (Z.to_nat
                                 (if bool_decide
                                       (b (write_begin c) = b (write_end c))
                                  then pos (write_end c) - pos (write_begin c)
                                  else size x - pos (write_begin c)))
                           (drop (Z.to_nat (pos (write_begin c))) (data x)))
            else Done (take (Z.to_nat
                               (if bool_decide
                                     (b (write_begin c) = b (write_end c))
                                then pos (write_end c) - pos (write_begin c)
                                else size x - pos (write_begin c)))
                         (drop (Z.to_nat (pos (write_begin c))) (data x))))
    as [iov| | | |]; try (intros H; discriminate H).
  destruct w as [errno|n].
  - destruct (errno =? EAGAIN); intros H; [|discriminate H].
    injection H as _ <-. left. reflexivity.
  - destruct ((n <? 0) || (Z.of_nat (length iov) <? n));
      [intros H; discriminate H|].
    destruct (write_length && (n <? CONTENT_LENGTH_DIGITS));
      [intros H; discriminate H|].
    cbv zeta.
    repeat match goal with
           | |- context [if ?t then (_, _) else _] => destruct t
           end;
      intros H; injection H as _ <-; simpl; auto.
Qed.

(** X30.  The start of a response.  A client in s_send_current or
    s_send_last whose descriptor is writable is served only with
    have_record set (the assertion fails otherwise).  It is then given the
    record pointers as they are at that moment, and when the first writev
    accepts [n] bytes the process goes on only if n covers the ten digits
    of the header: the client has then received the first n bytes of the
    length of the record followed by the record.  The buffers are not
    touched.  oldest_buffer_being_written becomes the first in the queue
    of its old value and the buffer where the record begins, so that it
    is at or in front of whatever it was in front of before, and of the
    buffer this client goes on writing from.  The client is left in
    s_sending_response with the rest of the record to send, or in
    s_wait_close when all of it has been sent. *)
Theorem serve_client_starts_response path i readable r n s l c lr post out s' :
  clients s !! i = Some c ->
  state c = s_send_current \/ state c = s_send_last ->
  queue s l ->
  sending (bufs s)
    {| fd := fd c; write_begin := current_record_begin s;
       write_end := current_record_end s; state := s_sending_response |}
    lr post ->
  (forall w, b (current_record_begin s) = Some w -> w ∈ l) ->
  (forall o, oldest_buffer_being_written s = Some o -> o ∈ l) ->
  serve_client path i readable true r (Written n) s = (out, Done s') ->
  let R := span_bytes (bufs s) lr (pos (current_record_begin s))
             (pos (current_record_end s)) in
  have_record s = true
  /\ CONTENT_LENGTH_DIGITS <= n <= CONTENT_LENGTH_DIGITS + Z.of_nat (length R)
  /\ received (fd c) out
     = take (Z.to_nat n) (format_010u (to_uint (Z.of_nat (length R))) ++ R)
  /\ bufs s' = bufs s
  /\ current_record_begin s' = current_record_begin s
  /\ current_record_end s' = current_record_end s
  /\ exists ob c',
       oldest_buffer_being_written s' = Some ob
       /\ (forall o w', oldest_buffer_being_written s = Some o ->
                        follows l o w' -> follows l ob w')
       /\ clients s' = <[i := c']> (clients s)
       /\ fd c' = fd c
       /\ ((state c' = s_sending_response
            /\ (exists lr',
                  sending (bufs s') c' lr' post
                  /\ span_bytes (bufs s') lr' (pos (write_begin c'))
                       (pos (write_end c'))
                     = drop (Z.to_nat (n - CONTENT_LENGTH_DIGITS)) R)
            /\ forall w', b (write_begin c') = Some w' -> follows l ob w')
           \/ (state c' = s_wait_close
               /\ n = CONTENT_LENGTH_DIGITS + Z.of_nat (length R))).
Proof.
  intros Hc Hst Hq Hsend Hbl Hol Hrun R. subst R.
  set (c0 := {| fd := fd c; write_begin := current_record_begin s;
                write_end := current_record_end s;
                state := s_sending_response |}) in *.
  pose proof (dchain_chain _ _ _ _ (queue_links _ _ Hq)) as Hch.
  pose proof (chain_NoDup _ _ _ Hch) as Hnd.
  pose proof (sending_chain _ _ _ _ Hsend) as Hchc.
  pose proof (sending_nonempty _ _ _ _ Hsend) as Hne.
  destruct lr as [|w lr'] eqn:Elr; [contradiction|]. rewrite <- Elr in *.
  assert (Hw : b (current_record_begin s) = Some w).
  { rewrite Elr in Hchc. simpl in Hchc. tauto. }
  assert (Hxw : exists x, bufs s !! w = Some x).
  { rewrite Elr in Hchc. simpl in Hchc. destruct Hchc as (_ & x & Hx & _).
    eauto. }
  destruct Hxw as [x Hx].
  destruct (oldest_buffer_spec s l (oldest_buffer_being_written s)
              (b (current_record_begin s)) Hch Hol Hbl)
    as (ro & Hold & F1 & F2 & _).
  destruct (F2 w Hw) as (ob & -> & Hfw).
  unfold serve_client in Hrun. rewrite Hc in Hrun.
  assert (Hbody :
            (if have_record s then
               match oldest_buffer s (oldest_buffer_being_written s)
                       (b (write_begin c0)) with
               | Done ob0 =>
                   let s0 := set_oldest_buffer_being_written ob0 s in
                   let '(out0, res) := write_record (bufs s0) c0 true
                                         (Written n) in
                   (out0, c1 ← res; Done (put_client i c1 s0))
               | Exited z => ([], Exited z)
               | Aborted => ([], Aborted)
               | Undefined => ([], Undefined)
               | OutOfFuel => ([], OutOfFuel)
               end
             else ([], Aborted)) = (out, Done s')).
  { destruct Hst as [E|E]; rewrite E in Hrun; exact Hrun. }
  clear Hrun.
  destruct (have_record s); [|discriminate Hbody].
  change (b (write_begin c0)) with (b (current_record_begin s)) in Hbody.
  rewrite Hold in Hbody. cbv zeta in Hbody.
  change (bufs (set_oldest_buffer_being_written (Some ob) s))
    with (bufs s) in Hbody.
  destruct (write_record (bufs s) c0 true (Written n)) as [out0 res] eqn:Hwr.
  destruct res as [c'| | | |]; try discriminate Hbody.
  simpl in Hbody. injection Hbody as <- <-.
  pose proof (content_length_sending _ _ _ _ Hsend) as Hlen.
  change (pos (write_begin c0)) with (pos (current_record_begin s)) in Hlen.
  change (pos (write_end c0)) with (pos (current_record_end s)) in Hlen.
  destruct (write_record_header _ _ _ _ _ _ Hlen Hwr) as (evs0 & Hwr0 & Hrec).
  destruct (write_record_step _ _ _ _ _ _ _ Hsend Hwr0)
    as (Hn & Hev & Hfd & Hcases).
  change (pos (write_begin c0)) with (pos (current_record_begin s))
    in Hn, Hev, Hcases.
  change (pos (write_end c0)) with (pos (current_record_end s))
    in Hn, Hev, Hcases.
  change (fd c0) with (fd c) in Hrec, Hev, Hfd.
  set (R := span_bytes (bufs s) lr (pos (current_record_begin s))
              (pos (current_record_end s))) in *.
  pose proof (length_format_010u (to_uint (Z.of_nat (length R)))) as Hhdr.
  unfold CONTENT_LENGTH_DIGITS in *.
  split; [reflexivity|]. split; [lia|].
  split.
  { rewrite Hrec, Hev. cbn [received]. rewrite Z.eqb_refl, app_nil_r.
    replace (Z.to_nat n) with (10 + Z.to_nat (n - 10))%nat by lia.
    rewrite (take_app_add' _ _ 10 (Z.to_nat (n - 10)))
      by (symmetry; exact Hhdr).
    reflexivity. }
  split; [reflexivity|]. split; [reflexivity|]. split; [reflexivity|].
  exists ob, c'. split; [reflexivity|].
  split.
  { intros o w' Ho Hf. destruct (F1 o Ho) as (ob' & E & Hfo).
    injection E as <-. exact (follows_trans _ _ _ _ Hnd Hfo Hf). }
  split; [reflexivity|]. split; [exact Hfd|].
  destruct Hcases as [(Hs & lr'' & Hsend' & Hspan')|(Hs & Hall)].
  - left. split; [exact Hs|]. split; [exists lr''; split; assumption|].
    intros w' Hw'.
    destruct (write_record_begin (bufs s) c0 true (Written n) out0 c' x)
      as [E|E]; [simpl; rewrite Hw; simpl; rewrite Hx; reflexivity|exact Hwr| |].
    + rewrite E in Hw'. simpl in Hw'. rewrite Hw in Hw'.
      injection Hw' as <-. exact Hfw.
    + rewrite E in Hw'.
      pose proof (Hbl w Hw) as Hwl.
      apply list_elem_of_split in Hwl as (q1 & q2 & El).
      pose proof (queue_links _ _ Hq) as Hd. rewrite El in Hd.
      rewrite (dchain_next _ _ _ _ _ _ _ Hd Hx) in Hw'.
      apply (follows_trans _ _ w _ Hnd Hfw).
      exists q1, q2. split; [exact El|].
      apply elem_of_cons. right. exact (list_elem_of_lookup_2 _ _ _ Hw').
  - right. split; [exact Hs|]. lia.
Qed.

(** ** Concrete stores *)

Definition nl : ascii := "010"%char.

(* The default options: newline-terminated records, the last record. *)
Definition by_separator : options :=
  {| rs := nl; rl := 0; time_window := false;
     record_rbegin := 0; record_rend := 1 |}.

(* -l 4: records of four bytes. *)
Definition by_length : options :=
  {| rs := nl; rl := 4; time_window := false;
     record_rbegin := 0; record_rend := 1 |}.

(* Memory from malloc in which the place of byte_count holds [k]. *)
Definition leftover (k : Z) : buffer :=
  {| next := None; prev := None; size := 0; timestamp := 0;
     record_count := 0; byte_count := k; data := [] |}.

Definition nowhere : dpointer := {| b := None; pos := 0 |}.

Definition connected (st : client_state) : client :=
  {| fd := 5; write_begin := nowhere; write_end := nowhere; state := st |}.

(* The store at start, with one client in state [st]. *)
Definition fresh_store (st : client_state) : store :=
  {| bufs := ∅; head := None; tail := None;
     oldest_buffer_being_written := None;
     current_record_begin := nowhere; current_record_end := nowhere;
     reached_eof := false; have_record := false;
     clients := [connected st] |}.


(* C9 in fixed-length mode: a buffer of 3 bytes after one whose counters
   are 4 bytes and 1 record. *)
Definition four_bytes_read : gmap nat buffer :=
  {[ 1%nat := set_record_count 1 (leftover 4) ]}.

Lemma set_buffer_counters_monotone_witness :
  exists x',
    set_buffer_counters by_length 0 four_bytes_read
      (set_size 3 (set_prev (Some 1%nat) (leftover 0))) = Done x'
    /\ 4 <= byte_count x'
    /\ 1 <= record_count x'
    /\ record_count x' = Z.quot (byte_count x') 4.
Proof.
  destruct (set_buffer_counters_monotone by_length 0 four_bytes_read
              (set_size 3 (set_prev (Some 1%nat) (leftover 0)))
              (set_record_count 1 (leftover 4)) 1%nat
              eq_refl ltac:(vm_compute; reflexivity) ltac:(discriminate))
    as (x' & Hrun & _ & Hrl).
  exists x'. split; [exact Hrun|].
  exact (Hrl eq_refl eq_refl).
Defined.

Definition counts_of_first_two (s : store) : outcome (bptr * Z * Z * Z * Z) :=
  x1 ← deref (bufs s) (head s);
  x2 ← deref (bufs s) (next x1);
  Done (next x1, record_count x1, record_count x2,
        byte_count x1, byte_count x2).

(* C9 does not hold of byte_count in record-separator mode.  Two reads,
   "ab" and then "cd", into buffers whose memory held 7 and 0 at the place
   of byte_count: the queue is 1 -> 2, the record counts are 0 and 0, the
   byte counts are still 7 and 0. *)
Lemma byte_count_unset_counterexample :
  (s ← buffer_read by_separator 1 (leftover 7) 0
         (ReadData ["a"; "b"]%char) (fresh_store s_read_command);
   s ← buffer_read by_separator 2 (leftover 0) 0
         (ReadData ["c"; "d"]%char) s;
   counts_of_first_two s)
  = Done (Some 2%nat, 0, 0, 7, 0).
Proof. vm_compute. reflexivity. Qed.

(** *** Trimming a queue of three buffers *)

Definition filled (p n : bptr) (bytes : list ascii) (records : Z) : buffer :=
  {| next := n; prev := p; size := Z.of_nat (length bytes); timestamp := 0;
     record_count := records; byte_count := 0; data := bytes |}.

(* The queue 1 -> 2 -> 3 holds "a\n", "bb", "\ncc".  The current record is
   empty so far in buffer 3, and a client is still being sent "bb\n", which
   begins in buffer 2. *)
Definition three_buffers : store :=
  {| bufs := <[1%nat := filled None (Some 2%nat) ["a"; nl]%char 1]>
               (<[2%nat := filled (Some 1%nat) (Some 3%nat) ["b"; "b"]%char 1]>
                  {[ 3%nat := filled (Some 2%nat) None [nl; "c"; "c"]%char 2 ]});
     head := Some 1%nat; tail := Some 3%nat;
     oldest_buffer_being_written := Some 2%nat;
     current_record_begin := {| b := Some 3%nat; pos := 1 |};
     current_record_end := {| b := Some 3%nat; pos := 1 |};
     reached_eof := false; have_record := true;
     clients := [ {| fd := 5;
                     write_begin := {| b := Some 2%nat; pos := 1 |};
                     write_end := {| b := Some 3%nat; pos := 1 |};
                     state := s_sending_response |} ] |}.

Lemma three_buffers_chain :
  chain (bufs three_buffers) (head three_buffers) [1; 2; 3]%nat.
Proof.
  simpl. split; [reflexivity|]. eexists. split; [vm_compute; reflexivity|].
  simpl. split; [reflexivity|]. eexists. split; [vm_compute; reflexivity|].
  simpl. split; [reflexivity|]. eexists. split; [vm_compute; reflexivity|].
  reflexivity.
Qed.

Lemma three_buffers_live q :
  live three_buffers q -> q = 2%nat \/ q = 3%nat.
Proof.
  intros [H|[H|(c & Hc & _ & H)]].
  - right. simpl in H. congruence.
  - right. simpl in H. congruence.
  - simpl in Hc. apply list_elem_of_singleton in Hc. subst c. simpl in H.
    destruct H as [H|H]; [left|right]; congruence.
Qed.

(* C4 on this queue: buffer 1 is freed, buffer 2 becomes the head, and the
   buffers 2 and 3 that the cursors point to are kept. *)
Lemma free_unused_buffers_keeps_live_witness :
  exists s' freed a kept,
    free_unused_buffers three_buffers = Done s'
    /\ [1; 2; 3]%nat = freed ++ a :: kept
    /\ head s' = Some a
    /\ (forall f, f ∈ freed -> bufs s' !! f = None)
    /\ (2%nat ∈ a :: kept /\ is_Some (bufs s' !! 2%nat))
    /\ (3%nat ∈ a :: kept /\ is_Some (bufs s' !! 3%nat)).
Proof.
  destruct (free_unused_buffers_keeps_live three_buffers [1; 2; 3]%nat
              three_buffers_chain)
    as (s' & freed & a & kept & Hrun & El & _ & Hfr & Hhd & _ & _ & _ & Hlive).
  { exists 2%nat. split; [|right; reflexivity].
    apply elem_of_cons. right. apply elem_of_cons. left. reflexivity. }
  assert (Hinv : forall q', live three_buffers q' ->
            exists p, (b (current_record_begin three_buffers) = Some p
                       \/ oldest_buffer_being_written three_buffers = Some p)
                      /\ follows [1; 2; 3]%nat p q').
  { intros q' Hq'. exists 2%nat. split; [right; reflexivity|].
    exists [1%nat], [3%nat]. split; [reflexivity|].
    destruct (three_buffers_live q' Hq') as [-> | ->].
    - apply elem_of_cons. left. reflexivity.
    - apply elem_of_cons. right. apply elem_of_cons. left. reflexivity. }
  exists s', freed, a, kept.
  split; [exact Hrun|]. split; [exact El|]. split; [exact Hhd|].
  split; [intros f Hf; apply (Hfr f Hf)|].
  split.
  - apply (Hlive 2%nat); [|exact Hinv].
    right. right. eexists. split; [apply list_elem_of_singleton; reflexivity|].
    split; [reflexivity|]. left. reflexivity.
  - apply (Hlive 3%nat); [|exact Hinv]. left. reflexivity.
Defined.

(** *** A response *)

(* The store after the input "a\nb" and then "b\ncc" has been read, with a
   client that has asked for the current record, "bb\n". *)
Definition after_two_reads : outcome store :=
  s ← buffer_read by_separator 1 (leftover 0) 0
        (ReadData ["a"; nl; "b"]%char) (fresh_store s_send_current);
  buffer_read by_separator 2 (leftover 0) 0
    (ReadData ["b"; nl; "c"; "c"]%char) s.

(* The client's descriptor is reported writable in successive turns of the
   loop of main, and writev finds [ws] in turn. *)
Fixpoint serve_writes (ws : list writev_result) (s : store)
  : list event * outcome store :=
  match ws with
  | [] => ([], Done s)
  | w :: rest =>
      let '(out, r) :=
        serve_client "/tmp/store" 0 false true (CommandError EAGAIN) w s in
      match r with
      | Done s' => let '(out', r') := serve_writes rest s' in (out ++ out', r')
      | _ => (out, r)
      end
  end.

Definition response (ws : list writev_result)
  : outcome (string * option client_state) :=
  s ← after_two_reads;
  let '(out, r) := serve_writes ws s in
  s' ← r;
  Done (string_of_list_ascii (received 5 out),
        state <$> clients s' !! 0%nat).

(* The client of three_buffers, in the middle of its response: one "b" of
   buffer 2 and the separator of buffer 3 are still to be sent. *)
Definition reader : client :=
  {| fd := 5;
     write_begin := {| b := Some 2%nat; pos := 1 |};
     write_end := {| b := Some 3%nat; pos := 1 |};
     state := s_sending_response |}.

Lemma three_buffers_sending :
  sending (bufs three_buffers) reader [2; 3]%nat [].
Proof.
  assert (H2 : bufs three_buffers !! 2%nat
               = Some (filled (Some 1%nat) (Some 3%nat) ["b"; "b"]%char 1))
    by (vm_compute; reflexivity).
  assert (H3 : bufs three_buffers !! 3%nat
               = Some (filled (Some 2%nat) None [nl; "c"; "c"]%char 2))
    by (vm_compute; reflexivity).
  split.
  - simpl. split; [reflexivity|]. eexists. split; [exact H2|].
    simpl. split; [reflexivity|]. eexists. split; [exact H3|]. reflexivity.
  - reflexivity.
  - intros a x Ha Hx.
    apply elem_of_cons in Ha as [->|Ha];
      [|apply list_elem_of_singleton in Ha; subst a];
      rewrite ?H2, ?H3 in Hx; injection Hx as <-; simpl; lia.
  - intros a x Ha Hx. injection Ha as <-.
    rewrite H2 in Hx. injection Hx as <-. simpl. lia.
  - intros a x Ha Hx. injection Ha as <-.
    rewrite H3 in Hx. injection Hx as <-. simpl. lia.
  - intros a Ha. discriminate Ha.
  - discriminate.
Qed.

(* However writev splits these two bytes after a first call that takes the
   header, the client has received "0000000002b\n" when it is moved to
   s_wait_close. *)
Lemma three_buffers_round_trip n ws evs1 c1 evs c' :
  write_record (bufs three_buffers) reader true (Written n) = (evs1, Done c1) ->
  drain (bufs three_buffers) c1 ws = (evs, Done c') ->
  state c' = s_wait_close ->
  received 5 (evs1 ++ evs)
  = ["0"; "0"; "0"; "0"; "0"; "0"; "0"; "0"; "0"; "2"; "b"; nl]%char.
Proof.
  intros Hw Hd Hdone.
  exact (response_round_trip (bufs three_buffers) reader [2; 3]%nat [] n ws
           evs1 c1 evs c' eq_refl three_buffers_sending Hw Hd Hdone).
Qed.

(* X12 on the queue 1 -> 2 -> 3: of the buffers 3 and 2, in this order,
   the second comes first. *)
Lemma oldest_buffer_comes_first_witness :
  exists o,
    oldest_buffer three_buffers (Some 3%nat) (Some 2%nat) = Done (Some o)
    /\ (o = 3%nat \/ o = 2%nat)
    /\ follows [1; 2; 3]%nat o 3%nat
    /\ follows [1; 2; 3]%nat o 2%nat.
Proof.
  destruct (oldest_buffer_comes_first three_buffers [1; 2; 3]%nat 3%nat 2%nat
              three_buffers_chain) as (_ & Hfirst & _).
  assert (H3 : 3%nat ∈ [1; 2; 3]%nat) by (repeat constructor).
  assert (H2 : 2%nat ∈ [1; 2; 3]%nat) by (repeat constructor).
  destruct (Hfirst (or_introl H3)) as (o & Hrun & Ho & _ & F3 & F2).
  exists o. split; [exact Hrun|]. split; [exact Ho|].
  split; [exact (F3 H3)|exact (F2 H2)].
Defined.

(* X13 on the store whose only client writes from buffer 2. *)
Lemma update_oldest_buffer_covers_writers_witness :
  exists o o',
    update_oldest_buffer three_buffers
    = Done (set_oldest_buffer_being_written o three_buffers)
    /\ o = Some o'
    /\ follows [1; 2; 3]%nat o' 2%nat.
Proof.
  destruct (update_oldest_buffer_covers_writers three_buffers [1; 2; 3]%nat
              three_buffers_chain) as (o & Hrun & Hcover & _).
  { intros c w Hc _ Hw. simpl in Hc. apply list_elem_of_singleton in Hc.
    subst c. simpl in Hw. injection Hw as <-. repeat constructor. }
  destruct (Hcover reader 2%nat) as (o' & Ho & Hf).
  { apply list_elem_of_singleton. reflexivity. }
  { reflexivity. }
  { reflexivity. }
  exists o, o'. split; [exact Hrun|]. split; assumption.
Defined.

(* X14 for the client of three_buffers: two bytes are left to send. *)
Lemma content_length_counts_response_witness :
  content_length (bufs three_buffers) reader = Done 2.
Proof.
  exact (content_length_counts_response (bufs three_buffers) reader
           [2; 3]%nat [] three_buffers_sending).
Defined.

(* X15 for the same client: EAGAIN, then one byte, then one byte. *)
Lemma partial_writes_keep_order_witness :
  exists evs c',
    drain (bufs three_buffers) reader
      [WriteError EAGAIN; Written 1; Written 1] = (evs, Done c')
    /\ state c' = s_wait_close
    /\ received 5 evs = ["b"; nl]%char.
Proof.
  pose (c' := {| fd := 5;
                 write_begin := {| b := Some 3%nat; pos := 1 |};
                 write_end := {| b := Some 3%nat; pos := 1 |};
                 state := s_wait_close |}).
  assert (Hrun : drain (bufs three_buffers) reader
                   [WriteError EAGAIN; Written 1; Written 1]
                 = ([Sent 5 ["b"%char]; Sent 5 [nl]], Done c'))
    by (vm_compute; reflexivity).
  exists [Sent 5 ["b"%char]; Sent 5 [nl]], c'.
  split; [exact Hrun|]. split; [reflexivity|].
  destruct (partial_writes_keep_order (bufs three_buffers) _ reader
              [2; 3]%nat [] _ c' eq_refl three_buffers_sending Hrun)
    as (_ & _ & Hfull).
  exact (Hfull eq_refl).
Defined.

(* X16 for the same client: the first writev takes the header and one
   byte, the second the separator. *)
Lemma response_is_length_then_record_witness :
  exists evs1 c1 evs c',
    write_record (bufs three_buffers) reader true (Written 11)
    = (evs1, Done c1)
    /\ drain (bufs three_buffers) c1 [Written 1] = (evs, Done c')
    /\ state c' = s_wait_close
    /\ received 5 (evs1 ++ evs)
       = ["0"; "0"; "0"; "0"; "0"; "0"; "0"; "0"; "0"; "2"; "b"; nl]%char.
Proof.
  pose (c1 := set_write_begin {| b := Some 3%nat; pos := 0 |} reader).
  pose (c' := {| fd := 5;
                 write_begin := {| b := Some 3%nat; pos := 1 |};
                 write_end := {| b := Some 3%nat; pos := 1 |};
                 state := s_wait_close |}).
  pose (evs1 := [Sent 5 ["0"; "0"; "0"; "0"; "0"; "0"; "0"; "0"; "0"; "2";
                         "b"]%char]).
  assert (H1 : write_record (bufs three_buffers) reader true (Written 11)
               = (evs1, Done c1)) by (vm_compute; reflexivity).
  assert (H2 : drain (bufs three_buffers) c1 [Written 1]
               = ([Sent 5 [nl]], Done c')) by (vm_compute; reflexivity).
  exists evs1, c1, [Sent 5 [nl]], c'.
  split; [exact H1|]. split; [exact H2|]. split; [reflexivity|].
  exact (response_is_length_then_record (bufs three_buffers) reader
           [2; 3]%nat [] 11 [Written 1] evs1 c1 [Sent 5 [nl]] c' eq_refl
           three_buffers_sending H1 H2 eq_refl).
Defined.

(** *** The queue of three buffers, its cursors and its records *)

Lemma three_buffers_lookups :
  bufs three_buffers !! 1%nat
  = Some (filled None (Some 2%nat) ["a"; nl]%char 1)
  /\ bufs three_buffers !! 2%nat
     = Some (filled (Some 1%nat) (Some 3%nat) ["b"; "b"]%char 1)
  /\ bufs three_buffers !! 3%nat
     = Some (filled (Some 2%nat) None [nl; "c"; "c"]%char 2).
Proof. repeat split; vm_compute; reflexivity. Qed.

Lemma three_buffers_queue : queue three_buffers [1; 2; 3]%nat.
Proof.
  destruct three_buffers_lookups as (H1 & H2 & H3).
  split; [|reflexivity]. simpl.
  split; [reflexivity|]. eexists. split; [exact H1|]. split; [reflexivity|].
  split; [reflexivity|]. eexists. split; [exact H2|]. split; [reflexivity|].
  split; [reflexivity|]. eexists. split; [exact H3|]. split; reflexivity.
Qed.

Lemma three_buffers_hold : holds_data (bufs three_buffers) [1; 2; 3]%nat.
Proof.
  destruct three_buffers_lookups as (H1 & H2 & H3).
  intros a x Ha Hx.
  apply elem_of_cons in Ha as [->|Ha];
    [|apply elem_of_cons in Ha as [->|Ha];
      [|apply list_elem_of_singleton in Ha; subst a]];
    rewrite ?H1, ?H2, ?H3 in Hx; injection Hx as <-; simpl; lia.
Qed.

(* The seven bytes held are "a\nbb\ncc"; the cursor (3, 3) is behind the
   last of them, and (2, 1) is at byte 3. *)
Lemma three_buffers_end :
  at_offset (bufs three_buffers) [1; 2; 3]%nat
    {| b := Some 3%nat; pos := 3 |} (Z.of_nat 7).
Proof.
  destruct three_buffers_lookups as (_ & _ & H3).
  exists [1; 2]%nat, 3%nat, [], (filled (Some 2%nat) None [nl; "c"; "c"]%char 2).
  split; [reflexivity|]. split; [reflexivity|]. split; [exact H3|].
  split; [vm_compute; reflexivity|]. split; [simpl; lia|].
  right. split; reflexivity.
Qed.

Lemma three_buffers_middle :
  at_offset (bufs three_buffers) [1; 2; 3]%nat
    {| b := Some 2%nat; pos := 1 |} 3.
Proof.
  destruct three_buffers_lookups as (_ & H2 & _).
  exists [1%nat], 2%nat, [3%nat],
    (filled (Some 1%nat) (Some 3%nat) ["b"; "b"]%char 1).
  split; [reflexivity|]. split; [reflexivity|]. split; [exact H2|].
  split; [vm_compute; reflexivity|]. split; [simpl; lia|].
  left. simpl. lia.
Qed.

Lemma fresh_store_queue st : queue (fresh_store st) [].
Proof. split; reflexivity. Qed.

Lemma holds_data_nil h : holds_data h [].
Proof. intros a x Ha. inversion Ha. Qed.

(* The first read of a run, "a\nb" into a buffer at address 1. *)
Lemma buffer_read_keeps_queue_witness :
  exists s' freed l',
    buffer_read by_separator 1 (leftover 0) 0 (ReadData ["a"; nl; "b"]%char)
      (fresh_store s_read_command) = Done s'
    /\ [] ++ [1%nat] = freed ++ l'
    /\ queue s' l'
    /\ holds_data (bufs s') l'
    /\ tail s' = Some 1%nat
    /\ contents (bufs s') 1%nat = ["a"; nl; "b"]%char.
Proof.
  destruct (buffer_read by_separator 1 (leftover 0) 0
              (ReadData ["a"; nl; "b"]%char) (fresh_store s_read_command))
    as [s'| | | |] eqn:E; try (vm_compute in E; discriminate E).
  destruct (buffer_read_keeps_queue by_separator 1 (leftover 0) 0
              ["a"; nl; "b"]%char (fresh_store s_read_command) s' []
              (fresh_store_queue _) (holds_data_nil _) eq_refl
              ltac:(discriminate) E)
    as (freed & l' & El & Hq & Hd & Ht & Hc & _).
  exists s', freed, l'. split; [reflexivity|]. split; [exact El|].
  split; [exact Hq|]. split; [exact Hd|]. split; [exact Ht|exact Hc].
Defined.

Lemma buffer_read_counts_records_witness :
  exists s',
    buffer_read by_separator 1 (leftover 0) 0 (ReadData ["a"; nl; "b"]%char)
      (fresh_store s_read_command) = Done s'
    /\ records_read s' = 0 + 1.
Proof.
  destruct (buffer_read by_separator 1 (leftover 0) 0
              (ReadData ["a"; nl; "b"]%char) (fresh_store s_read_command))
    as [s'| | | |] eqn:E; try (vm_compute in E; discriminate E).
  destruct (buffer_read_counts_records by_separator 1 (leftover 0) 0
              ["a"; nl; "b"]%char (fresh_store s_read_command) s' []
              (fresh_store_queue _) eq_refl E) as [Hrs _].
  exists s'. split; [reflexivity|]. exact (Hrs eq_refl).
Defined.

(* End of input on the queue of three buffers when no record has been
   found, and on no input at all. *)
Lemma buffer_read_at_eof_witness :
  (exists s',
     buffer_read by_separator 4 (leftover 0) 0 ReadEof
       (set_have_record false three_buffers) = Done s'
     /\ reached_eof s' = true /\ have_record s' = true)
  /\ (exists s',
        buffer_read by_separator 4 (leftover 0) 0 ReadEof
          (fresh_store s_send_last) = Done s'
        /\ reached_eof s' = true /\ have_record s' = true).
Proof.
  split.
  - destruct (buffer_read_at_eof by_separator 4 (leftover 0) 0
                (set_have_record false three_buffers) [1; 2; 3]%nat)
      as (s' & Hrun & He & _ & _ & Hrec).
    + destruct three_buffers_queue as [Hd Ht]. split; assumption.
    + exact three_buffers_hold.
    + vm_compute. reflexivity.
    + exists s'. split; [exact Hrun|]. split; [exact He|].
      exact (proj1 (Hrec eq_refl)).
  - destruct (buffer_read_at_eof by_separator 4 (leftover 0) 0
                (fresh_store s_send_last) [])
      as (s' & Hrun & He & _ & _ & Hrec).
    + apply fresh_store_queue.
    + apply holds_data_nil.
    + reflexivity.
    + exists s'. split; [exact Hrun|]. split; [exact He|].
      exact (proj1 (Hrec eq_refl)).
Defined.

Lemma dpointer_increment_decrement_witness :
  (exists more dp',
     dpointer_increment (bufs three_buffers) {| b := Some 2%nat; pos := 1 |}
     = Done (more, dp')
     /\ at_offset (bufs three_buffers) [1; 2; 3]%nat dp' (3 + 1)
     /\ dpointer_decrement (bufs three_buffers) dp'
        = Done (true, {| b := Some 2%nat; pos := 1 |}))
  /\ (exists dp',
        dpointer_decrement (bufs three_buffers)
          {| b := Some 2%nat; pos := 1 |} = Done (true, dp')
        /\ at_offset (bufs three_buffers) [1; 2; 3]%nat dp' (3 - 1)).
Proof.
  destruct three_buffers_queue as [Hd _].
  destruct (dpointer_increment_decrement (bufs three_buffers) [1; 2; 3]%nat
              (head three_buffers) {| b := Some 2%nat; pos := 1 |} 3
              Hd three_buffers_hold three_buffers_middle)
    as (Hinc & Hdec & _).
  split.
  - destruct (Hinc ltac:(vm_compute; reflexivity))
      as (more & dp' & Hrun & Hat & _ & Hback).
    exists more, dp'. split; [exact Hrun|]. split; [exact Hat|exact Hback].
  - destruct (Hdec ltac:(lia)) as (dp' & Hrun & Hat & _).
    exists dp'. split; [exact Hrun|exact Hat].
Defined.

(* Back from the end of "a\nbb\ncc" over one separator. *)
Lemma dpointer_move_back_stops_at_boundary_witness :
  exists dp' j',
    dpointer_move_back (byte_fuel (bufs three_buffers)) (bufs three_buffers)
      nl {| b := Some 3%nat; pos := 3 |} 1 = Done dp'
    /\ at_offset (bufs three_buffers) [1; 2; 3]%nat dp' (Z.of_nat j')
    /\ boundary nl (held (bufs three_buffers) [1; 2; 3]%nat) j'
    /\ count_separators nl
         (take (7 - j') (drop j' (held (bufs three_buffers) [1; 2; 3]%nat)))
       = 1.
Proof.
  destruct three_buffers_queue as [Hd _].
  destruct (dpointer_move_back_stops_at_boundary (bufs three_buffers)
              [1; 2; 3]%nat (head three_buffers) nl
              {| b := Some 3%nat; pos := 3 |} 7 1
              Hd three_buffers_hold three_buffers_end ltac:(lia))
    as [_ Hback].
  destruct (Hback ltac:(vm_compute; discriminate))
    as (dp' & j' & Hrun & Hat & _ & Hb & Hc).
  exists dp', j'. split; [exact Hrun|]. split; [exact Hat|].
  split; [exact Hb|exact Hc].
Defined.

Lemma dpointer_subtract_moves_back_witness :
  exists dp',
    dpointer_subtract (byte_fuel (bufs three_buffers)) (bufs three_buffers)
      {| b := Some 3%nat; pos := 3 |} 4 = Done dp'
    /\ at_offset (bufs three_buffers) [1; 2; 3]%nat dp' (Z.of_nat 7 - 4).
Proof.
  destruct three_buffers_queue as [Hd _].
  destruct (dpointer_subtract_moves_back (bufs three_buffers)
              [1; 2; 3]%nat (head three_buffers)
              {| b := Some 3%nat; pos := 3 |} (Z.of_nat 7) 4
              Hd three_buffers_hold three_buffers_end ltac:(lia))
    as [Hback _].
  exact (Hback ltac:(simpl; lia)).
Defined.

(* The last complete record of "a\nbb\ncc". *)
Lemma update_current_record_by_rs_selects_witness :
  exists s' jb je,
    update_current_record_by_rs by_separator three_buffers = Done s'
    /\ have_record s' = true
    /\ boundary nl (held (bufs three_buffers) [1; 2; 3]%nat) jb
    /\ boundary nl (held (bufs three_buffers) [1; 2; 3]%nat) je
    /\ count_separators nl
         (take (je - jb) (drop jb (held (bufs three_buffers) [1; 2; 3]%nat)))
       = 1 - 0
    /\ count_separators nl
         (drop je (held (bufs three_buffers) [1; 2; 3]%nat)) = 0.
Proof.
  destruct (update_current_record_by_rs_selects by_separator three_buffers
              [1; 2; 3]%nat three_buffers_queue three_buffers_hold
              ltac:(discriminate) ltac:(simpl; lia))
    as [_ Hsel].
  destruct (Hsel ltac:(vm_compute; discriminate))
    as (s' & jb & je & Hrun & Hhave & _ & Hb & He & Hc & Ha & _).
  exists s', jb, je. split; [exact Hrun|]. split; [exact Hhave|].
  split; [exact Hb|]. split; [exact He|]. split; [exact Hc|exact Ha].
Defined.

(* Records of four bytes: the last four of the seven bytes held, when the
   counters of the tail say that no byte of an incomplete record has been
   read. *)
Lemma update_current_record_by_rl_selects_witness :
  exists s',
    update_current_record_by_rl by_length three_buffers = Done s'
    /\ have_record s' = true.
Proof.
  destruct three_buffers_lookups as (_ & _ & H3).
  destruct (update_current_record_by_rl_selects by_length three_buffers
              [1; 2; 3]%nat 3%nat _ three_buffers_queue three_buffers_hold
              eq_refl H3 ltac:(simpl; lia) ltac:(simpl; lia)
              ltac:(simpl; lia))
    as [_ Hsel].
  destruct (Hsel ltac:(vm_compute; discriminate))
    as (s' & Hrun & Hhave & _).
  exists s'. split; [exact Hrun|exact Hhave].
Defined.

(* A server with 64 free entries, and one with none. *)
Definition idle_server (st : client_state) : store :=
  set_clients (replicate MAX_CLIENTS (connected st))
    (fresh_store s_inactive).

Lemma accept_connection_takes_first_free_witness :
  accept_connection 7 0 0 0 (idle_server s_inactive)
  = ([], Done (put_client 0 {| fd := 7; write_begin := nowhere;
                               write_end := nowhere;
                               state := s_read_command |}
                 (idle_server s_inactive)))
  /\ accept_connection 7 0 0 0 (idle_server s_read_command)
     = ([Complaint], Exited 1).
Proof.
  split.
  - destruct (accept_connection_takes_first_free 7 0 0 0
                (idle_server s_inactive) eq_refl) as [_ Hok].
    destruct (Hok ltac:(left; discriminate)) as [_ Hfirst].
    apply (Hfirst 0%nat (connected s_inactive)); [reflexivity|reflexivity|].
    intros j cj Hj. lia.
  - destruct (accept_connection_takes_first_free 7 0 0 0
                (idle_server s_read_command) eq_refl) as [_ Hok].
    destruct (Hok ltac:(left; discriminate)) as [Hbusy _].
    apply Hbusy. intros c Hc.
    change (clients (idle_server s_read_command))
      with (replicate MAX_CLIENTS (connected s_read_command)) in Hc.
    apply elem_of_replicate in Hc as [-> _]. discriminate.
Defined.

Lemma dpointer_add_moves_forward_witness :
  exists dp',
    dpointer_add (byte_fuel (bufs three_buffers)) (bufs three_buffers)
      {| b := Some 2%nat; pos := 1 |} 2 = Done dp'
    /\ at_offset (bufs three_buffers) [1; 2; 3]%nat dp' (3 + 2).
Proof.
  destruct three_buffers_queue as [Hd _].
  destruct (dpointer_add_moves_forward (bufs three_buffers) [1; 2; 3]%nat
              (head three_buffers) {| b := Some 2%nat; pos := 1 |} 3 2
              Hd three_buffers_hold three_buffers_middle)
    as (_ & Hfwd & _).
  exact (Hfwd ltac:(lia) ltac:(vm_compute; reflexivity)).
Defined.

(** *** A run of two reads *)

(* malloc as an allocator that returns the first address not in use. *)
Definition next_unused (h : gmap nat buffer) : nat := fresh (dom h).

Lemma next_unused_fresh h : h !! next_unused h = None.
Proof. unfold next_unused. apply not_elem_of_dom. exact (is_fresh (dom h)). Qed.

(* The input "a\nb" and then "b\ncc". *)
Definition two_reads : list stdin_read :=
  [ {| r_raw := leftover 0; r_now := 0; r_bytes := ["a"; nl; "b"]%char |};
    {| r_raw := leftover 0; r_now := 0;
       r_bytes := ["b"; nl; "c"; "c"]%char |} ].

Lemma two_reads_data : Forall (fun r => r_bytes r ≠ []) two_reads.
Proof. repeat constructor; discriminate. Qed.

Lemma reads_select_records_witness :
  exists s' jb je,
    read_all by_separator next_unused two_reads (fresh_store s_send_current)
    = Done s'
    /\ have_record s' = true
    /\ selected by_separator (input_of two_reads) jb je.
Proof.
  destruct (reads_select_records by_separator next_unused two_reads
              (fresh_store s_send_current) eq_refl ltac:(simpl; lia)
              next_unused_fresh eq_refl eq_refl eq_refl two_reads_data)
    as (s' & Hrun & Hiff & Hsel).
  assert (Hhave : have_record s' = true).
  { apply Hiff. split; [discriminate|]. vm_compute. discriminate. }
  destruct (Hsel Hhave) as (jb & je & Hs & _).
  exists s', jb, je. split; [exact Hrun|]. split; [exact Hhave|exact Hs].
Defined.

Lemma reads_select_fixed_records_witness :
  exists s',
    read_all by_length next_unused two_reads (fresh_store s_send_current)
    = Done s'
    /\ have_record s' = true.
Proof.
  destruct (reads_select_fixed_records by_length next_unused two_reads
              (fresh_store s_send_current) ltac:(simpl; lia)
              ltac:(simpl; lia) next_unused_fresh eq_refl eq_refl eq_refl
              two_reads_data)
    as (s' & Hrun & Hiff & _).
  exists s'. split; [exact Hrun|].
  apply Hiff. split; [discriminate|]. vm_compute. discriminate.
Defined.

(** *** A response and new input *)

(* While the client of three_buffers is being sent "b\n", the input goes
   on with "d\n": buffer 1 is freed, the record moves on, and the client's
   response stays. *)
Lemma buffer_read_keeps_response_witness :
  exists s',
    buffer_read by_separator 4 (leftover 0) 0 (ReadData ["d"; nl]%char)
      three_buffers = Done s'
    /\ sending (bufs s') reader [2; 3]%nat ([] ++ [4%nat])
    /\ span_bytes (bufs s') [2; 3]%nat 1 1
       = span_bytes (bufs three_buffers) [2; 3]%nat 1 1
    /\ oldest_buffer_being_written s' = Some 2%nat.
Proof.
  destruct (buffer_read by_separator 4 (leftover 0) 0
              (ReadData ["d"; nl]%char) three_buffers)
    as [s'| | | |] eqn:E; try (vm_compute in E; discriminate E).
  destruct (buffer_read_keeps_response by_separator 4 (leftover 0) 0
              ["d"; nl]%char three_buffers s' [1; 2; 3]%nat reader
              [2; 3]%nat [] 2%nat three_buffers_queue
              ltac:(vm_compute; reflexivity) three_buffers_sending eq_refl)
    as (Hsend & Hspan & Hold & _).
  - intros w Hw. injection Hw as <-. apply follows_refl.
    apply elem_of_cons. right. apply elem_of_cons. left. reflexivity.
  - exact E.
  - exists s'. split; [reflexivity|]. split; [exact Hsend|].
    split; [exact Hspan|exact Hold].
Defined.

(* A client that has asked for the current record, "b\n" from position 1
   of buffer 2, when its descriptor becomes writable. *)
Definition waiting : store :=
  set_clients [connected s_send_current]
    (set_current_record (write_begin reader) (write_end reader)
       three_buffers).

Lemma waiting_queue : queue waiting [1; 2; 3]%nat.
Proof. destruct three_buffers_queue as [Hd Ht]. split; assumption. Qed.

Lemma serve_client_starts_response_witness :
  exists out s',
    serve_client "/tmp/store" 0 false true (CommandError EAGAIN)
      (Written 11) waiting = (out, Done s')
    /\ have_record waiting = true
    /\ received 5 out
       = take (Z.to_nat 11)
           (format_010u
              (to_uint (Z.of_nat (length (span_bytes (bufs waiting)
                                            [2; 3]%nat 1 1))))
            ++ span_bytes (bufs waiting) [2; 3]%nat 1 1)
    /\ bufs s' = bufs waiting.
Proof.
  destruct (serve_client "/tmp/store" 0 false true (CommandError EAGAIN)
              (Written 11) waiting) as [out res] eqn:E.
  destruct res as [s'| | | |]; try (vm_compute in E; discriminate E).
  destruct (serve_client_starts_response "/tmp/store" 0 false
              (CommandError EAGAIN) 11 waiting [1; 2; 3]%nat
              (connected s_send_current) [2; 3]%nat [] out s'
              eq_refl ltac:(left; reflexivity) waiting_queue
              three_buffers_sending)
    as (Hhave & _ & Hrec & Hbufs & _).
  - intros w Hw. injection Hw as <-.
    apply elem_of_cons. right. apply elem_of_cons. left. reflexivity.
  - intros o Ho. injection Ho as <-.
    apply elem_of_cons. right. apply elem_of_cons. left. reflexivity.
  - exact E.
  - exists out, s'. split; [reflexivity|]. split; [exact Hhave|].
    split; [exact Hrec|exact Hbufs].
Defined.

(** C3.  The current record is "bb\n", of which "b" is in the first buffer.
    When the first writev takes the header and that byte and the second the
    rest, the client receives "0000000003bb\n".  When the first writev
    fails with EAGAIN, the client is already in s_sending_response: the
    later calls are made without the header and the client receives
    "bb\n" only, and is then moved to s_wait_close as after a complete
    response. *)
Theorem write_record_loses_header :
  response [Written 11; Written 2]
    = Done (String "0" (String "0" (String "0" (String "0" (String "0"
             (String "0" (String "0" (String "0" (String "0" (String "3"
             (String "b" (String "b" (String nl EmptyString)))))))))))),
            Some s_wait_close)
  /\ response [WriteError EAGAIN; Written 1; Written 2]
     = Done (String "b" (String "b" (String nl EmptyString)),
             Some s_wait_close).
Proof. vm_compute. split; reflexivity. Qed.

End Writeval.
